(** * ARCADE vector / hybrid k-NN search core: a shallow embedding

    The definitions below follow [storage/rocksdb/rdb_vector_db.cc] and
    [storage/rocksdb/rdb_vector_db.h] function by function.  Byte buffers
    are lists of bytes, C return codes are an inductive type, and a read
    outside a buffer (or any other undefined behaviour) is an explicit
    [Fault] outcome, so that the absence of such reads can be stated. *)

From Stdlib Require Import ZArith QArith Lia Bool.
From Stdlib Require Import Strings.Byte.
From stdpp Require Import base option list gmap sorting.

#[local] Open Scope Z_scope.

(** ** Return codes and outcomes *)

(** The non-zero handler codes this file returns.  [HA_EXIT_SUCCESS] is
    the [Ok] outcome. *)
Inductive ha_error : Type :=
| HA_EXIT_FAILURE
| HA_ERR_END_OF_FILE
| HA_ERR_UNSUPPORTED
| HA_ERR_ROCKSDB_CORRUPT_DATA
| HA_ERR_QUERY_INTERRUPTED
| HA_ERR_OTHER (code : Z).

(** What the C++ leaves undefined or answers with an exception. *)
Inductive fault : Type :=
| OutOfBoundsRead (pos : nat)   (* a byte read at [pos], at or past the end of the buffer *)
| OutOfBoundsIndex              (* [operator[]] past the end of a vector *)
| UninitializedRead             (* use of a local that was never assigned *)
| EmptyHeapTop                  (* [top()] / [pop()] on an empty priority queue *)
| StackOverflowWrite            (* [memcpy] of more than 8 bytes into a [size_t] *)
| LengthError                   (* [std::length_error] thrown by [reserve] *)
| BadAlloc                      (* [std::bad_alloc] thrown by [reserve]: the memory is not to be had *)
| InvalidCast                   (* a floating value cast to an integer type that cannot hold it *)
| Diverges                      (* a loop whose 32-bit counter can never reach its bound *)
| OutOfFuel.                    (* never produced: see [ExtractVectorFromJson_total],
                                   [ivf_knn_search_fuel] *)

Inductive outcome (A : Type) : Type :=
| Ok (a : A)
| Err (e : ha_error)
| Fault (f : fault).
Arguments Ok {A} a.
Arguments Err {A} e.
Arguments Fault {A} f.

#[global] Instance outcome_ret : MRet outcome := fun A a => Ok a.
#[global] Instance outcome_bind : MBind outcome := fun A B f m =>
  match m with
  | Ok a => f a
  | Err e => Err e
  | Fault x => Fault x
  end.

#[global] Instance ha_error_eq_dec : EqDecision ha_error.
Proof. solve_decision. Defined.

(** ** Bytes and little-endian / big-endian integers *)

Definition byte_to_Z (b : byte) : Z := Z.of_N (Byte.to_N b).

Definition byte_of_Z (z : Z) : byte :=
  default x00 (Byte.of_N (Z.to_N (z mod 256))).

(** [data[i]]: a fault when [i] is not a position of [data]. *)
Definition read_byte (data : list byte) (i : nat) : outcome byte :=
  match data !! i with
  | Some b => Ok b
  | None => Fault (OutOfBoundsRead i)
  end.

Definition read_u8 (data : list byte) (i : nat) : outcome Z :=
  b ← read_byte data i; Ok (byte_to_Z b).

(** The bytes at the positions [idxs], in that order. *)
Fixpoint read_bytes (data : list byte) (idxs : list nat) : outcome (list byte) :=
  match idxs with
  | [] => Ok []
  | i :: idxs' =>
      b ← read_byte data i;
      bs ← read_bytes data idxs';
      Ok (b :: bs)
  end.

(** [n] bytes starting at [i], least significant first:
    [data[i] | data[i+1] << 8 | ...]. *)
Fixpoint read_le (data : list byte) (i : nat) (n : nat) : outcome Z :=
  match n with
  | O => Ok 0
  | S n' =>
      b ← read_u8 data i;
      rest ← read_le data (S i) n';
      Ok (Z.lor b (Z.shiftl rest 8))
  end.

(** Big-endian value of a byte string (most significant byte first). *)
Definition be_value (bs : list byte) : Z :=
  fold_left (fun acc b => acc * 256 + byte_to_Z b) bs 0.

(** [n] bytes of [z], most significant first. *)
Fixpoint be_bytes (n : nat) (z : Z) : list byte :=
  match n with
  | O => []
  | S n' => be_bytes n' (z / 256) ++ [byte_of_Z z]
  end.

(** Two's-complement reading of the low [w] bits of [z]. *)
Definition wrap_unsigned (w : Z) (z : Z) : Z := z mod 2 ^ w.
Definition wrap_signed (w : Z) (z : Z) : Z :=
  let u := z mod 2 ^ w in if u <? 2 ^ (w - 1) then u else u - 2 ^ w.

(** ** Floating point

    [float] and [double] arithmetic, the libm calls of
    [st_distance_simple] and the casts are an interface: every theorem
    holds for each interpretation of it. *)
Class FloatArith : Type := {
  f32 : Type;
  f64 : Type;
  f32_zero : f32;
  f32_add : f32 → f32 → f32;
  f32_sub : f32 → f32 → f32;
  f32_mul : f32 → f32 → f32;
  f32_ltb : f32 → f32 → bool;              (* operator< on float *)
  f32_of_Z : Z → f32;                      (* static_cast<float>(integer) *)
  f64_of_Z : Z → f64;                      (* static_cast<double>(integer) *)
  f64_of_Q : Q → f64;                      (* a decimal literal *)
  f64_of_bits : Z → f64;                   (* memcpy of 8 bytes into a double *)
  f64_to_f32 : f64 → f32;
  f32_to_f64 : f32 → f64;
  f64_trunc : f64 → option Z;              (* truncation toward zero; None for NaN, inf *)
  f64_is_zero : f64 → bool;                (* == 0.0 *)
  f64_add : f64 → f64 → f64;
  f64_sub : f64 → f64 → f64;
  f64_mul : f64 → f64 → f64;
  f64_div : f64 → f64 → f64;
  f64_pi : f64;                            (* M_PI *)
  f64_sin : f64 → f64;
  f64_cos : f64 → f64;
  f64_sqrt : f64 → f64;
  f64_atan2 : f64 → f64 → f64;
}.

(** ** Memory

    [std::vector<T>::reserve(n)] asks the allocator for [n * sizeof(T)]
    bytes and throws [std::bad_alloc] when it cannot have them.  How
    much one request can obtain depends on the machine the server runs
    on: [reserve_limit] is that number of bytes, and every theorem holds
    for each value of it.  A request of at most [SMALL_RESERVE] bytes,
    two mebibytes, is taken to be granted on every machine, as every
    other allocation of the code is taken to succeed; the vector of a
    small-format array, whose element count has 16 bits, never asks for
    more. *)
Class Memory : Type := {
  reserve_limit : Z;
}.

Definition SMALL_RESERVE : Z := 2 ^ 21.

Definition reserve_granted {MEM : Memory} (bytes : Z) : bool :=
  bool_decide (bytes ≤ SMALL_RESERVE ∨ bytes ≤ reserve_limit).

(** [operator<] on scores is a strict weak ordering, which is what
    [std::priority_queue] asks of its comparison (it holds for floats
    that are not NaN). *)
Record StrictWeakOrder {A : Type} (ltb : A → A → bool) : Prop := {
  swo_irrefl : ∀ x, ltb x x = false;
  swo_trans : ∀ x y z, ltb x y = true → ltb y z = true → ltb x z = true;
  swo_incomp : ∀ x y z, ltb x y = false → ltb y z = false → ltb x z = false;
}.

(** ** Row-value decoder: [DecodeFieldFromValue] *)

Definition MYSQL_TYPE_VARCHAR : Z := 15.
Definition MYSQL_TYPE_JSON : Z := 245.
Definition MYSQL_TYPE_BLOB : Z := 252.
Definition MYSQL_TYPE_GEOMETRY : Z := 255.

(** [rocksdb::BlockBasedTableOptions::FieldInfo] and [TableConfig]: the
    row-layout descriptor handed in by the catalog. *)
Record FieldInfo : Type := {
  type : Z;
  is_nullable : bool;
  length_bytes : nat;
  pack_length : nat;
}.

Record TableConfig : Type := {
  has_ttl : bool;
  null_bytes_length : nat;
  has_unpack_info : bool;
}.

(** A [rocksdb::Slice] borrowed from the row value: [Slice_at off len]
    is [Slice(value.data() + off, len)], [Slice_default] is [Slice()]. *)
Inductive Slice : Type :=
| Slice_default
| Slice_at (off len : nat).

Definition slice_size (s : Slice) : nat :=
  match s with Slice_default => 0%nat | Slice_at _ len => len end.

Definition slice_bytes (value : list byte) (s : Slice) : list byte :=
  match s with
  | Slice_default => []
  | Slice_at off len => take len (drop off value)
  end.

#[global] Instance Slice_eq_dec : EqDecision Slice.
Proof. solve_decision. Defined.

(** [index_to_result_pos[field_indexs[i]] = i] for [i] from [start]. *)
Fixpoint build_index_to_result_pos (field_indexs : list nat) (start : nat)
    (m : gmap nat nat) : gmap nat nat :=
  match field_indexs with
  | [] => m
  | idx :: rest => build_index_to_result_pos rest (S start) (<[idx := start]> m)
  end.

(** The first loop: every index must name a field; the maximum is kept. *)
Fixpoint max_field_index_of (nfields : nat) (field_indexs : list nat)
    (acc : nat) : outcome nat :=
  match field_indexs with
  | [] => Ok acc
  | idx :: rest =>
      if decide (nfields ≤ idx)%nat then Err HA_ERR_ROCKSDB_CORRUPT_DATA
      else max_field_index_of nfields rest (Nat.max acc idx)
  end.

(** The cursor of the field loop. *)
Record decode_state : Type := {
  ds_pos : nat;                 (* pos - value.data() *)
  ds_remaining : nat;
  ds_field_values : list Slice;
}.

(** [(null_bytes[i/8] & (1 << (i%8))) != 0]; [null_bytes] is the
    bitmap's offset in the value, or [None] for [nullptr]. *)
Definition field_is_null (value : list byte) (null_bytes : option nat)
    (field_info : FieldInfo) (i : nat) : outcome bool :=
  match null_bytes with
  | Some nb =>
      if is_nullable field_info then
        b ← read_u8 value (nb + i / 8)%nat;
        Ok (Z.testbit b (Z.of_nat (i mod 8)))
      else Ok false
  | None => Ok false
  end.

(** The length prefix of a variable-length field.  VARCHAR reads one
    byte when [length_bytes == 1] and a [uint16_t] otherwise; BLOB, JSON
    and GEOMETRY [memcpy] [length_bytes] bytes into a zeroed [size_t]. *)
Definition read_field_length (value : list byte) (pos : nat)
    (field_info : FieldInfo) : outcome Z :=
  if decide (type field_info = MYSQL_TYPE_VARCHAR) then
    if decide (length_bytes field_info = 1%nat) then read_le value pos 1
    else read_le value pos 2
  else
    if decide (8 < length_bytes field_info)%nat then Fault StackOverflowWrite
    else read_le value pos (length_bytes field_info).

Definition is_variable_length (field_info : FieldInfo) : bool :=
  bool_decide (type field_info = MYSQL_TYPE_VARCHAR
               ∨ type field_info = MYSQL_TYPE_BLOB
               ∨ type field_info = MYSQL_TYPE_JSON
               ∨ type field_info = MYSQL_TYPE_GEOMETRY).

(** [(∗field_values)[index_to_result_pos[i]] = s] when field [i] is a
    target field. *)
Definition store_target (index_to_result_pos : gmap nat nat) (i : nat)
    (s : Slice) (field_values : list Slice) : list Slice :=
  match index_to_result_pos !! i with
  | Some p => <[p := s]> field_values
  | None => field_values
  end.

(** One iteration of [for (size_t i = 0; i <= max_field_index; i++)]. *)
Definition decode_field_step (value : list byte) (null_bytes : option nat)
    (index_to_result_pos : gmap nat nat) (field_info : FieldInfo) (i : nat)
    (st : decode_state) : outcome decode_state :=
  is_null ← field_is_null value null_bytes field_info i;
  if (is_null : bool) then
    Ok {| ds_pos := ds_pos st; ds_remaining := ds_remaining st;
          ds_field_values :=
            store_target index_to_result_pos i Slice_default (ds_field_values st) |}
  else if is_variable_length field_info then
    if decide (ds_remaining st < length_bytes field_info)%nat
    then Err HA_ERR_ROCKSDB_CORRUPT_DATA
    else
      len ← read_field_length value (ds_pos st) field_info;
      let pos := (ds_pos st + length_bytes field_info)%nat in
      let remaining := (ds_remaining st - length_bytes field_info)%nat in
      if decide (Z.of_nat remaining < len) then Err HA_ERR_ROCKSDB_CORRUPT_DATA
      else
        let len := Z.to_nat len in
        Ok {| ds_pos := (pos + len)%nat; ds_remaining := (remaining - len)%nat;
              ds_field_values :=
                store_target index_to_result_pos i (Slice_at pos len)
                  (ds_field_values st) |}
  else
    if decide (ds_remaining st < pack_length field_info)%nat
    then Err HA_ERR_ROCKSDB_CORRUPT_DATA
    else
      Ok {| ds_pos := (ds_pos st + pack_length field_info)%nat;
            ds_remaining := (ds_remaining st - pack_length field_info)%nat;
            ds_field_values :=
              store_target index_to_result_pos i
                (Slice_at (ds_pos st) (pack_length field_info))
                (ds_field_values st) |}.

(** The field loop, for the [n] iterations from index [i] on. *)
Fixpoint decode_fields_loop (value : list byte) (null_bytes : option nat)
    (index_to_result_pos : gmap nat nat) (field_info_list : list FieldInfo)
    (n : nat) (i : nat) (st : decode_state) : outcome decode_state :=
  match n with
  | O => Ok st
  | S n' =>
      match field_info_list !! i with
      | None => Fault OutOfBoundsIndex
      | Some field_info =>
          st' ← decode_field_step value null_bytes index_to_result_pos field_info i st;
          decode_fields_loop value null_bytes index_to_result_pos field_info_list
            n' (S i) st'
      end
  end.

(** Steps 1 to 3: the TTL and the null bitmap.  Returns the cursor and
    the bitmap's offset. *)
Definition decode_prologue (table_config : TableConfig) (value : list byte)
    : outcome (nat * nat * option nat) :=
  '(pos, remaining) ←
    (if has_ttl table_config then
       if decide (length value < 8)%nat then Err HA_ERR_ROCKSDB_CORRUPT_DATA
       else Ok (8%nat, (length value - 8)%nat)
     else Ok (0%nat, length value));
  if decide (0 < null_bytes_length table_config)%nat then
    if decide (remaining < null_bytes_length table_config)%nat
    then Err HA_ERR_ROCKSDB_CORRUPT_DATA
    else Ok ((pos + null_bytes_length table_config)%nat,
             (remaining - null_bytes_length table_config)%nat, Some pos)
  else Ok (pos, remaining, None).

Definition DecodeFieldFromValue (table_config : TableConfig)
    (field_info_list : list FieldInfo) (field_indexs : list nat)
    (value : list byte) : outcome (list Slice) :=
  '(pos, remaining, null_bytes) ← decode_prologue table_config value;
  match field_indexs with
  | [] => Ok []
  | _ =>
      max_field_index ← max_field_index_of (length field_info_list) field_indexs 0;
      let field_values := replicate (length field_indexs) Slice_default in
      let index_to_result_pos := build_index_to_result_pos field_indexs 0 ∅ in
      st ← decode_fields_loop value null_bytes index_to_result_pos field_info_list
             (S max_field_index) 0
             {| ds_pos := pos; ds_remaining := remaining;
                ds_field_values := field_values |};
      Ok (ds_field_values st)
  end.

(** ** Great-circle distance: [st_distance_simple] *)

Section Haversine.
Context {FA : FloatArith} {MEM : Memory}.

(** [constexpr double R = 6'371'008.8] *)
Definition EARTH_RADIUS_M : f64 := f64_of_Q (63710088 # 10).

Definition deg2rad (d : f64) : f64 :=
  f64_div (f64_mul d f64_pi) (f64_of_Q 180).

Definition st_distance_simple (lon1_deg lat1_deg lon2_deg lat2_deg : f64) : f64 :=
  let lat1 := deg2rad lat1_deg in
  let lat2 := deg2rad lat2_deg in
  let dlat := deg2rad (f64_sub lat2_deg lat1_deg) in
  let dlon := deg2rad (f64_sub lon2_deg lon1_deg) in
  let sin_dlat := f64_sin (f64_mul dlat (f64_of_Q (1 # 2))) in
  let sin_dlon := f64_sin (f64_mul dlon (f64_of_Q (1 # 2))) in
  let a := f64_add (f64_mul sin_dlat sin_dlat)
             (f64_mul (f64_mul (f64_mul (f64_cos lat1) (f64_cos lat2)) sin_dlon)
                sin_dlon) in
  let c := f64_mul (f64_of_Q 2)
             (f64_atan2 (f64_sqrt a) (f64_sqrt (f64_sub (f64_of_Q 1) a))) in
  f64_mul EARTH_RADIUS_M c.

End Haversine.

(** ** JSON-binary typed array decoder: [ExtractVectorFromJson<T>] *)

(** The template parameter [T]. *)
Inductive elem_type : Type :=
| T_bool
| T_integral (signed : bool) (bits : Z)
| T_float
| T_double
| T_string.

Definition is_integral_v (T : elem_type) : bool :=
  match T with T_bool | T_integral _ _ => true | _ => false end.

Definition is_arithmetic_v (T : elem_type) : bool :=
  match T with T_string => false | _ => true end.

(** [sizeof(T)]: an integral type has between 1 and 8 bytes, a
    [std::string] of libstdc++ has 32. *)
Definition sizeof_elem (T : elem_type) : Z :=
  match T with
  | T_bool => 1
  | T_integral _ bits => Z.max 1 (Z.min 8 (bits / 8))
  | T_float => 4
  | T_double => 8
  | T_string => 32
  end.

Section JsonArray.
Context {FA : FloatArith} {MEM : Memory}.

(** An element of [std::vector<T>]. *)
Inductive json_elem : Type :=
| E_bool (b : bool)
| E_int (z : Z)
| E_float (x : f32)
| E_double (x : f64)
| E_string (s : list byte).

(** [static_cast<T>(val)] for an integer [val] and arithmetic [T]. *)
Definition cast_of_int (T : elem_type) (val : Z) : json_elem :=
  match T with
  | T_bool => E_bool (negb (val =? 0))
  | T_integral true bits => E_int (wrap_signed bits val)
  | T_integral false bits => E_int (wrap_unsigned bits val)
  | T_float => E_float (f32_of_Z val)
  | T_double => E_double (f64_of_Z val)
  | T_string => E_string []
  end.

(** [static_cast<T>(val)] for a double [val] and arithmetic [T]. *)
Definition cast_of_double (T : elem_type) (val : f64) : outcome json_elem :=
  match T with
  | T_bool => Ok (E_bool (negb (f64_is_zero val)))
  | T_integral signed bits =>
      match f64_trunc val with
      | Some z =>
          let lo := if signed then - 2 ^ (bits - 1) else 0 in
          let hi := if signed then 2 ^ (bits - 1) else 2 ^ bits in
          if decide (lo ≤ z < hi) then Ok (E_int z) else Fault InvalidCast
      | None => Fault InvalidCast
      end
  | T_float => Ok (E_float (f64_to_f32 val))
  | T_double => Ok (E_double val)
  | T_string => Ok (E_string [])
  end.

(** The variable-length string length at [pos]: at most five bytes of
    seven bits, into a [uint32_t].  Returns the length and the position
    after it. *)
Fixpoint read_varint (data : list byte) (length : nat) (pos : nat)
    (str_length : Z) (bytes_read : nat) (todo : nat) : outcome (Z * nat) :=
  match todo with
  | O => Ok (str_length, pos)
  | S todo' =>
      if decide (length ≤ pos)%nat then Err HA_ERR_ROCKSDB_CORRUPT_DATA
      else
        byte ← read_u8 data pos;
        let str_length :=
          wrap_unsigned 32
            (Z.lor str_length
               (Z.shiftl (Z.land byte 127) (7 * Z.of_nat bytes_read))) in
        if Z.land byte 128 =? 0 then Ok (str_length, S pos)
        else read_varint data length (S pos) str_length (S bytes_read) todo'
  end.

(** The [switch (value_type)] of one element. *)
Definition extract_element (T : elem_type) (data : list byte) (length : nat)
    (value_type : Z) (inlined : bool) (value_offset : Z) : outcome json_elem :=
  let corrupt := Err HA_ERR_ROCKSDB_CORRUPT_DATA in
  let at_offset := Z.to_nat value_offset in
  if value_type =? 4 then
    let lit_val := wrap_unsigned 8 value_offset in
    match T with
    | T_bool =>
        if lit_val =? 1 then Ok (E_bool true)
        else if lit_val =? 2 then Ok (E_bool false)
        else corrupt
    | T_integral _ _ =>
        if lit_val =? 1 then Ok (cast_of_int T 1)
        else if lit_val =? 2 then Ok (cast_of_int T 0)
        else Ok (cast_of_int T 0)
    | _ => corrupt
    end
  else if value_type =? 5 then
    if is_arithmetic_v T then Ok (cast_of_int T (wrap_signed 16 value_offset))
    else corrupt
  else if value_type =? 6 then
    if is_arithmetic_v T then Ok (cast_of_int T (wrap_unsigned 16 value_offset))
    else corrupt
  else if value_type =? 7 then
    if is_arithmetic_v T then
      if inlined then Ok (cast_of_int T (wrap_signed 32 value_offset))
      else
        val ← read_le data at_offset 4;
        Ok (cast_of_int T (wrap_signed 32 val))
    else corrupt
  else if value_type =? 8 then
    if is_arithmetic_v T then
      if inlined then Ok (cast_of_int T (wrap_unsigned 32 value_offset))
      else
        val ← read_le data at_offset 4;
        Ok (cast_of_int T (wrap_unsigned 32 val))
    else corrupt
  else if value_type =? 9 then
    if is_arithmetic_v T then
      if decide (Z.of_nat length < value_offset + 8) then corrupt
      else
        val ← read_le data at_offset 8;
        Ok (cast_of_int T (wrap_signed 64 val))
    else corrupt
  else if value_type =? 10 then
    if is_arithmetic_v T then
      if decide (Z.of_nat length < value_offset + 8) then corrupt
      else
        val ← read_le data at_offset 8;
        Ok (cast_of_int T (wrap_unsigned 64 val))
    else corrupt
  else if value_type =? 11 then
    if is_arithmetic_v T then
      if decide (Z.of_nat length < value_offset + 8) then corrupt
      else
        bits ← read_le data at_offset 8;
        cast_of_double T (f64_of_bits bits)
    else corrupt
  else if value_type =? 12 then
    match T with
    | T_string =>
        '(str_length, pos) ← read_varint data length at_offset 0 0 5;
        if decide (Z.of_nat length < Z.of_nat pos + str_length) then corrupt
        else Ok (E_string (take (Z.to_nat str_length) (drop pos data)))
    | _ => corrupt
    end
  else corrupt.

(** One iteration of [for (uint32_t i = 0; i < element_count; i++)]:
    the value entry at index [i]. *)
Definition extract_entry (T : elem_type) (data : list byte) (length : nat)
    (large_format : bool) (i : Z) : outcome json_elem :=
  let offset_size := if large_format then 4 else 2 in
  let header_size := 1 + 2 * offset_size in
  let value_entry_size := 1 + offset_size in
  let entry_pos := header_size + i * value_entry_size in
  if decide (Z.of_nat length < entry_pos + value_entry_size)
  then Err HA_ERR_ROCKSDB_CORRUPT_DATA
  else
    value_type ← read_u8 data (Z.to_nat entry_pos);
    let inlined :=
      (value_type =? 4) || (value_type =? 5) || (value_type =? 6)
      || ((value_type =? 7) && large_format)
      || ((value_type =? 8) && large_format) in
    raw ← read_le data (Z.to_nat (entry_pos + 1)) (Z.to_nat offset_size);
    if inlined then extract_element T data length value_type inlined raw
    else
      let value_offset := raw + 1 in
      if decide (Z.of_nat length ≤ value_offset)
      then Err HA_ERR_ROCKSDB_CORRUPT_DATA
      else extract_element T data length value_type inlined value_offset.

(** The element loop.  [fuel] bounds the recursion; one more than the
    input's length is always enough, each iteration consuming an entry
    of the input. *)
Fixpoint extract_loop (T : elem_type) (data : list byte) (length : nat)
    (large_format : bool) (element_count : Z) (i : Z) (result : list json_elem)
    (fuel : nat) : outcome (list json_elem) :=
  if decide (element_count ≤ i) then Ok result
  else
    match fuel with
    | O => Fault OutOfFuel
    | S fuel' =>
        e ← extract_entry T data length large_format i;
        extract_loop T data length large_format element_count (i + 1)
          (result ++ [e]) fuel'
    end.

(** The bytes [result->reserve(element_count)] asks for. *)
Definition reserve_bytes (T : elem_type) (element_count : Z) : Z :=
  element_count * sizeof_elem T.

Definition ExtractVectorFromJson (T : elem_type) (json_binary : list byte)
    : outcome (list json_elem) :=
  let length := base.length json_binary in
  if decide (length < 1)%nat then Err HA_ERR_ROCKSDB_CORRUPT_DATA
  else
    type ← read_u8 json_binary 0;
    if negb (type =? 2) && negb (type =? 3) then Err HA_ERR_ROCKSDB_CORRUPT_DATA
    else
      let large_format := type =? 3 in
      let offset_size := if large_format then 4 else 2 in
      if decide (Z.of_nat length < 1 + 2 * offset_size)
      then Err HA_ERR_ROCKSDB_CORRUPT_DATA
      else
        element_count ← read_le json_binary 1 (Z.to_nat offset_size);
        if negb (reserve_granted (reserve_bytes T element_count))
        then Fault BadAlloc
        else
          extract_loop T json_binary length large_format element_count 0 []
            (S length).

(** The [std::vector<float>] filled by [ExtractVectorFromJson<float>]. *)
Definition float_elems (es : list json_elem) : list f32 :=
  omap (fun e => match e with E_float x => Some x | _ => None end) es.

(** Modelled from the spec: [faiss::fvec_L2sqr(x, y, d)], the exact
    squared L2 distance of the first [d] components, accumulated in
    [float]; it reads [d] components of both arguments. *)
Fixpoint fvec_L2sqr_from (x y : list f32) (i : nat) (d : nat) (res : f32)
    : outcome f32 :=
  match d with
  | O => Ok res
  | S d' =>
      match x !! i, y !! i with
      | Some xi, Some yi =>
          let tmp := f32_sub xi yi in
          fvec_L2sqr_from x y (S i) d' (f32_add res (f32_mul tmp tmp))
      | _, _ => Fault (OutOfBoundsRead i)
      end
  end.

Definition fvec_L2sqr (x y : list f32) (d : nat) : outcome f32 :=
  fvec_L2sqr_from x y 0 d f32_zero.

End JsonArray.

(** ** Key codec *)

Definition INDEX_NUMBER_SIZE : nat := 4.

(** Modelled from the spec: [Rdb_string_writer::write_index_id] and
    [write_uint64] (rdb_buff.h is not among the sources) frame the index
    id and the list id as fixed-width big-endian integers,
    [BE32(index_id) ‖ BE64(list_id)]. *)
Definition write_inverted_list_key (index_id : Z) (list_id : Z) : list byte :=
  be_bytes 4 index_id ++ be_bytes 8 list_id.

(** [pk] with its own index id prefix removed follows the list key. *)
Definition write_inverted_list_item_key (index_id : Z) (list_id : Z)
    (pk : list byte) : list byte :=
  write_inverted_list_key index_id list_id ++ drop INDEX_NUMBER_SIZE pk.

(** Modelled from the spec: [Rdb_string_reader::read_index_id] and
    [read_uint64] take 4 and 8 big-endian bytes off the front of the
    reader and fail when fewer remain.  The result is the value read and
    the remaining bytes. *)
Definition reader_read_be (n : nat) (reader : list byte) : option (Z * list byte) :=
  if decide (length reader < n)%nat then None
  else Some (be_value (take n reader), drop n reader).

(** read and verify key prefix; returns the reader after the prefix. *)
Definition read_inverted_list_key (reader : list byte) (index_id : Z)
    (list_id : Z) : outcome (list byte) :=
  match reader_read_be 4 reader with
  | None => Err HA_ERR_ROCKSDB_CORRUPT_DATA
  | Some (actual_index_id, reader) =>
      if decide (actual_index_id ≠ index_id) then Err HA_ERR_ROCKSDB_CORRUPT_DATA
      else
        match reader_read_be 8 reader with
        | None => Err HA_ERR_ROCKSDB_CORRUPT_DATA
        | Some (actual_list_id, reader) =>
            if decide (actual_list_id ≠ list_id)
            then Err HA_ERR_ROCKSDB_CORRUPT_DATA
            else Ok reader
        end
  end.

(** ** Inverted-list iterator *)

(** [Rdb_key_def::is_unpack_data_tag] and [get_unpack_header_size] are
    declared outside the sources at hand; they are parameters. *)
Class Rdb_key_def_tags : Type := {
  is_unpack_data_tag : Z → bool;
  get_unpack_header_size : Z → nat;
}.

(** The pushed-down predicate with the secondary-key descriptor that
    unpacks a record for it: [m_sk_descr->unpack_record] (its error code,
    if any) and [m_pk_index_cond->val_int()] on the unpacked record. *)
Record pk_index_cond : Type := {
  unpack_record : list byte → list byte → option ha_error;
  val_int : list byte → list byte → Z;
}.

(** [Rdb_faiss_inverted_list_context].  [m_thd] says whether the THD
    pointer is non-null; [m_error = None] is [HA_EXIT_SUCCESS]. *)
Record Rdb_faiss_inverted_list_context : Type := {
  m_thd : bool;
  m_pk_index_cond : option pk_index_cond;
  m_error : option ha_error;
  m_current_list_size : nat;
  m_list_size_stats : list (Z * nat);
  m_vectorid_key : gmap Z (list byte);
  m_vector_id : Z;
}.

Definition new_context (thd : bool) (cond : option pk_index_cond)
    : Rdb_faiss_inverted_list_context :=
  {| m_thd := thd; m_pk_index_cond := cond; m_error := None;
     m_current_list_size := 0; m_list_size_stats := [];
     m_vectorid_key := ∅; m_vector_id := 1024 |}.

Definition set_error (e : option ha_error) (c : Rdb_faiss_inverted_list_context)
    : Rdb_faiss_inverted_list_context :=
  {| m_thd := m_thd c; m_pk_index_cond := m_pk_index_cond c; m_error := e;
     m_current_list_size := m_current_list_size c;
     m_list_size_stats := m_list_size_stats c;
     m_vectorid_key := m_vectorid_key c; m_vector_id := m_vector_id c |}.

Definition on_iterator_end (list_id : Z) (c : Rdb_faiss_inverted_list_context)
    : Rdb_faiss_inverted_list_context :=
  {| m_thd := m_thd c; m_pk_index_cond := m_pk_index_cond c; m_error := m_error c;
     m_current_list_size := 0;
     m_list_size_stats :=
       (match m_error c with
        | Some _ => m_list_size_stats c
        | None => m_list_size_stats c ++ [(list_id, m_current_list_size c)]
        end);
     m_vectorid_key := m_vectorid_key c; m_vector_id := m_vector_id c |}.

Definition on_iterator_record (c : Rdb_faiss_inverted_list_context)
    : Rdb_faiss_inverted_list_context :=
  {| m_thd := m_thd c; m_pk_index_cond := m_pk_index_cond c; m_error := m_error c;
     m_current_list_size := S (m_current_list_size c);
     m_list_size_stats := m_list_size_stats c;
     m_vectorid_key := m_vectorid_key c; m_vector_id := m_vector_id c |}.

Definition add_key (key : list byte) (c : Rdb_faiss_inverted_list_context)
    : Z * Rdb_faiss_inverted_list_context :=
  (m_vector_id c,
   {| m_thd := m_thd c; m_pk_index_cond := m_pk_index_cond c; m_error := m_error c;
      m_current_list_size := m_current_list_size c;
      m_list_size_stats := m_list_size_stats c;
      m_vectorid_key :=
        (match m_vectorid_key c !! m_vector_id c with
         | Some _ => m_vectorid_key c   (* emplace keeps an existing entry *)
         | None => <[m_vector_id c := key]> (m_vectorid_key c)
         end);
      m_vector_id := m_vector_id c + 1 |}).

(** [populate_result]: stops at the first negative id, fails on an id
    with no key; [result] is appended to. *)
Fixpoint populate_result {F : Type} (c : Rdb_faiss_inverted_list_context)
    (ids_distances : list (Z * F)) (result : list (list byte * F))
    : option ha_error * list (list byte * F) :=
  match ids_distances with
  | [] => (None, result)
  | (vector_id, distance) :: rest =>
      if decide (vector_id < 0) then (None, result)
      else
        match m_vectorid_key c !! vector_id with
        | None => (Some HA_EXIT_FAILURE, result)
        | Some key => populate_result c rest (result ++ [(key, distance)])
        end
  end.

(** [Rdb_vector_iterator]: [m_iterator] is the bounded KV iterator, kept
    as the records from its current position on ([Valid()] when there is
    one). *)
Record Rdb_vector_iterator : Type := {
  m_index_id : Z;
  m_list_id : Z;
  m_code_size : Z;
  m_iterator : list (list byte * list byte);
}.

Definition iterator_next (it : Rdb_vector_iterator) : Rdb_vector_iterator :=
  {| m_index_id := m_index_id it; m_list_id := m_list_id it;
     m_code_size := m_code_size it; m_iterator := tail (m_iterator it) |}.

Section InvertedListIterator.
Context {KD : Rdb_key_def_tags}.

(** The part of [get_key_and_value] and [get_key_and_codes] that
    validates the key: the prefix must match and a primary key must
    follow it. *)
Definition check_item_key (it : Rdb_vector_iterator) (key_slice : list byte)
    : outcome (list byte) :=
  key_reader ← read_inverted_list_key key_slice (m_index_id it) (m_list_id it);
  let pk_size := length key_reader in
  if decide (pk_size = 0%nat) then Err HA_ERR_ROCKSDB_CORRUPT_DATA
  else Ok key_slice.

(** [get_key_and_value]: the key and, when [need_value], the value
    without the vector codes.  [value_bytes] is an [unsigned long];
    [value.reserve] throws above [max_size()], which is below [2^63] in
    every implementation; the second copy loop counts in a [uint]. *)
Definition get_key_and_value (it : Rdb_vector_iterator) (need_value : bool)
    : outcome (list byte * list byte) :=
  match m_iterator it with
  | [] => Fault OutOfBoundsIndex
  | (key_slice, value_slice) :: _ =>
      key ← check_item_key it key_slice;
      if negb need_value then Ok (key, [])
      else
        let value_bytes :=
          wrap_unsigned 64 (Z.of_nat (length value_slice) - m_code_size it) in
        if decide (value_bytes < 0) then Err HA_ERR_ROCKSDB_CORRUPT_DATA
        else if decide (0 < value_bytes) then
          tag ← read_u8 value_slice 0;
          if negb (is_unpack_data_tag tag) then Err HA_ERR_ROCKSDB_CORRUPT_DATA
          else
            let header_size := get_unpack_header_size tag in
            if decide (value_bytes < Z.of_nat header_size)
            then Err HA_ERR_ROCKSDB_CORRUPT_DATA
            else if decide (2 ^ 63 ≤ value_bytes) then Fault LengthError
            else if decide (2 ^ 32 ≤ value_bytes) then Fault Diverges
            else
              head ← read_bytes value_slice (seq 0 header_size);
              rest ← read_bytes value_slice
                       ((fun i => (i + Z.to_nat (m_code_size it))%nat)
                          <$> seq header_size (Z.to_nat value_bytes - header_size));
              Ok (key, head ++ rest)
        else Ok (key, [])
  end.

(** [get_key_and_codes]: the key and the [m_code_size] bytes of codes.
    [extra_bytes] is an [int]. *)
Definition get_key_and_codes (ctx : Rdb_faiss_inverted_list_context)
    (it : Rdb_vector_iterator)
    : outcome (list byte * list byte * Rdb_faiss_inverted_list_context) :=
  match m_iterator it with
  | [] => Fault OutOfBoundsIndex
  | (key_slice, value) :: _ =>
      key ← check_item_key it key_slice;
      let extra_bytes :=
        wrap_signed 32 (Z.of_nat (length value) - m_code_size it) in
      if decide (extra_bytes < 0) then Err HA_ERR_ROCKSDB_CORRUPT_DATA
      else if decide (0 < extra_bytes) then
        tag ← read_u8 value 0;
        if negb (is_unpack_data_tag tag) then Err HA_ERR_ROCKSDB_CORRUPT_DATA
        else
          let header_size := get_unpack_header_size tag in
          if decide (extra_bytes < Z.of_nat header_size)
          then Err HA_ERR_ROCKSDB_CORRUPT_DATA
          else
            let suffix := (Z.to_nat extra_bytes - header_size)%nat in
            if decide (length value < header_size + suffix)%nat
            then Fault OutOfBoundsIndex
            else
              let codes :=
                take (length value - header_size - suffix) (drop header_size value) in
              Ok (key, codes, on_iterator_record ctx)
      else Ok (key, value, on_iterator_record ctx)
  end.

(** [get_id_and_codes]: on an error the context records it and dummy
    data goes back to the caller. *)
Definition get_id_and_codes (ctx : Rdb_faiss_inverted_list_context)
    (it : Rdb_vector_iterator)
    : outcome (Z * list byte * Rdb_faiss_inverted_list_context) :=
  match get_key_and_codes ctx it with
  | Err rtn =>
      Ok (42, replicate (Z.to_nat (m_code_size it)) x00, set_error (Some rtn) ctx)
  | Fault f => Fault f
  | Ok (key, codes, ctx) =>
      let '(vector_id, ctx) := add_key key ctx in
      Ok (vector_id, codes, ctx)
  end.

(** The [while] loop of [is_available].  [killed] is [thd->killed] as
    this call reads it.  The result is the context and the iterator the
    loop leaves behind. *)
Fixpoint is_available_loop (killed : bool) (index_id list_id code_size : Z)
    (ctx : Rdb_faiss_inverted_list_context)
    (records : list (list byte * list byte))
    : outcome (Rdb_faiss_inverted_list_context * list (list byte * list byte)) :=
  match records with
  | [] => Ok (ctx, records)
  | _ :: records' =>
      if bool_decide (is_Some (m_error ctx)) then Ok (ctx, records)
      else if m_thd ctx && killed
      then Ok (set_error (Some HA_ERR_QUERY_INTERRUPTED) ctx, records)
      else
        match m_pk_index_cond ctx with
        | None => Ok (ctx, records)
        | Some cond =>
            let it := {| m_index_id := index_id; m_list_id := list_id;
                         m_code_size := code_size; m_iterator := records |} in
            match get_key_and_value it true with
            | Fault f => Fault f
            | Err e => Ok (set_error (Some e) ctx, records)
            | Ok (sk, sk_value) =>
                match unpack_record cond sk sk_value with
                | Some e => Ok (set_error (Some e) ctx, records)
                | None =>
                    if negb (val_int cond sk sk_value =? 0) then Ok (ctx, records)
                    else is_available_loop killed index_id list_id code_size
                           ctx records'
                end
            end
        end
  end.

Definition is_available (killed : bool) (ctx : Rdb_faiss_inverted_list_context)
    (it : Rdb_vector_iterator)
    : outcome (bool * Rdb_faiss_inverted_list_context * Rdb_vector_iterator) :=
  '(ctx, records) ← is_available_loop killed (m_index_id it) (m_list_id it)
                      (m_code_size it) ctx (m_iterator it);
  let it := {| m_index_id := m_index_id it; m_list_id := m_list_id it;
               m_code_size := m_code_size it; m_iterator := records |} in
  let available :=
    negb (bool_decide (is_Some (m_error ctx)))
    && negb (bool_decide (records = [])) in
  if available then Ok (true, ctx, it)
  else Ok (false, on_iterator_end (m_list_id it) ctx, it).

End InvertedListIterator.

(** ** Bounded top-k heap *)

Section PriorityQueue.
Context {A : Type} (cmp : A → A → bool).

(** [std::priority_queue<A, std::vector<A>, cmp>] by its contract:
    [top()] is an element that [cmp] puts below no other, [pop()]
    removes it.  The queue is kept as its elements from the greatest
    down; which of several equal elements is on top is not fixed by the
    standard, and here it is the one pushed first. *)
Fixpoint pq_push (x : A) (h : list A) : list A :=
  match h with
  | [] => [x]
  | y :: h' => if cmp y x then x :: h else y :: pq_push x h'
  end.

Definition pq_top (h : list A) : option A := head h.
Definition pq_pop (h : list A) : list A := tail h.
Definition pq_size (h : list A) : nat := length h.

(** [while (!heap.empty()) { result.emplace_back(top); pop(); }] *)
Fixpoint pq_drain (h : list A) (n : nat) : list A :=
  match n with
  | O => []
  | S n' =>
      match pq_top h with
      | None => []
      | Some top => top :: pq_drain (pq_pop h) n'
      end
  end.

End PriorityQueue.

(** ** The queue as libstdc++ has it

    The standard says what [std::priority_queue] does for a comparison
    that is a strict weak ordering, and nothing for any other.  With
    another comparison the queue does what its implementation does: in
    libstdc++ (bits/stl_heap.h) the vector is a binary heap, [push] is
    [push_back] followed by [std::push_heap], [pop] is [std::pop_heap]
    followed by [pop_back], and [top] is the front of the vector. *)

Section BinaryHeap.
Context {A : Type} (cmp : A → A → bool).

(** [first[to] = std::move(first[from])] *)
Definition heap_move (first : list A) (to from : nat) : list A :=
  match first !! from with
  | Some x => <[to := x]> first
  | None => first
  end.

(** [std::__push_heap(first, holeIndex, topIndex, value, comp)]:
    [while (holeIndex > topIndex && comp(first + parent, value))] the
    parent moves down into the hole.  The hole index bounds the number
    of iterations. *)
Fixpoint push_heap_from (first : list A) (holeIndex topIndex : nat) (value : A)
    (fuel : nat) : list A :=
  let parent := ((holeIndex - 1) / 2)%nat in
  match fuel, first !! parent with
  | S fuel', Some p =>
      if bool_decide (topIndex < holeIndex)%nat && cmp p value
      then push_heap_from (heap_move first holeIndex parent) parent topIndex
             value fuel'
      else <[holeIndex := value]> first
  | _, _ => <[holeIndex := value]> first
  end.

(** [std::push_heap(first, last, comp)]: the last element is the value
    to place, the hole is where it stands. *)
Definition push_heap (c : list A) : list A :=
  match last c with
  | Some value => push_heap_from c (length c - 1) 0 value (length c - 1)
  | None => c
  end.

(** The loop of [std::__adjust_heap(first, holeIndex, len, value,
    comp)]: [while (secondChild < (len - 1) / 2)] the greater child
    moves up into the hole.  Returns the vector and the hole. *)
Fixpoint adjust_heap_loop (first : list A) (holeIndex secondChild len : nat)
    (fuel : nat) : list A * nat * nat :=
  match fuel with
  | S fuel' =>
      if bool_decide (secondChild < (len - 1) / 2)%nat then
        let secondChild := (2 * (secondChild + 1))%nat in
        let secondChild :=
          match first !! secondChild, first !! (secondChild - 1)%nat with
          | Some second, Some first_child =>
              if cmp second first_child then (secondChild - 1)%nat
              else secondChild
          | _, _ => secondChild
          end in
        adjust_heap_loop (heap_move first holeIndex secondChild) secondChild
          secondChild len fuel'
      else (first, holeIndex, secondChild)
  | O => (first, holeIndex, secondChild)
  end.

(** [std::__adjust_heap]: after the loop, a last left child without a
    sibling moves up as well, and the value is pushed from the hole.
    [len] is at least 1 where [std::pop_heap] calls it. *)
Definition adjust_heap (first : list A) (holeIndex len : nat) (value : A)
    : list A :=
  let topIndex := holeIndex in
  let '(first, holeIndex, secondChild) :=
    adjust_heap_loop first holeIndex holeIndex len len in
  let '(first, holeIndex) :=
    if Nat.even len && bool_decide (secondChild = ((len - 2) / 2)%nat) then
      let secondChild := (2 * (secondChild + 1))%nat in
      (heap_move first holeIndex (secondChild - 1), (secondChild - 1)%nat)
    else (first, holeIndex) in
  push_heap_from first holeIndex topIndex value holeIndex.

(** [std::pop_heap(first, last, comp)]: with more than one element, the
    front goes to the last place and the element that stood there is
    placed in the heap of the others. *)
Definition pop_heap (c : list A) : list A :=
  if bool_decide (1 < length c)%nat then
    let last := (length c - 1)%nat in
    match c !! last, c !! 0%nat with
    | Some value, Some front => adjust_heap (<[last := front]> c) 0 last value
    | _, _ => c
    end
  else c.

(** [priority_queue::push] and [priority_queue::pop]. *)
Definition heap_push (x : A) (c : list A) : list A := push_heap (c ++ [x]).
Definition heap_pop (c : list A) : list A :=
  take (length c - 1) (pop_heap c).

End BinaryHeap.

(** ** LSM scan engine *)

Inductive FB_VECTOR_INDEX_METRIC : Type := METRIC_NONE | METRIC_L2 | METRIC_IP.

Inductive ha_code : Type :=
| HA_EXIT_SUCCESS
| HA_ERROR (e : ha_error).

(** What a call leaves behind: the code it returned together with its
    result out-parameter, or a fault. *)
Inductive call_result (R : Type) : Type :=
| Returned (rtn : ha_code) (result : R)
| Crashed (f : fault).
Arguments Returned {R} rtn result.
Arguments Crashed {R} f.

Section Engines.
Context {FA : FloatArith} {MEM : Memory} {KD : Rdb_key_def_tags}.

Record Rdb_vector_search_params : Type := {
  m_metric : FB_VECTOR_INDEX_METRIC;
  m_k : Z;
  m_nprobe : Z;
  m_weight : f32;
  m_query_coordinate : list byte;
}.

(** [std::pair<float, std::pair<std::string, std::string>>] *)
Definition PqElement : Type := f32 * (list byte * list byte).

(** [std::pair<std::string, std::pair<float, std::string>>] *)
Definition result_row : Type := list byte * (f32 * list byte).

Definition cmp (a b : PqElement) : bool := f32_ltb a.1 b.1.

(** Any non-zero status of a decoder is answered with CorruptData. *)
Definition or_corrupt {A : Type} (m : outcome A) : outcome A :=
  match m with
  | Err _ => Err HA_ERR_ROCKSDB_CORRUPT_DATA
  | _ => m
  end.

(** [index_fields[i]] *)
Definition vector_at {A : Type} (v : list A) (i : nat) : outcome A :=
  match v !! i with
  | Some x => Ok x
  | None => Fault OutOfBoundsIndex
  end.

(** [*reinterpret_cast<const double*>(s.data() + off)]: the eight bytes
    at [off] from where the slice begins.  The size of the slice is not
    looked at: the slice points into the row value, and the read is
    defined as long as it stays inside that buffer.  [Slice()] points
    to an empty string, which has no byte at [off]. *)
Definition slice_read_double (value : list byte) (s : Slice) (off : nat)
    : outcome f64 :=
  match s with
  | Slice_default => Fault (OutOfBoundsRead off)
  | Slice_at pos _ =>
      bits ← read_le value (pos + off) 8;
      Ok (f64_of_bits bits)
  end.

(** The vector of a row: the projected field decoded as a float array,
    and its squared L2 distance to the query. *)
Definition row_vector_distance (query_vector : list f32) (value : list byte)
    (index_field : Slice) : outcome f32 :=
  let json_binary := slice_bytes value index_field in
  vector_data ← or_corrupt (ExtractVectorFromJson T_float json_binary);
  fvec_L2sqr query_vector (float_elems vector_data) (length query_vector).

(** The heap update of [knn_search_with_value] and
    [index_scan_with_value]. *)
Definition knn_heap_update (k : Z) (top_k_heap : list PqElement)
    (distance : f32) (key value : list byte) : outcome (list PqElement) :=
  if decide (Z.of_nat (pq_size top_k_heap) < k) then
    Ok (pq_push cmp (distance, (key, value)) top_k_heap)
  else
    match pq_top top_k_heap with
    | None => Fault EmptyHeapTop
    | Some top =>
        if f32_ltb distance top.1 then
          Ok (pq_push cmp (distance, (key, value)) (pq_pop top_k_heap))
        else Ok top_k_heap
    end.

(** The heap update of [knn_search_hybrid_with_value]. *)
Definition hybrid_heap_update (k : Z) (m_weight : f32)
    (top_k_heap : list PqElement) (distance distance_spatial : f32)
    (key value : list byte) : outcome (list PqElement) :=
  if decide (Z.of_nat (pq_size top_k_heap) < k) then
    Ok (pq_push cmp
          (f32_add distance (f32_mul m_weight distance_spatial), (key, value))
          top_k_heap)
  else
    match pq_top top_k_heap with
    | None => Fault EmptyHeapTop
    | Some top =>
        if f32_ltb distance top.1 then
          Ok (pq_push cmp (distance, (key, value)) (pq_pop top_k_heap))
        else Ok top_k_heap
    end.

(** The scan loop of [knn_search_with_value] and [index_scan_with_value]
    over the rows the iterator yields; the state is the heap and
    [keys_scanned]. *)
Fixpoint knn_scan_loop (table_config : TableConfig)
    (field_info_list : list FieldInfo) (query_vector : list f32) (k : Z)
    (rows : list (list byte * list byte)) (top_k_heap : list PqElement)
    (keys_scanned : Z) : outcome (list PqElement * Z) :=
  match rows with
  | [] => Ok (top_k_heap, keys_scanned)
  | (key, value) :: rows' =>
      let keys_scanned := keys_scanned + 1 in
      if decide (length value ≠ 0%nat) then
        index_fields ← or_corrupt
          (DecodeFieldFromValue table_config field_info_list [8%nat] value);
        index_field ← vector_at index_fields 0;
        distance ← row_vector_distance query_vector value index_field;
        top_k_heap ← knn_heap_update k top_k_heap distance key value;
        knn_scan_loop table_config field_info_list query_vector k rows'
          top_k_heap keys_scanned
      else
        knn_scan_loop table_config field_info_list query_vector k rows'
          top_k_heap keys_scanned
  end.

(** The position of the first field of the given type. *)
Fixpoint find_field_type (ty : Z) (field_info_list : list FieldInfo)
    (count : nat) : option nat :=
  match field_info_list with
  | [] => None
  | field_info :: rest =>
      if decide (type field_info = ty) then Some count
      else find_field_type ty rest (S count)
  end.

(** [field_indexes_to_extract], [spatial_field_index] and
    [vector_field_index]; an index is [None] while unassigned. *)
Definition hybrid_field_indexes (field_info_list : list FieldInfo)
    : list nat * option nat * option nat :=
  let '(to_extract, spatial_field_index) :=
    match find_field_type 255 field_info_list 0 with
    | Some count => ([count], Some 0%nat)
    | None => ([], None)
    end in
  match find_field_type 245 field_info_list 0 with
  | Some count =>
      (to_extract ++ [count], spatial_field_index,
       Some (if bool_decide (to_extract ≠ []) then 1%nat else 0%nat))
  | None => (to_extract, spatial_field_index, None)
  end.

Definition initialized (i : option nat) : outcome nat :=
  match i with
  | Some i => Ok i
  | None => Fault UninitializedRead
  end.

(** The scan loop of [knn_search_hybrid_with_value]. *)
Fixpoint hybrid_scan_loop (table_config : TableConfig)
    (field_info_list : list FieldInfo) (field_indexes_to_extract : list nat)
    (spatial_field_index vector_field_index : option nat)
    (query_coordinates : f32 * f32) (query_vector : list f32) (k : Z)
    (m_weight : f32) (rows : list (list byte * list byte))
    (top_k_heap : list PqElement) (keys_scanned : Z)
    : outcome (list PqElement * Z) :=
  match rows with
  | [] => Ok (top_k_heap, keys_scanned)
  | (key, value) :: rows' =>
      let keys_scanned := keys_scanned + 1 in
      if decide (length value ≠ 0%nat) then
        index_fields ← or_corrupt
          (DecodeFieldFromValue table_config field_info_list
             field_indexes_to_extract value);
        vi ← initialized vector_field_index;
        index_field ← vector_at index_fields vi;
        vector_data ← or_corrupt
          (ExtractVectorFromJson T_float (slice_bytes value index_field));
        si ← initialized spatial_field_index;
        index_field_spatial ← vector_at index_fields si;
        lon ← slice_read_double value index_field_spatial 9;
        lat ← slice_read_double value index_field_spatial 17;
        let distance_spatial :=
          f64_to_f32
            (st_distance_simple (f32_to_f64 query_coordinates.1)
               (f32_to_f64 query_coordinates.2) lon lat) in
        distance ← fvec_L2sqr query_vector (float_elems vector_data)
                     (length query_vector);
        top_k_heap ← hybrid_heap_update k m_weight top_k_heap distance
                       distance_spatial key value;
        hybrid_scan_loop table_config field_info_list field_indexes_to_extract
          spatial_field_index vector_field_index query_coordinates query_vector
          k m_weight rows' top_k_heap keys_scanned
      else
        hybrid_scan_loop table_config field_info_list field_indexes_to_extract
          spatial_field_index vector_field_index query_coordinates query_vector
          k m_weight rows' top_k_heap keys_scanned
  end.

(** Draining the heap into [result] and reversing it. *)
Definition drain_result (top_k_heap : list PqElement) : list result_row :=
  reverse ((fun top : PqElement => (top.2.1, (top.1, top.2.2)))
             <$> pq_drain top_k_heap (pq_size top_k_heap)).

(** [Rdb_vector_index_lsm].  [lsm_table_info] is what [get_table_info]
    answers for the column family ([None] when it fails); [lsm_rows q k
    nprobe] are the rows the distance-aware iterator
    [rdb_tx_get_iterator_vector] yields, in its order. *)
Record Rdb_vector_index_lsm : Type := {
  lsm_dimension : nat;
  lsm_table_info : option (list FieldInfo * TableConfig);
  lsm_rows : list f32 → Z → Z → list (list byte * list byte);
}.

(** Turns the outcome of a scan into what the entry point returns:
    [result] was cleared on entry and is filled only after the loop. *)
Definition finish_scan (scan : outcome (list PqElement * Z))
    : call_result (list result_row) :=
  match scan with
  | Ok (top_k_heap, _) => Returned HA_EXIT_SUCCESS (drain_result top_k_heap)
  | Err e => Returned (HA_ERROR e) []
  | Fault f => Crashed f
  end.

Definition lsm_knn_scan (index : Rdb_vector_index_lsm) (query_vector : list f32)
    (params : Rdb_vector_search_params) : outcome (list PqElement * Z) :=
  match lsm_table_info index with
  | None => Err HA_ERR_ROCKSDB_CORRUPT_DATA
  | Some (field_info_list, table_config) =>
      knn_scan_loop table_config field_info_list query_vector (m_k params)
        (lsm_rows index query_vector (m_k params) (m_nprobe params)) [] 0
  end.

Definition lsm_knn_search_with_value (index : Rdb_vector_index_lsm)
    (query_vector : list f32) (params : Rdb_vector_search_params)
    : call_result (list result_row) :=
  finish_scan (lsm_knn_scan index query_vector params).

Definition lsm_hybrid_scan (index : Rdb_vector_index_lsm)
    (query_vector : list f32) (params : Rdb_vector_search_params)
    : outcome (list PqElement * Z) :=
  match lsm_table_info index with
  | None => Err HA_ERR_ROCKSDB_CORRUPT_DATA
  | Some (field_info_list, table_config) =>
      let '(field_indexes_to_extract, spatial_field_index, vector_field_index) :=
        hybrid_field_indexes field_info_list in
      lon_bits ← read_le (m_query_coordinate params) 9 8;
      lat_bits ← read_le (m_query_coordinate params) 17 8;
      let query_coordinates :=
        (f64_to_f32 (f64_of_bits lon_bits), f64_to_f32 (f64_of_bits lat_bits)) in
      hybrid_scan_loop table_config field_info_list field_indexes_to_extract
        spatial_field_index vector_field_index query_coordinates query_vector
        (m_k params) (m_weight params)
        (lsm_rows index query_vector (m_k params) (m_nprobe params)) [] 0
  end.

Definition lsm_knn_search_hybrid_with_value (index : Rdb_vector_index_lsm)
    (query_vector : list f32) (params : Rdb_vector_search_params)
    : call_result (list result_row) :=
  finish_scan (lsm_hybrid_scan index query_vector params).

Definition lsm_index_scan (index : Rdb_vector_index_lsm)
    (query_vector : list f32) (nprobe : Z) : outcome (list PqElement * Z) :=
  let k := 100 in
  match lsm_table_info index with
  | None => Err HA_ERR_ROCKSDB_CORRUPT_DATA
  | Some (field_info_list, table_config) =>
      knn_scan_loop table_config field_info_list query_vector k
        (lsm_rows index query_vector 500 nprobe) [] 0
  end.

Definition lsm_index_scan_with_value (index : Rdb_vector_index_lsm)
    (query_vector : list f32) (nprobe : Z) : call_result (list result_row) :=
  finish_scan (lsm_index_scan index query_vector nprobe).

End Engines.

(** ** The scan of [knn_search_with_value] over a given queue

    The scan with the queue's [push] and [pop] left open; [top] is the
    front of the container and [size] its length in both queues. *)
Section ScanOnQueue.
Context {FA : FloatArith} {MEM : Memory}.
Variable push : PqElement → list PqElement → list PqElement.
Variable pop : list PqElement → list PqElement.

Definition knn_heap_update_on (k : Z) (top_k_heap : list PqElement)
    (distance : f32) (key value : list byte) : outcome (list PqElement) :=
  if decide (Z.of_nat (length top_k_heap) < k) then
    Ok (push (distance, (key, value)) top_k_heap)
  else
    match head top_k_heap with
    | None => Fault EmptyHeapTop
    | Some top =>
        if f32_ltb distance top.1 then
          Ok (push (distance, (key, value)) (pop top_k_heap))
        else Ok top_k_heap
    end.

Fixpoint knn_scan_loop_on (table_config : TableConfig)
    (field_info_list : list FieldInfo) (query_vector : list f32) (k : Z)
    (rows : list (list byte * list byte)) (top_k_heap : list PqElement)
    (keys_scanned : Z) : outcome (list PqElement * Z) :=
  match rows with
  | [] => Ok (top_k_heap, keys_scanned)
  | (key, value) :: rows' =>
      let keys_scanned := keys_scanned + 1 in
      if decide (length value ≠ 0%nat) then
        index_fields ← or_corrupt
          (DecodeFieldFromValue table_config field_info_list [8%nat] value);
        index_field ← vector_at index_fields 0;
        distance ← row_vector_distance query_vector value index_field;
        top_k_heap ← knn_heap_update_on k top_k_heap distance key value;
        knn_scan_loop_on table_config field_info_list query_vector k rows'
          top_k_heap keys_scanned
      else
        knn_scan_loop_on table_config field_info_list query_vector k rows'
          top_k_heap keys_scanned
  end.

Fixpoint drain_on (top_k_heap : list PqElement) (n : nat) : list PqElement :=
  match n with
  | O => []
  | S n' =>
      match head top_k_heap with
      | None => []
      | Some top => top :: drain_on (pop top_k_heap) n'
      end
  end.

Definition drain_result_on (top_k_heap : list PqElement) : list result_row :=
  reverse ((fun top : PqElement => (top.2.1, (top.1, top.2.2)))
             <$> drain_on top_k_heap (length top_k_heap)).

Definition lsm_knn_search_with_value_on (index : Rdb_vector_index_lsm)
    (query_vector : list f32) (params : Rdb_vector_search_params)
    : call_result (list result_row) :=
  match lsm_table_info index with
  | None => Returned (HA_ERROR HA_ERR_ROCKSDB_CORRUPT_DATA) []
  | Some (field_info_list, table_config) =>
      match knn_scan_loop_on table_config field_info_list query_vector
              (m_k params)
              (lsm_rows index query_vector (m_k params) (m_nprobe params))
              [] 0 with
      | Ok (top_k_heap, _) =>
          Returned HA_EXIT_SUCCESS (drain_result_on top_k_heap)
      | Err e => Returned (HA_ERROR e) []
      | Fault f => Crashed f
      end
  end.

End ScanOnQueue.

(** ** IVF engine *)

Section IvfEngine.
Context {FA : FloatArith} {MEM : Memory} {KD : Rdb_key_def_tags}.

(** What a query runs under: whether it has a THD, the value of
    [thd->killed] at each availability check of the scan (counted from
    0), and the pushed-down predicate. *)
Record query_env : Type := {
  env_thd : bool;
  env_killed_at : nat → bool;
  env_pk_index_cond : option pk_index_cond;
}.

(** [Rdb_vector_index_ivf]: the quantizer's choice of the [nprobe] lists
    for a query, the distance of a stored code under a metric, and the
    records of each inverted list within the iterator bounds. *)
Record Rdb_vector_index_ivf : Type := {
  ivf_index_id : Z;
  ivf_dimension : nat;
  ivf_code_size : Z;
  ivf_quantizer : list f32 → Z → list Z;
  ivf_distance : FB_VECTOR_INDEX_METRIC → list f32 → list byte → f32;
  ivf_cf : Z → list (list byte * list byte);
}.

(** The order of the result heap: for L2 the greatest distance is on
    top, for inner product the least. *)
Definition faiss_cmp (metric : FB_VECTOR_INDEX_METRIC) (a b : f32 * Z) : bool :=
  match metric with
  | METRIC_IP => f32_ltb b.1 a.1
  | _ => f32_ltb a.1 b.1
  end.

Definition faiss_heap_update (metric : FB_VECTOR_INDEX_METRIC) (k : Z)
    (heap : list (f32 * Z)) (d : f32) (id : Z) : list (f32 * Z) :=
  if decide (Z.of_nat (pq_size heap) < k) then pq_push (faiss_cmp metric) (d, id) heap
  else
    match pq_top heap with
    | None => heap
    | Some top =>
        if faiss_cmp metric (d, id) top
        then pq_push (faiss_cmp metric) (d, id) (pq_pop heap)
        else heap
    end.

(** Modelled from the spec: the scan of one inverted list inside
    [faiss::IndexIVF::search] drives the iterator as
    [for (; it->is_available(); it->next()) { get_id_and_codes(); ... }]
    and feeds each code's distance to the bounded heap.  [clock] counts
    the availability checks; [fuel] bounds the recursion and one more
    than the number of records is enough. *)
Fixpoint faiss_scan_list (env : query_env) (distance : list byte → f32)
    (metric : FB_VECTOR_INDEX_METRIC) (k : Z) (fuel : nat) (clock : nat)
    (ctx : Rdb_faiss_inverted_list_context) (it : Rdb_vector_iterator)
    (heap : list (f32 * Z))
    : outcome (nat * Rdb_faiss_inverted_list_context * list (f32 * Z)) :=
  match fuel with
  | O => Fault OutOfFuel
  | S fuel' =>
      '(available, ctx, it) ← is_available (env_killed_at env clock) ctx it;
      if (available : bool) then
        '(id, codes, ctx) ← get_id_and_codes ctx it;
        faiss_scan_list env distance metric k fuel' (S clock) ctx
          (iterator_next it) (faiss_heap_update metric k heap (distance codes) id)
      else Ok (S clock, ctx, heap)
  end.

(** Modelled from the spec: the lists chosen by the quantizer are
    scanned one after the other, each through a fresh iterator from
    [Rdb_faiss_inverted_list::get_iterator]; a negative list id is
    skipped. *)
Fixpoint faiss_scan_lists (index : Rdb_vector_index_ivf) (env : query_env)
    (distance : list byte → f32) (metric : FB_VECTOR_INDEX_METRIC) (k : Z)
    (list_ids : list Z) (clock : nat) (ctx : Rdb_faiss_inverted_list_context)
    (heap : list (f32 * Z))
    : outcome (nat * Rdb_faiss_inverted_list_context * list (f32 * Z)) :=
  match list_ids with
  | [] => Ok (clock, ctx, heap)
  | list_no :: rest =>
      if decide (list_no < 0) then
        faiss_scan_lists index env distance metric k rest clock ctx heap
      else
        let it := {| m_index_id := ivf_index_id index; m_list_id := list_no;
                     m_code_size := ivf_code_size index;
                     m_iterator := ivf_cf index list_no |} in
        '(clock, ctx, heap) ←
          faiss_scan_list env distance metric k (S (length (m_iterator it)))
            clock ctx it heap;
        faiss_scan_lists index env distance metric k rest clock ctx heap
  end.

(** Modelled from the spec: [index->search] fills [vector_ids] and
    [distances], best first, and pads them to [k] entries with the id
    [-1] (the distance beside a padding id is never read). *)
Definition faiss_search (index : Rdb_vector_index_ivf) (env : query_env)
    (metric : FB_VECTOR_INDEX_METRIC) (query_vector : list f32) (k nprobe : Z)
    (ctx : Rdb_faiss_inverted_list_context)
    : outcome (Rdb_faiss_inverted_list_context * list (Z * f32)) :=
  '(_, ctx, heap) ←
    faiss_scan_lists index env (ivf_distance index metric query_vector) metric k
      (ivf_quantizer index query_vector nprobe) 0 ctx [];
  let found := reverse ((fun e : f32 * Z => (e.2, e.1)) <$> heap) in
  Ok (ctx, found ++ replicate (Z.to_nat k - length found) (-1, f32_zero)).

(** [Rdb_vector_index_ivf::knn_search]; [result] is appended to. *)
Definition ivf_knn_search (index : Rdb_vector_index_ivf) (env : query_env)
    (query_vector : list f32) (params : Rdb_vector_search_params)
    (result : list (list byte * f32)) : call_result (list (list byte * f32)) :=
  let context := new_context (env_thd env) (env_pk_index_cond env) in
  match faiss_search index env (m_metric params) query_vector (m_k params)
          (m_nprobe params) context with
  | Fault f => Crashed f
  | Err e => Returned (HA_ERROR e) result
  | Ok (context, ids_distances) =>
      match m_error context with
      | Some e => Returned (HA_ERROR e) result
      | None =>
          match populate_result context ids_distances result with
          | (Some rtn, result) => Returned (HA_ERROR rtn) result
          | (None, result) => Returned HA_EXIT_SUCCESS result
          end
      end
  end.

End IvfEngine.

(** ** Search session handler *)

Section Handler.
Context {FA : FloatArith} {MEM : Memory} {KD : Rdb_key_def_tags}.

(** The virtual interface [Rdb_vector_index], as the handler uses it.
    Each entry takes the incoming content of its [result] out-parameter. *)
Record Rdb_vector_index : Type := {
  dimension : nat;
  knn_search :
    query_env → list f32 → Rdb_vector_search_params →
    list (list byte * f32) → call_result (list (list byte * f32));
  knn_search_with_value :
    query_env → list f32 → Rdb_vector_search_params →
    list result_row → call_result (list result_row);
  knn_search_hybrid_with_value :
    query_env → list f32 → Rdb_vector_search_params →
    list result_row → call_result (list result_row);
}.

(** The entries a class inherits when it does not override them. *)
Definition unsupported {R : Type} (result : R) : call_result R :=
  Returned (HA_ERROR HA_ERR_UNSUPPORTED) result.

Definition vector_index_of_lsm (index : Rdb_vector_index_lsm) : Rdb_vector_index :=
  {| dimension := lsm_dimension index;
     knn_search := fun _ _ _ result => unsupported result;
     knn_search_with_value := fun _ query_vector params _ =>
       lsm_knn_search_with_value index query_vector params;
     knn_search_hybrid_with_value := fun _ query_vector params _ =>
       lsm_knn_search_hybrid_with_value index query_vector params |}.

Definition vector_index_of_ivf (index : Rdb_vector_index_ivf) : Rdb_vector_index :=
  {| dimension := ivf_dimension index;
     knn_search := ivf_knn_search index;
     knn_search_with_value := fun _ _ _ result => unsupported result;
     knn_search_hybrid_with_value := fun _ _ _ result => unsupported result |}.

(** [Rdb_vector_db_handler].  A result cursor is its distance from
    [cbegin()]. *)
Record Rdb_vector_db_handler : Type := {
  m_buffer : list f32;
  m_search_result : list (list byte * f32);
  m_search_result_with_value : list result_row;
  m_vector_db_result_iter : nat;
  m_vector_db_result_with_value_iter : nat;
  h_metric : FB_VECTOR_INDEX_METRIC;
  m_limit : Z;
  h_nprobe : Z;
  h_weight : f32;
  h_query_coordinate : list byte;
}.

Definition with_results (h : Rdb_vector_db_handler) (buffer : list f32)
    (search_result : list (list byte * f32))
    (search_result_with_value : list result_row) (iter iter_with_value : nat)
    : Rdb_vector_db_handler :=
  {| m_buffer := buffer; m_search_result := search_result;
     m_search_result_with_value := search_result_with_value;
     m_vector_db_result_iter := iter;
     m_vector_db_result_with_value_iter := iter_with_value;
     h_metric := h_metric h; m_limit := m_limit h; h_nprobe := h_nprobe h;
     h_weight := h_weight h; h_query_coordinate := h_query_coordinate h |}.

(** [m_buffer.resize(n, 0.0)] for [n] above the size. *)
Definition resize_buffer (buffer : list f32) (n : nat) : list f32 :=
  buffer ++ replicate (n - length buffer) f32_zero.

(** The check of the query vector against the index dimension: a
    shorter buffer is padded with zeros, a longer one is refused. *)
Definition check_dimension (buffer : list f32) (index : Rdb_vector_index)
    : outcome (list f32) :=
  if bool_decide (length buffer < dimension index)%nat
  then Ok (resize_buffer buffer (dimension index))
  else if bool_decide (dimension index < length buffer)%nat
  then Err HA_EXIT_FAILURE
  else Ok buffer.

(** [Rdb_vector_db_handler::knn_search]: the code returned and the
    handler afterwards. *)
Definition handler_knn_search (h : Rdb_vector_db_handler) (env : query_env)
    (index : Rdb_vector_index) : call_result Rdb_vector_db_handler :=
  let h := with_results h (m_buffer h) [] [] 0 0 in
  if bool_decide (length (m_buffer h) = 0%nat) || bool_decide (m_limit h = 0)
  then Returned (HA_ERROR HA_ERR_END_OF_FILE) h
  else
    match check_dimension (m_buffer h) index with
    | Fault f => Crashed f
    | Err e => Returned (HA_ERROR e) h
    | Ok buffer =>
        let params := {| m_metric := h_metric h; m_k := m_limit h;
                         m_nprobe := h_nprobe h; m_weight := f32_zero;
                         m_query_coordinate := [] |} in
        match knn_search_with_value index env buffer params [] with
        | Crashed f => Crashed f
        | Returned (HA_ERROR HA_ERR_UNSUPPORTED) with_value =>
            match knn_search index env buffer params [] with
            | Crashed f => Crashed f
            | Returned rtn result =>
                Returned rtn (with_results h buffer result with_value 0 0)
            end
        | Returned rtn with_value =>
            Returned rtn (with_results h buffer [] with_value 0 0)
        end
    end.

(** [Rdb_vector_db_handler::knn_search_hybrid]; [m_limit * 5] is
    computed in [uint]. *)
Definition handler_knn_search_hybrid (h : Rdb_vector_db_handler) (env : query_env)
    (index : Rdb_vector_index) : call_result Rdb_vector_db_handler :=
  let h := with_results h (m_buffer h) (m_search_result h) []
             (m_vector_db_result_iter h) 0 in
  if bool_decide (length (m_buffer h) = 0%nat) || bool_decide (m_limit h = 0)
  then Returned (HA_ERROR HA_ERR_END_OF_FILE) h
  else
    match check_dimension (m_buffer h) index with
    | Fault f => Crashed f
    | Err e => Returned (HA_ERROR e) h
    | Ok buffer =>
        let params := {| m_metric := h_metric h;
                         m_k := wrap_unsigned 32 (m_limit h * 5);
                         m_nprobe := h_nprobe h; m_weight := h_weight h;
                         m_query_coordinate := h_query_coordinate h |} in
        match knn_search_hybrid_with_value index env buffer params [] with
        | Crashed f => Crashed f
        | Returned rtn with_value =>
            Returned rtn
              (with_results h buffer (m_search_result h) with_value
                 (m_vector_db_result_iter h) 0)
        end
    end.

(** The rows the cursor of the handler presents after a hybrid search:
    [has_more_results] / [next_result] walk the whole of
    [m_search_result_with_value]. *)
Definition rows_of_call (r : call_result Rdb_vector_db_handler) : list result_row :=
  match r with
  | Returned _ h => m_search_result_with_value h
  | Crashed _ => []
  end.

End Handler.

(** ** An interpretation to run examples with

    Exact rational arithmetic: integers and finite doubles are their own
    value, no operation rounds, [operator<] is the order of the
    rationals.  The libm calls are replaced by their small-angle forms
    ([sin x = x], [cos x = 1], [atan2 y x = y / x]) and [sqrt] by a
    nine-digit square root, which are exact where both points coincide.
    Infinities and NaN have no rational value and read as 0. *)

Definition q_ltb (x y : Q) : bool := negb (Qle_bool y x).

Definition q_of_double_bits (bits : Z) : Q :=
  let sign := if Z.testbit bits 63 then (-1)%Z else 1%Z in
  let e := Z.land (Z.shiftr bits 52) 2047 in
  let m := Z.land bits (2 ^ 52 - 1) in
  if e =? 2047 then 0%Q
  else if e =? 0 then Qred (inject_Z (sign * m) * Qpower 2 (-1074))
  else Qred (inject_Z (sign * (2 ^ 52 + m)) * Qpower 2 (e - 1075)).

Definition q_sqrt (q : Q) : Q :=
  Qred (Z.sqrt (Qnum q * 10 ^ 18 / Z.pos (Qden q)) # 1000000000).

#[export] Instance QFloat : FloatArith := {|
  f32 := Q;
  f64 := Q;
  f32_zero := 0%Q;
  f32_add x y := Qred (x + y);
  f32_sub x y := Qred (x - y);
  f32_mul x y := Qred (x * y);
  f32_ltb := q_ltb;
  f32_of_Z z := inject_Z z;
  f64_of_Z z := inject_Z z;
  f64_of_Q q := Qred q;
  f64_of_bits := q_of_double_bits;
  f64_to_f32 x := x;
  f32_to_f64 x := x;
  f64_trunc x := Some (Z.quot (Qnum x) (Z.pos (Qden x)));
  f64_is_zero x := Qnum x =? 0;
  f64_add x y := Qred (x + y);
  f64_sub x y := Qred (x - y);
  f64_mul x y := Qred (x * y);
  f64_div x y := Qred (x / y);
  f64_pi := (884279719003555 # 281474976710656)%Q;
  f64_sin x := x;
  f64_cos x := 1%Q;
  f64_sqrt := q_sqrt;
  f64_atan2 y x := Qred (y / x);
|}.

(** A machine on which one request obtains up to eight gibibytes. *)
#[export] Instance memory_8GiB : Memory := {| reserve_limit := 2 ^ 33 |}.

(** MyRocks' tags: [RDB_UNPACK_DATA_TAG = 0x02] with a 3-byte header and
    [RDB_UNPACK_COVERED_DATA_TAG = 0x03] with a 5-byte header. *)
#[export] Instance myrocks_tags : Rdb_key_def_tags := {|
  is_unpack_data_tag tag := (tag =? 2) || (tag =? 3);
  get_unpack_header_size tag := if tag =? 3 then 5%nat else 3%nat;
|}.

(** *** Example rows *)

(** A small JSON array of inlined int16 values. *)
Definition json_int16_array (xs : list Z) : list byte :=
  let n := Z.of_nat (length xs) in
  [x02; byte_of_Z n; byte_of_Z (n / 256);
   byte_of_Z (5 + 3 * n); byte_of_Z ((5 + 3 * n) / 256)]
  ++ xs ≫= (fun x => [x05; byte_of_Z x; byte_of_Z (x / 256)]).

(** A little-endian integer of [n] bytes. *)
Definition le_bytes (n : nat) (z : Z) : list byte := reverse (be_bytes n z).

(** A WKB point: SRID, byte order, geometry type, then longitude and
    latitude as doubles (given by their bits). *)
Definition wkb_point (lon_bits lat_bits : Z) : list byte :=
  le_bytes 4 4326 ++ [x01] ++ le_bytes 4 1 ++ le_bytes 8 lon_bits
  ++ le_bytes 8 lat_bits.

(** A nine-column layout: the point with a four-byte length prefix,
    seven one-byte columns, then the JSON vector with a two-byte length
    prefix at index 8. *)
Definition example_point : FieldInfo :=
  {| type := MYSQL_TYPE_GEOMETRY; is_nullable := false; length_bytes := 4;
     pack_length := 12 |}.
Definition example_fixed : FieldInfo :=
  {| type := 1; is_nullable := false; length_bytes := 0; pack_length := 1 |}.
Definition example_json : FieldInfo :=
  {| type := MYSQL_TYPE_JSON; is_nullable := false; length_bytes := 2;
     pack_length := 10 |}.
Definition example_layout : list FieldInfo :=
  [example_point] ++ replicate 7 example_fixed ++ [example_json].
Definition example_config : TableConfig :=
  {| has_ttl := false; null_bytes_length := 0; has_unpack_info := false |}.

(** The row value of a point and a vector under [example_layout]. *)
Definition example_row (lon_bits lat_bits : Z) (xs : list Z) : list byte :=
  le_bytes 4 25 ++ wkb_point lon_bits lat_bits ++ replicate 7 x00
  ++ le_bytes 2 (Z.of_nat (length (json_int16_array xs)))
  ++ json_int16_array xs.

(** The bits of the double 1.0. *)
Definition BITS_1_0 : Z := 0x3FF0000000000000.

(** Two nine-column layouts whose only nullable column is the last, a
    four-byte integer, so that the null bitmap has one byte.  The eight
    columns before it take one byte each in [nullable_layout] and no
    byte (CHAR(0) NOT NULL) in [char0_layout]. *)
Definition example_nullable_int : FieldInfo :=
  {| type := 3; is_nullable := true; length_bytes := 0; pack_length := 4 |}.
Definition example_char0 : FieldInfo :=
  {| type := 254; is_nullable := false; length_bytes := 0; pack_length := 0 |}.
Definition nullable_layout : list FieldInfo :=
  replicate 8 example_fixed ++ [example_nullable_int].
Definition char0_layout : list FieldInfo :=
  replicate 8 example_char0 ++ [example_nullable_int].
Definition nullable_config : TableConfig :=
  {| has_ttl := false; null_bytes_length := 1; has_unpack_info := false |}.

(** A row under [nullable_layout] in which no field is null: the bitmap
    00, the eight one-byte columns, the first of them [b], and the
    integer 42. *)
Definition nullable_row (b : byte) : list byte :=
  [x00; b; x02; x03; x04; x05; x06; x07; x08] ++ le_bytes 4 42.

(** The three rows [a = [0,0]], [b = [1,0]], [c = [0,3]] under the keys
    "a", "b", "c", all at the point (0, 0), with a row of empty value
    between them. *)
Definition example_lsm_index : Rdb_vector_index_lsm :=
  {| lsm_dimension := 2;
     lsm_table_info := Some (example_layout, example_config);
     lsm_rows := fun _ _ _ =>
       [([x61], example_row 0 0 [0; 0]); ([x62], example_row 0 0 [1; 0]);
        ([x7a], []); ([x63], example_row 0 0 [0; 3])] |}.

Definition example_params (k : Z) : Rdb_vector_search_params :=
  {| m_metric := METRIC_L2; m_k := k; m_nprobe := 1;
     m_weight := (1 # 100000000000)%Q;
     m_query_coordinate := wkb_point 0 0 |}.

(** Two rows for the hybrid search: [r1] with [v = [1,0]] at (0, 0) and
    [r2] with [v = [0,0]] at (0, 1 degree). *)
Definition example_hybrid_index : Rdb_vector_index_lsm :=
  {| lsm_dimension := 2;
     lsm_table_info := Some (example_layout, example_config);
     lsm_rows := fun _ _ _ =>
       [([x72; x31], example_row 0 0 [1; 0]);
        ([x72; x32], example_row 0 BITS_1_0 [0; 0])] |}.

(** *** Floats with NaN

    The rational interpretation with one more value, NaN ([None]): an
    operation on a NaN gives a NaN, [operator<] is false whenever one
    side is a NaN, and the bits of a double with all exponent bits set
    and a mantissa that is not zero are a NaN. *)

Definition nan_lift1 (f : Q → Q) (x : option Q) : option Q := f <$> x.
Definition nan_lift2 (f : Q → Q → Q) (x y : option Q) : option Q :=
  match x, y with
  | Some a, Some b => Some (f a b)
  | _, _ => None
  end.

Definition nan_ltb (x y : option Q) : bool :=
  match x, y with
  | Some a, Some b => q_ltb a b
  | _, _ => false
  end.

Definition nan_of_double_bits (bits : Z) : option Q :=
  let e := Z.land (Z.shiftr bits 52) 2047 in
  let m := Z.land bits (2 ^ 52 - 1) in
  if (e =? 2047) && negb (m =? 0) then None
  else Some (q_of_double_bits bits).

Definition NanFloat : FloatArith := {|
  f32 := option Q;
  f64 := option Q;
  f32_zero := Some 0%Q;
  f32_add := nan_lift2 (fun x y => Qred (x + y));
  f32_sub := nan_lift2 (fun x y => Qred (x - y));
  f32_mul := nan_lift2 (fun x y => Qred (x * y));
  f32_ltb := nan_ltb;
  f32_of_Z z := Some (inject_Z z);
  f64_of_Z z := Some (inject_Z z);
  f64_of_Q q := Some (Qred q);
  f64_of_bits := nan_of_double_bits;
  f64_to_f32 x := x;
  f32_to_f64 x := x;
  f64_trunc x := (fun q => Z.quot (Qnum q) (Z.pos (Qden q))) <$> x;
  f64_is_zero x := match x with Some q => Qnum q =? 0 | None => false end;
  f64_add := nan_lift2 (fun x y => Qred (x + y));
  f64_sub := nan_lift2 (fun x y => Qred (x - y));
  f64_mul := nan_lift2 (fun x y => Qred (x * y));
  f64_div := nan_lift2 (fun x y => Qred (x / y));
  f64_pi := Some (884279719003555 # 281474976710656)%Q;
  f64_sin := nan_lift1 (fun x => x);
  f64_cos := nan_lift1 (fun _ => 1%Q);
  f64_sqrt := nan_lift1 q_sqrt;
  f64_atan2 := nan_lift2 (fun y x => Qred (y / x));
|}.

(** The bits of the quiet NaN. *)
Definition BITS_NAN : Z := 0x7FF8000000000000.

(** A small JSON array of one double, which stands after the value
    entry, at offset 7 + 1. *)
Definition json_double_array (bits : Z) : list byte :=
  [x02; x01; x00; x10; x00; x0b; x07; x00] ++ le_bytes 8 bits.

(** The row value of the vector [[NaN]] under [example_layout]. *)
Definition example_nan_row : list byte :=
  le_bytes 4 25 ++ wkb_point 0 0 ++ replicate 7 x00
  ++ le_bytes 2 (Z.of_nat (length (json_double_array BITS_NAN)))
  ++ json_double_array BITS_NAN.

(** Four rows of dimension 1, [a = [3]], [b = [NaN]], [c = [1]] and
    [d = [5]], and a search for the four nearest. *)
Section NanExample.
#[local] Existing Instance NanFloat.

Definition example_nan_index : Rdb_vector_index_lsm :=
  {| lsm_dimension := 1;
     lsm_table_info := Some (example_layout, example_config);
     lsm_rows := fun _ _ _ =>
       [([x61], example_row 0 0 [3]); ([x62], example_nan_row);
        ([x63], example_row 0 0 [1]); ([x64], example_row 0 0 [5])] |}.

Definition example_nan_params : Rdb_vector_search_params :=
  {| m_metric := METRIC_L2; m_k := 4; m_nprobe := 1;
     m_weight := Some 0%Q; m_query_coordinate := wkb_point 0 0 |}.

End NanExample.

Definition example_env : query_env :=
  {| env_thd := true; env_killed_at := fun _ => false;
     env_pk_index_cond := None |}.

(** A session with limit [k] on the query vector [buffer], the query
    point (0, 0) and the weight [1e-11]. *)
Definition example_handler (buffer : list Q) (k : Z) : Rdb_vector_db_handler :=
  {| m_buffer := buffer; m_search_result := [];
     m_search_result_with_value := [];
     m_vector_db_result_iter := 0; m_vector_db_result_with_value_iter := 0;
     h_metric := METRIC_L2; m_limit := k; h_nprobe := 1;
     h_weight := (1 # 100000000000)%Q;
     h_query_coordinate := wkb_point 0 0 |}.

(** The rows of a scan that reach the decoders: those whose value is
    not empty. *)
Definition matched_rows (rows : list (list byte * list byte)) : Z :=
  Z.of_nat (length (filter (fun r => length r.2 ≠ 0%nat) rows)).

(** An IVF index with code size 8 whose quantizer probes list 0.  The
    inverted list holds the given records; the distance of a code is its
    first byte. *)
Definition example_ivf_index (records : list (list byte * list byte))
    : Rdb_vector_index_ivf :=
  {| ivf_index_id := 7; ivf_dimension := 2; ivf_code_size := 8;
     ivf_quantizer := fun _ _ => [0];
     ivf_distance := fun _ _ codes =>
       match codes with
       | b :: _ => inject_Z (byte_to_Z b)
       | [] => 0%Q
       end;
     ivf_cf := fun list_no => if list_no =? 0 then records else [] |}.

(** The key of the primary key [pk] (given without its index id) in
    list 0 of [example_ivf_index]. *)
Definition example_key (pk : list byte) : list byte :=
  write_inverted_list_item_key 7 0 (be_bytes 4 7 ++ pk).

(** A predicate that every record passes. *)
Definition accept_all : pk_index_cond :=
  {| unpack_record := fun _ _ => None; val_int := fun _ _ => 1 |}.

Definition env_with_cond : query_env :=
  {| env_thd := true; env_killed_at := fun _ => false;
     env_pk_index_cond := Some accept_all |}.

(** A session killed from its [n]-th availability check on. *)
Definition env_killed_from (n : nat) : query_env :=
  {| env_thd := true; env_killed_at := fun clock => bool_decide (n ≤ clock)%nat;
     env_pk_index_cond := None |}.

(** ** The field loop of the decoder, field by field

    What [DecodeFieldFromValue] computes, told by positions in the value
    instead of the pointer and the bytes that remain: [cursor_field] is
    one iteration of the loop, the slice of the field and the position
    after it; [cursor_walk] the iterations in order;
    [decode_fields_walk] the whole call, each requested index answered
    by the slice of its field.  The null bit is the one the code reads,
    [field_is_null]. *)
Definition cursor_field (value : list byte) (null_bytes : option nat)
    (field_info : FieldInfo) (i pos : nat) : outcome (Slice * nat) :=
  is_null ← field_is_null value null_bytes field_info i;
  if (is_null : bool) then Ok (Slice_default, pos)
  else if is_variable_length field_info then
    if decide (length value < pos + length_bytes field_info)%nat
    then Err HA_ERR_ROCKSDB_CORRUPT_DATA
    else
      len ← read_field_length value pos field_info;
      let start := (pos + length_bytes field_info)%nat in
      if decide (Z.of_nat (length value) < Z.of_nat start + len)
      then Err HA_ERR_ROCKSDB_CORRUPT_DATA
      else Ok (Slice_at start (Z.to_nat len), (start + Z.to_nat len)%nat)
  else
    if decide (length value < pos + pack_length field_info)%nat
    then Err HA_ERR_ROCKSDB_CORRUPT_DATA
    else Ok (Slice_at pos (pack_length field_info),
             (pos + pack_length field_info)%nat).

Fixpoint cursor_walk (value : list byte) (null_bytes : option nat)
    (fields : list FieldInfo) (i pos : nat) : outcome (list Slice) :=
  match fields with
  | [] => Ok []
  | field_info :: rest =>
      '(s, pos) ← cursor_field value null_bytes field_info i pos;
      slices ← cursor_walk value null_bytes rest (S i) pos;
      Ok (s :: slices)
  end.

Definition decode_fields_walk (table_config : TableConfig)
    (field_info_list : list FieldInfo) (field_indexs : list nat)
    (value : list byte) : outcome (list Slice) :=
  let ttl := if has_ttl table_config then 8%nat else 0%nat in
  let nbl := null_bytes_length table_config in
  if decide (length value < ttl)%nat then Err HA_ERR_ROCKSDB_CORRUPT_DATA
  else if decide (length value < ttl + nbl)%nat
  then Err HA_ERR_ROCKSDB_CORRUPT_DATA
  else
    let null_bytes := if decide (0 < nbl)%nat then Some ttl else None in
    if decide (field_indexs = []) then Ok []
    else if decide (Forall (fun idx => idx < length field_info_list)%nat
                      field_indexs)
    then
      slices ← cursor_walk value null_bytes
                 (take (S (max_list field_indexs)) field_info_list) 0
                 (ttl + nbl)%nat;
      Ok ((fun idx => default Slice_default (slices !! idx)) <$> field_indexs)
    else Err HA_ERR_ROCKSDB_CORRUPT_DATA.

(** The null bitmap's offset in the value, as the decoder captures it. *)
Definition null_bytes_of (table_config : TableConfig) : option nat :=
  if decide (0 < null_bytes_length table_config)%nat
  then Some (if has_ttl table_config then 8%nat else 0%nat)
  else None.

(** ** The row-value decoder in the words of the specification

    "A row value begins with an optional 8-byte TTL, then a null-bitmap
    of [ceil(nullable_fields/8)] bytes, then fields in declared order.
    Bit [i] of the null bitmap covers the i-th field if declared
    nullable; a set bit means the field is absent from the payload."

    "Advance a cursor: skip TTL (8 bytes) if layout has TTL; capture
    null bitmap; advance the cursor field by field up to
    [max(field_indices)].  For each field: if the null-bit is set, emit
    an empty slice for this position and do not advance payload.
    Otherwise read the length prefix if variable-length, bounds-check,
    capture the slice into the output position if requested, advance
    cursor by payload length (fixed: [pack_length]; variable: length
    read).  Fields past [max(field_indices)] are not parsed."

    The bitmap is the [null_bytes_length] bytes after the TTL and
    nothing else: a bit that these bytes do not have is not set.  The
    length prefix is the little-endian integer of [length_bytes]
    bytes. *)
Definition nullable_fields (field_info_list : list FieldInfo) : nat :=
  length (filter (fun field_info => is_nullable field_info = true)
            field_info_list).

(** Invariant (iv) of the data model: the length of the null bitmap is
    [ceil(nullable_fields/8)]. *)
Definition null_bitmap_agreed (table_config : TableConfig)
    (field_info_list : list FieldInfo) : Prop :=
  null_bytes_length table_config
  = ((nullable_fields field_info_list + 7) / 8)%nat.

Definition spec_null_bitmap (table_config : TableConfig) (value : list byte)
    : list byte :=
  take (null_bytes_length table_config)
    (drop (if has_ttl table_config then 8 else 0)%nat value).

Definition spec_null_bit (bitmap : list byte) (field_info : FieldInfo)
    (i : nat) : bool :=
  is_nullable field_info
  && match bitmap !! (i / 8)%nat with
     | Some b => Z.testbit (byte_to_Z b) (Z.of_nat (i mod 8))
     | None => false
     end.

Definition spec_field (value bitmap : list byte) (field_info : FieldInfo)
    (i pos : nat) : outcome (Slice * nat) :=
  if spec_null_bit bitmap field_info i then Ok (Slice_default, pos)
  else if is_variable_length field_info then
    if decide (length value < pos + length_bytes field_info)%nat
    then Err HA_ERR_ROCKSDB_CORRUPT_DATA
    else
      len ← read_le value pos (length_bytes field_info);
      let start := (pos + length_bytes field_info)%nat in
      if decide (Z.of_nat (length value) < Z.of_nat start + len)
      then Err HA_ERR_ROCKSDB_CORRUPT_DATA
      else Ok (Slice_at start (Z.to_nat len), (start + Z.to_nat len)%nat)
  else
    if decide (length value < pos + pack_length field_info)%nat
    then Err HA_ERR_ROCKSDB_CORRUPT_DATA
    else Ok (Slice_at pos (pack_length field_info),
             (pos + pack_length field_info)%nat).

Fixpoint spec_walk (value bitmap : list byte) (fields : list FieldInfo)
    (i pos : nat) : outcome (list Slice) :=
  match fields with
  | [] => Ok []
  | field_info :: rest =>
      '(s, pos) ← spec_field value bitmap field_info i pos;
      slices ← spec_walk value bitmap rest (S i) pos;
      Ok (s :: slices)
  end.

Definition decode_fields_spec (table_config : TableConfig)
    (field_info_list : list FieldInfo) (field_indexs : list nat)
    (value : list byte) : outcome (list Slice) :=
  let ttl := if has_ttl table_config then 8%nat else 0%nat in
  let nbl := null_bytes_length table_config in
  if decide (length value < ttl)%nat then Err HA_ERR_ROCKSDB_CORRUPT_DATA
  else if decide (length value < ttl + nbl)%nat
  then Err HA_ERR_ROCKSDB_CORRUPT_DATA
  else
    if decide (field_indexs = []) then Ok []
    else if decide (Forall (fun idx => idx < length field_info_list)%nat
                      field_indexs)
    then
      slices ← spec_walk value (spec_null_bitmap table_config value)
                 (take (S (max_list field_indexs)) field_info_list) 0
                 (ttl + nbl)%nat;
      Ok ((fun idx => default Slice_default (slices !! idx)) <$> field_indexs)
    else Err HA_ERR_ROCKSDB_CORRUPT_DATA.

(** A slice lies inside the value. *)
Definition slice_in_value (value : list byte) (s : Slice) : Prop :=
  match s with
  | Slice_default => True
  | Slice_at off len => (off + len ≤ length value)%nat
  end.

(** The stores of the field loop for the fields from [i] on. *)
Fixpoint store_all (index_to_result_pos : gmap nat nat) (i : nat)
    (slices : list Slice) (field_values : list Slice) : list Slice :=
  match slices with
  | [] => field_values
  | s :: slices' =>
      store_all index_to_result_pos (S i) slices'
        (store_target index_to_result_pos i s field_values)
  end.

(** ** Notions the theorems are stated with *)

(** The same scan outcome with one more key counted. *)
Definition one_more_key {FA : FloatArith} (scan : outcome (list PqElement * Z))
    : outcome (list PqElement * Z) :=
  match scan with
  | Ok (top_k_heap, keys_scanned) => Ok (top_k_heap, keys_scanned + 1)
  | other => other
  end.

(** [a] is not below [b] in the order of the queue. *)
Definition not_below {A : Type} (cmp : A → A → bool) (a b : A) : Prop :=
  cmp a b = false.

(** [a]'s score is not above [b]'s: [!(b.score < a.score)], which for a
    strict weak ordering is [a.score <= b.score]. *)
Definition score_le {FA : FloatArith} (a b : result_row) : Prop :=
  f32_ltb b.2.1 a.2.1 = false.

(** The scores of the rows a call returned are non-decreasing: for every
    adjacent pair, [result[i+1].score < result[i].score] is false. *)
Definition non_decreasing {FA : FloatArith}
    (r : call_result (list result_row)) : Prop :=
  match r with
  | Returned _ result =>
      ∀ (i : nat) (a b : result_row),
        result !! i = Some a → result !! S i = Some b → score_le a b
  | Crashed _ => True
  end.

(** The key and the score of each row a call returned. *)
Definition keys_and_scores {FA : FloatArith} (r : call_result (list result_row))
    : option (ha_code * list (list byte * f32)) :=
  match r with
  | Returned rtn result =>
      Some (rtn, (fun row : result_row => (row.1, row.2.1)) <$> result)
  | Crashed _ => None
  end.

(** What a call that scanned [rows] with heap bound [k] leaves in
    [result]: [min(k, matched_rows)] rows on success, none on an error. *)
Definition result_size_is {FA : FloatArith} (k : Z)
    (rows : list (list byte * list byte)) (r : call_result (list result_row))
    : Prop :=
  match r with
  | Returned HA_EXIT_SUCCESS result =>
      Z.of_nat (length result) = Z.min k (matched_rows rows)
  | Returned (HA_ERROR _) result => result = []
  | Crashed _ => True
  end.

(** The code a session call returned and the number of rows its cursor
    then walks. *)
Definition returned_row_count {FA : FloatArith}
    (r : call_result Rdb_vector_db_handler) : option (ha_code * nat) :=
  match r with
  | Returned rtn h => Some (rtn, length (m_search_result_with_value h))
  | Crashed _ => None
  end.

(** The session [h] with another query vector. *)
Definition set_buffer {FA : FloatArith} (h : Rdb_vector_db_handler)
    (buffer : list f32) : Rdb_vector_db_handler :=
  with_results h buffer (m_search_result h) (m_search_result_with_value h)
    (m_vector_db_result_iter h) (m_vector_db_result_with_value_iter h).

(** The session after a call that stopped before the index was used:
    the results cleared as on entry, the query vector as it was. *)
Definition refused_knn {FA : FloatArith} (h : Rdb_vector_db_handler)
    : Rdb_vector_db_handler :=
  with_results h (m_buffer h) [] [] 0 0.
Definition refused_hybrid {FA : FloatArith} (h : Rdb_vector_db_handler)
    : Rdb_vector_db_handler :=
  with_results h (m_buffer h) (m_search_result h) []
    (m_vector_db_result_iter h) 0.

(** The value type of the [i]-th entry of a small array. *)
Definition small_entry_type (data : list byte) (i : Z) : option Z :=
  byte_to_Z <$> data !! Z.to_nat (5 + i * 3).

(** A length prefix or a payload that does not fit in what remains of
    the value. *)
Definition field_overruns (value : list byte) (field_info : FieldInfo)
    (st : decode_state) : Prop :=
  if is_variable_length field_info then
    (ds_remaining st < length_bytes field_info)%nat
    ∨ ∃ len, read_field_length value (ds_pos st) field_info = Ok len
             ∧ Z.of_nat (ds_remaining st - length_bytes field_info) < len
  else (ds_remaining st < pack_length field_info)%nat.

(** The layouts on which the code reads what the specification
    describes: the null bitmap has the byte [i / 8] for every nullable
    field [i], a variable string has a length prefix of 1 or 2 bytes, a
    blob, JSON or geometry one of 1 to 4 bytes. *)
Definition field_well_formed (table_config : TableConfig) (i : nat)
    (field_info : FieldInfo) : Prop :=
  (is_nullable field_info = true →
   null_bytes_length table_config = 0%nat
   ∨ (i / 8 < null_bytes_length table_config)%nat)
  ∧ (is_variable_length field_info = true →
     if decide (type field_info = MYSQL_TYPE_VARCHAR)
     then length_bytes field_info = 1%nat ∨ length_bytes field_info = 2%nat
     else (1 ≤ length_bytes field_info ≤ 4)%nat).

Definition layout_well_formed (table_config : TableConfig)
    (field_info_list : list FieldInfo) : Prop :=
  ∀ i field_info, field_info_list !! i = Some field_info →
                  field_well_formed table_config i field_info.

(** A record of an inverted list whose value is shorter than the code
    size. *)
Definition short_value (code_size : Z) (record : list byte * list byte) : Prop :=
  Z.of_nat (length record.2) < code_size.

(** A search context without a pushed-down predicate whose recorded
    error, if any, is CorruptData. *)
Definition context_ok (ctx : Rdb_faiss_inverted_list_context) : Prop :=
  m_pk_index_cond ctx = None
  ∧ (m_error ctx = None ∨ m_error ctx = Some HA_ERR_ROCKSDB_CORRUPT_DATA).

(** ** Further notions the theorems are stated with *)

(** What the pushed-down predicate says of one record of a list: the
    record is read by [get_key_and_value], unpacked, and the condition
    evaluated; an error of either step is the verdict. *)
Definition predicate_verdict {KD : Rdb_key_def_tags} (cond : pk_index_cond)
    (index_id list_id code_size : Z) (record : list byte * list byte)
    : outcome bool :=
  '(sk, sk_value) ←
    get_key_and_value {| m_index_id := index_id; m_list_id := list_id;
                         m_code_size := code_size; m_iterator := [record] |} true;
  match unpack_record cond sk sk_value with
  | Some e => Err e
  | None => Ok (negb (val_int cond sk sk_value =? 0))
  end.

(** The iterator moved to the records [records]. *)
Definition iterator_at (it : Rdb_vector_iterator)
    (records : list (list byte * list byte)) : Rdb_vector_iterator :=
  {| m_index_id := m_index_id it; m_list_id := m_list_id it;
     m_code_size := m_code_size it; m_iterator := records |}.

(** A predicate that accepts the records whose key ends with [b]. *)
Definition accept_last (b : byte) : pk_index_cond :=
  {| unpack_record := fun _ _ => None;
     val_int := fun sk _ =>
       match last sk with
       | Some c => if Byte.eqb c b then 1 else 0
       | None => 0
       end |}.

(** An iterator of list 0 of [example_ivf_index] over the given
    records. *)
Definition example_iterator (records : list (list byte * list byte))
    : Rdb_vector_iterator :=
  {| m_index_id := 7; m_list_id := 0; m_code_size := 8; m_iterator := records |}.

(** The context after [add_key] has been called on each of [keys], in
    that order. *)
Definition add_keys (keys : list (list byte))
    (c : Rdb_faiss_inverted_list_context) : Rdb_faiss_inverted_list_context :=
  fold_left (fun c key => (add_key key c).2) keys c.

(** What faiss hands back for the vectors it kept: the ids of the keys
    at the positions [picks] (ids are given out from 1024 on), each with
    its distance. *)
Definition picked_ids {F : Type} (picks : list (nat * F)) : list (Z * F) :=
  (fun p => (1024 + Z.of_nat p.1, p.2)) <$> picks.

Definition picked_rows {F : Type} (keys : list (list byte))
    (picks : list (nat * F)) : list (list byte * F) :=
  (fun p => (default [] (keys !! p.1), p.2)) <$> picks.

Section ScanNotions.
Context {FA : FloatArith} {MEM : Memory}.

(** The score [knn_search_with_value] and [index_scan_with_value] give a
    row: field 8 of the value, decoded as an array of floats, and its
    squared L2 distance to the query. *)
Definition knn_row_score (table_config : TableConfig)
    (field_info_list : list FieldInfo) (query_vector : list f32)
    (value : list byte) : outcome f32 :=
  index_fields ← or_corrupt
    (DecodeFieldFromValue table_config field_info_list [8%nat] value);
  index_field ← vector_at index_fields 0;
  row_vector_distance query_vector value index_field.

(** The two distances [knn_search_hybrid_with_value] computes for a row:
    the squared L2 distance of its vector and the great-circle distance
    of its point. *)
Definition hybrid_row_distances (table_config : TableConfig)
    (field_info_list : list FieldInfo) (field_indexes_to_extract : list nat)
    (spatial_field_index vector_field_index : option nat)
    (query_coordinates : f32 * f32) (query_vector : list f32)
    (value : list byte) : outcome (f32 * f32) :=
  index_fields ← or_corrupt
    (DecodeFieldFromValue table_config field_info_list
       field_indexes_to_extract value);
  vi ← initialized vector_field_index;
  index_field ← vector_at index_fields vi;
  vector_data ← or_corrupt
    (ExtractVectorFromJson T_float (slice_bytes value index_field));
  si ← initialized spatial_field_index;
  index_field_spatial ← vector_at index_fields si;
  lon ← slice_read_double value index_field_spatial 9;
  lat ← slice_read_double value index_field_spatial 17;
  let distance_spatial :=
    f64_to_f32
      (st_distance_simple (f32_to_f64 query_coordinates.1)
         (f32_to_f64 query_coordinates.2) lon lat) in
  distance ← fvec_L2sqr query_vector (float_elems vector_data)
               (length query_vector);
  Ok (distance, distance_spatial).

(** A row of the result as the queue held it. *)
Definition row_of_element (top : PqElement) : result_row :=
  (top.2.1, (top.1, top.2.2)).

(** Every element of the heap is a scanned row with its own score. *)
Definition heap_sound (table_config : TableConfig)
    (field_info_list : list FieldInfo) (query_vector : list f32)
    (rows : list (list byte * list byte)) (h : list PqElement) : Prop :=
  ∀ d key value, (d, (key, value)) ∈ h →
    (key, value) ∈ rows ∧ length value ≠ 0%nat
    ∧ knn_row_score table_config field_info_list query_vector value = Ok d.

(** A row that is not in the heap is outranked: the heap is full and
    none of its elements has a greater score. *)
Definition kept_or_outranked (k : Z) (h : list PqElement) (x : PqElement)
    : Prop :=
  x ∈ h ∨ (¬ Z.of_nat (length h) < k ∧ ∀ y, y ∈ h → cmp x y = false).

(** Every element of the heap of the hybrid scan is a scanned row with
    the combined score of its two distances. *)
Definition hybrid_heap_sound (table_config : TableConfig)
    (field_info_list : list FieldInfo) (field_indexes_to_extract : list nat)
    (spatial_field_index vector_field_index : option nat)
    (query_coordinates : f32 * f32) (query_vector : list f32) (m_weight : f32)
    (rows : list (list byte * list byte)) (h : list PqElement) : Prop :=
  ∀ s key value, (s, (key, value)) ∈ h →
    (key, value) ∈ rows ∧ length value ≠ 0%nat
    ∧ ∃ distance distance_spatial,
        hybrid_row_distances table_config field_info_list
          field_indexes_to_extract spatial_field_index vector_field_index
          query_coordinates query_vector value
        = Ok (distance, distance_spatial)
        ∧ s = f32_add distance (f32_mul m_weight distance_spatial).

End ScanNotions.

(** ** Iterator over the probed lists: [Rdb_vector_list_iterator] *)

Section ListIterator.
Context {KD : Rdb_key_def_tags}.

(** [Rdb_vector_list_iterator].  The fields are the class's
    [m_index_id], [m_code_size], [m_cf], [m_context], [m_list_ids] from
    [m_list_id_iter] on, [m_current_iterator] ([None] for [nullptr]) and
    [m_error]; [li_cf] gives the records of a list within the bounds the
    constructor of [Rdb_vector_iterator] sets. *)
Record Rdb_vector_list_iterator : Type := {
  li_index_id : Z;
  li_code_size : Z;
  li_cf : Z → list (list byte * list byte);
  li_context : Rdb_faiss_inverted_list_context;
  li_list_ids : list Z;
  li_current_iterator : option Rdb_vector_iterator;
  li_error : option ha_error;
}.

(** [new Rdb_vector_iterator(&m_context, m_index_id, m_cf, m_code_size,
    list_id)]: the iterator is positioned by [SeekToFirst]. *)
Definition new_vector_iterator (index_id code_size : Z)
    (cf : Z → list (list byte * list byte)) (list_id : Z) : Rdb_vector_iterator :=
  {| m_index_id := index_id; m_list_id := list_id; m_code_size := code_size;
     m_iterator := cf list_id |}.

(** [m_current_iterator != nullptr && m_current_iterator->is_available()];
    [clock] counts the availability checks of inverted-list iterators,
    each of which reads [thd->killed]. *)
Definition current_is_available (killed_at : nat → bool) (clock : nat)
    (ctx : Rdb_faiss_inverted_list_context) (cur : option Rdb_vector_iterator)
    : outcome (bool * nat * Rdb_faiss_inverted_list_context
               * option Rdb_vector_iterator) :=
  match cur with
  | None => Ok (false, clock, ctx, None)
  | Some it =>
      '(available, ctx, it) ← is_available (killed_at clock) ctx it;
      Ok (available, S clock, ctx, Some it)
  end.

(** The [while] loop of [Rdb_vector_list_iterator::is_available]: as
    long as there is no current iterator or it is not available, the
    next list id, unless it is negative, gets a fresh iterator. *)
Fixpoint list_iterator_loop (index_id code_size : Z)
    (cf : Z → list (list byte * list byte)) (error : option ha_error)
    (killed_at : nat → bool) (list_ids : list Z) (clock : nat)
    (ctx : Rdb_faiss_inverted_list_context) (cur : option Rdb_vector_iterator)
    : outcome (nat * Rdb_faiss_inverted_list_context
               * option Rdb_vector_iterator * list Z) :=
  '(available, clock, ctx, cur) ← current_is_available killed_at clock ctx cur;
  if (available : bool) then Ok (clock, ctx, cur, list_ids)
  else if bool_decide (is_Some error) then Ok (clock, ctx, cur, list_ids)
  else
    match list_ids with
    | [] => Ok (clock, ctx, cur, list_ids)
    | list_id :: rest =>
        if decide (list_id < 0) then Ok (clock, ctx, cur, list_ids)
        else
          list_iterator_loop index_id code_size cf error killed_at rest clock
            ctx (Some (new_vector_iterator index_id code_size cf list_id))
    end.

(** [Rdb_vector_list_iterator::is_available]: the answer, the clock and
    the iterator afterwards. *)
Definition list_iterator_is_available (killed_at : nat → bool) (clock : nat)
    (li : Rdb_vector_list_iterator)
    : outcome (bool * nat * Rdb_vector_list_iterator) :=
  if bool_decide (is_Some (li_error li)) then Ok (false, clock, li)
  else
    '(clock, ctx, cur, list_ids) ←
      list_iterator_loop (li_index_id li) (li_code_size li) (li_cf li)
        (li_error li) killed_at (li_list_ids li) clock (li_context li)
        (li_current_iterator li);
    '(available, clock, ctx, cur) ← current_is_available killed_at clock ctx cur;
    Ok (available, clock,
        {| li_index_id := li_index_id li; li_code_size := li_code_size li;
           li_cf := li_cf li; li_context := ctx; li_list_ids := list_ids;
           li_current_iterator := cur; li_error := li_error li |}).

(** What a member call can end in besides a result: a call through
    [m_current_iterator] or [m_index_scan_result_iter] while it is
    [nullptr], a result cursor dereferenced at [cend()], or a fault of
    the code called. *)
Inductive cursor_fault : Type :=
| NullIterator
| PastTheEnd
| Inner (f : fault).

Inductive cursor_result (A : Type) : Type :=
| Done (a : A)
| Undefined (why : cursor_fault).
Arguments Done {A} a.
Arguments Undefined {A} why.

(** [Rdb_vector_list_iterator::next] *)
Definition list_iterator_next (li : Rdb_vector_list_iterator)
    : cursor_result Rdb_vector_list_iterator :=
  match li_current_iterator li with
  | None => Undefined NullIterator
  | Some it =>
      Done {| li_index_id := li_index_id li; li_code_size := li_code_size li;
              li_cf := li_cf li; li_context := li_context li;
              li_list_ids := li_list_ids li;
              li_current_iterator := Some (iterator_next it);
              li_error := li_error li |}
  end.

(** [Rdb_vector_list_iterator::get_key]: the code, the key when there is
    one, and the iterator afterwards, which keeps an error. *)
Definition list_iterator_get_key (li : Rdb_vector_list_iterator)
    : cursor_result (ha_code * option (list byte) * Rdb_vector_list_iterator) :=
  match li_current_iterator li with
  | None => Undefined NullIterator
  | Some it =>
      match get_key_and_value it false with
      | Fault f => Undefined (Inner f)
      | Err rtn =>
          Done (HA_ERROR rtn, None,
                {| li_index_id := li_index_id li; li_code_size := li_code_size li;
                   li_cf := li_cf li; li_context := li_context li;
                   li_list_ids := li_list_ids li;
                   li_current_iterator := li_current_iterator li;
                   li_error := Some rtn |})
      | Ok (key, _) => Done (HA_EXIT_SUCCESS, Some key, li)
      end
  end.

End ListIterator.

Arguments Done {A} a.
Arguments Undefined {A} why.

(** [Rdb_vector_index_ivf::index_scan]: the quantizer picks the lists
    and the result iterator is made over them; the call itself always
    returns [HA_EXIT_SUCCESS]. *)
Definition ivf_index_scan {FA : FloatArith} (index : Rdb_vector_index_ivf)
    (env : query_env) (query_vector : list f32) (nprobe : Z)
    : Rdb_vector_list_iterator :=
  {| li_index_id := ivf_index_id index; li_code_size := ivf_code_size index;
     li_cf := ivf_cf index;
     li_context := new_context (env_thd env) (env_pk_index_cond env);
     li_list_ids := ivf_quantizer index query_vector nprobe;
     li_current_iterator := None; li_error := None |}.

(** The records the current iterator stands before. *)
Definition records_of (cur : option Rdb_vector_iterator)
    : list (list byte * list byte) :=
  match cur with None => [] | Some it => m_iterator it end.

(** The list iterator with other list ids left to visit. *)
Definition with_list_ids (li : Rdb_vector_list_iterator)
    (list_ids : list Z) : Rdb_vector_list_iterator :=
  {| li_index_id := li_index_id li; li_code_size := li_code_size li;
     li_cf := li_cf li; li_context := li_context li; li_list_ids := list_ids;
     li_current_iterator := li_current_iterator li; li_error := li_error li |}.

(** The records an index scan still has to present: what is left of the
    current list, then the lists up to the first negative id. *)
Fixpoint records_of_lists (cf : Z → list (list byte * list byte))
    (list_ids : list Z) : list (list byte * list byte) :=
  match list_ids with
  | [] => []
  | list_id :: rest =>
      if decide (list_id < 0) then [] else cf list_id ++ records_of_lists cf rest
  end.

Definition remaining_records (li : Rdb_vector_list_iterator)
    : list (list byte * list byte) :=
  match li_current_iterator li with
  | None => []
  | Some it => m_iterator it
  end ++ records_of_lists (li_cf li) (li_list_ids li).

(** An index scan that runs without a pushed-down predicate and has met
    no error. *)
Definition plain_scan (li : Rdb_vector_list_iterator) : Prop :=
  li_error li = None
  ∧ m_error (li_context li) = None
  ∧ m_pk_index_cond (li_context li) = None.

(** The list iterator standing on the records of the iterator [it], and
    the list iterator with the error [e] kept. *)
Definition with_current_iterator (li : Rdb_vector_list_iterator)
    (it : Rdb_vector_iterator) : Rdb_vector_list_iterator :=
  {| li_index_id := li_index_id li; li_code_size := li_code_size li;
     li_cf := li_cf li; li_context := li_context li;
     li_list_ids := li_list_ids li; li_current_iterator := Some it;
     li_error := li_error li |}.

Definition with_error (li : Rdb_vector_list_iterator)
    (e : ha_error) : Rdb_vector_list_iterator :=
  {| li_index_id := li_index_id li; li_code_size := li_code_size li;
     li_cf := li_cf li; li_context := li_context li;
     li_list_ids := li_list_ids li;
     li_current_iterator := li_current_iterator li; li_error := Some e |}.

(** ** The session: search dispatch, index scan and result cursor *)

Section Session.
Context {FA : FloatArith} {MEM : Memory} {KD : Rdb_key_def_tags}.

Inductive enum_fb_vector_search_type : Type :=
| FB_VECTOR_SEARCH_KNN_FIRST
| FB_VECTOR_SEARCH_INDEX_SCAN
| FB_VECTOR_SEARCH_KNN_HYBRID.

(** The two index-scan entries of the virtual interface
    [Rdb_vector_index], beside the entries of the k-NN searches.
    [index_scan] takes the incoming [index_scan_result_iter] and returns
    the outgoing one. *)
Record Rdb_vector_index_scans : Type := {
  knn_entries : Rdb_vector_index;
  index_scan :
    query_env → list f32 → Z → option Rdb_vector_list_iterator →
    call_result (option Rdb_vector_list_iterator);
  index_scan_with_value :
    query_env → list f32 → Z → list result_row → call_result (list result_row);
}.

(** [Rdb_vector_index_lsm] overrides [index_scan] to answer
    [HA_ERR_UNSUPPORTED]; [Rdb_vector_index_ivf] inherits the
    [index_scan_with_value] of the base class, which does the same. *)
Definition vector_index_scans_of_lsm (index : Rdb_vector_index_lsm)
    : Rdb_vector_index_scans :=
  {| knn_entries := vector_index_of_lsm index;
     index_scan := fun _ _ _ iter => unsupported iter;
     index_scan_with_value := fun _ query_vector nprobe _ =>
       lsm_index_scan_with_value index query_vector nprobe |}.

Definition vector_index_scans_of_ivf (index : Rdb_vector_index_ivf)
    : Rdb_vector_index_scans :=
  {| knn_entries := vector_index_of_ivf index;
     index_scan := fun env query_vector nprobe _ =>
       Returned HA_EXIT_SUCCESS (Some (ivf_index_scan index env query_vector nprobe));
     index_scan_with_value := fun _ _ _ result => unsupported result |}.

(** [Rdb_vector_db_handler] with the members the searches above leave
    out: [m_search_type] and [m_index_scan_result_iter]. *)
Record vector_session : Type := {
  session_handler : Rdb_vector_db_handler;
  m_search_type : enum_fb_vector_search_type;
  m_index_scan_result_iter : option Rdb_vector_list_iterator;
}.

Definition with_handler (s : vector_session) (h : Rdb_vector_db_handler)
    : vector_session :=
  {| session_handler := h; m_search_type := m_search_type s;
     m_index_scan_result_iter := m_index_scan_result_iter s |}.

Definition with_scan_iter (s : vector_session)
    (iter : option Rdb_vector_list_iterator) : vector_session :=
  {| session_handler := session_handler s; m_search_type := m_search_type s;
     m_index_scan_result_iter := iter |}.

(** [Rdb_vector_db_handler::index_scan] *)
Definition handler_index_scan (s : vector_session) (env : query_env)
    (index : Rdb_vector_index_scans) : call_result vector_session :=
  let h := session_handler s in
  if bool_decide (length (m_buffer h) = 0%nat)
  then Returned (HA_ERROR HA_ERR_END_OF_FILE) s
  else
    match check_dimension (m_buffer h) (knn_entries index) with
    | Fault f => Crashed f
    | Err e => Returned (HA_ERROR e) s
    | Ok buffer =>
        let h := with_results h buffer (m_search_result h)
                   (m_search_result_with_value h) (m_vector_db_result_iter h)
                   (m_vector_db_result_with_value_iter h) in
        match index_scan index env buffer (h_nprobe h)
                (m_index_scan_result_iter s) with
        | Crashed f => Crashed f
        | Returned (HA_ERROR HA_ERR_UNSUPPORTED) iter =>
            match index_scan_with_value index env buffer (h_nprobe h)
                    (m_search_result_with_value h) with
            | Crashed f => Crashed f
            | Returned HA_EXIT_SUCCESS with_value =>
                Returned HA_EXIT_SUCCESS
                  (with_scan_iter
                     (with_handler s
                        (with_results h buffer (m_search_result h) with_value
                           (m_vector_db_result_iter h) 0))
                     iter)
            | Returned rtn with_value =>
                Returned rtn
                  (with_scan_iter
                     (with_handler s
                        (with_results h buffer (m_search_result h) with_value
                           (m_vector_db_result_iter h)
                           (m_vector_db_result_with_value_iter h)))
                     iter)
            end
        | Returned rtn iter =>
            Returned rtn (with_scan_iter (with_handler s h) iter)
        end
    end.

Definition in_session (s : vector_session)
    (r : call_result Rdb_vector_db_handler) : call_result vector_session :=
  match r with
  | Returned rtn h => Returned rtn (with_handler s h)
  | Crashed f => Crashed f
  end.

(** [Rdb_vector_db_handler::search] *)
Definition handler_search (s : vector_session) (env : query_env)
    (index : Rdb_vector_index_scans) : call_result vector_session :=
  match m_search_type s with
  | FB_VECTOR_SEARCH_KNN_FIRST =>
      in_session s (handler_knn_search (session_handler s) env (knn_entries index))
  | FB_VECTOR_SEARCH_KNN_HYBRID =>
      in_session s
        (handler_knn_search_hybrid (session_handler s) env (knn_entries index))
  | FB_VECTOR_SEARCH_INDEX_SCAN => handler_index_scan s env index
  end.

(** [has_more_results]: a result cursor is compared with [cend()]; with
    no stored result in a scan the list iterator is asked, which moves
    it. *)
Definition has_more_results (killed_at : nat → bool) (clock : nat)
    (s : vector_session) : outcome (bool * nat * vector_session) :=
  let h := session_handler s in
  let more_with_value :=
    bool_decide (m_vector_db_result_with_value_iter h
                 ≠ length (m_search_result_with_value h)) in
  match m_search_type s with
  | FB_VECTOR_SEARCH_KNN_FIRST =>
      if bool_decide (m_search_result h ≠ [])
      then Ok (bool_decide (m_vector_db_result_iter h
                            ≠ length (m_search_result h)), clock, s)
      else Ok (more_with_value, clock, s)
  | _ =>
      if bool_decide (m_search_result_with_value h ≠ [])
      then Ok (more_with_value, clock, s)
      else
        match m_index_scan_result_iter s with
        | None => Ok (false, clock, s)
        | Some li =>
            '(available, clock, li) ← list_iterator_is_available killed_at clock li;
            Ok (available, clock, with_scan_iter s (Some li))
        end
  end.

(** [next_result] *)
Definition next_result (killed_at : nat → bool) (clock : nat)
    (s : vector_session) : cursor_result (nat * vector_session) :=
  match has_more_results killed_at clock s with
  | Fault f => Undefined (Inner f)
  | Err _ => Done (clock, s)
  | Ok (false, clock, s) => Done (clock, s)
  | Ok (true, clock, s) =>
      let h := session_handler s in
      let step_with_value :=
        with_handler s
          (with_results h (m_buffer h) (m_search_result h)
             (m_search_result_with_value h) (m_vector_db_result_iter h)
             (S (m_vector_db_result_with_value_iter h))) in
      match m_search_type s with
      | FB_VECTOR_SEARCH_KNN_FIRST =>
          if bool_decide (m_search_result h ≠ [])
          then Done (clock,
                     with_handler s
                       (with_results h (m_buffer h) (m_search_result h)
                          (m_search_result_with_value h)
                          (S (m_vector_db_result_iter h))
                          (m_vector_db_result_with_value_iter h)))
          else Done (clock, step_with_value)
      | _ =>
          if bool_decide (m_search_result_with_value h ≠ [])
          then Done (clock, step_with_value)
          else
            match m_index_scan_result_iter s with
            | None => Undefined NullIterator
            | Some li =>
                match list_iterator_next li with
                | Done li => Done (clock, with_scan_iter s (Some li))
                | Undefined why => Undefined why
                end
            end
      end
  end.

(** [*iter] of a result cursor. *)
Definition cursor_at {A : Type} (result : list A) (iter : nat) : cursor_result A :=
  match result !! iter with
  | Some row => Done row
  | None => Undefined PastTheEnd
  end.

(** [current_key]: the code, the key, and the session (a scan keeps an
    error of its iterator). *)
Definition current_key (s : vector_session)
    : cursor_result (ha_code * option (list byte) * vector_session) :=
  let h := session_handler s in
  let key_with_value :=
    match cursor_at (m_search_result_with_value h)
            (m_vector_db_result_with_value_iter h) with
    | Done row => Done (HA_EXIT_SUCCESS, Some row.1, s)
    | Undefined why => Undefined why
    end in
  match m_search_type s with
  | FB_VECTOR_SEARCH_KNN_FIRST =>
      if bool_decide (m_search_result h ≠ []) then
        match cursor_at (m_search_result h) (m_vector_db_result_iter h) with
        | Done row => Done (HA_EXIT_SUCCESS, Some row.1, s)
        | Undefined why => Undefined why
        end
      else key_with_value
  | _ =>
      if bool_decide (m_search_result_with_value h ≠ []) then key_with_value
      else
        match m_index_scan_result_iter s with
        | None => Undefined NullIterator
        | Some li =>
            match list_iterator_get_key li with
            | Done (rtn, key, li) => Done (rtn, key, with_scan_iter s (Some li))
            | Undefined why => Undefined why
            end
        end
  end.

(** [current_value] *)
Definition current_value (s : vector_session)
    : cursor_result (ha_code * option (list byte)) :=
  let h := session_handler s in
  if bool_decide (m_search_result_with_value h ≠ []) then
    match cursor_at (m_search_result_with_value h)
            (m_vector_db_result_with_value_iter h) with
    | Done row => Done (HA_EXIT_SUCCESS, Some row.2.2)
    | Undefined why => Undefined why
    end
  else Done (HA_ERROR HA_ERR_UNSUPPORTED, None).

(** [next_result] called [n] times. *)
Fixpoint next_results (killed_at : nat → bool) (n : nat) (clock : nat)
    (s : vector_session) : cursor_result (nat * vector_session) :=
  match n with
  | O => Done (clock, s)
  | S n' =>
      match next_result killed_at clock s with
      | Done (clock, s) => next_results killed_at n' clock s
      | Undefined why => Undefined why
      end
  end.

(** The rows the cursor walks when the session holds a stored result:
    those of [m_search_result] when a first-stage search filled it, else
    those of [m_search_result_with_value]; each with the value
    [current_value] can give for it. *)
Definition presented_rows (s : vector_session)
    : list (list byte * option (list byte)) :=
  let h := session_handler s in
  let with_value :=
    (fun row : result_row => (row.1, Some row.2.2))
      <$> m_search_result_with_value h in
  match m_search_type s with
  | FB_VECTOR_SEARCH_KNN_FIRST =>
      if bool_decide (m_search_result h ≠ [])
      then (fun row : list byte * f32 => (row.1, None)) <$> m_search_result h
      else with_value
  | _ => with_value
  end.

(** The cursor that is in use, as its distance from [cbegin()]. *)
Definition session_pos (s : vector_session) : nat :=
  let h := session_handler s in
  match m_search_type s with
  | FB_VECTOR_SEARCH_KNN_FIRST =>
      if bool_decide (m_search_result h ≠ [])
      then m_vector_db_result_iter h
      else m_vector_db_result_with_value_iter h
  | _ => m_vector_db_result_with_value_iter h
  end.

(** The session presents a stored result: after a first-stage search
    only one of the two result vectors is filled, and otherwise
    [m_search_result_with_value] is filled or there is no scan
    iterator. *)
Definition stored_results (s : vector_session) : Prop :=
  let h := session_handler s in
  match m_search_type s with
  | FB_VECTOR_SEARCH_KNN_FIRST =>
      m_search_result h ≠ [] → m_search_result_with_value h = []
  | _ => m_search_result_with_value h ≠ [] ∨ m_index_scan_result_iter s = None
  end.

(** What [current_value] answers for a presented row. *)
Definition value_answer (value : option (list byte))
    : ha_code * option (list byte) :=
  match value with
  | Some v => (HA_EXIT_SUCCESS, Some v)
  | None => (HA_ERROR HA_ERR_UNSUPPORTED, None)
  end.

End Session.

(** The call the session makes to the LSM engine for its search type:
    the query vector padded to the dimension, the limit as heap bound
    (five times the limit for a hybrid search), and for an index scan
    the probe count alone. *)
Definition lsm_engine_call {FA : FloatArith} {MEM : Memory}
    (index : Rdb_vector_index_lsm) (s : vector_session)
    : call_result (list result_row) :=
  let h := session_handler s in
  let buffer := resize_buffer (m_buffer h) (lsm_dimension index) in
  match m_search_type s with
  | FB_VECTOR_SEARCH_KNN_FIRST =>
      lsm_knn_search_with_value index buffer
        {| m_metric := h_metric h; m_k := m_limit h; m_nprobe := h_nprobe h;
           m_weight := f32_zero; m_query_coordinate := [] |}
  | FB_VECTOR_SEARCH_KNN_HYBRID =>
      lsm_knn_search_hybrid_with_value index buffer
        {| m_metric := h_metric h; m_k := wrap_unsigned 32 (m_limit h * 5);
           m_nprobe := h_nprobe h; m_weight := h_weight h;
           m_query_coordinate := h_query_coordinate h |}
  | FB_VECTOR_SEARCH_INDEX_SCAN =>
      lsm_index_scan_with_value index buffer (h_nprobe h)
  end.

(** A session of the given search type on the query vector [buffer]
    with limit [k], before any search. *)
Definition example_session (search_type : enum_fb_vector_search_type)
    (buffer : list Q) (k : Z) : vector_session :=
  {| session_handler := example_handler buffer k;
     m_search_type := search_type; m_index_scan_result_iter := None |}.

(** A session that holds two rows with their values. *)
Definition example_stored_session : vector_session :=
  {| session_handler :=
       with_results (example_handler [0%Q; 0%Q] 2) [0%Q; 0%Q] []
         [([x61], (0%Q, [x41])); ([x62], (1%Q, [x42]))] 0 0;
     m_search_type := FB_VECTOR_SEARCH_KNN_FIRST;
     m_index_scan_result_iter := None |}.

(** ** Index statistics: [analyze] and [dump_info] of the IVF index *)

(** [Rdb_vector_index_info], the row of the information schema. *)
Module Rdb_vector_index_info.
Record t : Type := {
  m_ntotal : Z;
  m_hit : Z;
  m_code_size : Z;
  m_nlist : Z;
  m_pq_m : Z;
  m_pq_nbits : Z;
  m_min_list_size : Z;
  m_max_list_size : Z;
  m_avg_list_size : Z;
  m_median_list_size : Z;
}.
End Rdb_vector_index_info.

(** The counters of [Rdb_vector_index_ivf] beside the index itself:
    [m_hit], [m_index_l2->nlist], the [pq.M] and [pq.nbits] of an IVFPQ
    index ([None] for the other types), and [m_list_size_stats], one
    [long] per list, [-1] until the list has been scanned. *)
Record Rdb_vector_index_ivf_counters : Type := {
  ivf_hit : Z;
  ivf_nlist : Z;
  ivf_pq : option (Z * Z);
  ivf_list_size_stats : list Z;
}.

(** The locals of the loop of [dump_info]: [ntotal], [min_list_size],
    [max_list_size] and [list_size_stats], all of them [uint]. *)
Record list_size_summary : Type := {
  ntotal : Z;
  min_list_size : option Z;
  max_list_size : option Z;
  list_size_stats : list Z;
}.

(** One iteration of [for (const auto &list_size : m_list_size_stats)].
    [list_size_value] is a [long]; it is compared as a [long] and stored
    as a [uint]. *)
Definition dump_info_step (acc : list_size_summary) (list_size_value : Z)
    : list_size_summary :=
  if decide (0 ≤ list_size_value) then
    {| ntotal := wrap_unsigned 32 (ntotal acc + list_size_value);
       min_list_size :=
         match min_list_size acc with
         | Some m =>
             if decide (list_size_value < m)
             then Some (wrap_unsigned 32 list_size_value) else Some m
         | None => Some (wrap_unsigned 32 list_size_value)
         end;
       max_list_size :=
         match max_list_size acc with
         | Some m =>
             if decide (m < list_size_value)
             then Some (wrap_unsigned 32 list_size_value) else Some m
         | None => Some (wrap_unsigned 32 list_size_value)
         end;
       list_size_stats :=
         list_size_stats acc ++ [wrap_unsigned 32 list_size_value] |}
  else acc.

Definition dump_info_loop (stats : list Z) : list_size_summary :=
  fold_left dump_info_step stats
    {| ntotal := 0; min_list_size := None; max_list_size := None;
       list_size_stats := [] |}.

(** [Rdb_vector_index_ivf::dump_info].  [std::sort] on unsigned integers
    gives the one ascending arrangement of the sizes. *)
Definition ivf_dump_info {FA : FloatArith} (index : Rdb_vector_index_ivf)
    (counters : Rdb_vector_index_ivf_counters) : Rdb_vector_index_info.t :=
  let acc := dump_info_loop (ivf_list_size_stats counters) in
  let sizes := list_size_stats acc in
  let avg_list_size :=
    if decide (sizes = []) then 0 else ntotal acc / Z.of_nat (length sizes) in
  let sorted := merge_sort Z.le sizes in
  let median_list_size :=
    if decide (sizes = []) then 0
    else default 0 (sorted !! (length sorted / 2)%nat) in
  {| Rdb_vector_index_info.m_ntotal := ntotal acc;
     Rdb_vector_index_info.m_hit := ivf_hit counters;
     Rdb_vector_index_info.m_code_size := ivf_code_size index;
     Rdb_vector_index_info.m_nlist := ivf_nlist counters;
     Rdb_vector_index_info.m_pq_m :=
       match ivf_pq counters with Some (m, _) => m | None => 0 end;
     Rdb_vector_index_info.m_pq_nbits :=
       match ivf_pq counters with Some (_, nbits) => nbits | None => 0 end;
     Rdb_vector_index_info.m_min_list_size := default 0 (min_list_size acc);
     Rdb_vector_index_info.m_max_list_size := default 0 (max_list_size acc);
     Rdb_vector_index_info.m_avg_list_size := avg_list_size;
     Rdb_vector_index_info.m_median_list_size := median_list_size |}.

(** The sizes of the lists that have been scanned, and their sum. *)
Definition scanned_sizes (stats : list Z) : list Z :=
  filter (fun v => 0 ≤ v) stats.

Definition sum_sizes (sizes : list Z) : Z := foldr Z.add 0 sizes.

Section Analyze.
Context {FA : FloatArith} {MEM : Memory} {KD : Rdb_key_def_tags}.

(** How the [while] loop over one list of [analyze] ends: with a
    [return] from the function, or at the end of the list with the
    counters [list_size] and [ntotal] (a [size_t] and a [uint64_t]). *)
Inductive analyze_list_result : Type :=
| Analyze_return (rtn : ha_code)
| Analyze_list_end (list_size ntotal : Z) (clock reads : nat).

(** [while (vector_iter.is_available()) { ... vector_iter.next(); }] of
    [Rdb_vector_index_ivf::analyze].  [thd_killed_at] is [thd->killed] at
    each availability check ([clock] counts them); [killed] is the
    [killed] pointer, [None] for [nullptr], as a function of the number
    of times it has been read ([reads]).  [fuel] bounds the recursion;
    one more than the number of records is enough. *)
Fixpoint analyze_list_loop (thd_killed_at : nat → bool)
    (killed : option (nat → bool)) (max_num_rows_scanned : Z) (fuel : nat)
    (clock reads : nat) (ctx : Rdb_faiss_inverted_list_context)
    (it : Rdb_vector_iterator) (list_size ntotal : Z)
    : outcome analyze_list_result :=
  match fuel with
  | O => Fault OutOfFuel
  | S fuel' =>
      '(available, ctx, it) ← is_available (thd_killed_at clock) ctx it;
      if (available : bool) then
        match get_key_and_codes ctx it with
        | Fault f => Fault f
        | Err rtn => Ok (Analyze_return (HA_ERROR rtn))
        | Ok (_, _, ctx) =>
            let list_size := wrap_unsigned 64 (list_size + 1) in
            let ntotal := wrap_unsigned 64 (ntotal + 1) in
            if decide (0 < max_num_rows_scanned ∧ max_num_rows_scanned < ntotal)
            then Ok (Analyze_return HA_EXIT_SUCCESS)
            else
              match killed with
              | Some killed_at =>
                  if killed_at reads
                  then Ok (Analyze_return (HA_ERROR HA_EXIT_FAILURE))
                  else
                    analyze_list_loop thd_killed_at killed max_num_rows_scanned
                      fuel' (S clock) (S reads) ctx (iterator_next it)
                      list_size ntotal
              | None =>
                  analyze_list_loop thd_killed_at killed max_num_rows_scanned
                    fuel' (S clock) reads ctx (iterator_next it)
                    list_size ntotal
              end
        end
      else Ok (Analyze_list_end list_size ntotal (S clock) reads)
  end.

(** The [for] loop over the lists, from list [i] on, [n_lists] of them
    left; [stats] is [m_list_size_stats], whose entries are [long]. *)
Fixpoint analyze_lists (index : Rdb_vector_index_ivf)
    (thd_killed_at : nat → bool) (killed : option (nat → bool))
    (max_num_rows_scanned : Z) (n_lists : nat) (i : nat) (clock reads : nat)
    (ntotal : Z) (stats : list Z) : outcome (ha_code * list Z) :=
  match n_lists with
  | O => Ok (HA_EXIT_SUCCESS, stats)
  | S n_lists' =>
      let context := new_context true None in
      let vector_iter :=
        new_vector_iterator (ivf_index_id index) (ivf_code_size index)
          (ivf_cf index) (Z.of_nat i) in
      r ← analyze_list_loop thd_killed_at killed max_num_rows_scanned
            (S (length (m_iterator vector_iter))) clock reads context
            vector_iter 0 ntotal;
      match r with
      | Analyze_return rtn => Ok (rtn, stats)
      | Analyze_list_end list_size ntotal clock reads =>
          analyze_lists index thd_killed_at killed max_num_rows_scanned
            n_lists' (S i) clock reads ntotal
            (<[i := wrap_signed 64 list_size]> stats)
      end
  end.

(** [Rdb_vector_index_ivf::analyze]: the code returned and
    [m_list_size_stats] afterwards.  [assert(thd)]: the context always
    has a session. *)
Definition ivf_analyze (index : Rdb_vector_index_ivf)
    (thd_killed_at : nat → bool) (max_num_rows_scanned : Z)
    (killed : option (nat → bool)) (stats : list Z)
    : outcome (ha_code * list Z) :=
  analyze_lists index thd_killed_at killed max_num_rows_scanned
    (length stats) 0 0 0 0 stats.

(** Whether [get_key_and_codes] reads the record: its key belongs to the
    list and its value holds the codes. *)
Definition has_codes (index_id list_id code_size : Z)
    (record : list byte * list byte) : bool :=
  match get_key_and_codes (new_context true None)
          {| m_index_id := index_id; m_list_id := list_id;
             m_code_size := code_size; m_iterator := [record] |} with
  | Ok _ => true
  | _ => false
  end.

(** How often the [killed] pointer has been read after [n] more rows:
    a null pointer is never read. *)
Definition reads_after (killed : option (nat → bool)) (reads n : nat) : nat :=
  match killed with Some _ => (reads + n)%nat | None => reads end.

(** The number of records of each of the [n] lists from list [first]
    on. *)
Definition list_lengths (index : Rdb_vector_index_ivf) (first n : nat)
    : list Z :=
  (fun i => Z.of_nat (length (ivf_cf index (Z.of_nat i)))) <$> seq first n.

(** Every record of the [n] lists from list [first] on is read by
    [get_key_and_codes]. *)
Definition lists_have_codes (index : Rdb_vector_index_ivf) (first n : nat)
    : Prop :=
  ∀ i, (first ≤ i < first + n)%nat →
    Forall (fun r => has_codes (ivf_index_id index) (Z.of_nat i)
                       (ivf_code_size index) r = true)
      (ivf_cf index (Z.of_nat i)).

End Analyze.

(** * Theorems *)

(** ** Bytes *)

Lemma byte_to_Z_range (b : byte) : 0 ≤ byte_to_Z b < 256.
Proof.
  unfold byte_to_Z. pose proof (Byte.to_N_bounded b). lia.
Qed.

Lemma byte_to_of_Z (z : Z) : byte_to_Z (byte_of_Z z) = z mod 256.
Proof.
  unfold byte_to_Z, byte_of_Z.
  pose proof (Z.mod_pos_bound z 256 eq_refl) as Hb.
  pose proof (Byte.to_of_N_option_map (Z.to_N (z mod 256))) as H.
  destruct (N.leb_spec (Z.to_N (z mod 256)) 255) as [_|Hgt]; [|lia].
  destruct (Byte.of_N (Z.to_N (z mod 256))) as [y|] eqn:E; simpl in H; [|done].
  injection H as H. simpl. rewrite H. lia.
Qed.

Lemma be_bytes_length (n : nat) (z : Z) : length (be_bytes n z) = n.
Proof.
  revert z. induction n as [|n IH]; intros z; simpl; [done|].
  rewrite length_app, IH. simpl. lia.
Qed.

Lemma be_value_snoc (bs : list byte) (b : byte) :
  be_value (bs ++ [b]) = be_value bs * 256 + byte_to_Z b.
Proof. unfold be_value. by rewrite fold_left_app. Qed.

Lemma be_value_bytes (n : nat) (z : Z) :
  0 ≤ z → be_value (be_bytes n z) = z mod 256 ^ Z.of_nat n.
Proof.
  revert z. induction n as [|n IH]; intros z Hz.
  - simpl. by rewrite Z.mod_1_r.
  - cbn [be_bytes]. rewrite be_value_snoc, byte_to_of_Z, IH
      by (apply Z.div_pos; lia).
    rewrite Nat2Z.inj_succ, Z.pow_succ_r by lia.
    assert (0 < 256 ^ Z.of_nat n) by (apply Z.pow_pos_nonneg; lia).
    rewrite Z.rem_mul_r by lia. lia.
Qed.

(** ** Key codec and the empty primary-key suffix *)

Lemma reader_read_be_bytes (n : nat) (z : Z) (rest : list byte) :
  0 ≤ z < 256 ^ Z.of_nat n →
  reader_read_be n (be_bytes n z ++ rest) = Some (z, rest).
Proof.
  intros Hz. unfold reader_read_be.
  rewrite length_app, be_bytes_length.
  destruct (decide (n + length rest < n)%nat) as [?|_]; [lia|].
  rewrite take_app_length', drop_app_length' by (by rewrite be_bytes_length).
  rewrite be_value_bytes, Z.mod_small by lia. done.
Qed.

Lemma read_written_inverted_list_key (index_id list_id : Z) (pk : list byte) :
  0 ≤ index_id < 2 ^ 32 → 0 ≤ list_id < 2 ^ 64 →
  read_inverted_list_key (write_inverted_list_key index_id list_id ++ pk)
    index_id list_id = Ok pk.
Proof.
  intros Hi Hl. unfold read_inverted_list_key, write_inverted_list_key.
  rewrite <- app_assoc, reader_read_be_bytes by (simpl; lia).
  destruct (decide (index_id ≠ index_id)) as [?|_]; [done|].
  rewrite reader_read_be_bytes by (simpl; lia).
  destruct (decide (list_id ≠ list_id)) as [?|_]; done.
Qed.

Section EmptyPkSuffix.
Context {KD : Rdb_key_def_tags}.

Lemma check_item_key_empty_suffix (it : Rdb_vector_iterator) :
  0 ≤ m_index_id it < 2 ^ 32 → 0 ≤ m_list_id it < 2 ^ 64 →
  check_item_key it (write_inverted_list_key (m_index_id it) (m_list_id it))
  = Err HA_ERR_ROCKSDB_CORRUPT_DATA.
Proof.
  intros Hi Hl. unfold check_item_key.
  rewrite <- (app_nil_r (write_inverted_list_key _ _)).
  rewrite read_written_inverted_list_key by done. done.
Qed.

(** C9: a record whose key is exactly [BE32(index_id) ‖ BE64(list_id)]
    passes the prefix check with no primary-key byte left, and both
    [get_key_and_codes] and [get_key_and_value] (with or without the
    value) answer CorruptData, whatever the value, the code size and the
    records after it. *)
Theorem empty_pk_suffix_is_corrupt
    (ctx : Rdb_faiss_inverted_list_context) (index_id list_id code_size : Z)
    (value : list byte) (rest : list (list byte * list byte))
    (need_value : bool) :
  0 ≤ index_id < 2 ^ 32 → 0 ≤ list_id < 2 ^ 64 →
  let key := write_inverted_list_key index_id list_id in
  let it := {| m_index_id := index_id; m_list_id := list_id;
               m_code_size := code_size;
               m_iterator := (key, value) :: rest |} in
  read_inverted_list_key key index_id list_id = Ok []
  ∧ get_key_and_codes ctx it = Err HA_ERR_ROCKSDB_CORRUPT_DATA
  ∧ get_key_and_value it need_value = Err HA_ERR_ROCKSDB_CORRUPT_DATA.
Proof.
  intros Hi Hl key it.
  assert (Hk : check_item_key it key = Err HA_ERR_ROCKSDB_CORRUPT_DATA)
    by (apply (check_item_key_empty_suffix it); done).
  split; [|split].
  - unfold key. rewrite <- (app_nil_r (write_inverted_list_key _ _)).
    by apply read_written_inverted_list_key.
  - unfold get_key_and_codes. cbn [m_iterator it]. by rewrite Hk.
  - unfold get_key_and_value. cbn [m_iterator it]. by rewrite Hk.
Qed.

End EmptyPkSuffix.

Lemma empty_pk_suffix_is_corrupt_witness :
  read_inverted_list_key (write_inverted_list_key 7 3) 7 3 = Ok []
  ∧ get_key_and_codes (new_context true None)
      {| m_index_id := 7; m_list_id := 3; m_code_size := 8;
         m_iterator := [(write_inverted_list_key 7 3, replicate 8 x01)] |}
    = Err HA_ERR_ROCKSDB_CORRUPT_DATA
  ∧ get_key_and_value
      {| m_index_id := 7; m_list_id := 3; m_code_size := 8;
         m_iterator := [(write_inverted_list_key 7 3, replicate 8 x01)] |} true
    = Err HA_ERR_ROCKSDB_CORRUPT_DATA.
Proof.
  apply (empty_pk_suffix_is_corrupt (new_context true None) 7 3 8
           (replicate 8 x01) [] true); lia.
Defined.

(** ** Rows with an empty value in the LSM scans *)

Section EmptyValueRows.
Context {FA : FloatArith} {MEM : Memory}.

Lemma one_more_key_bind {A : Type} (m : outcome A)
    (f : A → outcome (list PqElement * Z)) :
  one_more_key (m ≫= f) = m ≫= (fun a => one_more_key (f a)).
Proof. by destruct m. Qed.

Lemma knn_scan_loop_count table_config field_info_list query_vector k rows
    top_k_heap keys_scanned :
  knn_scan_loop table_config field_info_list query_vector k rows top_k_heap
    (keys_scanned + 1)
  = one_more_key (knn_scan_loop table_config field_info_list query_vector k
                    rows top_k_heap keys_scanned).
Proof.
  revert top_k_heap keys_scanned.
  induction rows as [|[key value] rows IH]; intros top_k_heap keys_scanned;
    [done|].
  cbn [knn_scan_loop]. destruct (decide (length value ≠ 0%nat)); [|apply IH].
  rewrite !one_more_key_bind.
  destruct (or_corrupt _) as [index_fields| |]; [|done..]. cbn [mbind outcome_bind].
  destruct (vector_at _ _) as [index_field| |]; [|done..]. cbn [mbind outcome_bind].
  destruct (row_vector_distance _ _ _) as [distance| |]; [|done..].
  cbn [mbind outcome_bind].
  destruct (knn_heap_update _ _ _ _ _) as [heap'| |]; [|done..].
  cbn [mbind outcome_bind]. apply IH.
Qed.

Lemma knn_scan_loop_skips_empty table_config field_info_list query_vector k
    pre key post top_k_heap keys_scanned :
  knn_scan_loop table_config field_info_list query_vector k
    (pre ++ (key, []) :: post) top_k_heap keys_scanned
  = one_more_key (knn_scan_loop table_config field_info_list query_vector k
                    (pre ++ post) top_k_heap keys_scanned).
Proof.
  revert top_k_heap keys_scanned.
  induction pre as [|[key' value'] pre IH]; intros top_k_heap keys_scanned.
  - cbn [app knn_scan_loop length]. destruct (decide (0%nat ≠ 0%nat)); [done|].
    apply knn_scan_loop_count.
  - cbn [app knn_scan_loop].
    destruct (decide (length value' ≠ 0%nat)); [|apply IH].
    rewrite !one_more_key_bind.
    destruct (or_corrupt _) as [index_fields| |]; [|done..].
    cbn [mbind outcome_bind].
    destruct (vector_at _ _) as [index_field| |]; [|done..].
    cbn [mbind outcome_bind].
    destruct (row_vector_distance _ _ _) as [distance| |]; [|done..].
    cbn [mbind outcome_bind].
    destruct (knn_heap_update _ _ _ _ _) as [heap'| |]; [|done..].
    cbn [mbind outcome_bind]. apply IH.
Qed.

Ltac hybrid_step IH :=
  repeat (rewrite !one_more_key_bind;
          match goal with
          | |- (?m ≫= _) = (?m ≫= _) =>
              destruct m as [?| |]; [|done..]; cbn [mbind outcome_bind]
          end);
  apply IH.

Lemma hybrid_scan_loop_count table_config field_info_list to_extract
    spatial_index vector_index query_coordinates query_vector k weight rows
    top_k_heap keys_scanned :
  hybrid_scan_loop table_config field_info_list to_extract spatial_index
    vector_index query_coordinates query_vector k weight rows top_k_heap
    (keys_scanned + 1)
  = one_more_key
      (hybrid_scan_loop table_config field_info_list to_extract spatial_index
         vector_index query_coordinates query_vector k weight rows top_k_heap
         keys_scanned).
Proof.
  revert top_k_heap keys_scanned.
  induction rows as [|[key value] rows IH]; intros top_k_heap keys_scanned;
    [done|].
  cbn [hybrid_scan_loop]. destruct (decide (length value ≠ 0%nat)); [|apply IH].
  hybrid_step IH.
Qed.

Lemma hybrid_scan_loop_skips_empty table_config field_info_list to_extract
    spatial_index vector_index query_coordinates query_vector k weight pre key
    post top_k_heap keys_scanned :
  hybrid_scan_loop table_config field_info_list to_extract spatial_index
    vector_index query_coordinates query_vector k weight
    (pre ++ (key, []) :: post) top_k_heap keys_scanned
  = one_more_key
      (hybrid_scan_loop table_config field_info_list to_extract spatial_index
         vector_index query_coordinates query_vector k weight (pre ++ post)
         top_k_heap keys_scanned).
Proof.
  revert top_k_heap keys_scanned.
  induction pre as [|[key' value'] pre IH]; intros top_k_heap keys_scanned.
  - cbn [app hybrid_scan_loop length]. destruct (decide (0%nat ≠ 0%nat)); [done|].
    apply hybrid_scan_loop_count.
  - cbn [app hybrid_scan_loop].
    destruct (decide (length value' ≠ 0%nat)); [|apply IH].
    hybrid_step IH.
Qed.

Lemma finish_scan_one_more_key scan :
  finish_scan (one_more_key scan) = finish_scan scan.
Proof. by destruct scan as [[? ?]| |]. Qed.

(** C10: in each of the three LSM entry points a yielded row whose value
    is empty changes nothing but the count of scanned keys.  With the
    iterator yielding [pre ++ (key, []) :: post], the scan ends as it
    does on [pre ++ post] with one more key counted (the row is neither
    decoded nor scored, so no layout or value can make it fail, and the
    heap never sees it), and the entry point returns the same code and
    the same rows. *)
Theorem empty_value_row_is_skipped
    (dim : nat) (table_info : option (list FieldInfo * TableConfig))
    (pre post : list (list byte * list byte)) (key : list byte)
    (query_vector : list f32) (params : Rdb_vector_search_params) (nprobe : Z) :
  let with_row := {| lsm_dimension := dim; lsm_table_info := table_info;
                     lsm_rows := fun _ _ _ => pre ++ (key, []) :: post |} in
  let without := {| lsm_dimension := dim; lsm_table_info := table_info;
                    lsm_rows := fun _ _ _ => pre ++ post |} in
  (lsm_knn_scan with_row query_vector params
   = one_more_key (lsm_knn_scan without query_vector params)
   ∧ lsm_knn_search_with_value with_row query_vector params
     = lsm_knn_search_with_value without query_vector params)
  ∧ (lsm_hybrid_scan with_row query_vector params
     = one_more_key (lsm_hybrid_scan without query_vector params)
     ∧ lsm_knn_search_hybrid_with_value with_row query_vector params
       = lsm_knn_search_hybrid_with_value without query_vector params)
  ∧ (lsm_index_scan with_row query_vector nprobe
     = one_more_key (lsm_index_scan without query_vector nprobe)
     ∧ lsm_index_scan_with_value with_row query_vector nprobe
       = lsm_index_scan_with_value without query_vector nprobe).
Proof.
  intros with_row without.
  assert (Hknn : lsm_knn_scan with_row query_vector params
                 = one_more_key (lsm_knn_scan without query_vector params)).
  { unfold lsm_knn_scan, with_row, without. cbn [lsm_table_info lsm_rows].
    destruct table_info as [[fl cfg]|]; [|done].
    apply knn_scan_loop_skips_empty. }
  assert (Hhyb : lsm_hybrid_scan with_row query_vector params
                 = one_more_key (lsm_hybrid_scan without query_vector params)).
  { unfold lsm_hybrid_scan, with_row, without. cbn [lsm_table_info lsm_rows].
    destruct table_info as [[fl cfg]|]; [|done].
    destruct (hybrid_field_indexes fl) as [[to_extract si] vi].
    rewrite !one_more_key_bind.
    destruct (read_le _ 9 8) as [lon| |]; [|done..]. cbn [mbind outcome_bind].
    destruct (read_le _ 17 8) as [lat| |]; [|done..]. cbn [mbind outcome_bind].
    apply hybrid_scan_loop_skips_empty. }
  assert (Hscan : lsm_index_scan with_row query_vector nprobe
                  = one_more_key (lsm_index_scan without query_vector nprobe)).
  { unfold lsm_index_scan, with_row, without. cbn [lsm_table_info lsm_rows].
    destruct table_info as [[fl cfg]|]; [|done].
    apply knn_scan_loop_skips_empty. }
  unfold lsm_knn_search_with_value, lsm_knn_search_hybrid_with_value,
    lsm_index_scan_with_value.
  rewrite Hknn, Hhyb, Hscan, !finish_scan_one_more_key. done.
Qed.

End EmptyValueRows.

(** ** Order of the returned scores *)

Section HeapOrder.
Context {A : Type} (cmp : A → A → bool).
Hypothesis cmp_swo : StrictWeakOrder cmp.

Lemma cmp_asym (x y : A) : cmp x y = true → cmp y x = false.
Proof.
  intros Hxy. destruct (cmp y x) eqn:Hyx; [|done].
  pose proof (swo_trans cmp cmp_swo x y x Hxy Hyx) as H.
  by rewrite (swo_irrefl cmp cmp_swo) in H.
Qed.

Lemma pq_push_HdRel (x y : A) (h : list A) :
  (not_below cmp) y x → HdRel (not_below cmp) y h → HdRel (not_below cmp) y (pq_push cmp x h).
Proof.
  intros Hyx Hh. destruct h as [|z h]; simpl; [by constructor|].
  destruct (cmp z x); constructor; [done|]. by inv Hh.
Qed.

Lemma pq_push_sorted (x : A) (h : list A) :
  Sorted (not_below cmp) h → Sorted (not_below cmp) (pq_push cmp x h).
Proof.
  induction 1 as [|y h Hs IH Hhd]; simpl.
  - by repeat constructor.
  - destruct (cmp y x) eqn:Hyx.
    + constructor; [by constructor|]. constructor. by apply cmp_asym.
    + constructor; [done|]. by apply pq_push_HdRel.
Qed.

Lemma pq_pop_sorted (h : list A) :
  Sorted (not_below cmp) h → Sorted (not_below cmp) (pq_pop h).
Proof. destruct 1; simpl; [constructor|done]. Qed.

Lemma pq_drain_all (h : list A) : pq_drain h (pq_size h) = h.
Proof. induction h as [|x h IH]; simpl; [done|]. by rewrite IH. Qed.

Lemma pq_push_length (x : A) (h : list A) :
  length (pq_push cmp x h) = S (length h).
Proof.
  induction h as [|y h IH]; simpl; [done|].
  destruct (cmp y x); simpl; by rewrite ?IH.
Qed.

End HeapOrder.

Lemma Sorted_adjacent {A : Type} (R : A → A → Prop) (l : list A) (i : nat)
    (a b : A) :
  Sorted R l → l !! i = Some a → l !! S i = Some b → R a b.
Proof.
  intros Hs. revert i. induction Hs as [|x l Hs IH Hhd]; intros i Ha Hb; [done|].
  destruct i as [|i]; simpl in *.
  - injection Ha as ->. destruct Hhd as [|y l' Hxy]; simpl in *; [done|].
    by injection Hb as ->.
  - by eapply IH.
Qed.

Section ScoreOrder.
Context {FA : FloatArith} {MEM : Memory}.
Hypothesis f32_swo : StrictWeakOrder f32_ltb.

Lemma cmp_swo : StrictWeakOrder cmp.
Proof.
  split; unfold cmp.
  - intros x. apply (swo_irrefl _ f32_swo).
  - intros x y z. apply (swo_trans _ f32_swo).
  - intros x y z. apply (swo_incomp _ f32_swo).
Qed.

Lemma knn_heap_update_sorted k h distance key value h' :
  Sorted (not_below cmp) h →
  knn_heap_update k h distance key value = Ok h' →
  Sorted (not_below cmp) h'.
Proof.
  intros Hs. unfold knn_heap_update.
  destruct (decide _).
  - intros [= <-]. by apply pq_push_sorted, Hs; apply cmp_swo.
  - destruct (pq_top h) as [top|]; [|done].
    destruct (f32_ltb distance top.1); intros [= <-]; [|done].
    apply pq_push_sorted; [apply cmp_swo|]. by apply pq_pop_sorted.
Qed.

Lemma hybrid_heap_update_sorted k w h distance distance_spatial key value h' :
  Sorted (not_below cmp) h →
  hybrid_heap_update k w h distance distance_spatial key value = Ok h' →
  Sorted (not_below cmp) h'.
Proof.
  intros Hs. unfold hybrid_heap_update.
  destruct (decide _).
  - intros [= <-]. by apply pq_push_sorted, Hs; apply cmp_swo.
  - destruct (pq_top h) as [top|]; [|done].
    destruct (f32_ltb distance top.1); intros [= <-]; [|done].
    apply pq_push_sorted; [apply cmp_swo|]. by apply pq_pop_sorted.
Qed.

Ltac bind_ok H :=
  match type of H with
  | (?m ≫= _) = Ok _ =>
      let E := fresh "E" in
      destruct m eqn:E; [cbn [mbind outcome_bind] in H|done..]
  end.

Lemma knn_scan_loop_sorted table_config field_info_list query_vector k rows h n
    h' n' :
  Sorted (not_below cmp) h →
  knn_scan_loop table_config field_info_list query_vector k rows h n
  = Ok (h', n') →
  Sorted (not_below cmp) h'.
Proof.
  revert h n. induction rows as [|[key value] rows IH]; intros h n Hs H.
  - by injection H as <- _.
  - cbn [knn_scan_loop] in H. destruct (decide (length value ≠ 0%nat)).
    + repeat bind_ok H. eapply IH; [|exact H].
      by eapply knn_heap_update_sorted.
    + by eapply IH.
Qed.

Lemma hybrid_scan_loop_sorted table_config field_info_list to_extract si vi qc
    query_vector k w rows h n h' n' :
  Sorted (not_below cmp) h →
  hybrid_scan_loop table_config field_info_list to_extract si vi qc query_vector
    k w rows h n = Ok (h', n') →
  Sorted (not_below cmp) h'.
Proof.
  revert h n. induction rows as [|[key value] rows IH]; intros h n Hs H.
  - by injection H as <- _.
  - cbn [hybrid_scan_loop] in H. destruct (decide (length value ≠ 0%nat)).
    + repeat bind_ok H. eapply IH; [|exact H].
      by eapply hybrid_heap_update_sorted.
    + by eapply IH.
Qed.

Lemma drain_result_sorted (h : list PqElement) :
  Sorted (not_below cmp) h → Sorted score_le (drain_result h).
Proof.
  intros Hs. unfold drain_result. rewrite pq_drain_all.
  apply (Sorted_reverse (flip score_le)).
  eapply Sorted_fmap; [|exact Hs]. by intros [? [? ?]] [? [? ?]].
Qed.

Lemma finish_scan_sorted scan :
  (∀ h n, scan = Ok (h, n) → Sorted (not_below cmp) h) →
  match finish_scan scan with
  | Returned _ result => Sorted score_le result
  | Crashed _ => True
  end.
Proof.
  intros H. destruct scan as [[h n]| |]; simpl; [|constructor|done].
  apply drain_result_sorted. by eapply H.
Qed.

Lemma finish_scan_non_decreasing scan :
  (∀ h n, scan = Ok (h, n) → Sorted (not_below cmp) h) →
  non_decreasing (finish_scan scan).
Proof.
  intros H. pose proof (finish_scan_sorted scan H) as Hs.
  unfold non_decreasing. destruct (finish_scan scan); [|done].
  intros i a b. by apply Sorted_adjacent.
Qed.


End ScoreOrder.

(** The rational interpretation orders its scores strictly and weakly. *)
Lemma q_ltb_lt (x y : Q) : q_ltb x y = true ↔ (x < y)%Q.
Proof.
  unfold q_ltb. rewrite negb_true_iff, <- not_true_iff_false, Qle_bool_iff.
  split; [apply Qnot_le_lt|apply Qlt_not_le].
Qed.

Lemma q_ltb_ge (x y : Q) : q_ltb x y = false ↔ (y <= x)%Q.
Proof.
  unfold q_ltb. rewrite negb_false_iff. apply Qle_bool_iff.
Qed.

Lemma q_ltb_swo : StrictWeakOrder (f32_ltb (FloatArith := QFloat)).
Proof.
  split; cbn [f32_ltb QFloat].
  - intros x. apply q_ltb_ge, Qle_refl.
  - intros x y z. rewrite !q_ltb_lt. apply Qlt_trans.
  - intros x y z. rewrite !q_ltb_ge. intros ? ?. by eapply Qle_trans.
Qed.


(** The example index, run: the rows come back as a, b (k = 2) from the
    three entry points, and as a, b, c from the index scan. *)
Example lsm_scores_example :
  keys_and_scores
    (lsm_knn_search_with_value example_lsm_index [0%Q; 0%Q] (example_params 2))
  = Some (HA_EXIT_SUCCESS, [([x61], 0%Q); ([x62], 1%Q)])
  ∧ keys_and_scores
      (lsm_knn_search_hybrid_with_value example_lsm_index [0%Q; 0%Q]
         (example_params 2))
    = Some (HA_EXIT_SUCCESS, [([x61], 0%Q); ([x62], 1%Q)])
  ∧ keys_and_scores
      (lsm_index_scan_with_value example_lsm_index [0%Q; 0%Q] 1)
    = Some (HA_EXIT_SUCCESS, [([x61], 0%Q); ([x62], 1%Q); ([x63], 9%Q)]).
Proof. vm_compute. done. Qed.

(** ** The scan over the queue of libstdc++ *)

Section ScanOnQueueFacts.
Context {FA : FloatArith} {MEM : Memory}.

Lemma pq_drain_on (h : list PqElement) (n : nat) :
  drain_on pq_pop h n = pq_drain h n.
Proof. revert h. induction n as [|n IH]; intros h; [done|]. cbn. by rewrite IH. Qed.

Lemma knn_scan_loop_on_pq table_config field_info_list query_vector k rows
    top_k_heap keys_scanned :
  knn_scan_loop_on (pq_push cmp) pq_pop table_config field_info_list
    query_vector k rows top_k_heap keys_scanned
  = knn_scan_loop table_config field_info_list query_vector k rows top_k_heap
      keys_scanned.
Proof.
  revert top_k_heap keys_scanned.
  induction rows as [|[key value] rows IH]; intros top_k_heap keys_scanned;
    [done|].
  cbn [knn_scan_loop_on knn_scan_loop]. destruct (decide _); [|apply IH].
  destruct (or_corrupt _) as [index_fields| |]; cbn [mbind outcome_bind];
    [|done..].
  destruct (vector_at _ _) as [index_field| |]; cbn [mbind outcome_bind];
    [|done..].
  destruct (row_vector_distance _ _ _) as [distance| |];
    cbn [mbind outcome_bind]; [|done..].
  change (knn_heap_update_on (pq_push cmp) pq_pop k top_k_heap distance key value)
    with (knn_heap_update k top_k_heap distance key value).
  destruct (knn_heap_update _ _ _ _ _) as [h| |]; cbn [mbind outcome_bind];
    [|done..].
  apply IH.
Qed.

(** Over the queue by its contract the scan is [knn_search_with_value]
    as the theorems have it. *)
Lemma lsm_knn_search_with_value_on_pq (index : Rdb_vector_index_lsm)
    (query_vector : list f32) (params : Rdb_vector_search_params) :
  lsm_knn_search_with_value_on (pq_push cmp) pq_pop index query_vector params
  = lsm_knn_search_with_value index query_vector params.
Proof.
  unfold lsm_knn_search_with_value_on, lsm_knn_search_with_value, lsm_knn_scan.
  destruct (lsm_table_info index) as [[field_info_list table_config]|]; [|done].
  rewrite knn_scan_loop_on_pq.
  destruct (knn_scan_loop _ _ _ _ _ _ _) as [[h n]| |]; [|done..].
  cbn [finish_scan]. unfold drain_result_on, drain_result, pq_size.
  by rewrite pq_drain_on.
Qed.

End ScanOnQueueFacts.


(** ** Size of the result *)

Section ResultSize.
Context {FA : FloatArith} {MEM : Memory}.

Lemma matched_rows_cons key value rows :
  matched_rows ((key, value) :: rows)
  = (if decide (length value ≠ 0%nat) then 1 else 0) + matched_rows rows.
Proof.
  unfold matched_rows. rewrite filter_cons. cbn [snd].
  destruct (decide (length value ≠ 0%nat)); cbn [length]; lia.
Qed.

Lemma matched_rows_nonneg rows : 0 ≤ matched_rows rows.
Proof. unfold matched_rows. lia. Qed.

Lemma knn_heap_update_length k h distance key value h' :
  knn_heap_update k h distance key value = Ok h' →
  Z.of_nat (length h) ≤ k →
  Z.of_nat (length h') = Z.min k (Z.of_nat (length h) + 1).
Proof.
  unfold knn_heap_update, pq_size. destruct (decide _) as [Hlt|Hge].
  - intros [= <-] _. rewrite pq_push_length. lia.
  - destruct h as [|top h]; [done|]. cbn [pq_top head pq_pop tail].
    destruct (f32_ltb distance top.1); intros [= <-] Hle;
      rewrite ?pq_push_length; cbn [length] in *; lia.
Qed.

Lemma hybrid_heap_update_length k w h distance distance_spatial key value h' :
  hybrid_heap_update k w h distance distance_spatial key value = Ok h' →
  Z.of_nat (length h) ≤ k →
  Z.of_nat (length h') = Z.min k (Z.of_nat (length h) + 1).
Proof.
  unfold hybrid_heap_update, pq_size. destruct (decide _) as [Hlt|Hge].
  - intros [= <-] _. rewrite pq_push_length. lia.
  - destruct h as [|top h]; [done|]. cbn [pq_top head pq_pop tail].
    destruct (f32_ltb distance top.1); intros [= <-] Hle;
      rewrite ?pq_push_length; cbn [length] in *; lia.
Qed.

Ltac bind_ok H :=
  match type of H with
  | (?m ≫= _) = Ok _ =>
      let E := fresh "E" in
      destruct m eqn:E; [cbn [mbind outcome_bind] in H|done..]
  end.

Lemma knn_scan_loop_length table_config field_info_list query_vector k rows h n
    h' n' :
  knn_scan_loop table_config field_info_list query_vector k rows h n
  = Ok (h', n') →
  Z.of_nat (length h) ≤ k →
  Z.of_nat (length h') = Z.min k (Z.of_nat (length h) + matched_rows rows).
Proof.
  revert h n. induction rows as [|[key value] rows IH]; intros h n H Hle.
  - injection H as <- _. unfold matched_rows. simpl. lia.
  - rewrite matched_rows_cons. pose proof (matched_rows_nonneg rows).
    cbn [knn_scan_loop] in H. destruct (decide (length value ≠ 0%nat)).
    + repeat bind_ok H.
      match goal with E : knn_heap_update _ _ _ _ _ = Ok _ |- _ =>
        apply knn_heap_update_length in E; [|done] end.
      apply IH in H; lia.
    + apply IH in H; lia.
Qed.

Lemma hybrid_scan_loop_length table_config field_info_list to_extract si vi qc
    query_vector k w rows h n h' n' :
  hybrid_scan_loop table_config field_info_list to_extract si vi qc query_vector
    k w rows h n = Ok (h', n') →
  Z.of_nat (length h) ≤ k →
  Z.of_nat (length h') = Z.min k (Z.of_nat (length h) + matched_rows rows).
Proof.
  revert h n. induction rows as [|[key value] rows IH]; intros h n H Hle.
  - injection H as <- _. unfold matched_rows. simpl. lia.
  - rewrite matched_rows_cons. pose proof (matched_rows_nonneg rows).
    cbn [hybrid_scan_loop] in H. destruct (decide (length value ≠ 0%nat)).
    + repeat bind_ok H.
      match goal with E : hybrid_heap_update _ _ _ _ _ _ _ = Ok _ |- _ =>
        apply hybrid_heap_update_length in E; [|done] end.
      apply IH in H; lia.
    + apply IH in H; lia.
Qed.

Lemma drain_result_length (h : list PqElement) :
  length (drain_result h) = length h.
Proof.
  unfold drain_result. by rewrite length_reverse, length_fmap, pq_drain_all.
Qed.

Lemma finish_scan_size k rows scan :
  (∀ h n, scan = Ok (h, n) → Z.of_nat (length h) = Z.min k (matched_rows rows)) →
  result_size_is k rows (finish_scan scan).
Proof.
  intros H. destruct scan as [[h n]| |]; simpl; [|done..].
  rewrite drain_result_length. by eapply H.
Qed.

Lemma lsm_knn_search_size index query_vector params :
  0 ≤ m_k params →
  result_size_is (m_k params)
    (lsm_rows index query_vector (m_k params) (m_nprobe params))
    (lsm_knn_search_with_value index query_vector params).
Proof.
  intros Hk. apply finish_scan_size. intros h n. unfold lsm_knn_scan.
  destruct (lsm_table_info index) as [[fl cfg]|]; [|done].
  intros H. apply knn_scan_loop_length in H; simpl in *; lia.
Qed.

Lemma lsm_hybrid_search_size index query_vector params :
  0 ≤ m_k params →
  result_size_is (m_k params)
    (lsm_rows index query_vector (m_k params) (m_nprobe params))
    (lsm_knn_search_hybrid_with_value index query_vector params).
Proof.
  intros Hk. apply finish_scan_size. intros h n. unfold lsm_hybrid_scan.
  destruct (lsm_table_info index) as [[fl cfg]|]; [|done].
  destruct (hybrid_field_indexes fl) as [[to_extract si] vi].
  intros H. repeat bind_ok H.
  apply hybrid_scan_loop_length in H; simpl in *; lia.
Qed.

(** C2, as the code has it: a successful LSM k-NN scan with heap bound
    [k] returns [min(k, matched_rows)] rows, so at most [k], and a
    failing one returns none.  [knn_search] runs the scan with [k] the
    session's limit, [knn_search_hybrid] runs it with [5 * limit] (in
    [uint]) and hands its whole result to the cursor: the hybrid result
    has [min(5 * limit mod 2^32, matched_rows)] rows. *)
Theorem lsm_result_size (index : Rdb_vector_index_lsm) (query_vector : list f32)
    (params : Rdb_vector_search_params) (h : Rdb_vector_db_handler)
    (env : query_env) :
  0 ≤ m_k params → 0 ≤ m_limit h →
  result_size_is (m_k params)
    (lsm_rows index query_vector (m_k params) (m_nprobe params))
    (lsm_knn_search_with_value index query_vector params)
  ∧ result_size_is (m_k params)
      (lsm_rows index query_vector (m_k params) (m_nprobe params))
      (lsm_knn_search_hybrid_with_value index query_vector params)
  ∧ match handler_knn_search h env (vector_index_of_lsm index) with
    | Returned rtn h' =>
        result_size_is (m_limit h)
          (lsm_rows index (m_buffer h') (m_limit h) (h_nprobe h))
          (Returned rtn (m_search_result_with_value h'))
    | Crashed _ => True
    end
  ∧ match handler_knn_search_hybrid h env (vector_index_of_lsm index) with
    | Returned rtn h' =>
        result_size_is (wrap_unsigned 32 (m_limit h * 5))
          (lsm_rows index (m_buffer h') (wrap_unsigned 32 (m_limit h * 5))
             (h_nprobe h))
          (Returned rtn (m_search_result_with_value h'))
    | Crashed _ => True
    end.
Proof.
  intros Hk Hlimit.
  split; [by apply lsm_knn_search_size|].
  split; [by apply lsm_hybrid_search_size|].
  split.
  - unfold handler_knn_search. cbn [m_buffer m_limit with_results].
    destruct (_ || _); [done|].
    destruct (check_dimension _ _) as [buffer| |]; [|done..].
    cbn [knn_search_with_value knn_search vector_index_of_lsm].
    set (params' := Build_Rdb_vector_search_params _ _ _ _ _).
    pose proof (lsm_knn_search_size index buffer params' Hlimit) as Hsize.
    destruct (lsm_knn_search_with_value index buffer params') as [rtn r|];
      [|done].
    destruct rtn as [|e]; [exact Hsize|].
    simpl in Hsize. subst r. by destruct e.
  - unfold handler_knn_search_hybrid. cbn [m_buffer m_limit with_results].
    destruct (_ || _); [done|].
    destruct (check_dimension _ _) as [buffer| |]; [|done..].
    cbn [knn_search_hybrid_with_value vector_index_of_lsm].
    set (params' := Build_Rdb_vector_search_params _ _ _ _ _).
    assert (0 ≤ m_k params') as Hk'
      by (apply Z.mod_pos_bound; lia).
    pose proof (lsm_hybrid_search_size index buffer params' Hk') as Hsize.
    destruct (lsm_knn_search_hybrid_with_value index buffer params')
      as [rtn r|]; [|done].
    exact Hsize.
Qed.

End ResultSize.

Lemma lsm_result_size_witness :
  result_size_is 2 (lsm_rows example_lsm_index [0%Q; 0%Q] 2 1)
    (lsm_knn_search_with_value example_lsm_index [0%Q; 0%Q] (example_params 2))
  ∧ result_size_is 2 (lsm_rows example_lsm_index [0%Q; 0%Q] 2 1)
      (lsm_knn_search_hybrid_with_value example_lsm_index [0%Q; 0%Q]
         (example_params 2))
  ∧ match handler_knn_search (example_handler [0%Q; 0%Q] 2) example_env
            (vector_index_of_lsm example_lsm_index) with
    | Returned rtn h' =>
        result_size_is 2 (lsm_rows example_lsm_index (m_buffer h') 2 1)
          (Returned rtn (m_search_result_with_value h'))
    | Crashed _ => True
    end
  ∧ match handler_knn_search_hybrid (example_handler [0%Q; 0%Q] 2) example_env
            (vector_index_of_lsm example_lsm_index) with
    | Returned rtn h' =>
        result_size_is (wrap_unsigned 32 (2 * 5))
          (lsm_rows example_lsm_index (m_buffer h') (wrap_unsigned 32 (2 * 5)) 1)
          (Returned rtn (m_search_result_with_value h'))
    | Crashed _ => True
    end.
Proof.
  apply (lsm_result_size example_lsm_index [0%Q; 0%Q] (example_params 2)
           (example_handler [0%Q; 0%Q] 2) example_env); simpl; lia.
Defined.

(** C2, the counterexample: with limit 1 the hybrid search succeeds and
    leaves both rows of the example index under the cursor. *)
Lemma hybrid_result_exceeds_limit :
  m_limit (example_handler [0%Q; 0%Q] 1) = 1
  ∧ returned_row_count
      (handler_knn_search_hybrid (example_handler [0%Q; 0%Q] 1) example_env
         (vector_index_of_lsm example_hybrid_index))
    = Some (HA_EXIT_SUCCESS, 2%nat).
Proof. split; [done|]. vm_compute. done. Qed.

(** ** The query vector and the index dimension *)

Section QueryDimension.
Context {FA : FloatArith} {MEM : Memory} {KD : Rdb_key_def_tags}.

Lemma resize_buffer_length (buffer : list f32) (n : nat) :
  (length buffer ≤ n)%nat → length (resize_buffer buffer n) = n.
Proof.
  intros H. unfold resize_buffer. rewrite length_app, length_replicate. lia.
Qed.

Lemma check_dimension_short (buffer : list f32) (index : Rdb_vector_index) :
  (length buffer < dimension index)%nat →
  check_dimension buffer index = Ok (resize_buffer buffer (dimension index)).
Proof.
  intros H. unfold check_dimension. by rewrite bool_decide_eq_true_2.
Qed.

Lemma check_dimension_exact (buffer : list f32) (index : Rdb_vector_index) :
  length buffer = dimension index → check_dimension buffer index = Ok buffer.
Proof.
  intros H. unfold check_dimension.
  rewrite !bool_decide_eq_false_2 by lia. done.
Qed.

Lemma check_dimension_long (buffer : list f32) (index : Rdb_vector_index) :
  (dimension index < length buffer)%nat →
  check_dimension buffer index = Err HA_EXIT_FAILURE.
Proof.
  intros H. unfold check_dimension.
  rewrite bool_decide_eq_false_2 by lia. by rewrite bool_decide_eq_true_2.
Qed.

(** C6, as the code has it.  An empty query vector, or a limit of 0,
    makes both [knn_search] and [knn_search_hybrid] return
    [HA_ERR_END_OF_FILE] with no result row and the query vector
    untouched, whatever the index and its dimension (neither is looked
    at).  With a non-zero limit, a non-empty query vector shorter than
    the index dimension is padded with zeros to exactly the dimension,
    and both calls then behave as on the padded vector; a query vector
    longer than the dimension makes both return [HA_EXIT_FAILURE] with
    no result row and the query vector untouched, whatever the index
    would have answered (none of its entries is called). *)
Theorem query_vector_dimension_check (h : Rdb_vector_db_handler)
    (env : query_env) (index : Rdb_vector_index) :
  (m_buffer h = [] ∨ m_limit h = 0 →
   handler_knn_search h env index
   = Returned (HA_ERROR HA_ERR_END_OF_FILE) (refused_knn h)
   ∧ handler_knn_search_hybrid h env index
     = Returned (HA_ERROR HA_ERR_END_OF_FILE) (refused_hybrid h))
  ∧ (m_limit h ≠ 0 →
     ((0 < length (m_buffer h) < dimension index)%nat →
      let padded := resize_buffer (m_buffer h) (dimension index) in
      length padded = dimension index
      ∧ padded = m_buffer h
                 ++ replicate (dimension index - length (m_buffer h)) f32_zero
      ∧ handler_knn_search h env index
        = handler_knn_search (set_buffer h padded) env index
      ∧ handler_knn_search_hybrid h env index
        = handler_knn_search_hybrid (set_buffer h padded) env index)
     ∧ ((dimension index < length (m_buffer h))%nat →
        handler_knn_search h env index
        = Returned (HA_ERROR HA_EXIT_FAILURE) (refused_knn h)
        ∧ handler_knn_search_hybrid h env index
          = Returned (HA_ERROR HA_EXIT_FAILURE) (refused_hybrid h))).
Proof.
  split.
  { intros Hstop.
    assert (Hguard : bool_decide (length (m_buffer h) = 0%nat)
                     || bool_decide (m_limit h = 0) = true).
    { destruct Hstop as [Hempty|Hzero].
      - rewrite Hempty. done.
      - rewrite (bool_decide_eq_true_2 (m_limit h = 0)) by done.
        apply orb_true_r. }
    unfold handler_knn_search, handler_knn_search_hybrid, refused_knn,
      refused_hybrid.
    cbn [m_buffer m_limit with_results]. by rewrite Hguard. }
  intros Hlimit. split.
  - intros [Hpos Hlt] padded.
    assert (Hlen : length padded = dimension index)
      by (apply resize_buffer_length; lia).
    split; [done|]. split; [done|].
    unfold handler_knn_search, handler_knn_search_hybrid, set_buffer.
    cbn [m_buffer m_limit with_results h_metric h_nprobe h_weight
         h_query_coordinate m_search_result m_vector_db_result_iter].
    rewrite check_dimension_short, check_dimension_exact by done.
    rewrite Hlen.
    rewrite (bool_decide_eq_false_2 (length (m_buffer h) = 0%nat)) by lia.
    rewrite (bool_decide_eq_false_2 (dimension index = 0%nat)) by lia.
    rewrite (bool_decide_eq_false_2 (m_limit h = 0)) by done.
    done.
  - intros Hgt.
    unfold handler_knn_search, handler_knn_search_hybrid, refused_knn,
      refused_hybrid.
    cbn [m_buffer m_limit with_results].
    rewrite check_dimension_long by done.
    rewrite (bool_decide_eq_false_2 (length (m_buffer h) = 0%nat)) by lia.
    rewrite (bool_decide_eq_false_2 (m_limit h = 0)) by done.
    done.
Qed.

End QueryDimension.

Lemma query_vector_dimension_check_witness :
  (handler_knn_search (example_handler [] 2) example_env
     (vector_index_of_lsm example_lsm_index)
   = Returned (HA_ERROR HA_ERR_END_OF_FILE) (refused_knn (example_handler [] 2))
   ∧ handler_knn_search_hybrid (example_handler [1%Q] 0) example_env
       (vector_index_of_lsm example_lsm_index)
     = Returned (HA_ERROR HA_ERR_END_OF_FILE)
         (refused_hybrid (example_handler [1%Q] 0)))
  ∧ (let padded := resize_buffer [1%Q] 2 in
     length padded = 2%nat
     ∧ padded = [1%Q] ++ replicate (2 - length [1%Q]) 0%Q
     ∧ handler_knn_search (example_handler [1%Q] 2) example_env
         (vector_index_of_lsm example_lsm_index)
       = handler_knn_search (set_buffer (example_handler [1%Q] 2) padded)
           example_env (vector_index_of_lsm example_lsm_index)
     ∧ handler_knn_search_hybrid (example_handler [1%Q] 2) example_env
         (vector_index_of_lsm example_lsm_index)
       = handler_knn_search_hybrid (set_buffer (example_handler [1%Q] 2) padded)
           example_env (vector_index_of_lsm example_lsm_index))
  ∧ (handler_knn_search (example_handler [1%Q; 2%Q; 3%Q] 2) example_env
       (vector_index_of_lsm example_lsm_index)
     = Returned (HA_ERROR HA_EXIT_FAILURE)
         (refused_knn (example_handler [1%Q; 2%Q; 3%Q] 2))
     ∧ handler_knn_search_hybrid (example_handler [1%Q; 2%Q; 3%Q] 2) example_env
         (vector_index_of_lsm example_lsm_index)
       = Returned (HA_ERROR HA_EXIT_FAILURE)
           (refused_hybrid (example_handler [1%Q; 2%Q; 3%Q] 2))).
Proof.
  split; [split|split].
  - apply (query_vector_dimension_check (example_handler [] 2) example_env
             (vector_index_of_lsm example_lsm_index)). by left.
  - apply (query_vector_dimension_check (example_handler [1%Q] 0) example_env
             (vector_index_of_lsm example_lsm_index)). by right.
  - apply (query_vector_dimension_check (example_handler [1%Q] 2) example_env
             (vector_index_of_lsm example_lsm_index)); simpl; lia.
  - apply (query_vector_dimension_check (example_handler [1%Q; 2%Q; 3%Q] 2)
             example_env (vector_index_of_lsm example_lsm_index)); simpl; lia.
Defined.

(** C6, the counterexample: an empty query vector is shorter than the
    dimension 2, yet it is not padded; the search ends with
    [HA_ERR_END_OF_FILE] and no row, the query vector still empty, where
    the padded query [0, 0] finds two rows. *)
Lemma empty_query_is_not_padded :
  handler_knn_search (example_handler [] 2) example_env
    (vector_index_of_lsm example_lsm_index)
  = Returned (HA_ERROR HA_ERR_END_OF_FILE) (example_handler [] 2)
  ∧ returned_row_count
      (handler_knn_search (example_handler [0%Q; 0%Q] 2) example_env
         (vector_index_of_lsm example_lsm_index))
    = Some (HA_EXIT_SUCCESS, 2%nat).
Proof. split; [done|]. vm_compute. done. Qed.

(** ** The typed-array decoder *)

Section JsonArrayFacts.
Context {FA : FloatArith} {MEM : Memory}.

Lemma extract_entry_in_input T data length large_format i e :
  0 ≤ i →
  extract_entry T data length large_format i = Ok e →
  i + 1 ≤ Z.of_nat length.
Proof.
  intros Hi. unfold extract_entry.
  destruct (decide _) as [?|Hfit]; [done|]. intros _.
  destruct large_format; lia.
Qed.

Lemma read_le_fuel data p n : read_le data p n ≠ Fault OutOfFuel.
Proof.
  revert p. induction n as [|n IHn]; intros p; [done|].
  cbn [read_le]. unfold read_u8, read_byte.
  destruct (data !! p); cbn [mbind outcome_bind]; [|done].
  specialize (IHn (S p)). by destruct (read_le data (S p) n).
Qed.

Lemma read_varint_fuel data length pos acc bytes_read todo :
  read_varint data length pos acc bytes_read todo ≠ Fault OutOfFuel.
Proof.
  revert pos acc bytes_read.
  induction todo as [|todo IHt]; intros pos acc bytes_read; [done|].
  cbn [read_varint]. destruct (decide _); [done|].
  unfold read_u8, read_byte.
  destruct (data !! pos); cbn [mbind outcome_bind]; [|done].
  destruct (_ =? 0); [done|]. apply IHt.
Qed.

Lemma extract_element_fuel T data length value_type inlined value_offset :
  extract_element T data length value_type inlined value_offset
  ≠ Fault OutOfFuel.
Proof.
  unfold extract_element, cast_of_double.
  pose proof (read_le_fuel data (Z.to_nat value_offset) 4) as H4.
  pose proof (read_le_fuel data (Z.to_nat value_offset) 8) as H8.
  pose proof (read_varint_fuel data length (Z.to_nat value_offset) 0 0 5) as Hv.
  destruct (value_type =? 4); [by destruct T; repeat case_match|].
  destruct (value_type =? 5); [by case_match|].
  destruct (value_type =? 6); [by case_match|].
  destruct (value_type =? 7).
  { destruct (is_arithmetic_v T); [|done]. destruct inlined; [done|].
    by destruct (read_le _ _ 4) as [?| |[]]. }
  destruct (value_type =? 8).
  { destruct (is_arithmetic_v T); [|done]. destruct inlined; [done|].
    by destruct (read_le _ _ 4) as [?| |[]]. }
  destruct (value_type =? 9).
  { destruct (is_arithmetic_v T); [|done]. destruct (decide _); [done|].
    by destruct (read_le _ _ 8) as [?| |[]]. }
  destruct (value_type =? 10).
  { destruct (is_arithmetic_v T); [|done]. destruct (decide _); [done|].
    by destruct (read_le _ _ 8) as [?| |[]]. }
  destruct (value_type =? 11).
  { destruct (is_arithmetic_v T); [|done]. destruct (decide _); [done|].
    destruct (read_le _ _ 8) as [?| |[]]; cbn [mbind outcome_bind]; try done.
    destruct T; repeat case_match; done. }
  destruct (value_type =? 12); [|done].
  destruct T; try done.
  destruct (read_varint _ _ _ _ _ _) as [[? ?]| |[]]; cbn [mbind outcome_bind];
    try done.
  by case_match.
Qed.

Lemma extract_entry_fuel T data length large_format i :
  extract_entry T data length large_format i ≠ Fault OutOfFuel.
Proof.
  unfold extract_entry. destruct (decide _); [done|].
  unfold read_u8 at 1, read_byte.
  destruct (data !! _); cbn [mbind outcome_bind]; [|done].
  match goal with |- context [read_le ?d ?p ?n ≫= _] =>
    pose proof (read_le_fuel d p n);
    destruct (read_le d p n) as [raw| |[]]; cbn [mbind outcome_bind];
    try done end.
  destruct (_ || _); [apply extract_element_fuel|].
  destruct (decide _); [done|apply extract_element_fuel].
Qed.

Lemma extract_loop_total T data length large_format element_count fuel i result :
  0 ≤ i → i ≤ Z.of_nat length →
  i + Z.of_nat fuel = Z.of_nat length + 1 →
  extract_loop T data length large_format element_count i result fuel
  ≠ Fault OutOfFuel.
Proof.
  revert i result. induction fuel as [|fuel IH]; intros i result Hi Hle Hsum.
  - lia.
  - cbn [extract_loop]. destruct (decide (element_count ≤ i)); [done|].
    pose proof (extract_entry_fuel T data length large_format i) as Hf.
    destruct (extract_entry T data length large_format i) as [e|e|f] eqn:He;
      cbn [mbind outcome_bind]; [|done|congruence].
    apply extract_entry_in_input in He; [|done]. apply IH; lia.
Qed.

(** The recursion bound of the element loop is never reached: the
    decoder always ends with a vector, an error code, or one of the
    faults of the C++. *)
Lemma ExtractVectorFromJson_total (T : elem_type) (json_binary : list byte) :
  ExtractVectorFromJson T json_binary ≠ Fault OutOfFuel.
Proof.
  unfold ExtractVectorFromJson. destruct (decide _); [done|].
  unfold read_u8 at 1, read_byte.
  destruct (json_binary !! 0%nat); cbn [mbind outcome_bind]; [|done].
  destruct (_ && _); [done|]. destruct (decide _); [done|].
  match goal with |- context [read_le ?d ?p ?n ≫= _] =>
    pose proof (read_le_fuel d p n);
    destruct (read_le d p n) as [element_count| |[]]; cbn [mbind outcome_bind];
    try done end.
  destruct (negb _); [done|]. apply extract_loop_total; lia.
Qed.

Lemma read_byte_in_bounds (data : list byte) (p : nat) :
  (p < length data)%nat → ∃ b, read_byte data p = Ok b.
Proof.
  intros H. unfold read_byte.
  destruct (lookup_lt_is_Some_2 data p H) as [b ->]. by exists b.
Qed.

Lemma read_u8_in_bounds (data : list byte) (p : nat) :
  (p < length data)%nat → ∃ z, read_u8 data p = Ok z.
Proof.
  intros H. unfold read_u8.
  destruct (read_byte_in_bounds data p H) as [b ->]. by eexists.
Qed.

Lemma read_le_in_bounds (data : list byte) (p n : nat) :
  (p + n ≤ length data)%nat → ∃ z, read_le data p n = Ok z.
Proof.
  revert p. induction n as [|n IH]; intros p H; [by exists 0|].
  cbn [read_le].
  destruct (read_u8_in_bounds data p) as [b ->]; [lia|].
  destruct (IH (S p)) as [rest ->]; [lia|]. by eexists.
Qed.

Lemma read_varint_in_bounds data pos acc bytes_read todo q :
  read_varint data (length data) pos acc bytes_read todo
  ≠ Fault (OutOfBoundsRead q).
Proof.
  revert pos acc bytes_read.
  induction todo as [|todo IHt]; intros pos acc bytes_read; [done|].
  cbn [read_varint]. destruct (decide _); [done|].
  destruct (read_u8_in_bounds data pos) as [b ->]; [lia|].
  cbn [mbind outcome_bind]. destruct (_ =? 0); [done|]. apply IHt.
Qed.

(** Apart from an int32 or uint32 that is not inlined, the [switch]
    reads inside the input. *)
Lemma extract_element_in_bounds T data value_type inlined value_offset q :
  0 ≤ value_offset →
  (inlined = true ∨ (value_type ≠ 7 ∧ value_type ≠ 8)) →
  extract_element T data (length data) value_type inlined value_offset
  ≠ Fault (OutOfBoundsRead q).
Proof.
  intros Hoff Hcase. unfold extract_element, cast_of_double.
  destruct (value_type =? 4); [by destruct T; repeat case_match|].
  destruct (value_type =? 5); [by case_match|].
  destruct (value_type =? 6); [by case_match|].
  destruct (value_type =? 7) eqn:E7.
  { destruct (is_arithmetic_v T); [|done]. destruct inlined; [done|].
    destruct Hcase as [?|[? _]]; [done|]. apply Z.eqb_eq in E7. done. }
  destruct (value_type =? 8) eqn:E8.
  { destruct (is_arithmetic_v T); [|done]. destruct inlined; [done|].
    destruct Hcase as [?|[_ ?]]; [done|]. apply Z.eqb_eq in E8. done. }
  assert (Hread : ¬ Z.of_nat (length data) < value_offset + 8 →
                  ∃ z, read_le data (Z.to_nat value_offset) 8 = Ok z)
    by (intros ?; apply read_le_in_bounds; lia).
  destruct (value_type =? 9).
  { destruct (is_arithmetic_v T); [|done]. destruct (decide _); [done|].
    destruct Hread as [z ->]; done. }
  destruct (value_type =? 10).
  { destruct (is_arithmetic_v T); [|done]. destruct (decide _); [done|].
    destruct Hread as [z ->]; done. }
  destruct (value_type =? 11).
  { destruct (is_arithmetic_v T); [|done]. destruct (decide _); [done|].
    destruct Hread as [z ->]; [done|]. cbn [mbind outcome_bind].
    destruct T; repeat case_match; done. }
  destruct (value_type =? 12); [|done].
  destruct T; try done.
  pose proof (read_varint_in_bounds data (Z.to_nat value_offset) 0 0 5 q).
  destruct (read_varint _ _ _ _ _ _) as [[? ?]| |]; cbn [mbind outcome_bind];
    [by case_match|done|congruence].
Qed.

Lemma extract_entry_in_bounds T data large_format i q :
  0 ≤ i →
  extract_entry T data (length data) large_format i = Fault (OutOfBoundsRead q) →
  large_format = false
  ∧ (small_entry_type data i = Some 7 ∨ small_entry_type data i = Some 8).
Proof.
  intros Hi. unfold extract_entry. destruct (decide _) as [?|Hfit]; [done|].
  match goal with |- context [read_u8 data ?p] =>
    destruct (read_u8_in_bounds data p) as [vt Hvt];
    [destruct large_format; lia|] end.
  rewrite Hvt. cbn [mbind outcome_bind].
  match goal with |- context [read_le data ?p ?n] =>
    destruct (read_le_in_bounds data p n) as [raw Hraw];
    [destruct large_format; lia|] end.
  rewrite Hraw. cbn [mbind outcome_bind].
  assert (0 ≤ raw).
  { revert Hraw. generalize (Z.to_nat (if large_format then 4 else 2)).
    intros n. generalize (Z.to_nat
      (1 + 2 * (if large_format then 4 else 2)
       + i * (1 + (if large_format then 4 else 2)) + 1)).
    intros p. revert p raw. induction n as [|n IH]; intros p raw.
    - by intros [= <-].
    - cbn [read_le]. unfold read_u8, read_byte.
      destruct (data !! p) as [b|]; cbn [mbind outcome_bind]; [|done].
      destruct (read_le data (S p) n) as [rest| |] eqn:Hrest;
        cbn [mbind outcome_bind]; [|done..].
      intros [= <-]. apply Z.lor_nonneg. split.
      + pose proof (byte_to_Z_range b). lia.
      + apply Z.shiftl_nonneg. by eapply IH. }
  destruct (_ || _) eqn:Hinl.
  - intros Hf. by eapply extract_element_in_bounds in Hf; [|lia|left].
  - destruct (decide _); [done|]. intros Hf.
    destruct (decide (vt = 7 ∨ vt = 8)) as [Hvt78|Hnot].
    + assert (large_format = false) as ->.
      { destruct large_format; [|done].
        rewrite !andb_true_r in Hinl. apply orb_false_elim in Hinl as [Hinl H8].
        apply orb_false_elim in Hinl as [_ H7].
        apply Z.eqb_neq in H7, H8. lia. }
      split; [done|]. unfold small_entry_type.
      revert Hvt. unfold read_u8, read_byte.
      replace (Z.to_nat (1 + 2 * 2 + i * (1 + 2))) with (Z.to_nat (5 + i * 3))
        by lia.
      destruct (data !! _) as [b|]; cbn [mbind outcome_bind]; [|done].
      intros [= Hb]. cbn [fmap option_fmap option_map]. rewrite Hb.
      destruct Hvt78 as [-> | ->]; auto.
    + eapply extract_element_in_bounds in Hf; [done|lia|]. right. lia.
Qed.

Lemma extract_loop_in_bounds T data large_format element_count fuel i result q :
  0 ≤ i →
  extract_loop T data (length data) large_format element_count i result fuel
  = Fault (OutOfBoundsRead q) →
  large_format = false
  ∧ ∃ j, i ≤ j
         ∧ (small_entry_type data j = Some 7 ∨ small_entry_type data j = Some 8).
Proof.
  revert i result. induction fuel as [|fuel IH]; intros i result Hi.
  - cbn [extract_loop]. by destruct (decide _).
  - cbn [extract_loop]. destruct (decide _); [done|].
    destruct (extract_entry T data (length data) large_format i)
      as [e|e|f] eqn:He; cbn [mbind outcome_bind]; [|done|].
    + intros Hf. apply IH in Hf as [? (j & ? & ?)]; [|lia].
      split; [done|]. exists j. split; [lia|done].
    + intros [= ->]. apply extract_entry_in_bounds in He as [? ?]; [|done].
      split; [done|]. by exists i.
Qed.

(** Every read of the decoder past its input comes from a value entry
    of type int32 (0x07) or uint32 (0x08) in a small array: all other
    paths check their offsets against the length first. *)
Lemma only_int32_entries_read_past_the_input (T : elem_type)
    (json_binary : list byte) (q : nat) :
  ExtractVectorFromJson T json_binary = Fault (OutOfBoundsRead q) →
  json_binary !! 0%nat = Some x02
  ∧ ∃ j, 0 ≤ j
         ∧ (small_entry_type json_binary j = Some 7
            ∨ small_entry_type json_binary j = Some 8).
Proof.
  unfold ExtractVectorFromJson. destruct (decide _); [done|].
  unfold read_u8 at 1, read_byte.
  destruct (json_binary !! 0%nat) as [b|] eqn:Hb; cbn [mbind outcome_bind];
    [|apply lookup_ge_None_1 in Hb; lia].
  destruct (_ && _) eqn:Htype; [done|]. destruct (decide _); [done|].
  match goal with |- context [read_le ?d ?p ?n ≫= _] =>
    destruct (read_le_in_bounds d p n) as [element_count ->];
    [destruct (byte_to_Z b =? 3); lia|] end.
  cbn [mbind outcome_bind].
  destruct (reserve_granted _); cbn [negb]; [|done]. intros Hf.
  apply extract_loop_in_bounds in Hf as [Hsmall Hj]; [|done].
  split; [|done]. f_equal.
  rewrite Hsmall, andb_true_r in Htype. apply negb_false_iff, Z.eqb_eq in Htype.
  revert Htype. by destruct b.
Qed.

Lemma reserve_granted_small (bytes : Z) :
  bytes ≤ SMALL_RESERVE → reserve_granted bytes = true.
Proof. intros H. unfold reserve_granted. apply bool_decide_eq_true_2. by left. Qed.

Lemma sizeof_elem_bounds (T : elem_type) : 1 ≤ sizeof_elem T ≤ 32.
Proof. destruct T; simpl; lia. Qed.

(** The vector of an array of fewer than [2^16] elements, which every
    small-format array is, can always be reserved. *)
Lemma reserve_granted_16_bits (T : elem_type) (element_count : Z) :
  element_count < 2 ^ 16 →
  reserve_granted (reserve_bytes T element_count) = true.
Proof.
  intros H. apply reserve_granted_small. unfold reserve_bytes, SMALL_RESERVE.
  pose proof (sizeof_elem_bounds T). nia.
Qed.

(** C4, the failing inputs: a small array of one element whose value
    entry has type int32 (0x07) or uint32 (0x08) and offset 6, in an
    input of 8 bytes.  The offset check passes ([6 + 1 < 8]) and the
    four bytes at positions 7 to 10 are read: position 8 is past the
    input. *)
Theorem int32_entry_reads_past_the_input (T : elem_type) :
  is_arithmetic_v T = true →
  ExtractVectorFromJson T [x02; x01; x00; x08; x00; x07; x06; x00]
  = Fault (OutOfBoundsRead 8)
  ∧ ExtractVectorFromJson T [x02; x01; x00; x08; x00; x08; x06; x00]
    = Fault (OutOfBoundsRead 8).
Proof.
  destruct T; try done; intros _; split; unfold ExtractVectorFromJson;
    cbv -[reserve_granted reserve_bytes];
    by rewrite reserve_granted_16_bits by done.
Qed.

End JsonArrayFacts.

Lemma int32_entry_reads_past_the_input_witness :
  ExtractVectorFromJson (FA := QFloat) T_float
    [x02; x01; x00; x08; x00; x07; x06; x00]
  = Fault (OutOfBoundsRead 8)
  ∧ ExtractVectorFromJson (FA := QFloat) T_float
      [x02; x01; x00; x08; x00; x08; x06; x00]
    = Fault (OutOfBoundsRead 8).
Proof. apply (int32_entry_reads_past_the_input T_float). done. Defined.

(** ** The hybrid score *)

Section HybridScore.
Context {FA : FloatArith} {MEM : Memory}.

(** While the heap has room a row enters with the combined score. *)
Lemma hybrid_heap_update_push k w h distance distance_spatial key value :
  Z.of_nat (pq_size h) < k →
  hybrid_heap_update k w h distance distance_spatial key value
  = Ok (pq_push cmp
          (f32_add distance (f32_mul w distance_spatial), (key, value)) h).
Proof. intros H. unfold hybrid_heap_update. by destruct (decide _). Qed.

(** Once the heap is full, a row is compared by its vector distance
    alone and enters with its vector distance alone. *)
Lemma hybrid_heap_update_evict k w h top distance distance_spatial key value :
  ¬ Z.of_nat (pq_size h) < k → pq_top h = Some top →
  hybrid_heap_update k w h distance distance_spatial key value
  = Ok (if f32_ltb distance top.1
        then pq_push cmp (distance, (key, value)) (pq_pop h)
        else h).
Proof.
  intros H Htop. unfold hybrid_heap_update. destruct (decide _); [done|].
  rewrite Htop. by destruct (f32_ltb _ _).
Qed.

End HybridScore.

(** C1, the failing input: rows [r1] ([v = [1,0]] at the query point)
    and [r2] ([v = [0,0]], one degree of latitude away), query [[0,0]],
    weight [1e-11].  With [k = 2] both rows enter while the heap has
    room and [r2] is reported with its combined score
    [0 + 1e-11 * haversine]; with [k = 1] the same row enters by
    eviction and is reported with score 0, its vector distance alone. *)
Theorem hybrid_evicted_row_keeps_vector_distance :
  keys_and_scores
    (lsm_knn_search_hybrid_with_value example_hybrid_index [0%Q; 0%Q]
       (example_params 2))
  = Some (HA_EXIT_SUCCESS,
          [([x72; x32], (34748461537803 # 31248810062500000000)%Q);
           ([x72; x31], 1%Q)])
  ∧ keys_and_scores
      (lsm_knn_search_hybrid_with_value example_hybrid_index [0%Q; 0%Q]
         (example_params 1))
    = Some (HA_EXIT_SUCCESS, [([x72; x32], 0%Q)]).
Proof. split; vm_compute; done. Qed.

(** ** Short values in the inverted lists *)

(** C5, the failing input: list 0 holds a sound record and one whose
    value has 3 bytes where the code size is 8, its first byte the
    unpack tag 0x02.  Without a predicate [get_key_and_codes] sees the
    short value and the search returns CorruptData with no row.  With a
    pushed-down predicate the availability check reaches the record
    through [get_key_and_value], whose [unsigned long value_bytes] is
    never below zero: it goes on to [value.reserve(2^64 - 5)], which
    throws. *)
Theorem short_value_under_predicate :
  let index :=
    example_ivf_index
      [(example_key [x61], replicate 8 x01); (example_key [x62], [x02; x00; x00])] in
  ivf_knn_search index example_env [0%Q; 0%Q] (example_params 2) []
  = Returned (HA_ERROR HA_ERR_ROCKSDB_CORRUPT_DATA) []
  ∧ ivf_knn_search index env_with_cond [0%Q; 0%Q] (example_params 2) []
    = Crashed LengthError.
Proof. split; vm_compute; done. Qed.

(** ** Cancellation *)

Section Cancellation.
Context {FA : FloatArith} {MEM : Memory} {KD : Rdb_key_def_tags}.

Lemma is_available_loop_error killed index_id list_id code_size ctx records e :
  m_error ctx = Some e →
  is_available_loop killed index_id list_id code_size ctx records
  = Ok (ctx, records).
Proof.
  intros He. destruct records as [|r records]; [done|].
  cbn [is_available_loop]. rewrite He.
  by rewrite bool_decide_eq_true_2.
Qed.

(** With an error in the context nothing is available any more. *)
Lemma is_available_error killed ctx it e :
  m_error ctx = Some e →
  is_available killed ctx it = Ok (false, on_iterator_end (m_list_id it) ctx, it).
Proof.
  intros He. unfold is_available.
  rewrite (is_available_loop_error _ _ _ _ _ _ e He). cbn [mbind outcome_bind].
  rewrite He, bool_decide_eq_true_2 by done. cbn [negb andb]. by destruct it.
Qed.

(** An exhausted iterator is not available, killed or not, and records
    no error. *)
Lemma is_available_exhausted killed ctx it :
  m_iterator it = [] →
  is_available killed ctx it = Ok (false, on_iterator_end (m_list_id it) ctx, it).
Proof.
  intros Hit. unfold is_available. rewrite Hit. cbn [is_available_loop mbind outcome_bind].
  rewrite (bool_decide_eq_true_2 ([] = [])) by done.
  rewrite andb_false_r. destruct it; simpl in *; by subst.
Qed.

(** The availability check on a valid record with the kill flag set. *)
Lemma is_available_killed ctx it :
  m_thd ctx = true → m_error ctx = None → m_iterator it ≠ [] →
  is_available true ctx it
  = Ok (false,
        on_iterator_end (m_list_id it)
          (set_error (Some HA_ERR_QUERY_INTERRUPTED) ctx), it).
Proof.
  intros Hthd Herr Hit. unfold is_available.
  destruct (m_iterator it) as [|r records] eqn:Hrec; [done|].
  cbn [is_available_loop]. rewrite Herr, Hthd.
  rewrite bool_decide_eq_false_2 by (by intros [? ?]).
  cbn [andb mbind outcome_bind set_error m_error].
  rewrite bool_decide_eq_true_2 by done. cbn [negb andb].
  destruct it; simpl in *; by subst.
Qed.

Lemma on_iterator_end_error list_id ctx :
  m_error (on_iterator_end list_id ctx) = m_error ctx.
Proof. done. Qed.

Lemma on_iterator_end_thd list_id ctx :
  m_thd (on_iterator_end list_id ctx) = m_thd ctx.
Proof. done. Qed.

(** After an error the scan of a list ends at its first check and
    leaves the heap as it is. *)
Lemma faiss_scan_list_error env distance metric k fuel clock ctx it heap e :
  m_error ctx = Some e →
  faiss_scan_list env distance metric k (S fuel) clock ctx it heap
  = Ok (S clock, on_iterator_end (m_list_id it) ctx, heap).
Proof.
  intros He. cbn [faiss_scan_list].
  by rewrite (is_available_error _ _ _ e He).
Qed.

Lemma faiss_scan_lists_error index env distance metric k list_ids clock ctx
    heap e :
  m_error ctx = Some e →
  ∃ clock' ctx',
    faiss_scan_lists index env distance metric k list_ids clock ctx heap
    = Ok (clock', ctx', heap)
    ∧ m_error ctx' = Some e.
Proof.
  revert clock ctx. induction list_ids as [|list_no rest IH]; intros clock ctx He.
  - by exists clock, ctx.
  - cbn [faiss_scan_lists]. destruct (decide (list_no < 0)); [by apply IH|].
    rewrite (faiss_scan_list_error _ _ _ _ _ _ _ _ _ e He).
    cbn [mbind outcome_bind]. apply IH. by rewrite on_iterator_end_error.
Qed.

(** The scan of a list whose next availability check finds a valid
    record and the kill flag set: it stops there with Interrupted
    recorded and the heap as it was. *)
Lemma faiss_scan_list_killed env distance metric k fuel clock ctx it heap :
  m_thd ctx = true → m_error ctx = None → m_iterator it ≠ [] →
  env_killed_at env clock = true →
  faiss_scan_list env distance metric k (S fuel) clock ctx it heap
  = Ok (S clock,
        on_iterator_end (m_list_id it)
          (set_error (Some HA_ERR_QUERY_INTERRUPTED) ctx), heap).
Proof.
  intros Hthd Herr Hit Hk. cbn [faiss_scan_list].
  by rewrite Hk, is_available_killed.
Qed.

(** From such a check on, whatever lists remain, the search ends with
    Interrupted in the context and the heap as it was. *)
Lemma faiss_scan_interrupted index env distance metric k fuel clock ctx it heap
    rest :
  m_thd ctx = true → m_error ctx = None → m_iterator it ≠ [] →
  env_killed_at env clock = true →
  ∃ clock' ctx',
    (faiss_scan_list env distance metric k (S fuel) clock ctx it heap
     ≫= fun '(clock, ctx, heap) =>
          faiss_scan_lists index env distance metric k rest clock ctx heap)
    = Ok (clock', ctx', heap)
    ∧ m_error ctx' = Some HA_ERR_QUERY_INTERRUPTED.
Proof.
  intros Hthd Herr Hit Hk.
  rewrite faiss_scan_list_killed by done. cbn [mbind outcome_bind].
  by apply faiss_scan_lists_error.
Qed.

Lemma faiss_scan_lists_killed index env distance metric k list_ids clock ctx
    heap :
  m_thd ctx = true → m_error ctx = None →
  (∀ n, env_killed_at env n = true) →
  (∃ list_no, list_no ∈ list_ids ∧ 0 ≤ list_no ∧ ivf_cf index list_no ≠ []) →
  ∃ clock' ctx',
    faiss_scan_lists index env distance metric k list_ids clock ctx heap
    = Ok (clock', ctx', heap)
    ∧ m_error ctx' = Some HA_ERR_QUERY_INTERRUPTED.
Proof.
  intros Hthd Herr Hk. revert clock ctx Hthd Herr.
  induction list_ids as [|list_no rest IH]; intros clock ctx Hthd Herr Hex.
  - destruct Hex as (? & Hin & _). by apply elem_of_nil in Hin.
  - assert (Hrest : ¬ (0 ≤ list_no ∧ ivf_cf index list_no ≠ []) →
              ∃ l, l ∈ rest ∧ 0 ≤ l ∧ ivf_cf index l ≠ []).
    { intros Hnot. destruct Hex as (l & Hin & Hl).
      apply elem_of_cons in Hin as [->|Hin]; [done|]. by exists l. }
    cbn [faiss_scan_lists]. destruct (decide (list_no < 0)) as [Hneg|Hpos].
    { apply IH; [done..|]. apply Hrest. lia. }
    destruct (decide (ivf_cf index list_no = [])) as [Hempty|Hrecords].
    + cbn [faiss_scan_list m_iterator]. rewrite is_available_exhausted by done.
      cbn [mbind outcome_bind]. apply IH; [done..|]. apply Hrest. tauto.
    + by apply faiss_scan_interrupted.
Qed.


End Cancellation.



(** ** Short values without a predicate *)

Lemma wrap_signed_32_extra_bytes (len cs : Z) :
  0 ≤ cs < 2 ^ 31 → 0 ≤ len →
  (len < cs → wrap_signed 32 (len - cs) < 0)
  ∧ (0 < wrap_signed 32 (len - cs) → 0 < len ∧ wrap_signed 32 (len - cs) ≤ len).
Proof.
  intros Hcs Hlen. unfold wrap_signed. cbv zeta.
  pose proof (Z.mod_pos_bound (len - cs) (2 ^ 32) eq_refl) as Hu.
  destruct (decide (len < cs)) as [Hshort|Hlong].
  - assert ((len - cs) mod 2 ^ 32 = len - cs + 2 ^ 32) as ->.
    { rewrite <- (Z_mod_plus_full (len - cs) 1 (2 ^ 32)).
      apply Z.mod_small. lia. }
    destruct (Z.ltb_spec (len - cs + 2 ^ 32) (2 ^ (32 - 1))); lia.
  - pose proof (Z.mod_le (len - cs) (2 ^ 32) ltac:(lia) eq_refl) as Hle.
    assert (len = cs → (len - cs) mod 2 ^ 32 = 0)
      by (intros ->; by rewrite Z.sub_diag).
    destruct (Z.ltb_spec ((len - cs) mod 2 ^ 32) (2 ^ (32 - 1))); lia.
Qed.

Section ShortValues.
Context {FA : FloatArith} {MEM : Memory} {KD : Rdb_key_def_tags}.

Lemma check_item_key_cases (it : Rdb_vector_iterator) (key_slice : list byte) :
  check_item_key it key_slice = Ok key_slice
  ∨ check_item_key it key_slice = Err HA_ERR_ROCKSDB_CORRUPT_DATA.
Proof.
  unfold check_item_key, read_inverted_list_key.
  destruct (reader_read_be 4 key_slice) as [[? ?]|]; [|by right].
  destruct (decide _); [by right|].
  destruct (reader_read_be 8 _) as [[? ?]|]; [|by right].
  destruct (decide _); [by right|]. cbn [mbind outcome_bind].
  destruct (decide _); [by right|by left].
Qed.

(** [get_key_and_codes] answers a value shorter than the code size with
    CorruptData. *)
Lemma get_key_and_codes_short_value ctx it key value rest :
  m_iterator it = (key, value) :: rest →
  0 ≤ m_code_size it < 2 ^ 31 →
  short_value (m_code_size it) (key, value) →
  get_key_and_codes ctx it = Err HA_ERR_ROCKSDB_CORRUPT_DATA.
Proof.
  intros Hit Hcs Hshort. unfold get_key_and_codes. rewrite Hit.
  destruct (check_item_key_cases it key) as [-> | ->]; [|done].
  cbn [mbind outcome_bind].
  destruct (wrap_signed_32_extra_bytes (Z.of_nat (length value)) (m_code_size it))
    as [Hneg _]; [done|lia|].
  rewrite decide_True; [done|]. by apply Hneg.
Qed.

(** Under a code size below [2^31], [get_key_and_codes] reads inside
    the value: it yields the record or CorruptData. *)
Lemma get_key_and_codes_cases ctx it :
  m_iterator it ≠ [] → 0 ≤ m_code_size it < 2 ^ 31 →
  get_key_and_codes ctx it = Err HA_ERR_ROCKSDB_CORRUPT_DATA
  ∨ ∃ key codes, get_key_and_codes ctx it = Ok (key, codes, on_iterator_record ctx).
Proof.
  intros Hit Hcs. unfold get_key_and_codes.
  destruct (m_iterator it) as [|[key value] rest]; [done|].
  destruct (check_item_key_cases it key) as [-> | ->]; [|by left].
  cbn [mbind outcome_bind].
  destruct (wrap_signed_32_extra_bytes (Z.of_nat (length value)) (m_code_size it))
    as [_ Hpos]; [done|lia|].
  destruct (decide (_ < 0)); [by left|].
  destruct (decide (0 < _)) as [Hextra|]; [|right; by eexists _, _].
  destruct (Hpos Hextra) as [Hlen Hle].
  destruct (read_u8_in_bounds value 0) as [tag ->]; [lia|].
  cbn [mbind outcome_bind]. destruct (negb _); [by left|].
  destruct (decide (_ < Z.of_nat _)); [by left|].
  rewrite decide_False by lia. right. by eexists _, _.
Qed.

Lemma is_available_plain ctx it r rest :
  m_pk_index_cond ctx = None → m_error ctx = None →
  m_iterator it = r :: rest →
  is_available false ctx it = Ok (true, ctx, it).
Proof.
  intros Hcond Herr Hit. unfold is_available. rewrite Hit.
  cbn [is_available_loop]. rewrite Herr, Hcond, andb_false_r.
  rewrite bool_decide_eq_false_2 by (by intros [? ?]).
  cbn [mbind outcome_bind]. rewrite Herr.
  rewrite !bool_decide_eq_false_2 by (done || by intros [? ?]).
  cbn [negb andb]. destruct it; simpl in *; by subst.
Qed.

Lemma faiss_scan_list_no_predicate env distance metric k index_id list_id
    code_size records :
  (∀ n, env_killed_at env n = false) → 0 ≤ code_size < 2 ^ 31 →
  ∀ fuel clock ctx heap,
    (length records < fuel)%nat → context_ok ctx →
    ∃ clock' ctx' heap',
      faiss_scan_list env distance metric k fuel clock ctx
        {| m_index_id := index_id; m_list_id := list_id;
           m_code_size := code_size; m_iterator := records |} heap
      = Ok (clock', ctx', heap')
      ∧ context_ok ctx'
      ∧ (m_error ctx = Some HA_ERR_ROCKSDB_CORRUPT_DATA
         ∨ Exists (short_value code_size) records →
         m_error ctx' = Some HA_ERR_ROCKSDB_CORRUPT_DATA).
Proof.
  intros Hlive Hcs. induction records as [|[key value] rest IH];
    intros fuel clock ctx heap Hfuel [Hcond Herr].
  - destruct fuel as [|fuel]; [simpl in Hfuel; lia|].
    cbn [faiss_scan_list]. rewrite is_available_exhausted by done.
    cbn [mbind outcome_bind]. eexists _, _, _. split; [done|].
    split; [by split|]. intros [He|Hex]; [done|]. by apply Exists_nil in Hex.
  - destruct fuel as [|fuel]; [simpl in Hfuel; lia|].
    destruct Herr as [Herr|Herr].
    2:{ rewrite (faiss_scan_list_error _ _ _ _ _ _ _ _ _ _ Herr).
        eexists _, _, _. split; [done|]. split; [split; [done|by right]|done]. }
    cbn [faiss_scan_list]. rewrite Hlive.
    rewrite (is_available_plain _ _ (key, value) rest) by done.
    cbn [mbind outcome_bind]. unfold get_id_and_codes.
    set (it := Build_Rdb_vector_iterator _ _ _ _).
    destruct (get_key_and_codes_cases ctx it) as [Hget|(key' & codes & Hget)];
      [done|done| |].
    + rewrite Hget. cbn [mbind outcome_bind].
      destruct (IH fuel (S clock) (set_error (Some HA_ERR_ROCKSDB_CORRUPT_DATA) ctx)
                  (faiss_heap_update metric k heap
                     (distance (replicate (Z.to_nat (m_code_size it)) x00)) 42))
        as (clock' & ctx' & heap' & Hscan & Hok & Hcorrupt);
        [simpl in Hfuel; lia|split; [done|by right]|].
      exists clock', ctx', heap'. split; [exact Hscan|]. split; [done|].
      intros _. apply Hcorrupt. by left.
    + rewrite Hget. cbn [mbind outcome_bind add_key].
      match goal with |- context [faiss_scan_list _ _ _ _ _ _ ?c _ ?h] =>
        destruct (IH fuel (S clock) c h)
          as (clock' & ctx' & heap' & Hscan & Hok & Hcorrupt);
          [simpl in Hfuel; lia|split; [done|by left]|] end.
      exists clock', ctx', heap'. split; [exact Hscan|]. split; [done|].
      intros [He|Hex]; [congruence|]. apply Hcorrupt.
      apply Exists_cons in Hex as [Hshort|Hex]; [|by right].
      rewrite (get_key_and_codes_short_value ctx it key value rest) in Hget;
        done.
Qed.

Lemma faiss_scan_lists_no_predicate index env distance metric k list_ids :
  (∀ n, env_killed_at env n = false) → 0 ≤ ivf_code_size index < 2 ^ 31 →
  ∀ clock ctx heap,
    context_ok ctx →
    ∃ clock' ctx' heap',
      faiss_scan_lists index env distance metric k list_ids clock ctx heap
      = Ok (clock', ctx', heap')
      ∧ context_ok ctx'
      ∧ (m_error ctx = Some HA_ERR_ROCKSDB_CORRUPT_DATA
         ∨ (∃ list_no, list_no ∈ list_ids ∧ 0 ≤ list_no
              ∧ Exists (short_value (ivf_code_size index)) (ivf_cf index list_no)) →
         m_error ctx' = Some HA_ERR_ROCKSDB_CORRUPT_DATA).
Proof.
  intros Hlive Hcs. induction list_ids as [|list_no rest IH];
    intros clock ctx heap Hok.
  - exists clock, ctx, heap. split; [done|]. split; [done|].
    intros [He|(l & Hin & _)]; [done|]. by apply elem_of_nil in Hin.
  - cbn [faiss_scan_lists]. destruct (decide (list_no < 0)) as [Hneg|Hpos].
    + destruct (IH clock ctx heap Hok) as (c' & ctx' & h' & Hscan & Hok' & Hc).
      exists c', ctx', h'. split; [done|]. split; [done|].
      intros [He|(l & Hin & Hl & Hex)]; apply Hc; [by left|right].
      apply elem_of_cons in Hin as [->|Hin]; [lia|]. by exists l.
    + destruct (faiss_scan_list_no_predicate env distance metric k
                  (ivf_index_id index) list_no (ivf_code_size index)
                  (ivf_cf index list_no) Hlive Hcs
                  (S (length (ivf_cf index list_no))) clock ctx heap)
        as (c1 & ctx1 & h1 & Hscan1 & Hok1 & Hc1); [simpl; lia|done|].
      cbn [m_iterator]. rewrite Hscan1. cbn [mbind outcome_bind].
      destruct (IH c1 ctx1 h1 Hok1) as (c' & ctx' & h' & Hscan & Hok' & Hc).
      exists c', ctx', h'. split; [done|]. split; [done|].
      intros [He|(l & Hin & Hl & Hex)]; apply Hc.
      * left. apply Hc1. by left.
      * apply elem_of_cons in Hin as [->|Hin].
        -- left. apply Hc1. by right.
        -- right. by exists l.
Qed.

(** An IVF search without a pushed-down predicate, not killed, that
    probes a list holding a record whose value is shorter than the
    code size returns CorruptData and leaves the result as it was. *)
Lemma ivf_short_value_without_predicate index env query_vector params result :
  env_pk_index_cond env = None →
  (∀ n, env_killed_at env n = false) →
  0 ≤ ivf_code_size index < 2 ^ 31 →
  (∃ list_no, list_no ∈ ivf_quantizer index query_vector (m_nprobe params)
     ∧ 0 ≤ list_no
     ∧ Exists (short_value (ivf_code_size index)) (ivf_cf index list_no)) →
  ivf_knn_search index env query_vector params result
  = Returned (HA_ERROR HA_ERR_ROCKSDB_CORRUPT_DATA) result.
Proof.
  intros Hcond Hlive Hcs Hshort. unfold ivf_knn_search, faiss_search.
  destruct (faiss_scan_lists_no_predicate index env
              (ivf_distance index (m_metric params) query_vector)
              (m_metric params) (m_k params)
              (ivf_quantizer index query_vector (m_nprobe params)) Hlive Hcs
              0%nat (new_context (env_thd env) (env_pk_index_cond env)) [])
    as (clock & ctx & heap & -> & _ & Hcorrupt).
  { split; [exact Hcond|by left]. }
  cbn [mbind outcome_bind]. rewrite Hcorrupt; [done|by right].
Qed.
End ShortValues.

(** ** The scan of an inverted list ends *)

Section ScanFuel.
Context {FA : FloatArith} {MEM : Memory} {KD : Rdb_key_def_tags}.

Lemma read_bytes_fuel data idxs : read_bytes data idxs ≠ Fault OutOfFuel.
Proof.
  induction idxs as [|i idxs IH]; [done|].
  cbn [read_bytes]. unfold read_byte.
  destruct (data !! i); cbn [mbind outcome_bind]; [|done].
  by destruct (read_bytes data idxs).
Qed.

Lemma get_key_and_value_fuel it need_value :
  get_key_and_value it need_value ≠ Fault OutOfFuel.
Proof.
  unfold get_key_and_value.
  destruct (m_iterator it) as [|[key value] rest]; [done|].
  destruct (check_item_key_cases it key) as [-> | ->]; [|done].
  cbn [mbind outcome_bind]. destruct (negb need_value); [done|].
  destruct (decide _); [done|]. destruct (decide _); [|done].
  unfold read_u8, read_byte. destruct (value !! 0%nat); [|done].
  cbn [mbind outcome_bind]. destruct (negb _); [done|].
  repeat (destruct (decide _); [done|]).
  repeat match goal with |- context [read_bytes ?d ?i] =>
    pose proof (read_bytes_fuel d i); destruct (read_bytes d i);
    cbn [mbind outcome_bind]; try done; try congruence end.
Qed.

Lemma get_id_and_codes_fuel ctx it :
  get_id_and_codes ctx it ≠ Fault OutOfFuel.
Proof.
  unfold get_id_and_codes, get_key_and_codes.
  destruct (m_iterator it) as [|[key value] rest]; [done|].
  destruct (check_item_key_cases it key) as [-> | ->]; [|done].
  cbn [mbind outcome_bind]. destruct (decide _); [done|].
  destruct (decide _); [|done].
  unfold read_u8, read_byte. destruct (value !! 0%nat); [|done].
  cbn [mbind outcome_bind]. destruct (negb _); [done|].
  repeat (destruct (decide _); [done|]). done.
Qed.

Lemma is_available_loop_fuel killed index_id list_id code_size ctx records :
  match is_available_loop killed index_id list_id code_size ctx records with
  | Ok (_, records') => (length records' ≤ length records)%nat
  | Err _ => True
  | Fault f => f ≠ OutOfFuel
  end.
Proof.
  induction records as [|r records IH]; [simpl; lia|].
  cbn [is_available_loop]. destruct (bool_decide _); [simpl; lia|].
  destruct (_ && _); [simpl; lia|].
  destruct (m_pk_index_cond ctx) as [cond|]; [|simpl; lia].
  match goal with |- context [get_key_and_value ?i ?b] =>
    pose proof (get_key_and_value_fuel i b) as Hget;
    destruct (get_key_and_value i b) as [[sk sk_value]| |] end;
    [|simpl; lia|congruence].
  destruct (unpack_record _ _ _); [simpl; lia|].
  destruct (negb _); [simpl; lia|].
  destruct (is_available_loop _ _ _ _ _ _) as [[? ?]| |]; simpl in *;
    [lia|done|done].
Qed.

(** One unit of fuel more than the list has records is enough: the scan
    of a list never stops for lack of fuel. *)
Lemma faiss_scan_list_fuel env distance metric k :
  ∀ fuel clock ctx it heap,
    (length (m_iterator it) < fuel)%nat →
    faiss_scan_list env distance metric k fuel clock ctx it heap
    ≠ Fault OutOfFuel.
Proof.
  induction fuel as [|fuel IH]; intros clock ctx it heap Hfuel; [lia|].
  cbn [faiss_scan_list]. unfold is_available.
  pose proof (is_available_loop_fuel (env_killed_at env clock) (m_index_id it)
                (m_list_id it) (m_code_size it) ctx (m_iterator it)) as Hloop.
  destruct (is_available_loop _ _ _ _ _ _) as [[ctx' records']| |];
    cbn [mbind outcome_bind]; [|done|congruence].
  destruct (negb (bool_decide (is_Some (m_error ctx')))); [|done].
  cbn [andb]. case_bool_decide as Hrec; [done|]. cbn [negb].
  cbn [mbind outcome_bind].
  match goal with |- context [get_id_and_codes ?c ?i] =>
    pose proof (get_id_and_codes_fuel c i) as Hget;
    destruct (get_id_and_codes c i) as [[[id codes] ctx'']| |] end;
    cbn [mbind outcome_bind]; [|done|congruence].
  apply IH. unfold iterator_next. cbn [m_iterator].
  destruct records'; [done|]. simpl in *. lia.
Qed.

Lemma faiss_scan_lists_fuel index env distance metric k list_ids :
  ∀ clock ctx heap,
    faiss_scan_lists index env distance metric k list_ids clock ctx heap
    ≠ Fault OutOfFuel.
Proof.
  induction list_ids as [|list_no rest IH]; intros clock ctx heap; [done|].
  cbn [faiss_scan_lists]. destruct (decide _); [apply IH|].
  match goal with |- context [faiss_scan_list ?e ?d ?m ?k ?f ?c ?x ?i ?h] =>
    pose proof (faiss_scan_list_fuel e d m k f c x i h) as Hscan;
    destruct (faiss_scan_list e d m k f c x i h) as [[[c1 ctx1] h1]| |] end;
    cbn [mbind outcome_bind]; [apply IH|done|].
  intros [= ->]. apply Hscan; [simpl; lia|done].
Qed.

(** [knn_search] on the IVF index never stops for lack of fuel. *)
Lemma ivf_knn_search_fuel index env query_vector params result :
  ivf_knn_search index env query_vector params result ≠ Crashed OutOfFuel.
Proof.
  unfold ivf_knn_search, faiss_search.
  match goal with |- context [faiss_scan_lists ?i ?e ?d ?m ?k ?l ?c ?x ?h] =>
    pose proof (faiss_scan_lists_fuel i e d m k l c x h) as Hscan;
    destruct (faiss_scan_lists i e d m k l c x h) as [[[c1 ctx1] h1]| |] end;
    cbn [mbind outcome_bind]; [|done|congruence].
  destruct (m_error ctx1); [done|]. by destruct (populate_result _ _ _) as [[?|] ?].
Qed.
End ScanFuel.

(** ** The row-value decoder *)

Lemma build_index_not_requested (field_indexs : list nat) (start : nat)
    (m : gmap nat nat) (idx : nat) :
  idx ∉ field_indexs →
  build_index_to_result_pos field_indexs start m !! idx = m !! idx.
Proof.
  revert start m. induction field_indexs as [|a rest IH]; intros start m Hnot;
    [done|].
  cbn [build_index_to_result_pos]. apply not_elem_of_cons in Hnot as [Hne Hnot].
  rewrite IH by done. by rewrite lookup_insert_ne.
Qed.

Lemma build_index_requested (field_indexs : list nat) (start : nat)
    (m : gmap nat nat) (j idx : nat) :
  NoDup field_indexs → field_indexs !! j = Some idx →
  build_index_to_result_pos field_indexs start m !! idx = Some (start + j)%nat.
Proof.
  revert start m j. induction field_indexs as [|a rest IH];
    intros start m j Hnd Hj; [done|].
  apply NoDup_cons in Hnd as [Ha Hnd]. cbn [build_index_to_result_pos].
  destruct j as [|j]; simpl in Hj.
  - injection Hj as ->. rewrite build_index_not_requested by done.
    rewrite lookup_insert_eq. f_equal. lia.
  - rewrite (IH _ _ j) by done. f_equal. lia.
Qed.

Lemma index_to_result_pos_spec (field_indexs : list nat) (idx j : nat) :
  NoDup field_indexs →
  build_index_to_result_pos field_indexs 0 ∅ !! idx = Some j
  ↔ field_indexs !! j = Some idx.
Proof.
  intros Hnd. split.
  - intros Hm. destruct (decide (idx ∈ field_indexs)) as [Hin|Hnot].
    + apply list_elem_of_lookup in Hin as [j' Hj'].
      rewrite (build_index_requested _ _ _ j') in Hm by done.
      injection Hm as <-. done.
    + rewrite build_index_not_requested in Hm by done. done.
  - intros Hj. by rewrite (build_index_requested _ _ _ j).
Qed.

Lemma max_field_index_of_spec (nfields : nat) (field_indexs : list nat)
    (acc : nat) :
  max_field_index_of nfields field_indexs acc
  = if decide (Forall (fun idx => idx < nfields)%nat field_indexs)
    then Ok (Nat.max acc (max_list field_indexs))
    else Err HA_ERR_ROCKSDB_CORRUPT_DATA.
Proof.
  revert acc. induction field_indexs as [|idx rest IH]; intros acc.
  - cbn [max_field_index_of max_list]. rewrite decide_True by constructor.
    f_equal. lia.
  - cbn [max_field_index_of max_list]. destruct (decide (nfields ≤ idx)%nat).
    + rewrite decide_False; [done|]. intros H. apply Forall_cons in H as [? _]. simpl in *. lia.
    + rewrite IH. destruct (decide (Forall _ rest)) as [Hall|Hnot].
      * rewrite decide_True by (constructor; [simpl; lia|done]). f_equal. simpl. lia.
      * rewrite decide_False; [done|]. intros H. by apply Forall_cons in H as [_ ?].
Qed.

Lemma cursor_field_cursor value null_bytes field_info i pos s pos' :
  cursor_field value null_bytes field_info i pos = Ok (s, pos') →
  (pos ≤ length value)%nat →
  (pos ≤ pos' ≤ length value)%nat ∧ slice_in_value value s.
Proof.
  unfold cursor_field. intros H Hpos.
  destruct (field_is_null _ _ _ _) as [[|]| |]; cbn [mbind outcome_bind] in H;
    try done.
  - injection H as <- <-. done.
  - destruct (is_variable_length field_info).
    + destruct (decide _); [done|].
      destruct (read_field_length _ _ _) as [len| |]; cbn [mbind outcome_bind] in H;
        try done.
      destruct (decide _); [done|]. injection H as <- <-. simpl. lia.
    + destruct (decide _); [done|]. injection H as <- <-. simpl. lia.
Qed.

Lemma decode_field_step_walk value null_bytes m field_info i st :
  ds_remaining st = (length value - ds_pos st)%nat →
  (ds_pos st ≤ length value)%nat →
  decode_field_step value null_bytes m field_info i st
  = cursor_field value null_bytes field_info i (ds_pos st)
    ≫= fun '(s, pos) =>
         Ok {| ds_pos := pos; ds_remaining := (length value - pos)%nat;
               ds_field_values := store_target m i s (ds_field_values st) |}.
Proof.
  intros Hrem Hpos. unfold decode_field_step, cursor_field.
  destruct (field_is_null _ _ _ _) as [[|]| |]; cbn [mbind outcome_bind];
    try done.
  - by rewrite Hrem.
  - destruct (is_variable_length field_info).
    + rewrite Hrem.
      destruct (decide (length value - ds_pos st < length_bytes field_info)%nat);
        [by rewrite decide_True by lia|].
      rewrite decide_False by lia.
      destruct (read_field_length _ _ _) as [len| |]; cbn [mbind outcome_bind];
        try done.
      destruct (decide (Z.of_nat _ < len)).
      * by rewrite decide_True by lia.
      * rewrite decide_False by lia. cbn [mbind outcome_bind].
        do 2 f_equal. lia.
    + rewrite Hrem.
      destruct (decide (length value - ds_pos st < pack_length field_info)%nat).
      * by rewrite decide_True by lia.
      * rewrite decide_False by lia. cbn [mbind outcome_bind].
        do 2 f_equal. lia.
Qed.

Lemma cursor_walk_length value null_bytes fields i pos slices :
  cursor_walk value null_bytes fields i pos = Ok slices →
  length slices = length fields.
Proof.
  revert i pos slices. induction fields as [|f rest IH]; intros i pos slices H.
  - by injection H as <-.
  - cbn [cursor_walk] in H.
    destruct (cursor_field _ _ _ _ _) as [[s pos']| |]; cbn [mbind outcome_bind] in H;
      try done.
    destruct (cursor_walk _ _ rest _ _) as [ss| |] eqn:E;
      cbn [mbind outcome_bind] in H; try done.
    injection H as <-. simpl. f_equal. by eapply IH.
Qed.

Lemma decode_fields_loop_walk value null_bytes m field_info_list n i st :
  ds_remaining st = (length value - ds_pos st)%nat →
  (ds_pos st ≤ length value)%nat →
  (i + n ≤ length field_info_list)%nat →
  decode_fields_loop value null_bytes m field_info_list n i st
  ≫= (fun st' => Ok (ds_field_values st'))
  = cursor_walk value null_bytes (take n (drop i field_info_list)) i (ds_pos st)
    ≫= fun slices => Ok (store_all m i slices (ds_field_values st)).
Proof.
  revert i st. induction n as [|n IH]; intros i st Hrem Hpos Hlen; [done|].
  cbn [decode_fields_loop].
  destruct (lookup_lt_is_Some_2 field_info_list i) as [field_info Hfi]; [lia|].
  rewrite Hfi. rewrite (drop_S _ _ _ Hfi). cbn [take cursor_walk].
  rewrite decode_field_step_walk by done.
  destruct (cursor_field _ _ _ _ _) as [[s pos']| |] eqn:Hs;
    cbn [mbind outcome_bind]; try done.
  apply cursor_field_cursor in Hs as [? _]; [|done].
  rewrite IH by (simpl; lia). cbn [ds_pos ds_field_values].
  by destruct (cursor_walk _ _ _ _ _).
Qed.

Lemma store_target_length m i s field_values :
  length (store_target m i s field_values) = length field_values.
Proof. unfold store_target. destruct (m !! i); by rewrite ?length_insert. Qed.

Lemma store_all_length m i slices field_values :
  length (store_all m i slices field_values) = length field_values.
Proof.
  revert i field_values. induction slices as [|s ss IH]; intros i fv; [done|].
  cbn [store_all]. by rewrite IH, store_target_length.
Qed.

Lemma store_all_lookup m idx j slices i field_values :
  (∀ k, m !! k = Some j ↔ k = idx) → (j < length field_values)%nat →
  store_all m i slices field_values !! j
  = if decide (i ≤ idx < i + length slices)%nat then slices !! (idx - i)%nat
    else field_values !! j.
Proof.
  intros Hm. revert i field_values.
  induction slices as [|s ss IH]; intros i fv Hj.
  - cbn [store_all length]. by rewrite decide_False by lia.
  - cbn [store_all length]. rewrite IH by (by rewrite store_target_length).
    destruct (decide (S i ≤ idx < S i + length ss)%nat).
    + rewrite decide_True by lia. by replace (idx - i)%nat with (S (idx - S i)) by lia.
    + unfold store_target. destruct (decide (idx = i)) as [->|Hne].
      * rewrite decide_True by lia. rewrite (proj2 (Hm i) eq_refl).
        rewrite Nat.sub_diag. by rewrite list_lookup_insert_eq.
      * rewrite decide_False by lia. destruct (m !! i) as [p|] eqn:Hp; [|done].
        rewrite list_lookup_insert_ne; [done|]. intros ->. apply Hm in Hp. done.
Qed.

Lemma store_all_requested field_indexs slices :
  NoDup field_indexs →
  Forall (fun idx => idx < length slices)%nat field_indexs →
  store_all (build_index_to_result_pos field_indexs 0 ∅) 0 slices
    (replicate (length field_indexs) Slice_default)
  = (fun idx => default Slice_default (slices !! idx)) <$> field_indexs.
Proof.
  intros Hnd Hall. apply list_eq. intros j.
  destruct (field_indexs !! j) as [idx|] eqn:Hj.
  - rewrite (store_all_lookup _ idx).
    + rewrite list_lookup_fmap, Hj. cbn [fmap option_fmap option_map].
      rewrite Forall_lookup in Hall. specialize (Hall j idx Hj).
      rewrite decide_True by lia. rewrite Nat.sub_0_r.
      destruct (lookup_lt_is_Some_2 slices idx Hall) as [s ->]. done.
    + intros k. rewrite index_to_result_pos_spec by done.
      split; [congruence|by intros ->].
    + rewrite length_replicate. by eapply lookup_lt_Some.
  - rewrite list_lookup_fmap, Hj. apply lookup_ge_None_2.
    rewrite store_all_length, length_replicate. by apply lookup_ge_None_1.
Qed.

Lemma max_list_bound (l : list nat) (n : nat) :
  l ≠ [] → Forall (fun idx => idx < n)%nat l → (max_list l < n)%nat.
Proof.
  induction l as [|a l IH]; [done|]. intros _ Hall.
  apply Forall_cons in Hall as [Ha Hall]. simpl in Ha.
  destruct l as [|b l]; [simpl; lia|].
  specialize (IH ltac:(done) Hall). simpl in *. lia.
Qed.

Lemma max_list_upper (l : list nat) : Forall (fun idx => idx ≤ max_list l)%nat l.
Proof.
  induction l as [|a l IH]; constructor; simpl; [lia|].
  eapply Forall_impl; [exact IH|]. simpl. lia.
Qed.

Lemma decode_prologue_walk table_config value :
  decode_prologue table_config value
  = let ttl := if has_ttl table_config then 8%nat else 0%nat in
    let nbl := null_bytes_length table_config in
    if decide (length value < ttl)%nat then Err HA_ERR_ROCKSDB_CORRUPT_DATA
    else if decide (length value < ttl + nbl)%nat
    then Err HA_ERR_ROCKSDB_CORRUPT_DATA
    else Ok ((ttl + nbl)%nat, (length value - (ttl + nbl))%nat,
             null_bytes_of table_config).
Proof.
  unfold decode_prologue, null_bytes_of. cbv zeta.
  destruct (has_ttl table_config).
  - destruct (decide (length value < 8)%nat); [done|]. cbn [mbind outcome_bind].
    destruct (decide (0 < null_bytes_length table_config)%nat).
    + destruct (decide (length value - 8 < _)%nat).
      * by rewrite decide_True by lia.
      * rewrite decide_False by lia. do 3 f_equal. lia.
    + rewrite decide_False by lia. do 3 f_equal; lia.
  - rewrite decide_False by lia. cbn [mbind outcome_bind].
    destruct (decide (0 < null_bytes_length table_config)%nat).
    + destruct (decide (length value < null_bytes_length table_config)%nat).
      * by rewrite decide_True by lia.
      * rewrite decide_False by lia. done.
    + rewrite decide_False by lia. do 3 f_equal; lia.
Qed.

(** The decoder is the walk of its cursor, field by field, for
    requested indices without repetition. *)
Lemma DecodeFieldFromValue_refines table_config field_info_list field_indexs
    value :
  NoDup field_indexs →
  DecodeFieldFromValue table_config field_info_list field_indexs value
  = decode_fields_walk table_config field_info_list field_indexs value.
Proof.
  intros Hnd. unfold DecodeFieldFromValue, decode_fields_walk.
  rewrite decode_prologue_walk. cbv zeta. fold (null_bytes_of table_config).
  destruct (decide (length value < _)%nat); [done|].
  destruct (decide (length value < _ + _)%nat); [done|].
  cbn [mbind outcome_bind].
  destruct field_indexs as [|idx0 rest] eqn:Hidxs; [done|]. rewrite <- Hidxs in *.
  assert (Hne : field_indexs ≠ []) by (rewrite Hidxs; discriminate).
  rewrite decide_False by done. rewrite max_field_index_of_spec.
  destruct (decide (Forall _ field_indexs)) as [Hall|Hnot]; [|done].
  cbn [mbind outcome_bind]. rewrite Nat.max_0_l.
  pose proof (max_list_bound field_indexs _ Hne Hall) as Hmax.
  match goal with |- ?loop ≫= _ = _ =>
    change (loop ≫= (fun st' => Ok (ds_field_values st')) = 
            cursor_walk value (null_bytes_of table_config)
              (take (S (max_list field_indexs)) field_info_list) 0
              ((if has_ttl table_config then 8 else 0)
               + null_bytes_length table_config)%nat
            ≫= fun slices =>
                 Ok ((fun idx => default Slice_default (slices !! idx))
                       <$> field_indexs)) end.
  rewrite decode_fields_loop_walk by (simpl; lia).
  cbn [ds_pos ds_field_values drop].
  destruct (cursor_walk _ _ _ _ _) as [slices| |] eqn:Hw; cbn [mbind outcome_bind];
    [|done..].
  f_equal. apply store_all_requested; [done|].
  apply cursor_walk_length in Hw. rewrite length_take in Hw.
  rewrite drop_0 in Hw.
  eapply Forall_impl; [apply max_list_upper|]. intros x Hx. simpl in Hx. lia.
Qed.

Lemma Forall_lt_max_list (l : list nat) (n : nat) :
  l ≠ [] → Forall (fun idx => idx < n)%nat l ↔ (max_list l < n)%nat.
Proof.
  intros Hne. split; [by apply max_list_bound|].
  intros Hmax. eapply Forall_impl; [apply max_list_upper|].
  intros x Hx. simpl in Hx. lia.
Qed.

Lemma read_le_no_error (data : list byte) (p n : nat) (e : ha_error) :
  read_le data p n ≠ Err e.
Proof.
  revert p. induction n as [|n IH]; intros p; [done|].
  cbn [read_le]. unfold read_u8, read_byte.
  destruct (data !! p); cbn [mbind outcome_bind]; [|done].
  specialize (IH (S p)). by destruct (read_le data (S p) n).
Qed.

Lemma field_is_null_no_error value null_bytes field_info i e :
  field_is_null value null_bytes field_info i ≠ Err e.
Proof.
  unfold field_is_null, read_u8, read_byte.
  destruct null_bytes; [|done]. destruct (is_nullable field_info); [|done].
  by destruct (value !! _).
Qed.

Lemma read_field_length_no_error value pos field_info e :
  read_field_length value pos field_info ≠ Err e.
Proof.
  unfold read_field_length. repeat case_decide; try done;
    apply read_le_no_error.
Qed.

Lemma cursor_field_error value null_bytes field_info i pos e :
  cursor_field value null_bytes field_info i pos = Err e →
  e = HA_ERR_ROCKSDB_CORRUPT_DATA.
Proof.
  unfold cursor_field.
  pose proof (field_is_null_no_error value null_bytes field_info i) as Hnull.
  destruct (field_is_null _ _ _ _) as [[|]|e'|]; cbn [mbind outcome_bind];
    [done| |by specialize (Hnull e')|done].
  destruct (is_variable_length field_info).
  - destruct (decide _); [by intros [= <-]|].
    pose proof (read_field_length_no_error value pos field_info) as Hlen.
    destruct (read_field_length _ _ _) as [len|e'|]; cbn [mbind outcome_bind];
      [|by specialize (Hlen e')|done].
    destruct (decide _); [by intros [= <-]|done].
  - destruct (decide _); [by intros [= <-]|done].
Qed.

Lemma cursor_walk_error value null_bytes fields i pos e :
  cursor_walk value null_bytes fields i pos = Err e →
  e = HA_ERR_ROCKSDB_CORRUPT_DATA.
Proof.
  revert i pos. induction fields as [|f rest IH]; intros i pos; [done|].
  cbn [cursor_walk].
  destruct (cursor_field _ _ _ _ _) as [[s pos']|e'|] eqn:Hs;
    cbn [mbind outcome_bind]; [| |done].
  - destruct (cursor_walk _ _ rest _ _) as [ss|e'|] eqn:Hw;
      cbn [mbind outcome_bind]; [done| |done].
    intros [= <-]. by eapply IH.
  - intros [= <-]. by eapply cursor_field_error.
Qed.

Lemma cursor_walk_in_value value null_bytes fields i pos slices :
  cursor_walk value null_bytes fields i pos = Ok slices →
  (pos ≤ length value)%nat →
  Forall (slice_in_value value) slices.
Proof.
  revert i pos slices. induction fields as [|f rest IH]; intros i pos slices H Hpos.
  - injection H as <-. constructor.
  - cbn [cursor_walk] in H.
    destruct (cursor_field _ _ _ _ _) as [[s pos']| |] eqn:Hs;
      cbn [mbind outcome_bind] in H; try done.
    destruct (cursor_walk _ _ rest _ _) as [ss| |] eqn:Hw;
      cbn [mbind outcome_bind] in H; try done.
    injection H as <-. apply cursor_field_cursor in Hs as [? ?]; [|done].
    constructor; [done|]. eapply IH; [exact Hw|lia].
Qed.

(** In a walk that succeeds, a field whose null bit is set has the
    empty slice. *)
Lemma cursor_walk_null value null_bytes fields i pos slices k field_info :
  cursor_walk value null_bytes fields i pos = Ok slices →
  fields !! k = Some field_info →
  field_is_null value null_bytes field_info (i + k) = Ok true →
  slices !! k = Some Slice_default.
Proof.
  revert i pos slices k. induction fields as [|f rest IH];
    intros i pos slices k H Hk Hnull; [done|].
  cbn [cursor_walk] in H.
  destruct (cursor_field _ _ _ _ _) as [[s pos']| |] eqn:Hs;
    cbn [mbind outcome_bind] in H; try done.
  destruct (cursor_walk _ _ rest _ _) as [ss| |] eqn:Hw;
    cbn [mbind outcome_bind] in H; try done.
  injection H as <-. destruct k as [|k]; simpl in Hk.
  - injection Hk as ->. rewrite Nat.add_0_r in Hnull.
    unfold cursor_field in Hs. rewrite Hnull in Hs. cbn [mbind outcome_bind] in Hs.
    by injection Hs as <- _.
  - simpl. eapply IH; [exact Hw|exact Hk|].
    by replace (S i + k)%nat with (i + S k)%nat by lia.
Qed.

Lemma decode_field_step_null value null_bytes m field_info i st :
  field_is_null value null_bytes field_info i = Ok true →
  decode_field_step value null_bytes m field_info i st
  = Ok {| ds_pos := ds_pos st; ds_remaining := ds_remaining st;
          ds_field_values := store_target m i Slice_default (ds_field_values st) |}.
Proof. intros H. unfold decode_field_step. by rewrite H. Qed.

Lemma decode_field_step_overrun value null_bytes m field_info i st :
  field_is_null value null_bytes field_info i = Ok false →
  field_overruns value field_info st →
  decode_field_step value null_bytes m field_info i st
  = Err HA_ERR_ROCKSDB_CORRUPT_DATA.
Proof.
  intros Hnull. unfold field_overruns, decode_field_step. rewrite Hnull.
  cbn [mbind outcome_bind]. destruct (is_variable_length field_info).
  - intros [Hprefix|(len & Hlen & Hpayload)].
    + by rewrite decide_True.
    + destruct (decide _); [done|]. rewrite Hlen. cbn [mbind outcome_bind].
      by rewrite decide_True.
  - intros Hfixed. by rewrite decide_True.
Qed.

Lemma cursor_field_no_fault table_config value field_info i pos f :
  ((if has_ttl table_config then 8 else 0) + null_bytes_length table_config
   ≤ length value)%nat →
  field_well_formed table_config i field_info →
  cursor_field value (null_bytes_of table_config) field_info i pos ≠ Fault f.
Proof.
  intros Hfit [Hnull Hvar]. unfold cursor_field.
  assert (∃ b, field_is_null value (null_bytes_of table_config) field_info i
               = Ok b) as [b ->].
  { unfold field_is_null, null_bytes_of.
    destruct (decide (0 < null_bytes_length table_config)%nat);
      [|exists false; reflexivity].
    destruct (is_nullable field_info); [|exists false; reflexivity].
    destruct (read_u8_in_bounds value
                ((if has_ttl table_config then 8 else 0) + i / 8)%nat)
      as [z Hz]; [destruct (Hnull eq_refl); lia|].
    rewrite Hz. eexists. reflexivity. }
  cbn [mbind outcome_bind]. destruct b; [done|].
  destruct (is_variable_length field_info);
    [|by destruct (decide (length value < pos + pack_length field_info)%nat)].
  destruct (decide (length value < pos + length_bytes field_info)%nat); [done|].
  assert (∃ len, read_field_length value pos field_info = Ok len) as [len ->].
  { unfold read_field_length. specialize (Hvar eq_refl).
    destruct (decide (type field_info = MYSQL_TYPE_VARCHAR)).
    - destruct (decide _); apply read_le_in_bounds; lia.
    - rewrite decide_False by lia. apply read_le_in_bounds. lia. }
  cbn [mbind outcome_bind].
  match goal with |- (if ?c then _ else _) ≠ _ => by destruct c end.
Qed.

Lemma cursor_walk_no_fault table_config value fields i pos f :
  ((if has_ttl table_config then 8 else 0) + null_bytes_length table_config
   ≤ length value)%nat →
  (∀ k field_info, fields !! k = Some field_info →
                   field_well_formed table_config (i + k) field_info) →
  cursor_walk value (null_bytes_of table_config) fields i pos ≠ Fault f.
Proof.
  intros Hfit. revert i pos. induction fields as [|fi rest IH]; intros i pos Hwf;
    [done|].
  cbn [cursor_walk].
  pose proof (cursor_field_no_fault table_config value fi i pos) as Hf.
  destruct (cursor_field _ _ _ _ _) as [[s pos']| |f']; cbn [mbind outcome_bind];
    [|done|].
  - specialize (IH (S i) pos').
    destruct (cursor_walk _ _ rest _ _) as [ss| |f'] eqn:Hw;
      cbn [mbind outcome_bind]; [done..|].
    intros [= ->]. apply (IH); [|done]. intros k field_info Hk.
    replace (S i + k)%nat with (i + S k)%nat by lia. by apply Hwf.
  - intros [= ->]. apply (Hf f); [done| |done].
    specialize (Hwf 0%nat fi eq_refl). by rewrite Nat.add_0_r in Hwf.
Qed.

Lemma decode_fields_walk_no_fault table_config field_info_list field_indexs
    value f :
  layout_well_formed table_config field_info_list →
  decode_fields_walk table_config field_info_list field_indexs value ≠ Fault f.
Proof.
  intros Hwf. unfold decode_fields_walk.
  destruct (decide _); [done|]. destruct (decide _); [done|].
  destruct (decide _); [done|]. destruct (decide _); [|done].
  fold (null_bytes_of table_config).
  pose proof (cursor_walk_no_fault table_config value
                (take (S (max_list field_indexs)) field_info_list) 0
                ((if has_ttl table_config then 8 else 0)
                 + null_bytes_length table_config)%nat f) as Hw.
  destruct (cursor_walk _ _ _ _ _) as [slices| |f']; cbn [mbind outcome_bind];
    [done..|].
  intros [= ->]. apply Hw; [lia| |done].
  intros k field_info Hk. apply Hwf. apply lookup_take_Some in Hk as [? _].
  done.
Qed.

(** What the field loop keeps of its contract, for requested indices
    without repetition and with the null bit as the code reads it.  On
    success there is one slice per requested index, the slice at
    position [j] being that of field [field_indexs[j]]; every field up
    to the greatest requested index lies inside the value; a field that
    the code takes for null has the empty slice and leaves the cursor
    where it was.  The fields past the greatest requested index are not
    looked at.  A value too short for the TTL, for the null bitmap, for
    a length prefix or for a payload is answered with CorruptData, the
    only error code there is; and on a well-formed layout nothing
    outside the value is read. *)
Lemma DecodeFieldFromValue_walk_contract (table_config : TableConfig)
    (field_info_list : list FieldInfo) (field_indexs : list nat)
    (value : list byte) :
  NoDup field_indexs →
  let null_bytes := null_bytes_of table_config in
  let start := ((if has_ttl table_config then 8 else 0)
                + null_bytes_length table_config)%nat in
  let fields := take (S (max_list field_indexs)) field_info_list in
  let decoded :=
    DecodeFieldFromValue table_config field_info_list field_indexs value in
  decoded = decode_fields_walk table_config field_info_list field_indexs value
  ∧ (∀ out, decoded = Ok out →
       length out = length field_indexs
       ∧ (field_indexs = [] ∨
          ∃ slices,
            cursor_walk value null_bytes fields 0 start = Ok slices
            ∧ Forall (slice_in_value value) slices
            ∧ (∀ j idx, field_indexs !! j = Some idx →
                 is_Some (out !! j) ∧ out !! j = slices !! idx)
            ∧ (∀ idx field_info,
                 fields !! idx = Some field_info →
                 field_is_null value null_bytes field_info idx = Ok true →
                 slices !! idx = Some Slice_default)))
  ∧ (∀ m field_info i st,
       field_is_null value null_bytes field_info i = Ok true →
       decode_field_step value null_bytes m field_info i st
       = Ok {| ds_pos := ds_pos st; ds_remaining := ds_remaining st;
               ds_field_values :=
                 store_target m i Slice_default (ds_field_values st) |})
  ∧ (∀ field_info_list',
       take (S (max_list field_indexs)) field_info_list' = fields →
       DecodeFieldFromValue table_config field_info_list' field_indexs value
       = decoded)
  ∧ (has_ttl table_config = true → (length value < 8)%nat →
     decoded = Err HA_ERR_ROCKSDB_CORRUPT_DATA)
  ∧ ((length value < start)%nat → decoded = Err HA_ERR_ROCKSDB_CORRUPT_DATA)
  ∧ (∀ m field_info i st,
       field_is_null value null_bytes field_info i = Ok false →
       field_overruns value field_info st →
       decode_field_step value null_bytes m field_info i st
       = Err HA_ERR_ROCKSDB_CORRUPT_DATA)
  ∧ (∀ e, decoded = Err e → e = HA_ERR_ROCKSDB_CORRUPT_DATA)
  ∧ (layout_well_formed table_config field_info_list →
     ∀ f, decoded ≠ Fault f).
Proof.
  intros Hnd null_bytes start fields decoded.
  assert (Href : decoded
                 = decode_fields_walk table_config field_info_list field_indexs
                     value) by (by apply DecodeFieldFromValue_refines).
  split; [exact Href|].
  split.
  { intros out Hout. rewrite Href in Hout. unfold decode_fields_walk in Hout.
    destruct (decide _); [done|]. destruct (decide _) as [|Hfit]; [done|].
    destruct (decide (field_indexs = [])) as [->|Hne].
    { injection Hout as <-. split; [done|by left]. }
    destruct (decide (Forall _ _)) as [Hall|]; [|done].
    fold (null_bytes_of table_config) in Hout. fold null_bytes start fields in Hout.
    destruct (cursor_walk value null_bytes fields 0 start) as [slices| |] eqn:Hw;
      cbn [mbind outcome_bind] in Hout; try done.
    injection Hout as <-. split; [by rewrite length_fmap|]. right.
    exists slices. split; [done|].
    split; [eapply cursor_walk_in_value; [exact Hw|unfold start; lia]|].
    split.
    - intros j idx Hj. rewrite list_lookup_fmap, Hj.
      cbn [fmap option_fmap option_map].
      pose proof (cursor_walk_length _ _ _ _ _ _ Hw) as Hlen.
      unfold fields in Hlen. rewrite length_take in Hlen.
      apply (max_list_bound _ _ Hne) in Hall as Hmax.
      assert (idx ≤ max_list field_indexs)%nat as Hidx.
      { pose proof (max_list_upper field_indexs) as Hup.
        rewrite Forall_lookup in Hup. by apply (Hup j). }
      destruct (lookup_lt_is_Some_2 slices idx) as [s Hs]; [lia|].
      rewrite Hs. split; [by eexists|done].
    - intros idx field_info Hfield Hnull.
      eapply (cursor_walk_null _ _ _ 0); [exact Hw|exact Hfield|exact Hnull]. }
  split; [intros; by apply decode_field_step_null|].
  split.
  { intros fl' Htake. unfold decoded.
    rewrite !DecodeFieldFromValue_refines by done. unfold decode_fields_walk.
    destruct (decide _); [done|]. destruct (decide _); [done|].
    destruct (decide (field_indexs = [])) as [|Hne]; [done|].
    rewrite Htake. fold fields.
    assert (length (take (S (max_list field_indexs)) fl') = length fields) as Hlen
      by (by rewrite Htake).
    unfold fields in Hlen. rewrite !length_take in Hlen.
    destruct (decide (Forall _ field_indexs)) as [H1|H1];
      destruct (decide (Forall _ field_indexs)) as [H2|H2]; try done.
    - exfalso. apply H2. apply Forall_lt_max_list; [done|].
      apply Forall_lt_max_list in H1; [|done]. lia.
    - exfalso. apply H1. apply Forall_lt_max_list; [done|].
      apply Forall_lt_max_list in H2; [|done]. lia. }
  split.
  { intros Httl Hshort. rewrite Href. unfold decode_fields_walk. rewrite Httl.
    by rewrite decide_True. }
  split.
  { intros Hshort. rewrite Href. unfold decode_fields_walk.
    destruct (decide _); [done|]. by rewrite decide_True. }
  split; [intros; by apply decode_field_step_overrun|].
  split; [|intros Hwf f; rewrite Href; by apply decode_fields_walk_no_fault].
  intros e He. rewrite Href in He. unfold decode_fields_walk in He.
  destruct (decide _); [by injection He|].
  destruct (decide _); [by injection He|].
  destruct (decide _); [done|]. destruct (decide _); [|by injection He].
  destruct (cursor_walk _ _ _ _ _) as [slices|e'|] eqn:Hw;
    cbn [mbind outcome_bind] in He; try done.
  injection He as <-. by eapply cursor_walk_error.
Qed.

Lemma field_is_null_spec table_config value field_info i :
  ((if has_ttl table_config then 8 else 0) + null_bytes_length table_config
   ≤ length value)%nat →
  (is_nullable field_info = true →
   null_bytes_length table_config = 0%nat
   ∨ (i / 8 < null_bytes_length table_config)%nat) →
  field_is_null value (null_bytes_of table_config) field_info i
  = Ok (spec_null_bit (spec_null_bitmap table_config value) field_info i).
Proof.
  intros Hfit Hnull.
  unfold field_is_null, null_bytes_of, spec_null_bit, spec_null_bitmap.
  destruct (is_nullable field_info) eqn:Hn; cbn [andb];
    [|by destruct (decide _)].
  destruct (decide _) as [Hpos|Hzero].
  - destruct Hnull as [?|Hin]; [done|lia|].
    unfold read_u8, read_byte. rewrite lookup_take_lt, lookup_drop by done.
    destruct (value !! _) as [b|] eqn:Hb; [done|].
    apply lookup_ge_None_1 in Hb. lia.
  - replace (null_bytes_length table_config) with 0%nat by lia. done.
Qed.

Lemma cursor_field_spec table_config value field_info i pos :
  ((if has_ttl table_config then 8 else 0) + null_bytes_length table_config
   ≤ length value)%nat →
  field_well_formed table_config i field_info →
  cursor_field value (null_bytes_of table_config) field_info i pos
  = spec_field value (spec_null_bitmap table_config value) field_info i pos.
Proof.
  intros Hfit [Hnull Hvar]. unfold cursor_field, spec_field.
  rewrite field_is_null_spec by done. cbn [mbind outcome_bind].
  destruct (spec_null_bit _ _ _); [done|].
  destruct (is_variable_length field_info); [|done].
  destruct (decide (length value < _)%nat); [done|].
  replace (read_field_length value pos field_info)
    with (read_le value pos (length_bytes field_info)); [done|].
  unfold read_field_length. specialize (Hvar eq_refl).
  destruct (decide (type field_info = MYSQL_TYPE_VARCHAR)).
  - destruct (decide (length_bytes field_info = 1%nat)) as [Hone|Hone].
    + by rewrite Hone.
    + destruct Hvar as [?|Htwo]; [done|]. by rewrite Htwo.
  - by rewrite decide_False by lia.
Qed.

Lemma cursor_walk_spec table_config value fields i pos :
  ((if has_ttl table_config then 8 else 0) + null_bytes_length table_config
   ≤ length value)%nat →
  (∀ k field_info, fields !! k = Some field_info →
                   field_well_formed table_config (i + k) field_info) →
  cursor_walk value (null_bytes_of table_config) fields i pos
  = spec_walk value (spec_null_bitmap table_config value) fields i pos.
Proof.
  intros Hfit. revert i pos.
  induction fields as [|field_info rest IH]; intros i pos Hwf; [done|].
  cbn [cursor_walk spec_walk].
  rewrite (cursor_field_spec table_config) by
    (try done; rewrite <- (Nat.add_0_r i); by apply Hwf).
  destruct (spec_field _ _ _ _ _) as [[s pos']| |]; cbn [mbind outcome_bind];
    [|done..].
  rewrite IH; [done|]. intros k fi Hk.
  replace (S i + k)%nat with (i + S k)%nat by lia. by apply Hwf.
Qed.

(** On a layout that is well formed, and for requested indices without
    repetition, the code is the decoder of the specification. *)
Lemma DecodeFieldFromValue_follows_the_specification table_config
    field_info_list field_indexs value :
  NoDup field_indexs →
  layout_well_formed table_config field_info_list →
  DecodeFieldFromValue table_config field_info_list field_indexs value
  = decode_fields_spec table_config field_info_list field_indexs value.
Proof.
  intros Hnd Hwf. rewrite DecodeFieldFromValue_refines by done.
  unfold decode_fields_walk, decode_fields_spec.
  destruct (decide _); [done|]. destruct (decide _); [done|].
  destruct (decide _); [done|]. destruct (decide _); [|done].
  fold (null_bytes_of table_config).
  rewrite (cursor_walk_spec table_config); [done|lia|].
  intros k fi Hk. apply Hwf. by apply lookup_take_Some in Hk as [? _].
Qed.

(** C8, the failing inputs.  Both layouts have nine columns of which
    only the last, a four-byte integer, is nullable: the null bitmap has
    one byte, and it is 00 in the rows below, so no field is null.  The
    code looks for the null bit of field 8 in [null_bytes[8 / 8]], the
    byte after the bitmap.  Where the eight columns before take one byte
    each, that is the byte of column 0: with 01 there the code answers
    the integer by the empty slice, with 02 by its four bytes, where the
    specification has the four bytes both times.  Where the eight
    columns take no byte and the value ends with the bitmap, the byte
    is past the value: the code reads outside the buffer, where the
    specification answers CorruptData for the payload that is not
    there. *)
Theorem null_bit_read_outside_the_bitmap :
  (null_bitmap_agreed nullable_config nullable_layout
   ∧ spec_null_bitmap nullable_config (nullable_row x01) = [x00]
   ∧ DecodeFieldFromValue nullable_config nullable_layout [8%nat]
       (nullable_row x01)
     = Ok [Slice_default]
   ∧ decode_fields_spec nullable_config nullable_layout [8%nat]
       (nullable_row x01)
     = Ok [Slice_at 9 4]
   ∧ DecodeFieldFromValue nullable_config nullable_layout [8%nat]
       (nullable_row x02)
     = Ok [Slice_at 9 4])
  ∧ (null_bitmap_agreed nullable_config char0_layout
     ∧ DecodeFieldFromValue nullable_config char0_layout [8%nat] [x00]
       = Fault (OutOfBoundsRead 1)
     ∧ decode_fields_spec nullable_config char0_layout [8%nat] [x00]
       = Err HA_ERR_ROCKSDB_CORRUPT_DATA).
Proof. repeat split; vm_compute; done. Qed.

(** ** Keys of the inverted lists *)

(** X1: a key written by [write_inverted_list_item_key] for a primary
    key longer than its index-id prefix is read back by
    [read_inverted_list_key] under the same index and list, which leaves
    the primary key without its prefix; the iterator of that list takes
    the record's key as it is. *)
Theorem item_key_round_trip {KD : Rdb_key_def_tags}
    (index_id list_id code_size : Z) (pk value : list byte)
    (rest : list (list byte * list byte)) :
  0 ≤ index_id < 2 ^ 32 → 0 ≤ list_id < 2 ^ 64 →
  (INDEX_NUMBER_SIZE < length pk)%nat →
  let key := write_inverted_list_item_key index_id list_id pk in
  let it := {| m_index_id := index_id; m_list_id := list_id;
               m_code_size := code_size;
               m_iterator := (key, value) :: rest |} in
  read_inverted_list_key key index_id list_id = Ok (drop INDEX_NUMBER_SIZE pk)
  ∧ length key = (12 + (length pk - INDEX_NUMBER_SIZE))%nat
  ∧ get_key_and_value it false = Ok (key, []).
Proof.
  intros Hi Hl Hpk key it.
  assert (Hread : read_inverted_list_key key index_id list_id
                  = Ok (drop INDEX_NUMBER_SIZE pk))
    by (by apply read_written_inverted_list_key).
  split; [exact Hread|]. split.
  - unfold key, write_inverted_list_item_key, write_inverted_list_key.
    rewrite !length_app, !be_bytes_length, length_drop. lia.
  - unfold get_key_and_value, check_item_key. cbn [m_iterator it m_index_id m_list_id].
    rewrite Hread. cbn [mbind outcome_bind].
    rewrite decide_False; [done|]. rewrite length_drop. lia.
Qed.

Lemma item_key_round_trip_witness :
  read_inverted_list_key
    (write_inverted_list_item_key 7 3 [x00; x00; x00; x01; x61]) 7 3
  = Ok (drop INDEX_NUMBER_SIZE [x00; x00; x00; x01; x61])
  ∧ length (write_inverted_list_item_key 7 3 [x00; x00; x00; x01; x61])
    = (12 + (length [x00; x00; x00; x01; x61] - INDEX_NUMBER_SIZE))%nat
  ∧ get_key_and_value (KD := myrocks_tags)
      {| m_index_id := 7; m_list_id := 3; m_code_size := 8;
         m_iterator :=
           [(write_inverted_list_item_key 7 3 [x00; x00; x00; x01; x61],
             replicate 8 x01)] |} false
    = Ok (write_inverted_list_item_key 7 3 [x00; x00; x00; x01; x61], []).
Proof.
  apply (item_key_round_trip (KD := myrocks_tags) 7 3 8
           [x00; x00; x00; x01; x61] (replicate 8 x01) []);
    [lia|lia|unfold INDEX_NUMBER_SIZE; simpl; lia].
Defined.

(** X2: a key written for one index and list is refused with
    CorruptData by [read_inverted_list_key] under any other index id or
    any other list id. *)
Theorem foreign_item_key_is_corrupt (index_id list_id index_id' list_id' : Z)
    (pk : list byte) :
  0 ≤ index_id < 2 ^ 32 → 0 ≤ list_id < 2 ^ 64 →
  index_id' ≠ index_id ∨ list_id' ≠ list_id →
  read_inverted_list_key (write_inverted_list_item_key index_id list_id pk)
    index_id' list_id'
  = Err HA_ERR_ROCKSDB_CORRUPT_DATA.
Proof.
  intros Hi Hl Hne.
  unfold read_inverted_list_key, write_inverted_list_item_key,
    write_inverted_list_key.
  rewrite <- !app_assoc, reader_read_be_bytes by (simpl; lia).
  destruct (decide (index_id ≠ index_id')) as [?|Hsame]; [done|].
  rewrite reader_read_be_bytes by (simpl; lia).
  destruct (decide (list_id ≠ list_id')) as [?|Hsame']; [done|].
  destruct Hne as [Hne|Hne]; exfalso; apply Hne; symmetry.
  - by destruct (decide (index_id = index_id')).
  - by destruct (decide (list_id = list_id')).
Qed.

Lemma foreign_item_key_is_corrupt_witness :
  read_inverted_list_key
    (write_inverted_list_item_key 7 3 [x00; x00; x00; x01; x61]) 7 4
  = Err HA_ERR_ROCKSDB_CORRUPT_DATA.
Proof.
  apply (foreign_item_key_is_corrupt 7 3 7 4); [lia|lia|right; lia].
Defined.

(** ** Values of the inverted lists *)

Lemma read_bytes_seq (data : list byte) (start n : nat) :
  (start + n ≤ length data)%nat →
  read_bytes data (seq start n) = Ok (take n (drop start data)).
Proof.
  revert start. induction n as [|n IH]; intros start Hlen.
  - by rewrite take_0.
  - cbn [seq read_bytes]. unfold read_byte.
    destruct (lookup_lt_is_Some_2 data start) as [b Hb]; [lia|].
    rewrite Hb. cbn [mbind outcome_bind]. rewrite IH by lia.
    cbn [mbind outcome_bind]. f_equal.
    by rewrite (drop_S _ _ _ Hb).
Qed.

Lemma read_bytes_shifted (data : list byte) (shift start n : nat) :
  (shift + start + n ≤ length data)%nat →
  read_bytes data ((fun i => (i + shift)%nat) <$> seq start n)
  = Ok (take n (drop (start + shift) data)).
Proof.
  intros Hlen. rewrite <- (read_bytes_seq data (start + shift) n) by lia.
  f_equal. replace (start + shift)%nat with (shift + start)%nat by lia.
  rewrite <- fmap_add_seq. apply list_fmap_ext. intros _ i _. lia.
Qed.

Section RecordValues.
Context {KD : Rdb_key_def_tags}.

(** X3: [get_key_and_codes] on a record whose value is shorter than
    2^31 bytes, under a code size below 2^31: a value shorter than the
    code size gives CorruptData, and whenever the record is accepted the
    codes handed to faiss have exactly [m_code_size] bytes (the
    function's closing assertion), they are the value itself when it is
    that long and otherwise the bytes that follow the unpack header, the
    key is the record's key and the context has counted one more
    record. *)
Theorem get_key_and_codes_code_size (ctx : Rdb_faiss_inverted_list_context)
    (it : Rdb_vector_iterator) (key value : list byte)
    (rest : list (list byte * list byte)) :
  m_iterator it = (key, value) :: rest →
  0 ≤ m_code_size it < 2 ^ 31 → Z.of_nat (length value) < 2 ^ 31 →
  (Z.of_nat (length value) < m_code_size it →
   get_key_and_codes ctx it = Err HA_ERR_ROCKSDB_CORRUPT_DATA)
  ∧ (∀ key' codes ctx',
       get_key_and_codes ctx it = Ok (key', codes, ctx') →
       key' = key
       ∧ ctx' = on_iterator_record ctx
       ∧ Z.of_nat (length codes) = m_code_size it
       ∧ (Z.of_nat (length value) = m_code_size it → codes = value)
       ∧ (m_code_size it < Z.of_nat (length value) →
          ∃ tag, read_u8 value 0 = Ok tag
                 ∧ is_unpack_data_tag tag = true
                 ∧ codes = take (Z.to_nat (m_code_size it))
                             (drop (get_unpack_header_size tag) value))).
Proof.
  intros Hit Hcs Hlen. split.
  { intros Hshort. by apply (get_key_and_codes_short_value ctx it key value rest). }
  intros key' codes ctx'. unfold get_key_and_codes. rewrite Hit.
  destruct (check_item_key_cases it key) as [-> | ->]; [|done].
  cbn [mbind outcome_bind].
  assert (Hextra : 0 ≤ Z.of_nat (length value) - m_code_size it →
                   wrap_signed 32 (Z.of_nat (length value) - m_code_size it)
                   = Z.of_nat (length value) - m_code_size it).
  { intros Hge. unfold wrap_signed. cbv zeta.
    rewrite Z.mod_small by lia.
    destruct (Z.ltb_spec (Z.of_nat (length value) - m_code_size it)
                (2 ^ (32 - 1))); [done|]. change (2 ^ (32 - 1)) with (2 ^ 31) in *.
    lia. }
  destruct (wrap_signed_32_extra_bytes (Z.of_nat (length value)) (m_code_size it))
    as [Hneg _]; [done|lia|].
  destruct (decide (_ < 0)) as [|Hnn]; [done|].
  assert (Hge : 0 ≤ Z.of_nat (length value) - m_code_size it).
  { destruct (decide (Z.of_nat (length value) < m_code_size it)) as [Hs|]; [|lia].
    specialize (Hneg Hs). lia. }
  rewrite (Hextra Hge) in *.
  destruct (decide (0 < _)) as [Hpos|Hzero].
  - destruct (read_u8_in_bounds value 0) as [tag Htag]; [lia|].
    rewrite Htag. cbn [mbind outcome_bind].
    destruct (is_unpack_data_tag tag) eqn:Hisdata; cbn [negb]; [|done].
    destruct (decide (_ < Z.of_nat _)) as [|Hheader]; [done|].
    destruct (decide (_ < _)%nat) as [|Hfit]; [done|].
    intros [= <- <- <-]. split; [done|]. split; [done|].
    assert (Hcodes : (length value - get_unpack_header_size tag
                      - (Z.to_nat (Z.of_nat (length value) - m_code_size it)
                         - get_unpack_header_size tag))%nat
                     = Z.to_nat (m_code_size it)) by lia.
    rewrite Hcodes. split.
    { rewrite length_take, length_drop. lia. }
    split; [lia|]. intros _. by exists tag.
  - intros [= <- <- <-]. split; [done|]. split; [done|].
    split; [lia|]. split; [done|]. lia.
Qed.

(** X4: [get_key_and_value] on a record whose value has at least
    [m_code_size] bytes and fewer than 2^32: when the record is accepted,
    the value handed to the predicate is the stored value without the
    vector codes, that is the unpack header followed by the bytes after
    the codes, and it has [value.size() - m_code_size] bytes (the
    function's closing assertion); a value of exactly [m_code_size]
    bytes gives the empty value. *)
Theorem get_key_and_value_strips_codes (it : Rdb_vector_iterator)
    (key value : list byte) (rest : list (list byte * list byte)) :
  m_iterator it = (key, value) :: rest →
  0 ≤ m_code_size it ≤ Z.of_nat (length value) →
  Z.of_nat (length value) < 2 ^ 32 →
  ∀ key' value',
    get_key_and_value it true = Ok (key', value') →
    key' = key
    ∧ Z.of_nat (length value') = Z.of_nat (length value) - m_code_size it
    ∧ (Z.of_nat (length value) = m_code_size it → value' = [])
    ∧ (m_code_size it < Z.of_nat (length value) →
       ∃ tag, read_u8 value 0 = Ok tag
              ∧ is_unpack_data_tag tag = true
              ∧ value' = take (get_unpack_header_size tag) value
                         ++ drop (get_unpack_header_size tag
                                  + Z.to_nat (m_code_size it)) value).
Proof.
  intros Hit Hcs Hlen key' value'. unfold get_key_and_value. rewrite Hit.
  destruct (check_item_key_cases it key) as [-> | ->]; [|done].
  cbn [mbind outcome_bind negb].
  assert (Hbytes : wrap_unsigned 64 (Z.of_nat (length value) - m_code_size it)
                   = Z.of_nat (length value) - m_code_size it).
  { unfold wrap_unsigned. apply Z.mod_small. lia. }
  rewrite Hbytes. destruct (decide (_ < 0)) as [|_]; [lia|].
  destruct (decide (0 < _)) as [Hpos|Hzero].
  - destruct (read_u8_in_bounds value 0) as [tag Htag]; [lia|].
    rewrite Htag. cbn [mbind outcome_bind].
    destruct (is_unpack_data_tag tag) eqn:Hisdata; cbn [negb]; [|done].
    destruct (decide (_ < Z.of_nat _)) as [|Hheader]; [done|].
    destruct (decide (2 ^ 63 ≤ _)) as [|_]; [lia|].
    destruct (decide (2 ^ 32 ≤ _)) as [|_]; [lia|].
    rewrite (read_bytes_seq value 0) by lia. cbn [mbind outcome_bind].
    rewrite read_bytes_shifted by lia. cbn [mbind outcome_bind].
    rewrite drop_0. intros [= <- <-]. split; [done|].
    assert (Hrest : take (Z.to_nat (Z.of_nat (length value) - m_code_size it)
                          - get_unpack_header_size tag)
                      (drop (get_unpack_header_size tag
                             + Z.to_nat (m_code_size it)) value)
                    = drop (get_unpack_header_size tag
                            + Z.to_nat (m_code_size it)) value).
    { apply take_ge. rewrite length_drop. lia. }
    rewrite Hrest. split.
    { rewrite length_app, length_take, length_drop. lia. }
    split; [lia|]. intros _. by exists tag.
  - intros [= <- <-]. split; [done|]. split; [simpl; lia|].
    split; [done|]. lia.
Qed.

End RecordValues.

Lemma get_key_and_codes_code_size_witness :
  let ctx := new_context true None in
  let key := write_inverted_list_item_key 7 0 [x00; x00; x00; x01; x61] in
  let value := [x02; x00; x03; x01; x01; x01; x01; x09] in
  let it := {| m_index_id := 7; m_list_id := 0; m_code_size := 4;
               m_iterator := [(key, value)] |} in
  (Z.of_nat (length value) < m_code_size it →
   get_key_and_codes (KD := myrocks_tags) ctx it
   = Err HA_ERR_ROCKSDB_CORRUPT_DATA)
  ∧ (∀ key' codes ctx',
       get_key_and_codes (KD := myrocks_tags) ctx it = Ok (key', codes, ctx') →
       key' = key
       ∧ ctx' = on_iterator_record ctx
       ∧ Z.of_nat (length codes) = m_code_size it
       ∧ (Z.of_nat (length value) = m_code_size it → codes = value)
       ∧ (m_code_size it < Z.of_nat (length value) →
          ∃ tag, read_u8 value 0 = Ok tag
                 ∧ is_unpack_data_tag tag = true
                 ∧ codes = take (Z.to_nat (m_code_size it))
                             (drop (get_unpack_header_size tag) value))).
Proof.
  apply (get_key_and_codes_code_size (KD := myrocks_tags) (new_context true None)
           {| m_index_id := 7; m_list_id := 0; m_code_size := 4;
              m_iterator :=
                [(write_inverted_list_item_key 7 0 [x00; x00; x00; x01; x61],
                  [x02; x00; x03; x01; x01; x01; x01; x09])] |}
           (write_inverted_list_item_key 7 0 [x00; x00; x00; x01; x61])
           [x02; x00; x03; x01; x01; x01; x01; x09] []);
    [reflexivity|simpl; lia|simpl; lia].
Defined.

Lemma get_key_and_value_strips_codes_witness :
  let key := write_inverted_list_item_key 7 0 [x00; x00; x00; x01; x61] in
  let value := [x02; x00; x03; x01; x01; x01; x01; x09] in
  let it := {| m_index_id := 7; m_list_id := 0; m_code_size := 4;
               m_iterator := [(key, value)] |} in
  get_key_and_value (KD := myrocks_tags) it true = Ok (key, [x02; x00; x03; x09])
  ∧ ∀ key' value',
      get_key_and_value (KD := myrocks_tags) it true = Ok (key', value') →
      key' = key
      ∧ Z.of_nat (length value') = Z.of_nat (length value) - m_code_size it
      ∧ (Z.of_nat (length value) = m_code_size it → value' = [])
      ∧ (m_code_size it < Z.of_nat (length value) →
         ∃ tag, read_u8 value 0 = Ok tag
                ∧ is_unpack_data_tag tag = true
                ∧ value' = take (get_unpack_header_size tag) value
                           ++ drop (get_unpack_header_size tag
                                    + Z.to_nat (m_code_size it)) value).
Proof.
  split; [reflexivity|].
  apply (get_key_and_value_strips_codes (KD := myrocks_tags)
           {| m_index_id := 7; m_list_id := 0; m_code_size := 4;
              m_iterator :=
                [(write_inverted_list_item_key 7 0 [x00; x00; x00; x01; x61],
                  [x02; x00; x03; x01; x01; x01; x01; x09])] |}
           (write_inverted_list_item_key 7 0 [x00; x00; x00; x01; x61])
           [x02; x00; x03; x01; x01; x01; x01; x09] []);
    [reflexivity|simpl; lia|simpl; lia].
Defined.

(** ** The availability check under a predicate *)

Section PredicateFilter.
Context {KD : Rdb_key_def_tags}.

Lemma get_key_and_value_head it record rest need_value :
  m_iterator it = record :: rest →
  get_key_and_value it need_value
  = get_key_and_value (iterator_at it [record]) need_value.
Proof.
  intros Hit. unfold get_key_and_value, check_item_key, iterator_at.
  rewrite Hit. by destruct record.
Qed.

Lemma is_available_loop_skips cond index_id list_id code_size ctx
    skipped records :
  m_error ctx = None → m_pk_index_cond ctx = Some cond →
  Forall (fun r => predicate_verdict cond index_id list_id code_size r = Ok false)
    skipped →
  is_available_loop false index_id list_id code_size ctx (skipped ++ records)
  = is_available_loop false index_id list_id code_size ctx records.
Proof.
  intros Herr Hcond. induction 1 as [|r skipped Hr _ IH]; [done|].
  cbn [app is_available_loop]. rewrite Herr, Hcond, andb_false_r.
  rewrite bool_decide_eq_false_2 by (by intros [? ?]).
  unfold predicate_verdict in Hr.
  rewrite (get_key_and_value_head _ r (skipped ++ records)) by done.
  unfold iterator_at. cbn [m_index_id m_list_id m_code_size].
  destruct (get_key_and_value _ true) as [[sk sk_value]| |];
    cbn [mbind outcome_bind] in Hr; [|done..].
  destruct (unpack_record cond sk sk_value); [done|].
  injection Hr as ->. exact IH.
Qed.

(** X5: the availability check of an inverted-list iterator with a
    pushed-down predicate, on a query that is not killed and has no
    error yet.  The records the predicate turns down are passed over;
    the check stops on the first record the predicate accepts and
    answers true, leaving the context as it was; if reading, unpacking
    or evaluating a record fails, the check stops on that record,
    records its error in the context and answers false; if no record is
    left it answers false and records the size of the list. *)
Theorem is_available_filters (cond : pk_index_cond)
    (ctx : Rdb_faiss_inverted_list_context) (it : Rdb_vector_iterator)
    (skipped records : list (list byte * list byte)) :
  m_error ctx = None → m_pk_index_cond ctx = Some cond →
  m_iterator it = skipped ++ records →
  Forall (fun r => predicate_verdict cond (m_index_id it) (m_list_id it)
                     (m_code_size it) r = Ok false) skipped →
  let verdict := predicate_verdict cond (m_index_id it) (m_list_id it)
                   (m_code_size it) in
  (records = [] →
   is_available false ctx it
   = Ok (false, on_iterator_end (m_list_id it) ctx, iterator_at it []))
  ∧ (∀ r rest, records = r :: rest → verdict r = Ok true →
       is_available false ctx it = Ok (true, ctx, iterator_at it records))
  ∧ (∀ r rest e, records = r :: rest → verdict r = Err e →
       is_available false ctx it
       = Ok (false, on_iterator_end (m_list_id it) (set_error (Some e) ctx),
             iterator_at it records)).
Proof.
  intros Herr Hcond Hit Hskipped verdict.
  assert (Hloop : is_available_loop false (m_index_id it) (m_list_id it)
                    (m_code_size it) ctx (m_iterator it)
                  = is_available_loop false (m_index_id it) (m_list_id it)
                      (m_code_size it) ctx records).
  { rewrite Hit. by apply (is_available_loop_skips cond). }
  split; [|split].
  - intros ->. unfold is_available. rewrite Hloop. cbn [is_available_loop].
    cbn [mbind outcome_bind]. rewrite Herr.
    rewrite bool_decide_eq_false_2 by (by intros [? ?]).
    by rewrite bool_decide_eq_true_2.
  - intros r rest -> Hr. unfold is_available. rewrite Hloop.
    cbn [is_available_loop]. rewrite Herr, Hcond, andb_false_r.
    rewrite bool_decide_eq_false_2 by (by intros [? ?]).
    unfold verdict, predicate_verdict in Hr.
    rewrite (get_key_and_value_head _ r rest) by done.
    unfold iterator_at at 1. cbn [m_index_id m_list_id m_code_size].
    destruct (get_key_and_value _ true) as [[sk sk_value]| |];
      cbn [mbind outcome_bind] in Hr; [|done..].
    destruct (unpack_record cond sk sk_value); [done|].
    injection Hr as ->. cbn [mbind outcome_bind]. rewrite Herr.
    rewrite !bool_decide_eq_false_2 by (done || by intros [? ?]). done.
  - intros r rest e -> Hr. unfold is_available. rewrite Hloop.
    cbn [is_available_loop]. rewrite Herr, Hcond, andb_false_r.
    rewrite bool_decide_eq_false_2 by (by intros [? ?]).
    unfold verdict, predicate_verdict in Hr.
    rewrite (get_key_and_value_head _ r rest) by done.
    unfold iterator_at at 1. cbn [m_index_id m_list_id m_code_size].
    destruct (get_key_and_value _ true) as [[sk sk_value]| |];
      cbn [mbind outcome_bind] in Hr; [|injection Hr as ->|done].
    + destruct (unpack_record cond sk sk_value); [|done].
      injection Hr as ->. cbn [mbind outcome_bind set_error m_error].
      by rewrite bool_decide_eq_true_2.
    + cbn [mbind outcome_bind set_error m_error].
      by rewrite bool_decide_eq_true_2.
Qed.

End PredicateFilter.

Lemma is_available_filters_witness :
  let ctx := new_context true (Some (accept_last x62)) in
  let r1 := (example_key [x61], replicate 8 x01) in
  let r2 := (example_key [x62], replicate 8 x02) in
  is_available false ctx (example_iterator [r1; r2])
  = Ok (true, ctx, example_iterator [r2]).
Proof.
  intros ctx r1 r2.
  apply (is_available_filters (KD := myrocks_tags) (accept_last x62) ctx
           (example_iterator [r1; r2]) [r1] [r2] eq_refl eq_refl eq_refl)
    with (r := r2) (rest := []).
  - constructor; [reflexivity|constructor].
  - reflexivity.
  - reflexivity.
Defined.

(** ** Vector ids and their keys *)

Lemma add_keys_vector_id keys c :
  m_vector_id (add_keys keys c) = m_vector_id c + Z.of_nat (length keys).
Proof.
  revert c. induction keys as [|key keys IH]; intros c.
  - simpl. lia.
  - cbn [add_keys fold_left]. fold (add_keys keys (add_key key c).2).
    rewrite IH. cbn [add_key snd m_vector_id length]. lia.
Qed.

Lemma add_keys_lookup_below keys c id :
  id < m_vector_id c →
  m_vectorid_key (add_keys keys c) !! id = m_vectorid_key c !! id.
Proof.
  revert c. induction keys as [|key keys IH]; intros c Hid; [done|].
  cbn [add_keys fold_left]. fold (add_keys keys (add_key key c).2).
  rewrite IH by (cbn [add_key snd m_vector_id]; lia).
  cbn [add_key snd m_vectorid_key].
  destruct (m_vectorid_key c !! m_vector_id c); [done|].
  apply lookup_insert_ne. lia.
Qed.

Lemma add_keys_lookup keys c i key :
  m_vectorid_key c !! m_vector_id c = None →
  (∀ id, m_vector_id c < id → m_vectorid_key c !! id = None) →
  keys !! i = Some key →
  m_vectorid_key (add_keys keys c) !! (m_vector_id c + Z.of_nat i) = Some key.
Proof.
  revert c i. induction keys as [|k keys IH]; intros c i Hhere Hfresh Hi; [done|].
  cbn [add_keys fold_left]. fold (add_keys keys (add_key k c).2).
  destruct i as [|i].
  - injection Hi as ->. rewrite Z.add_0_r.
    rewrite add_keys_lookup_below by (cbn [add_key snd m_vector_id]; lia).
    cbn [add_key snd m_vectorid_key]. rewrite Hhere. apply lookup_insert_eq.
  - replace (m_vector_id c + Z.of_nat (S i))
      with (m_vector_id (add_key k c).2 + Z.of_nat i)
      by (cbn [add_key snd m_vector_id]; lia).
    apply IH; [| |exact Hi]; cbn [add_key snd m_vector_id m_vectorid_key];
      rewrite Hhere.
    + rewrite lookup_insert_ne by lia. apply Hfresh. lia.
    + intros id Hid. rewrite lookup_insert_ne by lia. apply Hfresh. lia.
Qed.

Lemma populate_result_picked {F : Type} c keys (picks : list (nat * F)) tail
    result :
  (∀ i key, keys !! i = Some key →
            m_vectorid_key c !! (1024 + Z.of_nat i) = Some key) →
  Forall (fun p => (p.1 < length keys)%nat) picks →
  populate_result c (picked_ids picks ++ tail) result
  = populate_result c tail (result ++ picked_rows keys picks).
Proof.
  intros Hkeys Hpicks. revert result.
  induction Hpicks as [|[i d] picks Hi _ IH]; intros result.
  - by rewrite app_nil_r.
  - cbn [picked_ids picked_rows fmap list_fmap app populate_result fst snd].
    destruct (decide (1024 + Z.of_nat i < 0)) as [|_]; [lia|].
    simpl in Hi. destruct (lookup_lt_is_Some_2 keys i Hi) as [key Hkey].
    rewrite (Hkeys i key Hkey), Hkey. cbn [default].
    fold (picked_ids picks). rewrite IH. by rewrite <- app_assoc.
Qed.

(** X6: the ids that [add_key] gives out resolve back to their keys.
    After [add_key] has been called on [keys] in a fresh context, the
    [i]-th key has the id [1024 + i]; and when the search hands back the
    ids of some of these keys followed by the padding id [-1],
    [populate_result] reports success and appends to [result] exactly
    the keys of those ids with their distances, in that order, reading
    nothing after the padding id. *)
Theorem populate_result_resolves_added_keys {F : Type} (thd : bool)
    (cond : option pk_index_cond) (keys : list (list byte))
    (picks : list (nat * F)) (padding : F) (tail : list (Z * F))
    (result : list (list byte * F)) :
  Forall (fun p => (p.1 < length keys)%nat) picks →
  let ctx := add_keys keys (new_context thd cond) in
  m_vector_id ctx = 1024 + Z.of_nat (length keys)
  ∧ (∀ i key, keys !! i = Some key →
       m_vectorid_key ctx !! (1024 + Z.of_nat i) = Some key)
  ∧ populate_result ctx (picked_ids picks ++ (-1, padding) :: tail) result
    = (None, result ++ picked_rows keys picks).
Proof.
  intros Hpicks ctx.
  assert (Hkeys : ∀ i key, keys !! i = Some key →
                    m_vectorid_key ctx !! (1024 + Z.of_nat i) = Some key).
  { intros i key Hi.
    apply (add_keys_lookup keys (new_context thd cond) i key); [done| |done].
    intros id _. apply lookup_empty. }
  split; [apply add_keys_vector_id|]. split; [exact Hkeys|].
  rewrite (populate_result_picked ctx keys picks) by done.
  cbn [populate_result]. by destruct (decide (-1 < 0)).
Qed.

Lemma populate_result_resolves_added_keys_witness :
  let ctx := add_keys [[x61]; [x62]; [x63]] (new_context true None) in
  m_vector_id ctx = 1024 + Z.of_nat (length [[x61]; [x62]; [x63]])
  ∧ (∀ i key, [[x61]; [x62]; [x63]] !! i = Some key →
       m_vectorid_key ctx !! (1024 + Z.of_nat i) = Some key)
  ∧ populate_result ctx
      (picked_ids [(2%nat, 5); (0%nat, 9)] ++ [(-1, 0); (-1, 0)]) []
    = (None, [] ++ picked_rows [[x61]; [x62]; [x63]] [(2%nat, 5); (0%nat, 9)]).
Proof.
  apply (populate_result_resolves_added_keys true None [[x61]; [x62]; [x63]]
           [(2%nat, 5); (0%nat, 9)] 0 [(-1, 0)] []).
  repeat constructor; simpl; lia.
Defined.

(** X7: an id without a key makes [populate_result] fail half-way.
    When the ids of known keys are followed by a non-negative id that
    has no key in the context, the call returns [HA_EXIT_FAILURE], and
    [result] holds the rows it had followed by the rows of the ids
    before the unknown one; the ids after it are not looked at. *)
Theorem populate_result_unknown_id {F : Type}
    (c : Rdb_faiss_inverted_list_context) (keys : list (list byte))
    (picks : list (nat * F)) (id : Z) (d : F) (tail : list (Z * F))
    (result : list (list byte * F)) :
  (∀ i key, keys !! i = Some key →
            m_vectorid_key c !! (1024 + Z.of_nat i) = Some key) →
  Forall (fun p => (p.1 < length keys)%nat) picks →
  0 ≤ id → m_vectorid_key c !! id = None →
  populate_result c (picked_ids picks ++ (id, d) :: tail) result
  = (Some HA_EXIT_FAILURE, result ++ picked_rows keys picks).
Proof.
  intros Hkeys Hpicks Hid Hnone.
  rewrite (populate_result_picked c keys picks) by done.
  cbn [populate_result]. destruct (decide (id < 0)) as [|_]; [lia|].
  by rewrite Hnone.
Qed.

Lemma populate_result_unknown_id_witness :
  populate_result (add_keys [[x61]; [x62]] (new_context true None))
    (picked_ids [(1%nat, 5)] ++ [(7, 3); (1024, 4)]) []
  = (Some HA_EXIT_FAILURE, [] ++ picked_rows [[x61]; [x62]] [(1%nat, 5)]).
Proof.
  apply (populate_result_unknown_id
           (add_keys [[x61]; [x62]] (new_context true None)) [[x61]; [x62]]
           [(1%nat, 5)] 7 3 [(1024, 4)] []).
  - intros i key Hi.
    apply (add_keys_lookup [[x61]; [x62]] (new_context true None) i key);
      [reflexivity|intros; apply lookup_empty|exact Hi].
  - repeat constructor; simpl; lia.
  - lia.
  - reflexivity.
Defined.

(** ** What the typed-array decoder returns *)

Section JsonArrayOutcomes.
Context {FA : FloatArith} {MEM : Memory}.

Lemma byte_to_Z_inj (a b : byte) : byte_to_Z a = byte_to_Z b → a = b.
Proof.
  unfold byte_to_Z. intros H. apply N2Z.inj in H.
  assert (Hsome : Some a = Some b)
    by (rewrite <- (Byte.of_to_N a), <- (Byte.of_to_N b); by rewrite H).
  by injection Hsome.
Qed.

Lemma read_le_range data p n z :
  read_le data p n = Ok z → 0 ≤ z < 2 ^ (8 * Z.of_nat n).
Proof.
  revert p z. induction n as [|n IH]; intros p z.
  - intros [= <-]. cbn. lia.
  - cbn [read_le]. unfold read_u8 at 1, read_byte.
    destruct (data !! p) as [b|]; cbn [mbind outcome_bind]; [|done].
    destruct (read_le data (S p) n) as [rest| |] eqn:Hrest;
      cbn [mbind outcome_bind]; [|done..].
    intros [= <-]. specialize (IH _ _ Hrest).
    pose proof (byte_to_Z_range b) as Hb.
    assert (Hnn : 0 ≤ Z.lor (byte_to_Z b) (rest ≪ 8)).
    { apply Z.lor_nonneg. split; [lia|]. apply Z.shiftl_nonneg. lia. }
    split; [done|].
    assert (Hdisjoint : Z.land (byte_to_Z b) (rest ≪ 8) = 0).
    { apply Z.bits_inj'. intros l Hl.
      rewrite Z.land_spec, Z.bits_0.
      destruct (decide (l < 8)).
      - rewrite (Z.shiftl_spec_low rest 8 l) by lia. apply andb_false_r.
      - rewrite <- (Z.mod_small (byte_to_Z b) (2 ^ 8)) by lia.
        rewrite Z.mod_pow2_bits_high by lia. done. }
    rewrite <- Z.lxor_lor, <- Z.add_nocarry_lxor by done.
    rewrite Z.shiftl_mul_pow2 by lia.
    replace (8 * Z.of_nat (S n)) with (8 + 8 * Z.of_nat n) by lia.
    rewrite Z.pow_add_r by lia. nia.
Qed.

Lemma read_le_outcome data p n :
  match read_le data p n with
  | Ok z => 0 ≤ z
  | Err _ => False
  | Fault f => ∃ q, f = OutOfBoundsRead q
  end.
Proof.
  revert p. induction n as [|n IH]; intros p; [done|].
  cbn [read_le]. unfold read_u8, read_byte.
  destruct (data !! p) as [b|]; cbn [mbind outcome_bind]; [|by eexists].
  specialize (IH (S p)).
  destruct (read_le data (S p) n) as [rest| |]; cbn [mbind outcome_bind];
    [|done..].
  apply Z.lor_nonneg. split.
  - pose proof (byte_to_Z_range b). lia.
  - by apply Z.shiftl_nonneg.
Qed.

Lemma read_varint_outcome data length pos acc bytes_read todo :
  match read_varint data length pos acc bytes_read todo with
  | Ok _ => True
  | Err e => e = HA_ERR_ROCKSDB_CORRUPT_DATA
  | Fault f => ∃ q, f = OutOfBoundsRead q
  end.
Proof.
  revert pos acc bytes_read.
  induction todo as [|todo IH]; intros pos acc bytes_read; [done|].
  cbn [read_varint]. destruct (decide _); [done|].
  unfold read_u8, read_byte.
  destruct (data !! pos); cbn [mbind outcome_bind]; [|by eexists].
  destruct (_ =? 0); [done|]. apply IH.
Qed.

(** One element: an element of the kind of [T], CorruptData, or one of
    the two faults of the [switch]. *)
Lemma extract_element_outcome T data length value_type inlined value_offset :
  match extract_element T data length value_type inlined value_offset with
  | Ok e => T = T_float → ∃ x, e = E_float x
  | Err e => e = HA_ERR_ROCKSDB_CORRUPT_DATA
  | Fault f =>
      (f = InvalidCast ∧ is_integral_v T = true) ∨ ∃ q, f = OutOfBoundsRead q
  end.
Proof.
  unfold extract_element, cast_of_double.
  pose proof (read_le_outcome data (Z.to_nat value_offset) 4) as H4.
  pose proof (read_le_outcome data (Z.to_nat value_offset) 8) as H8.
  pose proof (read_varint_outcome data length (Z.to_nat value_offset) 0 0 5) as Hv.
  destruct (value_type =? 4).
  { destruct T; repeat case_match; simplify_eq; try done; by intros [=]. }
  destruct (value_type =? 5).
  { destruct T; cbn [is_arithmetic_v cast_of_int]; try done; try by intros [=].
    intros _. by eexists. }
  destruct (value_type =? 6).
  { destruct T; cbn [is_arithmetic_v cast_of_int]; try done; try by intros [=].
    intros _. by eexists. }
  destruct (value_type =? 7).
  { destruct (is_arithmetic_v T) eqn:HT; [|done]. destruct inlined.
    - destruct T; cbn [cast_of_int]; try done; try by intros [=].
      intros _. by eexists.
    - destruct (read_le _ _ 4) as [?| |]; cbn [mbind outcome_bind];
        [|done|by right].
      destruct T; cbn [cast_of_int]; try done; try by intros [=].
      intros _. by eexists. }
  destruct (value_type =? 8).
  { destruct (is_arithmetic_v T) eqn:HT; [|done]. destruct inlined.
    - destruct T; cbn [cast_of_int]; try done; try by intros [=].
      intros _. by eexists.
    - destruct (read_le _ _ 4) as [?| |]; cbn [mbind outcome_bind];
        [|done|by right].
      destruct T; cbn [cast_of_int]; try done; try by intros [=].
      intros _. by eexists. }
  destruct (value_type =? 9).
  { destruct (is_arithmetic_v T) eqn:HT; [|done]. destruct (decide _); [done|].
    destruct (read_le _ _ 8) as [?| |]; cbn [mbind outcome_bind];
      [|done|by right].
    destruct T; cbn [cast_of_int]; try done; try by intros [=].
    intros _. by eexists. }
  destruct (value_type =? 10).
  { destruct (is_arithmetic_v T) eqn:HT; [|done]. destruct (decide _); [done|].
    destruct (read_le _ _ 8) as [?| |]; cbn [mbind outcome_bind];
      [|done|by right].
    destruct T; cbn [cast_of_int]; try done; try by intros [=].
    intros _. by eexists. }
  destruct (value_type =? 11).
  { destruct (is_arithmetic_v T) eqn:HT; [|done]. destruct (decide _); [done|].
    destruct (read_le _ _ 8) as [?| |]; cbn [mbind outcome_bind];
      [|done|by right].
    destruct T; repeat case_match; simplify_eq; try done;
      try (by intros [=]); try (by left); intros _; by eexists. }
  destruct (value_type =? 12); [|done].
  destruct T; try done.
  destruct (read_varint _ _ _ _ _ _) as [[? ?]| |]; cbn [mbind outcome_bind];
    [|done|by right].
  destruct (decide _); [done|by intros [=]].
Qed.

Lemma extract_entry_outcome T data length large_format i :
  match extract_entry T data length large_format i with
  | Ok e =>
      (T = T_float → ∃ x, e = E_float x)
      ∧ 1 + 2 * (if large_format then 4 else 2)
        + (i + 1) * (1 + (if large_format then 4 else 2)) ≤ Z.of_nat length
  | Err e => e = HA_ERR_ROCKSDB_CORRUPT_DATA
  | Fault f =>
      (f = InvalidCast ∧ is_integral_v T = true) ∨ ∃ q, f = OutOfBoundsRead q
  end.
Proof.
  unfold extract_entry. destruct (decide _) as [|Hfit]; [done|].
  unfold read_u8 at 1, read_byte.
  destruct (data !! _); cbn [mbind outcome_bind]; [|right; by eexists].
  match goal with |- context [read_le ?d ?p ?n ≫= _] =>
    pose proof (read_le_outcome d p n);
    destruct (read_le d p n) as [raw| |]; cbn [mbind outcome_bind];
    [|done|by right] end.
  assert (Hbound : 1 + 2 * (if large_format then 4 else 2)
                   + (i + 1) * (1 + (if large_format then 4 else 2))
                   ≤ Z.of_nat length) by (destruct large_format; lia).
  destruct (_ || _).
  - match goal with |- context [extract_element ?a ?b ?c ?d ?e ?f] =>
      pose proof (extract_element_outcome a b c d e f);
      destruct (extract_element a b c d e f) end; done.
  - destruct (decide _); [done|].
    match goal with |- context [extract_element ?a ?b ?c ?d ?e ?f] =>
      pose proof (extract_element_outcome a b c d e f);
      destruct (extract_element a b c d e f) end; done.
Qed.

Lemma extract_loop_outcome T data length large_format element_count fuel i
    result :
  i ≤ element_count ∨ 0 ≤ i →
  match extract_loop T data length large_format element_count i result fuel with
  | Ok out =>
      Z.of_nat (base.length out)
      = Z.of_nat (base.length result) + Z.max 0 (element_count - i)
      ∧ (T = T_float →
         Forall (fun e => ∃ x, e = E_float x) result →
         Forall (fun e => ∃ x, e = E_float x) out)
      ∧ (0 ≤ i < element_count →
         1 + 2 * (if large_format then 4 else 2)
         + element_count * (1 + (if large_format then 4 else 2))
         ≤ Z.of_nat length)
  | Err e => e = HA_ERR_ROCKSDB_CORRUPT_DATA
  | Fault f =>
      f = OutOfFuel ∨ (f = InvalidCast ∧ is_integral_v T = true)
      ∨ ∃ q, f = OutOfBoundsRead q
  end.
Proof.
  revert i result. induction fuel as [|fuel IH]; intros i result Hi.
  - cbn [extract_loop]. destruct (decide _); [|by left].
    split; [lia|]. split; [done|lia].
  - cbn [extract_loop]. destruct (decide _).
    { split; [lia|]. split; [done|lia]. }
    pose proof (extract_entry_outcome T data length large_format i) as He.
    destruct (extract_entry T data length large_format i) as [e| |];
      cbn [mbind outcome_bind]; [|done|by right].
    destruct He as [Hkind Hfit].
    specialize (IH (i + 1) (result ++ [e])).
    destruct (extract_loop _ _ _ _ _ (i + 1) _ _) as [out| |];
      [|apply IH; lia..].
    destruct IH as (Hlen & Hall & Hbound); [lia|].
    rewrite length_app in Hlen. cbn [base.length] in Hlen.
    split; [lia|]. split.
    + intros HT Hres. apply Hall; [done|]. apply Forall_app. split; [done|].
      constructor; [by apply Hkind|constructor].
    + intros Hrange.
      destruct (decide (i + 1 < element_count)); [apply Hbound; lia|].
      assert (element_count = i + 1) as -> by lia. exact Hfit.
Qed.

Lemma float_elems_length (es : list json_elem) :
  Forall (fun e => ∃ x, e = E_float x) es →
  base.length (float_elems es) = base.length es.
Proof.
  induction 1 as [|e es [x ->] _ IH]; [done|].
  unfold float_elems in *. cbn [omap list_omap base.length]. by rewrite IH.
Qed.

(** X8: a successful decode has one element for each element the header
    announces.  The first byte is 0x02 or 0x03, the element count is the
    little-endian integer of 2 (small) or 4 (large) bytes after it, the
    result has exactly that many elements, the header and the value
    entries of all of them lie inside the input, and for [T = float]
    every element is a float, so the vector handed to the distance has
    that length. *)
Theorem ExtractVectorFromJson_element_count (T : elem_type)
    (json_binary : list byte) (result : list json_elem) :
  ExtractVectorFromJson T json_binary = Ok result →
  ∃ (large_format : bool) (element_count : Z),
    let offset_size := if large_format then 4 else 2 in
    read_u8 json_binary 0 = Ok (if large_format then 3 else 2)
    ∧ read_le json_binary 1 (Z.to_nat offset_size) = Ok element_count
    ∧ Z.of_nat (length result) = element_count
    ∧ 1 + 2 * offset_size + element_count * (1 + offset_size)
      ≤ Z.of_nat (length json_binary)
    ∧ (T = T_float → length (float_elems result) = length result).
Proof.
  unfold ExtractVectorFromJson. destruct (decide _); [done|].
  destruct (read_u8 json_binary 0) as [type| |] eqn:Htype;
    cbn [mbind outcome_bind]; [|done..].
  destruct (negb (type =? 2) && negb (type =? 3)) eqn:Hty; [done|].
  destruct (decide _) as [|Hheader]; [done|].
  match goal with |- context [read_le ?d ?p ?n ≫= _] =>
    pose proof (read_le_outcome d p n) as Hcount;
    destruct (read_le d p n) as [element_count| |] eqn:Hread;
    cbn [mbind outcome_bind]; [|done..] end.
  destruct (reserve_granted _); cbn [negb]; [|done].
  intros Hloop.
  pose proof (extract_loop_outcome T json_binary (length json_binary)
                (type =? 3) element_count (S (length json_binary)) 0 [])
    as Hout.
  rewrite Hloop in Hout. destruct Hout as (Hlen & Hall & Hbound); [lia|].
  exists (type =? 3), element_count. cbv zeta.
  assert (Htype' : type = if type =? 3 then 3 else 2).
  { destruct (Z.eqb_spec type 3); [done|].
    destruct (Z.eqb_spec type 2); [done|]. done. }
  split; [by rewrite <- Htype'|]. split; [done|].
  cbn [base.length] in Hlen. split; [lia|]. split.
  - destruct (decide (0 < element_count)); [apply Hbound; lia|].
    assert (element_count = 0) as -> by lia. lia.
  - intros HT. apply float_elems_length. by apply Hall.
Qed.

(** X9: what the decoder can do on an input, for every element type
    and every byte string.  It returns a vector, or CorruptData and no
    other error, or it faults, and then in one of three ways: by
    converting a double that an integral [T] cannot hold; by
    [std::bad_alloc] out of [reserve], which takes a large array (0x03)
    whose announced element count asks for more than [SMALL_RESERVE]
    bytes and more than the memory has; or by reading past the input for
    a non-inlined int32 or uint32 entry of a small array.  So the
    decoder for floats, doubles and strings reads a large array without
    ever leaving the input, and a small array is never refused its
    memory. *)
Theorem ExtractVectorFromJson_outcomes (T : elem_type) (json_binary : list byte) :
  match ExtractVectorFromJson T json_binary with
  | Ok _ => True
  | Err e => e = HA_ERR_ROCKSDB_CORRUPT_DATA
  | Fault f =>
      (f = InvalidCast ∧ is_integral_v T = true)
      ∨ (f = BadAlloc
         ∧ json_binary !! 0%nat = Some x03
         ∧ ∃ element_count,
             read_le json_binary 1 4 = Ok element_count
             ∧ SMALL_RESERVE < reserve_bytes T element_count
             ∧ reserve_limit < reserve_bytes T element_count)
      ∨ ∃ q, f = OutOfBoundsRead q
             ∧ json_binary !! 0%nat = Some x02
             ∧ ∃ j, 0 ≤ j
                    ∧ (small_entry_type json_binary j = Some 7
                       ∨ small_entry_type json_binary j = Some 8)
  end.
Proof.
  destruct (ExtractVectorFromJson T json_binary) as [result|e|f] eqn:Hrun;
    [done| |].
  - revert Hrun. unfold ExtractVectorFromJson. destruct (decide _); [congruence|].
    unfold read_u8 at 1, read_byte.
    destruct (json_binary !! 0%nat); cbn [mbind outcome_bind]; [|done].
    destruct (_ && _); [congruence|]. destruct (decide _); [congruence|].
    match goal with |- context [read_le ?d ?p ?n ≫= _] =>
      pose proof (read_le_outcome d p n);
      destruct (read_le d p n) as [element_count| |];
      cbn [mbind outcome_bind]; [|done..] end.
    destruct (reserve_granted _); cbn [negb]; [|done].
    match goal with |- context [extract_loop ?a ?b ?c ?d ?e ?f ?g ?h] =>
      pose proof (extract_loop_outcome a b c d e h f g) as Hout;
      destruct (extract_loop a b c d e f g h) end; [done| |done].
    intros [= <-]. apply Hout. lia.
  - assert (Hkind : (f = InvalidCast ∧ is_integral_v T = true)
                    ∨ (f = BadAlloc
                       ∧ json_binary !! 0%nat = Some x03
                       ∧ ∃ element_count,
                           read_le json_binary 1 4 = Ok element_count
                           ∧ SMALL_RESERVE < reserve_bytes T element_count
                           ∧ reserve_limit < reserve_bytes T element_count)
                    ∨ ∃ q, f = OutOfBoundsRead q).
    { pose proof (ExtractVectorFromJson_total T json_binary) as Htotal.
      rewrite Hrun in Htotal. revert Hrun. unfold ExtractVectorFromJson.
      destruct (decide _); [done|].
      unfold read_u8 at 1, read_byte.
      destruct (json_binary !! 0%nat) as [b0|] eqn:Hb0;
        cbn [mbind outcome_bind];
        [|intros [= <-]; right; right; by eexists].
      destruct (negb (byte_to_Z b0 =? 2) && negb (byte_to_Z b0 =? 3)) eqn:Hty;
        [done|].
      destruct (decide _); [done|].
      match goal with |- context [read_le ?d ?p ?n ≫= _] =>
        pose proof (read_le_outcome d p n) as Hcount;
        destruct (read_le d p n) as [element_count| |] eqn:Hread;
        cbn [mbind outcome_bind];
        [|done|by intros [= <-]; right; right] end.
      destruct (reserve_granted _) eqn:Hgranted; cbn [negb].
      - match goal with |- context [extract_loop ?a ?b ?c ?d ?e ?f ?g ?h] =>
          pose proof (extract_loop_outcome a b c d e h f g) as Hout;
          destruct (extract_loop a b c d e f g h) end; [done..|].
        intros [= <-]. destruct Hout as [->|[?|?]]; [lia|done|by left|].
        by right; right.
      - intros [= <-]. right; left. split; [done|].
        apply bool_decide_eq_false in Hgranted.
        assert (Hbig : SMALL_RESERVE < reserve_bytes T element_count
                       ∧ reserve_limit < reserve_bytes T element_count) by lia.
        destruct (Z.eqb_spec (byte_to_Z b0) 3) as [H3|H3].
        + split; [by rewrite (byte_to_Z_inj b0 x03 H3)|].
          by exists element_count.
        + exfalso. destruct (Z.eqb_spec (byte_to_Z b0) 2) as [H2|H2]; [|done].
          apply read_le_range in Hread.
          change (2 ^ (8 * Z.of_nat (Z.to_nat 2))) with (2 ^ 16) in Hread.
          pose proof (reserve_granted_16_bits T element_count (proj2 Hread))
            as Hsmall.
          unfold reserve_granted in Hsmall.
          rewrite bool_decide_eq_true in Hsmall. lia. }
    destruct Hkind as [?|[?|[q ->]]]; [by left|by right; left|right; right].
    exists q. split; [done|].
    by apply (only_int32_entries_read_past_the_input T json_binary q).
Qed.

End JsonArrayOutcomes.

(** A large array that announces [2^32 - 1] elements in an input of 9
    bytes: [reserve] asks for 16 gibibytes before the first entry is
    looked at.  Where one request obtains at most 8 it throws; where it
    obtains them, the first entry is found missing and the answer is
    CorruptData. *)
Example large_array_reserve :
  ExtractVectorFromJson (FA := QFloat) (MEM := memory_8GiB) T_float
    [x03; xff; xff; xff; xff; x09; x00; x00; x00]
  = Fault BadAlloc
  ∧ ExtractVectorFromJson (FA := QFloat) (MEM := {| reserve_limit := 2 ^ 40 |})
      T_float [x03; xff; xff; xff; xff; x09; x00; x00; x00]
    = Err HA_ERR_ROCKSDB_CORRUPT_DATA.
Proof. split; reflexivity. Qed.

Lemma ExtractVectorFromJson_element_count_witness :
  ∃ (large_format : bool) (element_count : Z),
    let offset_size := if large_format then 4 else 2 in
    read_u8 (json_int16_array [3; 4]) 0 = Ok (if large_format then 3 else 2)
    ∧ read_le (json_int16_array [3; 4]) 1 (Z.to_nat offset_size)
      = Ok element_count
    ∧ Z.of_nat (length [E_float (FA := QFloat) 3%Q; E_float (FA := QFloat) 4%Q])
      = element_count
    ∧ 1 + 2 * offset_size + element_count * (1 + offset_size)
      ≤ Z.of_nat (length (json_int16_array [3; 4]))
    ∧ (T_float = T_float →
       length (float_elems [E_float (FA := QFloat) 3%Q; E_float (FA := QFloat) 4%Q])
       = length [E_float (FA := QFloat) 3%Q; E_float (FA := QFloat) 4%Q]).
Proof.
  assert (Hrun : ExtractVectorFromJson (FA := QFloat) T_float
                   (json_int16_array [3; 4])
                 = Ok [E_float (FA := QFloat) 3%Q; E_float (FA := QFloat) 4%Q])
    by reflexivity.
  exact (ExtractVectorFromJson_element_count (FA := QFloat) T_float
           (json_int16_array [3; 4])
           [E_float (FA := QFloat) 3%Q; E_float (FA := QFloat) 4%Q] Hrun).
Defined.

(** ** More on the row-value decoder *)

Lemma read_le_app (data extra : list byte) (p n : nat) (z : Z) :
  read_le data p n = Ok z → read_le (data ++ extra) p n = Ok z.
Proof.
  revert p z. induction n as [|n IH]; intros p z; [done|].
  cbn [read_le]. unfold read_u8, read_byte.
  destruct (data !! p) as [b|] eqn:Hb; cbn [mbind outcome_bind]; [|done].
  rewrite (lookup_app_l_Some _ _ _ _ Hb). cbn [mbind outcome_bind].
  destruct (read_le data (S p) n) as [rest| |] eqn:Hrest;
    cbn [mbind outcome_bind]; [|done..].
  by rewrite (IH _ _ Hrest).
Qed.

Lemma field_is_null_app value extra null_bytes field_info i b :
  field_is_null value null_bytes field_info i = Ok b →
  field_is_null (value ++ extra) null_bytes field_info i = Ok b.
Proof.
  unfold field_is_null. destruct null_bytes as [nb|]; [|done].
  destruct (is_nullable field_info); [|done].
  unfold read_u8, read_byte.
  destruct (value !! _) as [x|] eqn:Hx; cbn [mbind outcome_bind]; [|done].
  by rewrite (lookup_app_l_Some _ _ _ _ Hx).
Qed.

Lemma read_field_length_app value extra pos field_info len :
  read_field_length value pos field_info = Ok len →
  read_field_length (value ++ extra) pos field_info = Ok len.
Proof.
  unfold read_field_length. repeat case_match; try done; apply read_le_app.
Qed.

(** The cursor with [n] more bytes remaining. *)
Lemma decode_field_step_app value extra null_bytes m field_info i st st' :
  decode_field_step value null_bytes m field_info i st = Ok st' →
  decode_field_step (value ++ extra) null_bytes m field_info i
    {| ds_pos := ds_pos st;
       ds_remaining := (ds_remaining st + length extra)%nat;
       ds_field_values := ds_field_values st |}
  = Ok {| ds_pos := ds_pos st';
          ds_remaining := (ds_remaining st' + length extra)%nat;
          ds_field_values := ds_field_values st' |}.
Proof.
  unfold decode_field_step.
  destruct (field_is_null value _ _ _) as [is_null| |] eqn:Hnull;
    cbn [mbind outcome_bind]; [|done..].
  rewrite (field_is_null_app _ extra _ _ _ _ Hnull). cbn [mbind outcome_bind].
  destruct is_null; [by intros [= <-]|].
  cbn [ds_pos ds_remaining ds_field_values].
  destruct (is_variable_length field_info).
  - destruct (decide (ds_remaining st < _)%nat); [done|].
    rewrite decide_False by lia.
    destruct (read_field_length value _ _) as [len| |] eqn:Hlen;
      cbn [mbind outcome_bind]; [|done..].
    rewrite (read_field_length_app _ extra _ _ _ Hlen). cbn [mbind outcome_bind].
    destruct (decide (Z.of_nat _ < len)); [done|].
    rewrite decide_False by lia. intros [= <-].
    cbn [ds_pos ds_remaining ds_field_values]. do 2 f_equal. lia.
  - destruct (decide (ds_remaining st < _)%nat); [done|].
    rewrite decide_False by lia. intros [= <-].
    cbn [ds_pos ds_remaining ds_field_values]. do 2 f_equal. lia.
Qed.

Lemma decode_fields_loop_app value extra null_bytes m field_info_list n i st st' :
  decode_fields_loop value null_bytes m field_info_list n i st = Ok st' →
  decode_fields_loop (value ++ extra) null_bytes m field_info_list n i
    {| ds_pos := ds_pos st;
       ds_remaining := (ds_remaining st + length extra)%nat;
       ds_field_values := ds_field_values st |}
  = Ok {| ds_pos := ds_pos st';
          ds_remaining := (ds_remaining st' + length extra)%nat;
          ds_field_values := ds_field_values st' |}.
Proof.
  revert i st. induction n as [|n IH]; intros i st.
  - cbn [decode_fields_loop]. by intros [= <-].
  - cbn [decode_fields_loop]. destruct (field_info_list !! i); [|done].
    destruct (decode_field_step value _ _ _ _ st) as [st1| |] eqn:Hstep;
      cbn [mbind outcome_bind]; [|done..].
    rewrite (decode_field_step_app _ extra _ _ _ _ _ _ Hstep).
    cbn [mbind outcome_bind]. apply IH.
Qed.

(** X10: bytes after the last field that is parsed do not matter.  If
    [DecodeFieldFromValue] succeeds on a value, it succeeds with the
    same slices on that value followed by any further bytes. *)
Theorem DecodeFieldFromValue_ignores_trailing_bytes
    (table_config : TableConfig) (field_info_list : list FieldInfo)
    (field_indexs : list nat) (value extra : list byte) (out : list Slice) :
  DecodeFieldFromValue table_config field_info_list field_indexs value = Ok out →
  DecodeFieldFromValue table_config field_info_list field_indexs (value ++ extra)
  = Ok out.
Proof.
  unfold DecodeFieldFromValue, decode_prologue. rewrite length_app.
  destruct (has_ttl table_config).
  - destruct (decide (length value < 8)%nat); [done|].
    rewrite decide_False by lia. cbn [mbind outcome_bind].
    destruct (decide (0 < _)%nat).
    + destruct (decide (length value - 8 < _)%nat); [done|].
      rewrite decide_False by lia. cbn [mbind outcome_bind].
      destruct field_indexs as [|idx rest]; [done|].
      destruct (max_field_index_of _ _ _) as [mx| |]; cbn [mbind outcome_bind];
        [|done..].
      destruct (decode_fields_loop value _ _ _ _ _ _) as [st'| |] eqn:Hloop;
        cbn [mbind outcome_bind]; [|done..].
      intros [= <-].
      apply (decode_fields_loop_app _ extra) in Hloop.
      cbn [ds_pos ds_remaining ds_field_values] in Hloop.
      replace (length value + length extra - 8 - null_bytes_length table_config)%nat
        with (length value - 8 - null_bytes_length table_config + length extra)%nat
        by lia.
      by rewrite Hloop.
    + cbn [mbind outcome_bind].
      destruct field_indexs as [|idx rest]; [done|].
      destruct (max_field_index_of _ _ _) as [mx| |]; cbn [mbind outcome_bind];
        [|done..].
      destruct (decode_fields_loop value _ _ _ _ _ _) as [st'| |] eqn:Hloop;
        cbn [mbind outcome_bind]; [|done..].
      intros [= <-].
      apply (decode_fields_loop_app _ extra) in Hloop.
      cbn [ds_pos ds_remaining ds_field_values] in Hloop.
      replace (length value + length extra - 8)%nat
        with (length value - 8 + length extra)%nat by lia.
      by rewrite Hloop.
  - cbn [mbind outcome_bind].
    destruct (decide (0 < _)%nat).
    + destruct (decide (length value < _)%nat); [done|].
      rewrite decide_False by lia. cbn [mbind outcome_bind].
      destruct field_indexs as [|idx rest]; [done|].
      destruct (max_field_index_of _ _ _) as [mx| |]; cbn [mbind outcome_bind];
        [|done..].
      destruct (decode_fields_loop value _ _ _ _ _ _) as [st'| |] eqn:Hloop;
        cbn [mbind outcome_bind]; [|done..].
      intros [= <-].
      apply (decode_fields_loop_app _ extra) in Hloop.
      cbn [ds_pos ds_remaining ds_field_values] in Hloop.
      replace (length value + length extra - null_bytes_length table_config)%nat
        with (length value - null_bytes_length table_config + length extra)%nat
        by lia.
      by rewrite Hloop.
    + cbn [mbind outcome_bind].
      destruct field_indexs as [|idx rest]; [done|].
      destruct (max_field_index_of _ _ _) as [mx| |]; cbn [mbind outcome_bind];
        [|done..].
      destruct (decode_fields_loop value _ _ _ _ _ _) as [st'| |] eqn:Hloop;
        cbn [mbind outcome_bind]; [|done..].
      intros [= <-].
      apply (decode_fields_loop_app _ extra) in Hloop.
      cbn [ds_pos ds_remaining ds_field_values] in Hloop.
      by rewrite Hloop.
Qed.

Lemma DecodeFieldFromValue_ignores_trailing_bytes_witness :
  ∃ out,
    DecodeFieldFromValue example_config example_layout [8%nat; 0%nat]
      (example_row BITS_1_0 0 [1; 2]) = Ok out
    ∧ DecodeFieldFromValue example_config example_layout [8%nat; 0%nat]
        (example_row BITS_1_0 0 [1; 2] ++ [x2a; x2b]) = Ok out.
Proof.
  eexists. split; [vm_compute; reflexivity|].
  apply (DecodeFieldFromValue_ignores_trailing_bytes example_config
           example_layout [8%nat; 0%nat] (example_row BITS_1_0 0 [1; 2])
           [x2a; x2b]).
  vm_compute. reflexivity.
Defined.

Lemma cursor_field_advance value null_bytes field_info i pos s pos' :
  cursor_field value null_bytes field_info i pos = Ok (s, pos') →
  (pos ≤ pos')%nat
  ∧ ∀ off len, s = Slice_at off len → (pos ≤ off ∧ off + len = pos')%nat.
Proof.
  unfold cursor_field.
  destruct (field_is_null _ _ _ _) as [[|]| |]; cbn [mbind outcome_bind];
    try done.
  - by intros [= <- <-].
  - destruct (is_variable_length field_info).
    + destruct (decide _); [done|].
      destruct (read_field_length _ _ _) as [len| |]; cbn [mbind outcome_bind];
        try done.
      destruct (decide _); [done|]. intros [= <- <-].
      split; [lia|]. intros off len' [= <- <-]. lia.
    + destruct (decide _); [done|]. intros [= <- <-].
      split; [lia|]. intros off len' [= <- <-]. lia.
Qed.

Lemma cursor_walk_after value null_bytes fields i pos slices k off len :
  cursor_walk value null_bytes fields i pos = Ok slices →
  slices !! k = Some (Slice_at off len) → (pos ≤ off)%nat.
Proof.
  revert i pos slices k. induction fields as [|fi fields IH];
    intros i pos slices k; cbn [cursor_walk]; [by intros [= <-]|].
  destruct (cursor_field _ _ _ _ _) as [[s pos']| |] eqn:Hf;
    cbn [mbind outcome_bind]; [|done..].
  destruct (cursor_walk _ _ fields _ _) as [rest| |] eqn:Hw;
    cbn [mbind outcome_bind]; [|done..].
  intros [= <-] Hk. apply cursor_field_advance in Hf as [Hle Hs].
  destruct k as [|k]; simpl in Hk.
  - injection Hk as ->. by destruct (Hs off len).
  - pose proof (IH _ _ _ _ Hw Hk). lia.
Qed.

Lemma cursor_walk_ordered value null_bytes fields i pos slices a b
    off1 len1 off2 len2 :
  cursor_walk value null_bytes fields i pos = Ok slices →
  (a < b)%nat →
  slices !! a = Some (Slice_at off1 len1) →
  slices !! b = Some (Slice_at off2 len2) →
  (off1 + len1 ≤ off2)%nat.
Proof.
  revert i pos slices a b. induction fields as [|fi fields IH];
    intros i pos slices a b; cbn [cursor_walk]; [by intros [= <-]|].
  destruct (cursor_field _ _ _ _ _) as [[s pos']| |] eqn:Hf;
    cbn [mbind outcome_bind]; [|done..].
  destruct (cursor_walk _ _ fields _ _) as [rest| |] eqn:Hw;
    cbn [mbind outcome_bind]; [|done..].
  intros [= <-] Hab Ha Hb. apply cursor_field_advance in Hf as [Hle Hs].
  destruct b as [|b]; [lia|]. simpl in Hb.
  destruct a as [|a]; simpl in Ha.
  - injection Ha as ->. destruct (Hs off1 len1) as [_ <-]; [done|].
    by eapply cursor_walk_after.
  - eapply (IH _ _ _ a b); [exact Hw|lia|done..].
Qed.

(** X11: the slices of different fields follow one another in the
    value.  For requested indices without repetition, when the decoder
    succeeds, the slice of a field lies after the TTL and the null
    bitmap and inside the value, and the slice of a field with a smaller
    index ends where or before the slice of a field with a greater index
    begins, whatever the order in which the two were requested. *)
Theorem DecodeFieldFromValue_slices_in_field_order
    (table_config : TableConfig) (field_info_list : list FieldInfo)
    (field_indexs : list nat) (value : list byte) (out : list Slice) :
  NoDup field_indexs →
  DecodeFieldFromValue table_config field_info_list field_indexs value = Ok out →
  (∀ j idx off len,
     field_indexs !! j = Some idx → out !! j = Some (Slice_at off len) →
     ((if has_ttl table_config then 8 else 0) + null_bytes_length table_config
      ≤ off ∧ off + len ≤ length value)%nat)
  ∧ (∀ j1 j2 idx1 idx2 off1 len1 off2 len2,
       field_indexs !! j1 = Some idx1 → field_indexs !! j2 = Some idx2 →
       (idx1 < idx2)%nat →
       out !! j1 = Some (Slice_at off1 len1) →
       out !! j2 = Some (Slice_at off2 len2) →
       (off1 + len1 ≤ off2)%nat).
Proof.
  intros Hnd. rewrite DecodeFieldFromValue_refines by done.
  unfold decode_fields_walk.
  destruct (decide _); [done|]. destruct (decide _) as [|Hfit]; [done|].
  destruct (decide (field_indexs = [])) as [->|Hne].
  { intros [= <-]. split; intros; by simplify_list_eq. }
  destruct (decide (Forall _ _)) as [Hall|]; [|done].
  destruct (cursor_walk _ _ _ _ _) as [slices| |] eqn:Hw;
    cbn [mbind outcome_bind]; [|done..].
  intros [= <-].
  assert (Hslice : ∀ j idx off len,
            field_indexs !! j = Some idx →
            ((fun idx => default Slice_default (slices !! idx)) <$> field_indexs)
              !! j = Some (Slice_at off len) →
            slices !! idx = Some (Slice_at off len)).
  { intros j idx off len Hj. rewrite list_lookup_fmap, Hj.
    cbn [fmap option_fmap option_map]. intros [= Hd].
    destruct (slices !! idx); [by simplify_eq/=|done]. }
  split.
  - intros j idx off len Hj Hout. apply (Hslice _ _ _ _ Hj) in Hout.
    split; [by eapply cursor_walk_after|].
    pose proof (cursor_walk_in_value _ _ _ _ _ _ Hw) as Hin.
    rewrite Forall_lookup in Hin. apply (Hin ltac:(lia) _ _ Hout).
  - intros j1 j2 idx1 idx2 off1 len1 off2 len2 Hj1 Hj2 Hlt Ho1 Ho2.
    apply (Hslice _ _ _ _ Hj1) in Ho1. apply (Hslice _ _ _ _ Hj2) in Ho2.
    by eapply (cursor_walk_ordered _ _ _ _ _ _ idx1 idx2).
Qed.

Lemma DecodeFieldFromValue_slices_in_field_order_witness :
  ∃ out,
    DecodeFieldFromValue example_config example_layout [8%nat; 0%nat]
      (example_row BITS_1_0 0 [1; 2]) = Ok out
    ∧ (∀ j idx off len,
         [8%nat; 0%nat] !! j = Some idx → out !! j = Some (Slice_at off len) →
         ((if has_ttl example_config then 8 else 0)
          + null_bytes_length example_config ≤ off
          ∧ off + len ≤ length (example_row BITS_1_0 0%Z [1%Z; 2%Z]))%nat)
    ∧ (∀ j1 j2 idx1 idx2 off1 len1 off2 len2,
         [8%nat; 0%nat] !! j1 = Some idx1 → [8%nat; 0%nat] !! j2 = Some idx2 →
         (idx1 < idx2)%nat →
         out !! j1 = Some (Slice_at off1 len1) →
         out !! j2 = Some (Slice_at off2 len2) →
         (off1 + len1 ≤ off2)%nat).
Proof.
  eexists. split; [vm_compute; reflexivity|].
  apply (DecodeFieldFromValue_slices_in_field_order example_config
           example_layout [8%nat; 0%nat] (example_row BITS_1_0 0 [1; 2])).
  - apply (bool_decide_unpack _); vm_compute; exact I.
  - vm_compute. reflexivity.
Defined.

(** ** What the LSM k-NN scan keeps *)

Ltac bind_ok H :=
  match type of H with
  | (?m ≫= _) = Ok _ =>
      let E := fresh "E" in
      destruct m eqn:E; [cbn [mbind outcome_bind] in H|done..]
  end.

Section QueueMembers.
Context {A : Type} (cmp : A → A → bool).

Lemma elem_of_pq_push (x y : A) (h : list A) :
  y ∈ pq_push cmp x h ↔ y = x ∨ y ∈ h.
Proof.
  induction h as [|z h IH]; cbn [pq_push].
  - rewrite list_elem_of_singleton, elem_of_nil. tauto.
  - destruct (cmp z x).
    + by rewrite elem_of_cons.
    + rewrite !elem_of_cons, IH. tauto.
Qed.

Hypothesis cmp_swo : StrictWeakOrder cmp.

Lemma not_below_trans (x y z : A) :
  not_below cmp x y → not_below cmp y z → not_below cmp x z.
Proof. apply (swo_incomp cmp cmp_swo). Qed.

(** The top of the queue is below none of its elements. *)
Lemma pq_top_greatest (top : A) (h : list A) (y : A) :
  Sorted (not_below cmp) h → pq_top h = Some top → y ∈ h →
  not_below cmp top y.
Proof.
  intros Hs Htop Hy. destruct h as [|x h]; [done|].
  injection Htop as ->. apply elem_of_cons in Hy as [->|Hy].
  - apply (swo_irrefl cmp cmp_swo).
  - assert (Htrans : Transitive (not_below cmp))
      by (intros a b c; apply not_below_trans).
    pose proof (Sorted_extends Htrans Hs) as Hall.
    rewrite List.Forall_forall in Hall. apply Hall. by apply list_elem_of_In.
Qed.

End QueueMembers.

Section KnnScan.
Context {FA : FloatArith} {MEM : Memory}.

Lemma knn_scan_loop_step table_config field_info_list query_vector k key value
    rows h n :
  length value ≠ 0%nat →
  knn_scan_loop table_config field_info_list query_vector k
    ((key, value) :: rows) h n
  = distance ← knn_row_score table_config field_info_list query_vector value;
    top_k_heap ← knn_heap_update k h distance key value;
    knn_scan_loop table_config field_info_list query_vector k rows top_k_heap
      (n + 1).
Proof.
  intros Hval. cbn [knn_scan_loop]. rewrite decide_True by done.
  unfold knn_row_score.
  destruct (or_corrupt _) as [index_fields| |]; cbn [mbind outcome_bind];
    [|done..].
  destruct (vector_at _ _); cbn [mbind outcome_bind]; [|done..].
  by destruct (row_vector_distance _ _ _).
Qed.

Lemma knn_heap_update_members k h distance key value h' x :
  knn_heap_update k h distance key value = Ok h' →
  x ∈ h' → x = (distance, (key, value)) ∨ x ∈ h.
Proof.
  unfold knn_heap_update. destruct (decide _).
  - intros [= <-]. by rewrite elem_of_pq_push.
  - destruct h as [|top h]; [done|]. cbn [pq_top head pq_pop tail].
    destruct (f32_ltb distance top.1); intros [= <-]; [|by right].
    rewrite elem_of_pq_push, elem_of_cons. tauto.
Qed.

Lemma knn_scan_loop_sound table_config field_info_list query_vector k rows :
  ∀ seen h n h' n',
    knn_scan_loop table_config field_info_list query_vector k rows h n
    = Ok (h', n') →
    heap_sound table_config field_info_list query_vector seen h →
    heap_sound table_config field_info_list query_vector (seen ++ rows) h'.
Proof.
  induction rows as [|[key value] rows IH]; intros seen h n h' n' H Hs.
  - injection H as <- _. by rewrite app_nil_r.
  - replace (seen ++ (key, value) :: rows)
      with ((seen ++ [(key, value)]) ++ rows) by (by rewrite <- app_assoc).
    destruct (decide (length value ≠ 0%nat)) as [Hval|Hempty].
    + rewrite knn_scan_loop_step in H by done. repeat bind_ok H.
      eapply IH; [exact H|]. intros d key' value' Hin.
      eapply knn_heap_update_members in Hin; [|done].
      destruct Hin as [[= -> -> ->]|Hin].
      * split; [|done]. rewrite !elem_of_app, list_elem_of_singleton. tauto.
      * destruct (Hs _ _ _ Hin) as (? & ? & ?).
        split; [|done]. rewrite !elem_of_app. tauto.
    + cbn [knn_scan_loop] in H. rewrite decide_False in H by done.
      eapply IH; [exact H|]. intros d key' value' Hin.
      destruct (Hs _ _ _ Hin) as (? & ? & ?).
      split; [|done]. rewrite !elem_of_app. tauto.
Qed.

Lemma elem_of_drain_result (row : result_row) (h : list PqElement) :
  row ∈ drain_result h ↔ ∃ x, x ∈ h ∧ row = row_of_element x.
Proof.
  unfold drain_result. rewrite pq_drain_all, elem_of_reverse, list_elem_of_fmap.
  split; intros (x & ? & ?); by exists x.
Qed.

(** X12: every row that [knn_search_with_value] or
    [index_scan_with_value] returns is a row the iterator yielded, with
    a value that is not empty, and the score reported with it is the
    squared L2 distance between the query vector and the vector decoded
    from field 8 of that row's value. *)
Theorem knn_results_are_scored_rows (index : Rdb_vector_index_lsm)
    (query_vector : list f32) (params : Rdb_vector_search_params) (nprobe : Z)
    (field_info_list : list FieldInfo) (table_config : TableConfig) :
  lsm_table_info index = Some (field_info_list, table_config) →
  (∀ rtn result key score value,
     lsm_knn_search_with_value index query_vector params = Returned rtn result →
     (key, (score, value)) ∈ result →
     (key, value) ∈ lsm_rows index query_vector (m_k params) (m_nprobe params)
     ∧ value ≠ []
     ∧ knn_row_score table_config field_info_list query_vector value = Ok score)
  ∧ (∀ rtn result key score value,
       lsm_index_scan_with_value index query_vector nprobe = Returned rtn result →
       (key, (score, value)) ∈ result →
       (key, value) ∈ lsm_rows index query_vector 500 nprobe
       ∧ value ≠ []
       ∧ knn_row_score table_config field_info_list query_vector value
         = Ok score).
Proof.
  intros Hinfo.
  assert (Hfin : ∀ k rows rtn result key score value,
            finish_scan
              (knn_scan_loop table_config field_info_list query_vector k rows [] 0)
            = Returned rtn result →
            (key, (score, value)) ∈ result →
            (key, value) ∈ rows ∧ value ≠ []
            ∧ knn_row_score table_config field_info_list query_vector value
              = Ok score).
  { intros k rows rtn result key score value. unfold finish_scan.
    destruct (knn_scan_loop _ _ _ _ _ _ _) as [[h n]| |] eqn:Hloop; [| |done].
    - intros [= <- <-] Hin.
      apply elem_of_drain_result in Hin as ([d [key' value']] & Hin & Hrow).
      injection Hrow as -> -> ->.
      apply (knn_scan_loop_sound _ _ _ _ _ []) in Hloop; [|by intros ? ? ? ?%elem_of_nil].
      destruct (Hloop _ _ _ Hin) as (? & Hlen & ?).
      split; [done|]. split; [|done]. by intros ->.
    - intros [= <- <-] Hin. by apply elem_of_nil in Hin. }
  split.
  - intros rtn result key score value.
    unfold lsm_knn_search_with_value, lsm_knn_scan. rewrite Hinfo. apply Hfin.
  - intros rtn result key score value.
    unfold lsm_index_scan_with_value, lsm_index_scan. rewrite Hinfo. apply Hfin.
Qed.

Hypothesis f32_swo : StrictWeakOrder f32_ltb.

Lemma cmp_is_swo : StrictWeakOrder cmp.
Proof.
  split; unfold cmp.
  - intros x. apply (swo_irrefl _ f32_swo).
  - intros x y z. apply (swo_trans _ f32_swo).
  - intros x y z. apply (swo_incomp _ f32_swo).
Qed.

Lemma knn_heap_update_keeps k h distance key value h' :
  Sorted (not_below cmp) h →
  knn_heap_update k h distance key value = Ok h' →
  (length h ≤ length h')%nat
  ∧ kept_or_outranked k h' (distance, (key, value))
  ∧ ∀ x, kept_or_outranked k h x → kept_or_outranked k h' x.
Proof.
  intros Hs. unfold knn_heap_update, pq_size. destruct (decide _) as [Hroom|Hfull].
  - intros [= <-]. rewrite pq_push_length. split; [lia|]. split.
    + left. apply elem_of_pq_push. by left.
    + intros x [Hin|[Hfull _]]; [|lia]. left. apply elem_of_pq_push. by right.
  - destruct h as [|top h]; [done|]. cbn [pq_top head pq_pop tail].
    assert (Hmax : ∀ y, y ∈ top :: h → cmp top y = false)
      by (intros y Hy; by apply (pq_top_greatest cmp cmp_is_swo top (top :: h))).
    destruct (f32_ltb distance top.1) eqn:Hlt; intros [= <-].
    + pose proof (pq_push_length cmp (distance, (key, value)) h) as Hlen.
      cbn [length] in *.
      split; [lia|]. split; [left; apply elem_of_pq_push; by left|].
      assert (Hnew : ∀ x, (∀ y, y ∈ top :: h → cmp x y = false) →
                ∀ y, y ∈ pq_push cmp (distance, (key, value)) h →
                     cmp x y = false).
      { intros x Hx y Hy. apply elem_of_pq_push in Hy as [->|Hy].
        - destruct (cmp x (distance, (key, value))) eqn:Hxd; [|done].
          assert (cmp x top = true) as Hxt
            by (eapply (swo_trans cmp cmp_is_swo); [exact Hxd|exact Hlt]).
          rewrite Hx in Hxt; [done|]. by left.
        - apply Hx. by right. }
      intros x [Hin|[_ Hout]].
      * apply elem_of_cons in Hin as [->|Hin].
        -- right. split; [lia|]. by apply Hnew.
        -- left. apply elem_of_pq_push. by right.
      * right. split; [lia|]. by apply Hnew.
    + split; [lia|]. split; [|done]. right. split; [done|].
      intros y Hy. apply (swo_incomp cmp cmp_is_swo _ top); [exact Hlt|].
      by apply Hmax.
Qed.

Lemma knn_scan_loop_keeps table_config field_info_list query_vector k rows :
  ∀ h n h' n',
    Sorted (not_below cmp) h →
    knn_scan_loop table_config field_info_list query_vector k rows h n
    = Ok (h', n') →
    (∀ x, kept_or_outranked k h x → kept_or_outranked k h' x)
    ∧ ∀ key value d,
        (key, value) ∈ rows → length value ≠ 0%nat →
        knn_row_score table_config field_info_list query_vector value = Ok d →
        kept_or_outranked k h' (d, (key, value)).
Proof.
  induction rows as [|[key value] rows IH]; intros h n h' n' Hs H.
  - injection H as <- _. split; [done|]. by intros ? ? ? ?%elem_of_nil.
  - destruct (decide (length value ≠ 0%nat)) as [Hval|Hempty].
    + rewrite knn_scan_loop_step in H by done.
      destruct (knn_row_score _ _ _ value) as [f| |] eqn:Hf;
        cbn [mbind outcome_bind] in H; [|done..].
      destruct (knn_heap_update k h f key value) as [h1| |] eqn:Hupd;
        cbn [mbind outcome_bind] in H; [|done..].
      pose proof (knn_heap_update_sorted f32_swo _ _ _ _ _ _ Hs Hupd) as Hs1.
      destruct (knn_heap_update_keeps _ _ _ _ _ _ Hs Hupd) as (_ & Hnew & Hold).
      destruct (IH _ _ _ _ Hs1 H) as [Hkeep Hrows].
      split; [by intros x ?%Hold%Hkeep|].
      intros key' value' d Hin Hval' Hd.
      apply elem_of_cons in Hin as [[= -> ->]|Hin]; [|by eapply Hrows].
      apply Hkeep. rewrite Hf in Hd. by injection Hd as <-.
    + cbn [knn_scan_loop] in H. rewrite decide_False in H by done.
      destruct (IH _ _ _ _ Hs H) as [Hkeep Hrows]. split; [done|].
      intros key' value' d Hin Hval' Hd.
      apply elem_of_cons in Hin as [[= -> ->]|Hin]; [done|by eapply Hrows].
Qed.


End KnnScan.

Lemma knn_results_are_scored_rows_witness :
  let result :=
    [([x61], (0%Q, example_row 0 0 [0; 0]));
     ([x62], (1%Q, example_row 0 0 [1; 0]))] in
  lsm_knn_search_with_value example_lsm_index [0%Q; 0%Q] (example_params 2)
  = Returned HA_EXIT_SUCCESS result
  ∧ ([x62], example_row 0 0 [1; 0])
    ∈ lsm_rows example_lsm_index [0%Q; 0%Q] 2 1
  ∧ example_row 0 0 [1; 0] ≠ []
  ∧ knn_row_score example_config example_layout [0%Q; 0%Q]
      (example_row 0 0 [1; 0]) = Ok 1%Q.
Proof.
  intros result. split; [vm_compute; reflexivity|].
  apply (proj1 (knn_results_are_scored_rows example_lsm_index [0%Q; 0%Q]
                  (example_params 2) 1 example_layout example_config eq_refl)
           HA_EXIT_SUCCESS result [x62] 1%Q (example_row 0 0 [1; 0])).
  - vm_compute. reflexivity.
  - apply list_elem_of_In. simpl. auto.
Defined.


(** ** The hybrid scan while the heap has room *)

Section HybridScan.
Context {FA : FloatArith} {MEM : Memory}.

Lemma hybrid_scan_loop_step table_config field_info_list to_extract si vi qc
    query_vector k w key value rows h n :
  length value ≠ 0%nat →
  hybrid_scan_loop table_config field_info_list to_extract si vi qc query_vector
    k w ((key, value) :: rows) h n
  = dd ← hybrid_row_distances table_config field_info_list to_extract si vi qc
           query_vector value;
    top_k_heap ← hybrid_heap_update k w h dd.1 dd.2 key value;
    hybrid_scan_loop table_config field_info_list to_extract si vi qc
      query_vector k w rows top_k_heap (n + 1).
Proof.
  intros Hval. cbn [hybrid_scan_loop]. rewrite decide_True by done.
  unfold hybrid_row_distances.
  repeat match goal with
  | |- (?m ≫= _) = ((?m ≫= _) ≫= _) =>
      destruct m; cbn [mbind outcome_bind]; [|done..]
  end.
  done.
Qed.

Lemma hybrid_scan_loop_room table_config field_info_list to_extract si vi qc
    query_vector k w rows :
  ∀ seen h n h' n',
    hybrid_scan_loop table_config field_info_list to_extract si vi qc
      query_vector k w rows h n = Ok (h', n') →
    Z.of_nat (length h) + matched_rows rows ≤ k →
    hybrid_heap_sound table_config field_info_list to_extract si vi qc
      query_vector w seen h →
    hybrid_heap_sound table_config field_info_list to_extract si vi qc
      query_vector w (seen ++ rows) h'.
Proof.
  induction rows as [|[key value] rows IH]; intros seen h n h' n' H Hroom Hs.
  - injection H as <- _. by rewrite app_nil_r.
  - replace (seen ++ (key, value) :: rows)
      with ((seen ++ [(key, value)]) ++ rows) by (by rewrite <- app_assoc).
    rewrite matched_rows_cons in Hroom.
    pose proof (matched_rows_nonneg rows) as Hnn.
    destruct (decide (length value ≠ 0%nat)) as [Hval|Hempty].
    + rewrite hybrid_scan_loop_step in H by done.
      destruct (hybrid_row_distances _ _ _ _ _ _ _ value) as [[d ds]| |] eqn:Hd;
        cbn [mbind outcome_bind fst snd] in H; [|done..].
      rewrite hybrid_heap_update_push in H by (unfold pq_size; lia).
      cbn [mbind outcome_bind] in H.
      eapply IH; [exact H|rewrite pq_push_length; lia|].
      intros s key' value' Hin. apply elem_of_pq_push in Hin as [[= -> -> ->]|Hin].
      * split; [rewrite !elem_of_app, list_elem_of_singleton; tauto|].
        split; [done|]. by exists d, ds.
      * destruct (Hs _ _ _ Hin) as (? & ? & ?).
        split; [|done]. rewrite !elem_of_app. tauto.
    + cbn [hybrid_scan_loop] in H. rewrite decide_False in H by done.
      eapply IH; [exact H|lia|]. intros s key' value' Hin.
      destruct (Hs _ _ _ Hin) as (? & ? & ?).
      split; [|done]. rewrite !elem_of_app. tauto.
Qed.

(** X14: a hybrid search whose heap never fills reports the combined
    score.  When the rows with a value that is not empty are at most the
    heap bound [m_k], every row [knn_search_hybrid_with_value] returns
    is a row the iterator yielded and its score is
    [distance + m_weight * distance_spatial], the squared L2 distance of
    its vector plus the weighted great-circle distance of its point from
    the query coordinate. *)
Theorem hybrid_scores_are_combined_while_room (index : Rdb_vector_index_lsm)
    (query_vector : list f32) (params : Rdb_vector_search_params)
    (field_info_list : list FieldInfo) (table_config : TableConfig)
    (to_extract : list nat) (si vi : option nat) (lon_bits lat_bits : Z) :
  lsm_table_info index = Some (field_info_list, table_config) →
  hybrid_field_indexes field_info_list = (to_extract, si, vi) →
  read_le (m_query_coordinate params) 9 8 = Ok lon_bits →
  read_le (m_query_coordinate params) 17 8 = Ok lat_bits →
  matched_rows (lsm_rows index query_vector (m_k params) (m_nprobe params))
  ≤ m_k params →
  ∀ rtn result key score value,
    lsm_knn_search_hybrid_with_value index query_vector params
    = Returned rtn result →
    (key, (score, value)) ∈ result →
    (key, value) ∈ lsm_rows index query_vector (m_k params) (m_nprobe params)
    ∧ value ≠ []
    ∧ ∃ distance distance_spatial,
        hybrid_row_distances table_config field_info_list to_extract si vi
          (f64_to_f32 (f64_of_bits lon_bits), f64_to_f32 (f64_of_bits lat_bits))
          query_vector value
        = Ok (distance, distance_spatial)
        ∧ score = f32_add distance (f32_mul (m_weight params) distance_spatial).
Proof.
  intros Hinfo Hidx Hlon Hlat Hroom rtn result key score value.
  unfold lsm_knn_search_hybrid_with_value, lsm_hybrid_scan.
  rewrite Hinfo, Hidx, Hlon. cbn [mbind outcome_bind]. rewrite Hlat.
  cbn [mbind outcome_bind]. unfold finish_scan.
  destruct (hybrid_scan_loop _ _ _ _ _ _ _ _ _ _ _ _) as [[h n]| |] eqn:Hloop;
    [| |done].
  - intros [= <- <-] Hin.
    apply elem_of_drain_result in Hin as ([s [key' value']] & Hin & Hrow).
    injection Hrow as -> -> ->.
    apply (hybrid_scan_loop_room _ _ _ _ _ _ _ _ _ _ []) in Hloop;
      [|simpl; lia|by intros ? ? ? ?%elem_of_nil].
    destruct (Hloop _ _ _ Hin) as (? & Hlen & ?).
    split; [done|]. split; [|done]. by intros ->.
  - intros [= <- <-] Hin. by apply elem_of_nil in Hin.
Qed.

End HybridScan.

Lemma hybrid_scores_are_combined_while_room_witness :
  let result :=
    [([x72; x32],
      ((34748461537803 # 31248810062500000000)%Q, example_row 0 BITS_1_0 [0; 0]));
     ([x72; x31], (1%Q, example_row 0 0 [1; 0]))] in
  lsm_knn_search_hybrid_with_value example_hybrid_index [0%Q; 0%Q]
    (example_params 2)
  = Returned HA_EXIT_SUCCESS result
  ∧ ([x72; x32], example_row 0 BITS_1_0 [0; 0])
    ∈ lsm_rows example_hybrid_index [0%Q; 0%Q] 2 1
  ∧ example_row 0 BITS_1_0 [0; 0] ≠ []
  ∧ ∃ distance distance_spatial,
      hybrid_row_distances example_config example_layout [0%nat; 8%nat]
        (Some 0%nat) (Some 1%nat)
        (f64_to_f32 (f64_of_bits 0), f64_to_f32 (f64_of_bits 0))
        [0%Q; 0%Q] (example_row 0 BITS_1_0 [0; 0])
      = Ok (distance, distance_spatial)
      ∧ (34748461537803 # 31248810062500000000)%Q
        = f32_add distance (f32_mul (m_weight (example_params 2)) distance_spatial).
Proof.
  intros result. split; [vm_compute; reflexivity|].
  apply (hybrid_scores_are_combined_while_room example_hybrid_index [0%Q; 0%Q]
           (example_params 2) example_layout example_config [0%nat; 8%nat]
           (Some 0%nat) (Some 1%nat) 0 0 eq_refl eq_refl eq_refl eq_refl)
    with (rtn := HA_EXIT_SUCCESS) (result := result).
  - vm_compute. discriminate.
  - vm_compute. reflexivity.
  - apply list_elem_of_In. simpl. auto.
Defined.

(** ** The index scan over the probed lists *)

Section ListIteratorFacts.
Context {KD : Rdb_key_def_tags}.

Lemma current_is_available_plain killed_at clock ctx cur :
  (∀ n, killed_at n = false) →
  m_error ctx = None → m_pk_index_cond ctx = None →
  ∃ clock' ctx',
    current_is_available killed_at clock ctx cur
    = Ok (bool_decide (records_of cur ≠ []), clock', ctx', cur)
    ∧ m_error ctx' = None ∧ m_pk_index_cond ctx' = None
    ∧ (records_of cur ≠ [] → ctx' = ctx).
Proof.
  intros Hlive Herr Hcond. destruct cur as [it|]; cbn [current_is_available].
  - rewrite Hlive. destruct (m_iterator it) as [|r rest] eqn:Hit.
    + rewrite is_available_exhausted by done. cbn [mbind outcome_bind].
      eexists _, _. cbn [records_of]. rewrite Hit.
      split; [done|]. cbn [on_iterator_end m_error m_pk_index_cond].
      by rewrite Herr.
    + rewrite (is_available_plain ctx it r rest) by done.
      cbn [mbind outcome_bind]. eexists _, _. cbn [records_of]. rewrite Hit.
      by rewrite bool_decide_eq_true_2.
  - exists clock, ctx. by rewrite bool_decide_eq_false_2 by (by intros []).
Qed.

Lemma list_iterator_loop_plain index_id code_size cf killed_at list_ids :
  (∀ n, killed_at n = false) →
  ∀ clock ctx cur,
    m_error ctx = None → m_pk_index_cond ctx = None →
    ∃ clock' ctx' cur' list_ids',
      list_iterator_loop index_id code_size cf None killed_at list_ids clock
        ctx cur
      = Ok (clock', ctx', cur', list_ids')
      ∧ m_error ctx' = None ∧ m_pk_index_cond ctx' = None
      ∧ records_of cur' ++ records_of_lists cf list_ids'
        = records_of cur ++ records_of_lists cf list_ids
      ∧ (records_of cur' = [] → records_of_lists cf list_ids' = []).
Proof.
  intros Hlive. induction list_ids as [|list_id rest IH];
    intros clock ctx cur Herr Hcond.
  - cbn [list_iterator_loop].
    destruct (current_is_available_plain killed_at clock ctx cur Hlive Herr Hcond)
      as (clock' & ctx' & -> & Herr' & Hcond' & _).
    cbn [mbind outcome_bind].
    exists clock', ctx', cur, []. by case_bool_decide.
  - cbn [list_iterator_loop].
    destruct (current_is_available_plain killed_at clock ctx cur Hlive Herr Hcond)
      as (clock' & ctx' & -> & Herr' & Hcond' & _).
    cbn [mbind outcome_bind]. case_bool_decide as Hrec.
    + exists clock', ctx', cur, (list_id :: rest). done.
    + rewrite bool_decide_eq_false_2 by (by intros [? ?]).
      assert (records_of cur = []) as Hnil
        by (destruct (records_of cur); [done|by destruct Hrec]).
      destruct (decide (list_id < 0)) as [Hneg|Hpos].
      * exists clock', ctx', cur, (list_id :: rest).
        cbn [records_of_lists]. by rewrite decide_True by done.
      * destruct (IH clock' ctx'
                    (Some (new_vector_iterator index_id code_size cf list_id))
                    Herr' Hcond')
          as (clock'' & ctx'' & cur' & ids' & -> & ? & ? & Heq & Hend).
        exists clock'', ctx'', cur', ids'. split; [done|].
        split; [done|]. split; [done|]. split; [|done].
        rewrite Heq, Hnil. cbn [records_of new_vector_iterator m_iterator
                                  records_of_lists app].
        by rewrite decide_False by done.
Qed.

(** X15: an index scan without a pushed-down predicate, on a query
    that is not killed, presents the records of the probed lists in
    order, list after list, up to the first negative list id.
    [is_available] answers whether a record is left and, if so, leaves
    the iterator standing on the first one, without losing a record;
    [next] then moves past exactly that record. *)
Theorem index_scan_walks_the_probed_lists (killed_at : nat → bool) (clock : nat)
    (li : Rdb_vector_list_iterator) :
  (∀ n, killed_at n = false) → plain_scan li →
  ∃ clock' li',
    list_iterator_is_available killed_at clock li
    = Ok (bool_decide (remaining_records li ≠ []), clock', li')
    ∧ plain_scan li'
    ∧ remaining_records li' = remaining_records li
    ∧ ∀ r rest,
        remaining_records li = r :: rest →
        (∃ it, li_current_iterator li' = Some it ∧ head (m_iterator it) = Some r)
        ∧ ∃ li'',
            list_iterator_next li' = Done li''
            ∧ plain_scan li''
            ∧ remaining_records li'' = rest.
Proof.
  intros Hlive (Hnoerr & Herr & Hcond). unfold list_iterator_is_available.
  rewrite Hnoerr. rewrite bool_decide_eq_false_2 by (by intros [? ?]).
  destruct (list_iterator_loop_plain (li_index_id li) (li_code_size li)
              (li_cf li) killed_at (li_list_ids li) Hlive clock (li_context li)
              (li_current_iterator li) Herr Hcond)
    as (clock1 & ctx1 & cur1 & ids1 & -> & Herr1 & Hcond1 & Heq & Hend).
  cbn [mbind outcome_bind].
  destruct (current_is_available_plain killed_at clock1 ctx1 cur1 Hlive Herr1
              Hcond1) as (clock2 & ctx2 & -> & Herr2 & Hcond2 & _).
  cbn [mbind outcome_bind].
  assert (Hsame : records_of cur1 ≠ [] ↔ remaining_records li ≠ []).
  { unfold remaining_records. fold (records_of (li_current_iterator li)).
    rewrite <- Heq. split.
    - intros Hne Happ. by apply app_eq_nil in Happ as [? _].
    - intros Hne Hnil. apply Hne. by rewrite Hnil, Hend. }
  eexists clock2, _. split.
  { do 3 f_equal. by apply bool_decide_ext. }
  split; [done|].
  split; [unfold remaining_records; cbn [li_current_iterator li_cf li_list_ids];
          exact Heq|].
  intros r rest Hrem.
  assert (Hcur : records_of cur1 ≠ []) by (apply Hsame; by rewrite Hrem).
  destruct cur1 as [it|]; [|done]. cbn [records_of] in *.
  destruct (m_iterator it) as [|r' rest'] eqn:Hit; [done|].
  unfold remaining_records in Hrem.
  fold (records_of (li_current_iterator li)) in Hrem.
  rewrite <- Heq in Hrem. cbn [app] in Hrem. injection Hrem as -> <-.
  split.
  - exists it. cbn [li_current_iterator]. by rewrite Hit.
  - unfold list_iterator_next. cbn [li_current_iterator]. eexists. split; [done|].
    split; [done|].
    unfold remaining_records. cbn [li_current_iterator li_cf li_list_ids].
    unfold iterator_next. cbn [m_iterator]. by rewrite Hit.
Qed.

Lemma list_iterator_loop_negative index_id code_size cf error killed_at
    (pre : list Z) (negative : Z) (post : list Z) :
  negative < 0 →
  ∀ clock ctx cur,
    list_iterator_loop index_id code_size cf error killed_at
      (pre ++ negative :: post) clock ctx cur
    = list_iterator_loop index_id code_size cf error killed_at pre clock ctx cur
      ≫= fun '(clock, ctx, cur, list_ids) =>
           Ok (clock, ctx, cur, list_ids ++ negative :: post).
Proof.
  intros Hneg. induction pre as [|list_id pre IH]; intros clock ctx cur.
  - cbn [app list_iterator_loop].
    destruct (current_is_available killed_at clock ctx cur)
      as [[[[available clock'] ctx'] cur']| |]; cbn [mbind outcome_bind];
      [|done..].
    destruct available; [done|]. destruct (bool_decide _); [done|].
    by rewrite decide_True by done.
  - cbn [app list_iterator_loop].
    destruct (current_is_available killed_at clock ctx cur)
      as [[[[available clock'] ctx'] cur']| |]; cbn [mbind outcome_bind];
      [|done..].
    destruct available; [done|]. destruct (bool_decide _); [done|].
    destruct (decide (list_id < 0)); [done|]. apply IH.
Qed.

(** X16: a negative list id ends the index scan.  Whatever follows the
    first negative id among the list ids is never visited:
    [is_available] answers, and leaves the iterator, as it does when the
    list ids end before the negative id, the ids from the negative one on
    staying where they are. *)
Theorem negative_list_id_ends_the_scan (killed_at : nat → bool) (clock : nat)
    (li : Rdb_vector_list_iterator) (pre : list Z) (negative : Z)
    (post : list Z) :
  negative < 0 →
  list_iterator_is_available killed_at clock
    (with_list_ids li (pre ++ negative :: post))
  = list_iterator_is_available killed_at clock (with_list_ids li pre)
    ≫= fun '(available, clock, li') =>
         Ok (available, clock,
             with_list_ids li' (li_list_ids li' ++ negative :: post)).
Proof.
  intros Hneg. unfold list_iterator_is_available.
  cbn [with_list_ids li_error li_index_id li_code_size li_cf li_context
       li_list_ids li_current_iterator].
  destruct (bool_decide (is_Some (li_error li))).
  { cbn [mbind outcome_bind with_list_ids li_list_ids li_error li_index_id
         li_code_size li_cf li_context li_current_iterator]. done. }
  rewrite list_iterator_loop_negative by done.
  destruct (list_iterator_loop _ _ _ _ _ pre _ _ _)
    as [[[[clock1 ctx1] cur1] ids1]| |]; cbn [mbind outcome_bind]; [|done..].
  destruct (current_is_available killed_at clock1 ctx1 cur1)
    as [[[[available clock2] ctx2] cur2]| |]; cbn [mbind outcome_bind];
    [|done..].
  done.
Qed.

(** X17: an error of [get_key] is final.  [get_key] passes on the code of
    [get_key_and_value], which can only be CorruptData, and keeps it in
    the iterator; from then on [is_available] answers false without
    looking at any record, whatever the kill flag. *)
Theorem list_iterator_error_is_final (li : Rdb_vector_list_iterator)
    (e : ha_error) (key : option (list byte)) (li' : Rdb_vector_list_iterator) :
  list_iterator_get_key li = Done (HA_ERROR e, key, li') →
  e = HA_ERR_ROCKSDB_CORRUPT_DATA
  ∧ key = None
  ∧ li_error li' = Some e
  ∧ ∀ killed_at clock,
      list_iterator_is_available killed_at clock li' = Ok (false, clock, li').
Proof.
  unfold list_iterator_get_key.
  destruct (li_current_iterator li) as [it|]; [|done].
  destruct (get_key_and_value it false) as [[k v]|e'|] eqn:Hget; [done| |done].
  intros [= <- <- <-]. split.
  { revert Hget. unfold get_key_and_value.
    destruct (m_iterator it) as [|[key_slice value_slice] rest]; [done|].
    destruct (check_item_key_cases it key_slice) as [-> | ->];
      cbn [mbind outcome_bind negb]; [done|congruence]. }
  split; [done|]. split; [done|]. intros killed_at clock.
  unfold list_iterator_is_available. cbn [li_error].
  by rewrite bool_decide_eq_true_2.
Qed.

End ListIteratorFacts.

Lemma index_scan_walks_the_probed_lists_witness :
  let r1 := (example_key [x61], replicate 8 x01) in
  let r2 := (example_key [x62], replicate 8 x02) in
  let li := ivf_index_scan (example_ivf_index [r1; r2]) example_env
              [0%Q; 0%Q] 1 in
  remaining_records li = [r1; r2]
  ∧ ∃ clock' li',
      list_iterator_is_available (env_killed_at example_env) 0 li
      = Ok (bool_decide (remaining_records li ≠ []), clock', li')
      ∧ plain_scan li'
      ∧ remaining_records li' = remaining_records li
      ∧ ∀ r rest,
          remaining_records li = r :: rest →
          (∃ it, li_current_iterator li' = Some it
                 ∧ head (m_iterator it) = Some r)
          ∧ ∃ li'',
              list_iterator_next li' = Done li''
              ∧ plain_scan li''
              ∧ remaining_records li'' = rest.
Proof.
  intros r1 r2 li. split; [reflexivity|].
  apply (index_scan_walks_the_probed_lists (KD := myrocks_tags)
           (env_killed_at example_env) 0 li).
  - intros n. reflexivity.
  - repeat split.
Defined.

Lemma negative_list_id_ends_the_scan_witness :
  let r1 := (example_key [x61], replicate 8 x01) in
  let li := ivf_index_scan (example_ivf_index [r1]) example_env [0%Q; 0%Q] 1 in
  list_iterator_is_available (KD := myrocks_tags) (env_killed_at example_env) 0
    (with_list_ids li ([0] ++ -1 :: [0; 0]))
  = list_iterator_is_available (env_killed_at example_env) 0
      (with_list_ids li [0])
    ≫= fun '(available, clock, li') =>
         Ok (available, clock,
             with_list_ids li' (li_list_ids li' ++ -1 :: [0; 0])).
Proof.
  intros r1 li.
  apply (negative_list_id_ends_the_scan (KD := myrocks_tags)
           (env_killed_at example_env) 0 li [0] (-1) [0; 0]).
  lia.
Defined.

Lemma list_iterator_error_is_final_witness :
  let bad := (write_inverted_list_key 7 0, replicate 8 x01) in
  let li :=
    with_current_iterator
      (ivf_index_scan (example_ivf_index [bad]) example_env [0%Q; 0%Q] 1)
      (example_iterator [bad]) in
  list_iterator_get_key (KD := myrocks_tags) li
  = Done (HA_ERROR HA_ERR_ROCKSDB_CORRUPT_DATA, None,
          with_error li HA_ERR_ROCKSDB_CORRUPT_DATA)
  ∧ ∀ killed_at clock,
      list_iterator_is_available killed_at clock
        (with_error li HA_ERR_ROCKSDB_CORRUPT_DATA)
      = Ok (false, clock, with_error li HA_ERR_ROCKSDB_CORRUPT_DATA).
Proof.
  intros bad li. split; [reflexivity|].
  apply (list_iterator_error_is_final (KD := myrocks_tags) li
           HA_ERR_ROCKSDB_CORRUPT_DATA None
           (with_error li HA_ERR_ROCKSDB_CORRUPT_DATA)).
  reflexivity.
Defined.

(** ** The result cursor *)

Section Cursor.
Context {FA : FloatArith} {MEM : Memory} {KD : Rdb_key_def_tags}.

Lemma has_more_results_stored killed_at clock s :
  stored_results s →
  (session_pos s ≤ length (presented_rows s))%nat →
  has_more_results killed_at clock s
  = Ok (bool_decide (session_pos s < length (presented_rows s))%nat, clock, s).
Proof.
  unfold stored_results, has_more_results, session_pos, presented_rows.
  destruct (m_search_type s).
  - intros _. case_bool_decide; rewrite length_fmap; intros Hle;
      do 3 f_equal; apply bool_decide_ext; lia.
  - intros [Hwv|Hnone]; rewrite length_fmap; intros Hle.
    + rewrite bool_decide_eq_true_2 by done.
      do 3 f_equal; apply bool_decide_ext; lia.
    + case_bool_decide as Hwv.
      * do 3 f_equal; apply bool_decide_ext; lia.
      * rewrite Hnone. rewrite Hwv in *.
        cbn [length] in *. by rewrite bool_decide_eq_false_2 by lia.
  - intros [Hwv|Hnone]; rewrite length_fmap; intros Hle.
    + rewrite bool_decide_eq_true_2 by done.
      do 3 f_equal; apply bool_decide_ext; lia.
    + case_bool_decide as Hwv.
      * do 3 f_equal; apply bool_decide_ext; lia.
      * rewrite Hnone. rewrite Hwv in *.
        cbn [length] in *. by rewrite bool_decide_eq_false_2 by lia.
Qed.

Lemma next_result_stored killed_at clock s :
  stored_results s →
  (session_pos s ≤ length (presented_rows s))%nat →
  ∃ s',
    next_result killed_at clock s = Done (clock, s')
    ∧ stored_results s'
    ∧ presented_rows s' = presented_rows s
    ∧ session_pos s'
      = (if bool_decide (session_pos s < length (presented_rows s))%nat
         then S (session_pos s) else session_pos s).
Proof.
  intros Hst Hle. unfold next_result.
  rewrite has_more_results_stored by done.
  case_bool_decide as Hmore; [|by exists s].
  revert Hst Hle Hmore.
  unfold stored_results, session_pos, presented_rows.
  destruct (m_search_type s) eqn:Hty.
  - case_bool_decide as Hres; intros Hst Hle Hmore; eexists; (split; [done|]);
      unfold stored_results, session_pos, presented_rows;
      cbn [with_handler session_handler m_search_type with_results
           m_search_result m_search_result_with_value m_vector_db_result_iter
           m_vector_db_result_with_value_iter m_index_scan_result_iter];
      rewrite Hty.
    + by rewrite bool_decide_eq_true_2 by done.
    + by rewrite bool_decide_eq_false_2 by (intros H; by apply H).
  - intros Hst Hle Hmore. rewrite length_fmap in Hmore.
    rewrite bool_decide_eq_true_2
      by (intros Hnil; rewrite Hnil in Hmore; simpl in Hmore; lia).
    eexists; (split; [done|]);
      unfold stored_results, session_pos, presented_rows;
      cbn [with_handler session_handler m_search_type with_results
           m_search_result m_search_result_with_value m_vector_db_result_iter
           m_vector_db_result_with_value_iter m_index_scan_result_iter];
      by rewrite Hty.
  - intros Hst Hle Hmore. rewrite length_fmap in Hmore.
    rewrite bool_decide_eq_true_2
      by (intros Hnil; rewrite Hnil in Hmore; simpl in Hmore; lia).
    eexists; (split; [done|]);
      unfold stored_results, session_pos, presented_rows;
      cbn [with_handler session_handler m_search_type with_results
           m_search_result m_search_result_with_value m_vector_db_result_iter
           m_vector_db_result_with_value_iter m_index_scan_result_iter];
      by rewrite Hty.
Qed.

Lemma next_results_stored killed_at clock n :
  ∀ s,
    stored_results s →
    (session_pos s ≤ length (presented_rows s))%nat →
    ∃ s',
      next_results killed_at n clock s = Done (clock, s')
      ∧ stored_results s'
      ∧ presented_rows s' = presented_rows s
      ∧ session_pos s' = ((session_pos s + n) `min` length (presented_rows s))%nat.
Proof.
  induction n as [|n IH]; intros s Hst Hle.
  - exists s. cbn [next_results]. repeat split; try done. lia.
  - cbn [next_results].
    destruct (next_result_stored killed_at clock s Hst Hle)
      as (s1 & -> & Hst1 & Hrows1 & Hpos1).
    destruct (IH s1 Hst1) as (s' & -> & Hst' & Hrows' & Hpos').
    { rewrite Hrows1, Hpos1. case_bool_decide; lia. }
    exists s'. split; [done|]. split; [done|].
    split; [by rewrite Hrows', Hrows1|].
    rewrite Hpos', Hrows1, Hpos1. case_bool_decide; lia.
Qed.

Lemma current_row_stored s key value :
  stored_results s →
  presented_rows s !! session_pos s = Some (key, value) →
  current_key s = Done (HA_EXIT_SUCCESS, Some key, s)
  ∧ current_value s = Done (value_answer value).
Proof.
  unfold stored_results, presented_rows, session_pos, current_key, current_value,
    cursor_at.
  destruct (m_search_type s).
  - case_bool_decide as Hres.
    + intros Hwv. rewrite (Hwv Hres). rewrite list_lookup_fmap.
      destruct (m_search_result (session_handler s) !! _) as [row|];
        [|done]. intros [= <- <-].
      by rewrite bool_decide_eq_false_2 by (by intros []).
    + intros _. rewrite list_lookup_fmap.
      destruct (m_search_result_with_value (session_handler s) !! _)
        as [row|] eqn:Hrow; [|done]. intros [= <- <-].
      rewrite bool_decide_eq_true_2; [done|].
      intros Hnil. by rewrite Hnil in Hrow.
  - intros _. rewrite list_lookup_fmap.
    destruct (m_search_result_with_value (session_handler s) !! _)
      as [row|] eqn:Hrow; [|done]. intros [= <- <-].
    rewrite bool_decide_eq_true_2; [done|].
    intros Hnil. by rewrite Hnil in Hrow.
  - intros _. rewrite list_lookup_fmap.
    destruct (m_search_result_with_value (session_handler s) !! _)
      as [row|] eqn:Hrow; [|done]. intros [= <- <-].
    rewrite bool_decide_eq_true_2; [done|].
    intros Hnil. by rewrite Hnil in Hrow.
Qed.

(** X18: the cursor presents the stored result row by row.  In a
    session that holds a stored result with its cursor at the first row,
    after [n] calls of [next_result] the call [has_more_results] answers
    whether the result has more than [n] rows, without changing the
    session, and then [current_key] gives the key of row [n] and
    [current_value] its value (or [HA_ERR_UNSUPPORTED] for a row of
    [m_search_result], which has none); calls of [next_result] past the
    last row change nothing. *)
Theorem cursor_presents_the_rows (killed_at : nat → bool) (clock : nat)
    (s : vector_session) (n : nat) :
  stored_results s → session_pos s = 0%nat →
  ∃ s',
    next_results killed_at n clock s = Done (clock, s')
    ∧ presented_rows s' = presented_rows s
    ∧ session_pos s' = (n `min` length (presented_rows s))%nat
    ∧ has_more_results killed_at clock s'
      = Ok (bool_decide (n < length (presented_rows s))%nat, clock, s')
    ∧ ∀ key value,
        presented_rows s !! n = Some (key, value) →
        current_key s' = Done (HA_EXIT_SUCCESS, Some key, s')
        ∧ current_value s' = Done (value_answer value).
Proof.
  intros Hst Hpos.
  destruct (next_results_stored killed_at clock n s Hst)
    as (s' & Hwalk & Hst' & Hrows & Hpos'); [lia|].
  rewrite Hpos in Hpos'. cbn [Nat.add] in Hpos'.
  exists s'. split; [done|]. split; [done|]. split; [done|]. split.
  - rewrite has_more_results_stored by (done || rewrite Hrows; lia).
    rewrite Hrows, Hpos'. do 3 f_equal. apply bool_decide_ext. lia.
  - intros key value Hrow. apply current_row_stored; [done|].
    rewrite Hrows, Hpos'. apply lookup_lt_Some in Hrow as Hlt.
    by rewrite Nat.min_l by lia.
Qed.

Lemma check_dimension_cases (buffer : list f32) (index : Rdb_vector_index) :
  match check_dimension buffer index with
  | Ok padded =>
      (length buffer ≤ dimension index)%nat
      ∧ padded = resize_buffer buffer (dimension index)
  | Err e => e = HA_EXIT_FAILURE ∧ (dimension index < length buffer)%nat
  | Fault _ => False
  end.
Proof.
  unfold check_dimension. case_bool_decide; [split; [lia|done]|].
  case_bool_decide; [done|]. split; [lia|].
  unfold resize_buffer.
  replace (dimension index - length buffer)%nat with 0%nat by lia.
  by rewrite app_nil_r.
Qed.

(** X19: a successful [search] on the LSM index leaves the rows of the
    engine for the cursor.  Whatever the search type, when [search]
    returns [HA_EXIT_SUCCESS] from a session without a scan iterator,
    the query vector was not empty and not longer than the dimension,
    the engine was called for the search type on the zero-padded query
    vector and succeeded, [m_search_result_with_value] holds its rows,
    the cursor stands on the first of them, and these are the rows the
    cursor presents, each with its key and its value. *)
Theorem lsm_search_leaves_the_rows (s : vector_session) (env : query_env)
    (index : Rdb_vector_index_lsm) (s' : vector_session) :
  m_index_scan_result_iter s = None →
  handler_search s env (vector_index_scans_of_lsm index)
  = Returned HA_EXIT_SUCCESS s' →
  (0 < length (m_buffer (session_handler s)) ≤ lsm_dimension index)%nat
  ∧ m_buffer (session_handler s')
    = resize_buffer (m_buffer (session_handler s)) (lsm_dimension index)
  ∧ ∃ result,
      lsm_engine_call index s = Returned HA_EXIT_SUCCESS result
      ∧ m_search_result_with_value (session_handler s') = result
      ∧ presented_rows s'
        = (fun row : result_row => (row.1, Some row.2.2)) <$> result
      ∧ stored_results s'
      ∧ session_pos s' = 0%nat.
Proof.
  intros Hnone. unfold handler_search, lsm_engine_call.
  cbn [vector_index_scans_of_lsm knn_entries].
  destruct (m_search_type s) eqn:Hty.
  - unfold handler_knn_search.
    cbn [with_results m_buffer m_limit h_metric h_nprobe].
    destruct (bool_decide (length (m_buffer (session_handler s)) = 0%nat))
      eqn:Hempty; [done|]. apply bool_decide_eq_false in Hempty.
    destruct (bool_decide (m_limit (session_handler s) = 0)); [done|].
    cbn [orb].
    pose proof (check_dimension_cases (m_buffer (session_handler s))
                  (vector_index_of_lsm index)) as Hdim.
    destruct (check_dimension _ _) as [buffer| |]; [|done..].
    destruct Hdim as [Hle ->]. cbn [vector_index_of_lsm dimension] in *.
    cbn [vector_index_of_lsm knn_search_with_value knn_search].
    destruct (lsm_knn_search_with_value _ _ _) as [[|e] result|];
      cbn [in_session]; [| |done].
    + intros [= <-]. split; [lia|]. split; [done|]. exists result.
      unfold presented_rows, stored_results, session_pos.
      cbn [in_session with_handler session_handler m_search_type with_results
           m_search_result m_search_result_with_value m_vector_db_result_iter
           m_vector_db_result_with_value_iter]. rewrite Hty.
      by rewrite !bool_decide_eq_false_2 by (by intros []).
    + by destruct e.
  - unfold handler_index_scan.
    destruct (bool_decide (length (m_buffer (session_handler s)) = 0%nat))
      eqn:Hempty; [done|]. apply bool_decide_eq_false in Hempty.
    pose proof (check_dimension_cases (m_buffer (session_handler s))
                  (knn_entries (vector_index_scans_of_lsm index))) as Hdim.
    destruct (check_dimension _ _) as [buffer| |]; [|done..].
    destruct Hdim as [Hle ->].
    cbn [vector_index_scans_of_lsm knn_entries vector_index_of_lsm dimension
         index_scan index_scan_with_value unsupported with_results h_nprobe
         m_search_result_with_value] in *.
    destruct (lsm_index_scan_with_value _ _ _) as [[|e] result|]; [|done..].
    intros [= <-]. split; [lia|]. split; [done|]. exists result.
    unfold presented_rows, stored_results, session_pos.
    cbn [with_scan_iter with_handler session_handler m_search_type with_results
         m_search_result m_search_result_with_value m_vector_db_result_iter
         m_vector_db_result_with_value_iter m_index_scan_result_iter].
    rewrite Hty. repeat split; try done. by right.
  - unfold handler_knn_search_hybrid.
    cbn [with_results m_buffer m_limit h_metric h_nprobe h_weight
         h_query_coordinate].
    destruct (bool_decide (length (m_buffer (session_handler s)) = 0%nat))
      eqn:Hempty; [done|]. apply bool_decide_eq_false in Hempty.
    destruct (bool_decide (m_limit (session_handler s) = 0)); [done|].
    cbn [orb].
    pose proof (check_dimension_cases (m_buffer (session_handler s))
                  (vector_index_of_lsm index)) as Hdim.
    destruct (check_dimension _ _) as [buffer| |]; [|done..].
    destruct Hdim as [Hle ->]. cbn [vector_index_of_lsm dimension] in *.
    cbn [vector_index_of_lsm knn_search_hybrid_with_value].
    destruct (lsm_knn_search_hybrid_with_value _ _ _) as [[|e] result|];
      cbn [in_session]; [|done..].
    intros [= <-]. split; [lia|]. split; [done|]. exists result.
    unfold presented_rows, stored_results, session_pos.
    cbn [in_session with_handler session_handler m_search_type with_results
         m_search_result m_search_result_with_value m_vector_db_result_iter
         m_vector_db_result_with_value_iter m_index_scan_result_iter].
    rewrite Hty. repeat split; try done. by right.
Qed.

End Cursor.

Lemma cursor_presents_the_rows_witness :
  ∃ s',
    next_results (fun _ => false) 1 0 example_stored_session = Done (0%nat, s')
    ∧ presented_rows s' = presented_rows example_stored_session
    ∧ session_pos s' = (1 `min` length (presented_rows example_stored_session))%nat
    ∧ has_more_results (fun _ => false) 0 s'
      = Ok (bool_decide (1 < length (presented_rows example_stored_session))%nat,
            0%nat, s')
    ∧ ∀ key value,
        presented_rows example_stored_session !! 1%nat = Some (key, value) →
        current_key s' = Done (HA_EXIT_SUCCESS, Some key, s')
        ∧ current_value s' = Done (value_answer value).
Proof.
  apply (cursor_presents_the_rows (KD := myrocks_tags) (fun _ => false) 0
           example_stored_session 1).
  - intros H. by destruct H.
  - reflexivity.
Defined.

Lemma lsm_search_leaves_the_rows_witness :
  let s := example_session FB_VECTOR_SEARCH_KNN_FIRST [0%Q] 2 in
  ∃ s',
    handler_search s example_env
      (vector_index_scans_of_lsm example_lsm_index)
    = Returned HA_EXIT_SUCCESS s'
    ∧ (0 < length (m_buffer (session_handler s))
       ≤ lsm_dimension example_lsm_index)%nat
    ∧ m_buffer (session_handler s')
      = resize_buffer (m_buffer (session_handler s))
          (lsm_dimension example_lsm_index)
    ∧ ∃ result,
        lsm_engine_call example_lsm_index s = Returned HA_EXIT_SUCCESS result
        ∧ m_search_result_with_value (session_handler s') = result
        ∧ presented_rows s'
          = (fun row : result_row => (row.1, Some row.2.2)) <$> result
        ∧ stored_results s'
        ∧ session_pos s' = 0%nat.
Proof.
  intros s. eexists. split; [reflexivity|].
  apply (lsm_search_leaves_the_rows s example_env example_lsm_index);
    reflexivity.
Defined.

(** ** The statistics of [dump_info] *)

Lemma scanned_sizes_cons v stats :
  scanned_sizes (v :: stats)
  = if decide (0 ≤ v) then v :: scanned_sizes stats else scanned_sizes stats.
Proof. unfold scanned_sizes. rewrite filter_cons. by destruct (decide _). Qed.

Lemma scanned_sizes_nonneg stats v : v ∈ scanned_sizes stats → 0 ≤ v.
Proof. unfold scanned_sizes. rewrite list_elem_of_filter. tauto. Qed.

Lemma sum_sizes_nonneg sizes : (∀ v, v ∈ sizes → 0 ≤ v) → 0 ≤ sum_sizes sizes.
Proof.
  induction sizes as [|v sizes IH]; intros Hpos; simpl; [lia|].
  assert (0 ≤ v) by (apply Hpos; left).
  assert (0 ≤ sum_sizes sizes) by (apply IH; intros; apply Hpos; by right).
  unfold sum_sizes in *. lia.
Qed.

Lemma sum_sizes_bounds sizes lo hi :
  (∀ v, v ∈ sizes → lo ≤ v ≤ hi) →
  lo * Z.of_nat (length sizes) ≤ sum_sizes sizes ≤ hi * Z.of_nat (length sizes).
Proof.
  induction sizes as [|v sizes IH]; intros Hb; [simpl; lia|].
  assert (lo ≤ v ≤ hi) by (apply Hb; left).
  assert (lo * Z.of_nat (length sizes) ≤ sum_sizes sizes
          ≤ hi * Z.of_nat (length sizes)) by (apply IH; intros; apply Hb; by right).
  cbn [length sum_sizes foldr]. unfold sum_sizes in *. nia.
Qed.

(** The loop of [dump_info] when no 32-bit counter wraps. *)
Lemma dump_info_loop_from stats : ∀ acc,
  0 ≤ ntotal acc →
  ntotal acc + sum_sizes (scanned_sizes stats) < 2 ^ 32 →
  let r := fold_left dump_info_step stats acc in
  ntotal r = ntotal acc + sum_sizes (scanned_sizes stats)
  ∧ list_size_stats r = list_size_stats acc ++ scanned_sizes stats
  ∧ match min_list_size r with
    | Some m =>
        (m ∈ scanned_sizes stats ∨ min_list_size acc = Some m)
        ∧ (∀ v, v ∈ scanned_sizes stats → m ≤ v)
        ∧ (∀ m0, min_list_size acc = Some m0 → m ≤ m0)
    | None => min_list_size acc = None ∧ scanned_sizes stats = []
    end
  ∧ match max_list_size r with
    | Some m =>
        (m ∈ scanned_sizes stats ∨ max_list_size acc = Some m)
        ∧ (∀ v, v ∈ scanned_sizes stats → v ≤ m)
        ∧ (∀ m0, max_list_size acc = Some m0 → m0 ≤ m)
    | None => max_list_size acc = None ∧ scanned_sizes stats = []
    end.
Proof.
  induction stats as [|v stats IH]; intros acc Hpos Hsum; cbn zeta.
  - cbn [fold_left]. unfold scanned_sizes, sum_sizes. simpl.
    split; [lia|]. split; [by rewrite app_nil_r|].
    split.
    + destruct (min_list_size acc) as [m|]; [|done].
      split; [by right|]. split; [by intros ? ?%elem_of_nil|].
      intros ? [= ->]. lia.
    + destruct (max_list_size acc) as [m|]; [|done].
      split; [by right|]. split; [by intros ? ?%elem_of_nil|].
      intros ? [= ->]. lia.
  - cbn [fold_left]. rewrite scanned_sizes_cons in *.
    unfold dump_info_step at 2 4 6 8.
    destruct (decide (0 ≤ v)) as [Hv|Hv]; [|by apply IH].
    assert (0 ≤ sum_sizes (scanned_sizes stats))
      by (apply sum_sizes_nonneg, scanned_sizes_nonneg).
    change (sum_sizes (v :: scanned_sizes stats))
      with (v + sum_sizes (scanned_sizes stats)) in *.
    assert (Hwv : wrap_unsigned 32 v = v)
      by (unfold wrap_unsigned; apply Z.mod_small; lia).
    assert (Hwn : wrap_unsigned 32 (ntotal acc + v) = ntotal acc + v)
      by (unfold wrap_unsigned; apply Z.mod_small; lia).
    rewrite Hwv, Hwn.
    match goal with |- context [fold_left dump_info_step stats ?a] =>
      specialize (IH a) end.
    cbn [ntotal list_size_stats min_list_size max_list_size] in IH.
    destruct IH as (Hn & Hs & Hmin & Hmax); [lia|lia|].
    split; [lia|]. split; [by rewrite Hs, <- app_assoc|].
    split.
    + destruct (min_list_size (fold_left _ _ _)) as [m|].
      2:{ destruct Hmin as [Hmin _]. by destruct (min_list_size acc);
            [destruct (decide _)|]. }
      destruct Hmin as (Hin & Hle & Hm0).
      destruct (min_list_size acc) as [m0|] eqn:Hacc.
      * destruct (decide (v < m0)).
        -- specialize (Hm0 _ eq_refl). split.
           ++ destruct Hin as [Hin|[= <-]]; left; [by right|left].
           ++ split.
              ** intros w [->|Hw]%elem_of_cons; [lia|by apply Hle].
              ** intros ? [= <-]. lia.
        -- specialize (Hm0 _ eq_refl). split.
           ++ destruct Hin as [Hin|[= <-]]; [left; by right|by right].
           ++ split.
              ** intros w [->|Hw]%elem_of_cons; [lia|by apply Hle].
              ** intros ? [= <-]. lia.
      * specialize (Hm0 _ eq_refl). split.
        -- destruct Hin as [Hin|[= <-]]; left; [by right|left].
        -- split; [|done].
           intros w [->|Hw]%elem_of_cons; [lia|by apply Hle].
    + destruct (max_list_size (fold_left _ _ _)) as [m|].
      2:{ destruct Hmax as [Hmax _]. by destruct (max_list_size acc);
            [destruct (decide _)|]. }
      destruct Hmax as (Hin & Hle & Hm0).
      destruct (max_list_size acc) as [m0|] eqn:Hacc.
      * destruct (decide (m0 < v)).
        -- specialize (Hm0 _ eq_refl). split.
           ++ destruct Hin as [Hin|[= <-]]; left; [by right|left].
           ++ split.
              ** intros w [->|Hw]%elem_of_cons; [lia|by apply Hle].
              ** intros ? [= <-]. lia.
        -- specialize (Hm0 _ eq_refl). split.
           ++ destruct Hin as [Hin|[= <-]]; [left; by right|by right].
           ++ split.
              ** intros w [->|Hw]%elem_of_cons; [lia|by apply Hle].
              ** intros ? [= <-]. lia.
      * specialize (Hm0 _ eq_refl). split.
        -- destruct Hin as [Hin|[= <-]]; left; [by right|left].
        -- split; [|done].
           intros w [->|Hw]%elem_of_cons; [lia|by apply Hle].
Qed.

Lemma filter_none {A : Type} (P : A → Prop) `{∀ x, Decision (P x)} (l : list A) :
  (∀ x, x ∈ l → ¬ P x) → filter P l = [].
Proof.
  induction l as [|x l IH]; intros Hno; [done|].
  rewrite filter_cons, decide_False by (apply Hno; left).
  apply IH. intros; apply Hno; by right.
Qed.

(** In an ascending list at most [k] entries are below the entry at
    position [k], and only entries after it are above it. *)
Lemma position_in_sorted (l : list Z) (k : nat) (m : Z) :
  StronglySorted Z.le l → l !! k = Some m →
  (length (filter (fun v => (v < m)%Z) l) ≤ k)%nat
  ∧ (length (filter (fun v => (m < v)%Z) l) ≤ length l - S k)%nat.
Proof.
  intros Hsorted Hk.
  pose proof (take_drop_middle l k m Hk) as Hsplit.
  pose proof (lookup_lt_Some _ _ _ Hk) as Hlt.
  assert (Hparts : StronglySorted Z.le (take k l ++ m :: drop (S k) l))
    by (by rewrite Hsplit).
  apply StronglySorted_app in Hparts as (Hcross & _ & Hright).
  apply StronglySorted_inv in Hright as [_ Hafter].
  rewrite Forall_forall in Hafter.
  assert (Hlow : filter (fun v => v < m) (m :: drop (S k) l) = []).
  { apply filter_none. intros x [->|Hx]%elem_of_cons; [lia|].
    specialize (Hafter x Hx). lia. }
  assert (Hhigh : filter (fun v => m < v) (take k l ++ [m]) = []).
  { apply filter_none. intros x [Hx| ->%list_elem_of_singleton]%elem_of_app; [|lia].
    assert (x ≤ m) by (apply Hcross; [done|left]). lia. }
  split.
  - rewrite <- Hsplit, filter_app, Hlow, app_nil_r.
    pose proof (length_filter (fun v => v < m) (take k l)) as Hle.
    rewrite length_take in Hle. lia.
  - assert (Hfilter : filter (fun v => m < v) l
                      = filter (fun v => m < v) (drop (S k) l)).
    { rewrite <- Hsplit at 1.
      by rewrite (cons_middle m), app_assoc, filter_app, Hhigh. }
    rewrite Hfilter.
    pose proof (length_filter (fun v => m < v) (drop (S k) l)) as Hle.
    rewrite length_drop in Hle. lia.
Qed.

(** X20: [dump_info] over the lists that have been scanned (those with a
    size recorded), when their sizes sum up below [2^32]: [m_ntotal] is
    the sum of the sizes; with no scanned list the four list statistics
    are [0]; otherwise the minimum and the maximum are sizes of scanned
    lists that bound all the others, the average is the sum divided by
    the number of scanned lists, rounded down, and lies between them,
    and the median is the size of a scanned list with at most half of
    the scanned lists smaller and fewer than half of them greater. *)
Theorem dump_info_list_statistics {FA : FloatArith}
    (index : Rdb_vector_index_ivf) (counters : Rdb_vector_index_ivf_counters) :
  let sizes := scanned_sizes (ivf_list_size_stats counters) in
  let info := ivf_dump_info index counters in
  let count := length sizes in
  sum_sizes sizes < 2 ^ 32 →
  Rdb_vector_index_info.m_ntotal info = sum_sizes sizes
  ∧ (sizes = [] →
     Rdb_vector_index_info.m_min_list_size info = 0
     ∧ Rdb_vector_index_info.m_max_list_size info = 0
     ∧ Rdb_vector_index_info.m_avg_list_size info = 0
     ∧ Rdb_vector_index_info.m_median_list_size info = 0)
  ∧ (sizes ≠ [] →
     Rdb_vector_index_info.m_min_list_size info ∈ sizes
     ∧ Rdb_vector_index_info.m_max_list_size info ∈ sizes
     ∧ (∀ v, v ∈ sizes →
          Rdb_vector_index_info.m_min_list_size info ≤ v
          ≤ Rdb_vector_index_info.m_max_list_size info)
     ∧ Rdb_vector_index_info.m_avg_list_size info
       = sum_sizes sizes / Z.of_nat count
     ∧ Rdb_vector_index_info.m_min_list_size info
       ≤ Rdb_vector_index_info.m_avg_list_size info
       ≤ Rdb_vector_index_info.m_max_list_size info
     ∧ Rdb_vector_index_info.m_median_list_size info ∈ sizes
     ∧ (length (filter (fun v =>
                  (v < Rdb_vector_index_info.m_median_list_size info)%Z) sizes)
        ≤ count / 2)%nat
     ∧ (length (filter (fun v =>
                  (Rdb_vector_index_info.m_median_list_size info < v)%Z) sizes)
        < count - count / 2)%nat).
Proof.
  intros sizes info count Hsum.
  destruct (dump_info_loop_from (ivf_list_size_stats counters)
              {| ntotal := 0; min_list_size := None; max_list_size := None;
                 list_size_stats := [] |})
    as (Hn & Hs & Hmin & Hmax); [done|simpl; fold sizes; lia|].
  fold (dump_info_loop (ivf_list_size_stats counters)) in Hn, Hs, Hmin, Hmax.
  cbn [ntotal list_size_stats min_list_size max_list_size app] in Hn, Hs, Hmin, Hmax.
  fold sizes in Hn, Hs, Hmin, Hmax. rewrite Z.add_0_l in Hn.
  subst info. unfold ivf_dump_info. cbn zeta.
  cbn [Rdb_vector_index_info.m_ntotal Rdb_vector_index_info.m_min_list_size
       Rdb_vector_index_info.m_max_list_size Rdb_vector_index_info.m_avg_list_size
       Rdb_vector_index_info.m_median_list_size].
  rewrite Hs, Hn. split; [done|]. split.
  - intros Hnil. rewrite !decide_True by done.
    destruct (min_list_size _) as [m|]; [destruct Hmin as [[Hin|?] _]; [|done];
      rewrite Hnil in Hin; by apply elem_of_nil in Hin|].
    destruct (max_list_size _) as [m|]; [destruct Hmax as [[Hin|?] _]; [|done];
      rewrite Hnil in Hin; by apply elem_of_nil in Hin|].
    done.
  - intros Hne. rewrite !decide_False by done.
    destruct (min_list_size _) as [lo|]; [|by destruct Hmin].
    destruct (max_list_size _) as [hi|]; [|by destruct Hmax].
    destruct Hmin as ([Hlo|?] & Hlo_le & _); [|done].
    destruct Hmax as ([Hhi|?] & Hhi_le & _); [|done].
    cbn [default from_option id]. fold count.
    assert (Hcount : (0 < count)%nat)
      by (subst count; destruct sizes; [done|simpl; lia]).
    assert (Hbounds : ∀ v, v ∈ sizes → lo ≤ v ≤ hi)
      by (intros v Hv; split; [by apply Hlo_le|by apply Hhi_le]).
    split; [done|]. split; [done|]. split; [done|]. split; [done|].
    split.
    { pose proof (sum_sizes_bounds sizes lo hi Hbounds) as Hb. fold count in Hb.
      split.
      - apply Z.div_le_lower_bound; lia.
      - apply Z.div_le_upper_bound; lia. }
    pose proof (merge_sort_Permutation Z.le sizes) as Hperm.
    pose proof (StronglySorted_merge_sort Z.le sizes) as Hsorted.
    pose proof (Permutation_length Hperm) as Hlen. fold count in Hlen.
    rewrite Hlen.
    destruct (lookup_lt_is_Some_2 (merge_sort Z.le sizes) (count / 2)) as [m Hm].
    { rewrite Hlen. apply Nat.div_lt; lia. }
    rewrite Hm. cbn [default from_option id].
    destruct (position_in_sorted _ _ _ Hsorted Hm) as [Hbelow Habove].
    rewrite Hlen in Habove.
    split; [rewrite <- Hperm; by eapply list_elem_of_lookup_2|].
    split.
    + by rewrite <- Hperm.
    + rewrite <- Hperm.
      assert (count / 2 < count)%nat by (apply Nat.div_lt; lia). lia.
Qed.

(** Three lists scanned with 4, 1 and 2 records, a fourth not scanned
    yet. *)
Lemma dump_info_list_statistics_witness :
  let counters := {| ivf_hit := 0; ivf_nlist := 4; ivf_pq := None;
                     ivf_list_size_stats := [4; -1; 1; 2] |} in
  let info := ivf_dump_info (FA := QFloat) (example_ivf_index []) counters in
  Rdb_vector_index_info.m_ntotal info = 7
  ∧ Rdb_vector_index_info.m_avg_list_size info = 7 / 3
  ∧ Rdb_vector_index_info.m_median_list_size info ∈ [4; 1; 2].
Proof.
  cbv zeta.
  destruct (dump_info_list_statistics (FA := QFloat) (example_ivf_index [])
              {| ivf_hit := 0; ivf_nlist := 4; ivf_pq := None;
                 ivf_list_size_stats := [4; -1; 1; 2] |})
    as (Hn & _ & Hrest); [vm_compute; reflexivity|].
  destruct Hrest as (_ & _ & _ & Havg & _ & Hmed & _); [vm_compute; discriminate|].
  split; [exact Hn|]. split; [exact Havg|exact Hmed].
Defined.

(** ** [analyze] *)

Section AnalyzeFacts.
Context {FA : FloatArith} {MEM : Memory} {KD : Rdb_key_def_tags}.

(** [get_key_and_codes] looks at the record under the iterator only, and
    at the context not at all. *)
Lemma get_key_and_codes_head ctx index_id list_id code_size r rest :
  get_key_and_codes ctx
    {| m_index_id := index_id; m_list_id := list_id; m_code_size := code_size;
       m_iterator := r :: rest |}
  = match get_key_and_codes (new_context true None)
            {| m_index_id := index_id; m_list_id := list_id;
               m_code_size := code_size; m_iterator := [r] |} with
    | Ok (key, codes, _) => Ok (key, codes, on_iterator_record ctx)
    | Err e => Err e
    | Fault f => Fault f
    end.
Proof.
  unfold get_key_and_codes. cbn [m_iterator m_code_size]. destruct r as [key value].
  unfold check_item_key. cbn [m_index_id m_list_id].
  destruct (read_inverted_list_key key index_id list_id) as [reader|e|f];
    cbn [mbind outcome_bind]; [|done|done].
  destruct (decide (length reader = 0%nat)); [done|]. cbn [mbind outcome_bind].
  destruct (decide (_ < 0)); [done|].
  destruct (decide (0 < _)); [|done].
  destruct (read_u8 value 0) as [tag|e|f]; cbn [mbind outcome_bind]; [|done|done].
  destruct (negb _); [done|].
  destruct (decide (_ < Z.of_nat _)); [done|].
  by destruct (decide (_ < _)%nat).
Qed.

Lemma get_key_and_codes_has_codes ctx index_id list_id code_size r rest :
  has_codes index_id list_id code_size r = true →
  ∃ key codes,
    get_key_and_codes ctx
      {| m_index_id := index_id; m_list_id := list_id;
         m_code_size := code_size; m_iterator := r :: rest |}
    = Ok (key, codes, on_iterator_record ctx).
Proof.
  unfold has_codes. intros Hr. rewrite get_key_and_codes_head.
  destruct (get_key_and_codes _ _) as [[[key codes] ?]|?|?]; [|done|done].
  by eexists _, _.
Qed.

Lemma get_key_and_codes_no_codes ctx index_id list_id code_size r rest :
  0 ≤ code_size < 2 ^ 31 →
  has_codes index_id list_id code_size r = false →
  get_key_and_codes ctx
    {| m_index_id := index_id; m_list_id := list_id;
       m_code_size := code_size; m_iterator := r :: rest |}
  = Err HA_ERR_ROCKSDB_CORRUPT_DATA.
Proof.
  unfold has_codes. intros Hcs Hr. rewrite get_key_and_codes_head.
  set (it := Build_Rdb_vector_iterator _ _ _ [r]) in *.
  destruct (get_key_and_codes_cases (new_context true None) it)
    as [Hget|(key & codes & Hget)]; [done|done| |]; rewrite Hget in *; done.
Qed.

(** The loop over one list, over records that are all read, in a session
    that is not killed and below the limit of rows. *)
Lemma analyze_list_loop_counts thd_killed_at killed max_num_rows_scanned
    index_id list_id code_size pre :
  (∀ n, thd_killed_at n = false) →
  (∀ killed_at n, killed = Some killed_at → killed_at n = false) →
  Forall (fun r => has_codes index_id list_id code_size r = true) pre →
  ∀ rest fuel clock reads ctx list_size ntotal,
    m_pk_index_cond ctx = None → m_error ctx = None →
    0 ≤ list_size → 0 ≤ ntotal →
    list_size + Z.of_nat (length pre) < 2 ^ 64 →
    ntotal + Z.of_nat (length pre) < 2 ^ 64 →
    max_num_rows_scanned ≤ 0
    ∨ ntotal + Z.of_nat (length pre) ≤ max_num_rows_scanned →
    ∃ ctx',
      analyze_list_loop thd_killed_at killed max_num_rows_scanned
        (length pre + fuel) clock reads ctx
        {| m_index_id := index_id; m_list_id := list_id;
           m_code_size := code_size; m_iterator := pre ++ rest |}
        list_size ntotal
      = analyze_list_loop thd_killed_at killed max_num_rows_scanned
          fuel (clock + length pre) (reads_after killed reads (length pre)) ctx'
          {| m_index_id := index_id; m_list_id := list_id;
             m_code_size := code_size; m_iterator := rest |}
          (list_size + Z.of_nat (length pre)) (ntotal + Z.of_nat (length pre))
      ∧ m_pk_index_cond ctx' = None ∧ m_error ctx' = None.
Proof.
  intros Hlive Hkilled Hpre. induction Hpre as [|r pre Hr _ IH];
    intros rest fuel clock reads ctx list_size ntotal Hcond Herr Hls Hnt Hlsb Hntb Hmax.
  - exists ctx. cbn [length app Nat.add]. rewrite !Z.add_0_r, Nat.add_0_r.
    split; [|done].
    replace (reads_after killed reads 0) with reads; [done|].
    unfold reads_after. destruct killed; [by rewrite Nat.add_0_r|done].
  - cbn [length app Nat.add analyze_list_loop]. rewrite Hlive.
    rewrite (is_available_plain _ _ r (pre ++ rest)) by done.
    cbn [mbind outcome_bind].
    destruct (get_key_and_codes_has_codes ctx index_id list_id code_size r
                (pre ++ rest) Hr) as (key & codes & ->).
    cbn [length] in Hlsb, Hntb, Hmax. rewrite Nat2Z.inj_succ in *.
    assert (Hw1 : wrap_unsigned 64 (list_size + 1) = list_size + 1)
      by (unfold wrap_unsigned; apply Z.mod_small; lia).
    assert (Hw2 : wrap_unsigned 64 (ntotal + 1) = ntotal + 1)
      by (unfold wrap_unsigned; apply Z.mod_small; lia).
    rewrite Hw1, Hw2. rewrite decide_False by lia.
    unfold iterator_next. cbn [m_index_id m_list_id m_code_size m_iterator tail].
    destruct killed as [killed_at|] eqn:Hk.
    + rewrite (Hkilled killed_at reads eq_refl).
      destruct (IH rest fuel (S clock) (S reads) (on_iterator_record ctx)
                  (list_size + 1) (ntotal + 1)) as (ctx' & Hrun & Hok);
        [done|done|lia|lia|lia|lia|lia|].
      exists ctx'. split; [|done]. rewrite Hrun. cbn [reads_after].
      f_equal; lia.
    + destruct (IH rest fuel (S clock) reads (on_iterator_record ctx)
                  (list_size + 1) (ntotal + 1)) as (ctx' & Hrun & Hok);
        [done|done|lia|lia|lia|lia|lia|].
      exists ctx'. split; [|done]. rewrite Hrun. cbn [reads_after].
      f_equal; lia.
Qed.

Lemma analyze_list_loop_end thd_killed_at killed max_num_rows_scanned fuel clock
    reads ctx index_id list_id code_size list_size ntotal :
  analyze_list_loop thd_killed_at killed max_num_rows_scanned (S fuel) clock
    reads ctx
    {| m_index_id := index_id; m_list_id := list_id;
       m_code_size := code_size; m_iterator := [] |} list_size ntotal
  = Ok (Analyze_list_end list_size ntotal (S clock) reads).
Proof.
  cbn [analyze_list_loop]. by rewrite is_available_exhausted.
Qed.

Lemma list_lengths_cons index first n :
  list_lengths index first (S n)
  = Z.of_nat (length (ivf_cf index (Z.of_nat first)))
    :: list_lengths index (S first) n.
Proof. done. Qed.

Lemma sum_sizes_cons v sizes : sum_sizes (v :: sizes) = v + sum_sizes sizes.
Proof. done. Qed.

Lemma list_lengths_nonneg index first n : 0 ≤ sum_sizes (list_lengths index first n).
Proof.
  revert first. induction n as [|n IH]; intros first; [done|].
  rewrite list_lengths_cons, sum_sizes_cons. specialize (IH (S first)). lia.
Qed.

(** The loop over the lists, over [j] lists whose records are all read:
    each of them gets its number of records. *)
Lemma analyze_lists_counts index thd_killed_at killed max_num_rows_scanned :
  (∀ n, thd_killed_at n = false) →
  (∀ killed_at n, killed = Some killed_at → killed_at n = false) →
  ∀ j n i clock reads ntotal counted old,
    length counted = i →
    (j ≤ length old)%nat →
    lists_have_codes index i j →
    0 ≤ ntotal →
    ntotal + sum_sizes (list_lengths index i j) < 2 ^ 63 →
    max_num_rows_scanned ≤ 0
    ∨ ntotal + sum_sizes (list_lengths index i j) ≤ max_num_rows_scanned →
    ∃ clock' reads',
      analyze_lists index thd_killed_at killed max_num_rows_scanned (j + n) i
        clock reads ntotal (counted ++ old)
      = analyze_lists index thd_killed_at killed max_num_rows_scanned n
          (i + j) clock' reads'
          (ntotal + sum_sizes (list_lengths index i j))
          (counted ++ list_lengths index i j ++ drop j old).
Proof.
  intros Hlive Hkilled. induction j as [|j IH];
    intros n i clock reads ntotal counted old Hi Hj Hcodes Hnt Hsum Hmax.
  - exists clock, reads. cbn [Nat.add]. rewrite Nat.add_0_r.
    unfold list_lengths. cbn [seq fmap list_fmap sum_sizes foldr app drop].
    by rewrite Z.add_0_r.
  - destruct old as [|o old]; [simpl in Hj; lia|].
    rewrite list_lengths_cons, sum_sizes_cons in *.
    pose proof (list_lengths_nonneg index (S i) j) as Hrest.
    set (records := ivf_cf index (Z.of_nat i)) in *.
    cbn [Nat.add analyze_lists]. unfold new_vector_iterator.
    cbn [m_iterator]. fold records.
    destruct (analyze_list_loop_counts thd_killed_at killed max_num_rows_scanned
                (ivf_index_id index) (Z.of_nat i) (ivf_code_size index) records
                Hlive Hkilled (Hcodes i ltac:(lia)) [] 1%nat clock reads
                (new_context true None) 0 ntotal)
      as (ctx' & Hrun & _); [done|done|lia|lia|lia|lia|lia|].
    rewrite app_nil_r in Hrun.
    replace (S (length records)) with (length records + 1)%nat by lia.
    rewrite Hrun, analyze_list_loop_end. cbn [mbind outcome_bind].
    rewrite Z.add_0_l.
    assert (Hw : wrap_signed 64 (Z.of_nat (length records))
                 = Z.of_nat (length records)).
    { unfold wrap_signed. rewrite Z.mod_small by lia.
      cbn zeta. by rewrite (proj2 (Z.ltb_lt _ _)) by lia. }
    rewrite Hw.
    assert (Hins : <[i := Z.of_nat (length records)]> (counted ++ o :: old)
                   = (counted ++ [Z.of_nat (length records)]) ++ old).
    { rewrite insert_app_r_alt by lia. rewrite Hi, Nat.sub_diag.
      cbn [insert list_insert]. by rewrite <- app_assoc. }
    rewrite Hins.
    destruct (IH n (S i) (S (clock + length records))
                (reads_after killed reads (length records))
                (ntotal + Z.of_nat (length records))
                (counted ++ [Z.of_nat (length records)]) old)
      as (clock' & reads' & Hlists).
    + rewrite length_app. simpl. lia.
    + simpl in Hj. lia.
    + intros l Hl. apply Hcodes. lia.
    + lia.
    + lia.
    + lia.
    + exists clock', reads'. rewrite Hlists.
      rewrite <- !app_assoc, Z.add_assoc. cbn [app drop].
      by replace (i + S j)%nat with (S i + j)%nat by lia.
Qed.

(** X21: [analyze] counts the records of every list.  In a session that
    is not killed, with a [killed] flag that is null or never set, when
    [get_key_and_codes] reads every record of the lists and no limit of
    rows is given or the lists hold no more rows than the limit,
    [analyze] returns [HA_EXIT_SUCCESS] and [m_list_size_stats] holds
    the number of records of each list, whatever it held before. *)
Theorem analyze_counts_every_list (index : Rdb_vector_index_ivf)
    (thd_killed_at : nat → bool) (max_num_rows_scanned : Z)
    (killed : option (nat → bool)) (stats : list Z) :
  (∀ n, thd_killed_at n = false) →
  (∀ killed_at n, killed = Some killed_at → killed_at n = false) →
  lists_have_codes index 0 (length stats) →
  sum_sizes (list_lengths index 0 (length stats)) < 2 ^ 63 →
  max_num_rows_scanned = 0
  ∨ sum_sizes (list_lengths index 0 (length stats)) ≤ max_num_rows_scanned →
  ivf_analyze index thd_killed_at max_num_rows_scanned killed stats
  = Ok (HA_EXIT_SUCCESS, list_lengths index 0 (length stats)).
Proof.
  intros Hlive Hkilled Hcodes Hsum Hmax. unfold ivf_analyze.
  destruct (analyze_lists_counts index thd_killed_at killed max_num_rows_scanned
              Hlive Hkilled (length stats) 0%nat 0%nat 0%nat 0%nat 0 [] stats)
    as (clock' & reads' & Hrun); [done|done|done|done|lia|lia|].
  rewrite Nat.add_0_r in Hrun. cbn [app] in Hrun. rewrite Hrun.
  cbn [analyze_lists]. by rewrite drop_all, app_nil_r.
Qed.

(** X22: [analyze] stops at the first record it cannot read.  When the
    lists before list [i] are read in full, and list [i] holds a record
    that [get_key_and_codes] refuses after records it reads, [analyze]
    returns CorruptData; the lists before [i] have their number of
    records in [m_list_size_stats], list [i] and the lists after it keep
    the size they had. *)
Theorem analyze_stops_at_unreadable_record (index : Rdb_vector_index_ivf)
    (thd_killed_at : nat → bool) (max_num_rows_scanned : Z)
    (killed : option (nat → bool)) (stats : list Z) (i : nat)
    (pre post : list (list byte * list byte)) (r : list byte * list byte) :
  (∀ n, thd_killed_at n = false) →
  (∀ killed_at n, killed = Some killed_at → killed_at n = false) →
  0 ≤ ivf_code_size index < 2 ^ 31 →
  (i < length stats)%nat →
  lists_have_codes index 0 i →
  ivf_cf index (Z.of_nat i) = pre ++ r :: post →
  Forall (fun r => has_codes (ivf_index_id index) (Z.of_nat i)
                     (ivf_code_size index) r = true) pre →
  has_codes (ivf_index_id index) (Z.of_nat i) (ivf_code_size index) r = false →
  sum_sizes (list_lengths index 0 i) + Z.of_nat (length pre) < 2 ^ 63 →
  max_num_rows_scanned = 0
  ∨ sum_sizes (list_lengths index 0 i) + Z.of_nat (length pre)
    ≤ max_num_rows_scanned →
  ivf_analyze index thd_killed_at max_num_rows_scanned killed stats
  = Ok (HA_ERROR HA_ERR_ROCKSDB_CORRUPT_DATA,
        list_lengths index 0 i ++ drop i stats).
Proof.
  intros Hlive Hkilled Hcs Hi Hcodes Hlist Hpre Hr Hsum Hmax.
  unfold ivf_analyze.
  pose proof (list_lengths_nonneg index 0 i) as Hnonneg.
  destruct (analyze_lists_counts index thd_killed_at killed max_num_rows_scanned
              Hlive Hkilled i (length stats - i)%nat 0%nat 0%nat 0%nat 0 [] stats)
    as (clock' & reads' & Hrun); [done|lia|done|done|lia|lia|].
  replace (i + (length stats - i))%nat with (length stats) in Hrun by lia.
  cbn [app Nat.add] in Hrun. rewrite Hrun, Z.add_0_l.
  destruct (length stats - i)%nat as [|n] eqn:Hn; [lia|].
  cbn [analyze_lists]. unfold new_vector_iterator. cbn [m_iterator].
  rewrite Hlist.
  destruct (analyze_list_loop_counts thd_killed_at killed max_num_rows_scanned
              (ivf_index_id index) (Z.of_nat i) (ivf_code_size index) pre
              Hlive Hkilled Hpre (r :: post) (S (S (length post))) clock' reads'
              (new_context true None) 0 (sum_sizes (list_lengths index 0 i)))
    as (ctx' & Hloop & Hcond & Herr); [done|done|lia|lia|lia|lia|lia|].
  replace (S (length (pre ++ r :: post)))
    with (length pre + S (S (length post)))%nat
    by (rewrite length_app; simpl; lia).
  rewrite Hloop. cbn [analyze_list_loop].
  rewrite (Hlive (clock' + length pre)%nat).
  rewrite (is_available_plain _ _ r post) by done.
  cbn [mbind outcome_bind].
  by rewrite get_key_and_codes_no_codes.
Qed.

(** X23: the limit of rows.  With a limit [max_num_rows_scanned > 0],
    [analyze] returns [HA_EXIT_SUCCESS] as soon as it has read one row
    more than the limit: the lists it finished before have their number
    of records in [m_list_size_stats], the list it was reading and the
    lists after it keep the size they had. *)
Theorem analyze_stops_after_the_row_limit (index : Rdb_vector_index_ivf)
    (thd_killed_at : nat → bool) (max_num_rows_scanned : Z)
    (killed : option (nat → bool)) (stats : list Z) (i : nat)
    (pre post : list (list byte * list byte)) (r : list byte * list byte) :
  (∀ n, thd_killed_at n = false) →
  (∀ killed_at n, killed = Some killed_at → killed_at n = false) →
  (i < length stats)%nat →
  lists_have_codes index 0 i →
  ivf_cf index (Z.of_nat i) = pre ++ r :: post →
  Forall (fun r => has_codes (ivf_index_id index) (Z.of_nat i)
                     (ivf_code_size index) r = true) (pre ++ [r]) →
  0 < max_num_rows_scanned < 2 ^ 63 →
  sum_sizes (list_lengths index 0 i) + Z.of_nat (length pre)
  = max_num_rows_scanned →
  ivf_analyze index thd_killed_at max_num_rows_scanned killed stats
  = Ok (HA_EXIT_SUCCESS, list_lengths index 0 i ++ drop i stats).
Proof.
  intros Hlive Hkilled Hi Hcodes Hlist Hpre Hmax Hrows.
  apply Forall_app in Hpre as [Hpre Hr]. rewrite Forall_singleton in Hr.
  unfold ivf_analyze.
  pose proof (list_lengths_nonneg index 0 i) as Hnonneg.
  destruct (analyze_lists_counts index thd_killed_at killed max_num_rows_scanned
              Hlive Hkilled i (length stats - i)%nat 0%nat 0%nat 0%nat 0 [] stats)
    as (clock' & reads' & Hrun); [done|lia|done|done|lia|lia|].
  replace (i + (length stats - i))%nat with (length stats) in Hrun by lia.
  cbn [app Nat.add] in Hrun. rewrite Hrun, Z.add_0_l.
  destruct (length stats - i)%nat as [|n] eqn:Hn; [lia|].
  cbn [analyze_lists]. unfold new_vector_iterator. cbn [m_iterator].
  rewrite Hlist.
  destruct (analyze_list_loop_counts thd_killed_at killed max_num_rows_scanned
              (ivf_index_id index) (Z.of_nat i) (ivf_code_size index) pre
              Hlive Hkilled Hpre (r :: post) (S (S (length post))) clock' reads'
              (new_context true None) 0 (sum_sizes (list_lengths index 0 i)))
    as (ctx' & Hloop & Hcond & Herr); [done|done|lia|lia|lia|lia|lia|].
  replace (S (length (pre ++ r :: post)))
    with (length pre + S (S (length post)))%nat
    by (rewrite length_app; simpl; lia).
  rewrite Hloop. cbn [analyze_list_loop].
  rewrite (Hlive (clock' + length pre)%nat).
  rewrite (is_available_plain _ _ r post) by done.
  cbn [mbind outcome_bind].
  destruct (get_key_and_codes_has_codes ctx' (ivf_index_id index) (Z.of_nat i)
              (ivf_code_size index) r post Hr) as (key & codes & ->).
  assert (Hw : wrap_unsigned 64
                 (sum_sizes (list_lengths index 0 i) + Z.of_nat (length pre) + 1)
               = max_num_rows_scanned + 1)
    by (unfold wrap_unsigned; rewrite Z.mod_small; lia).
  rewrite Hw. by rewrite decide_True by lia.
Qed.

(** The availability check of a fresh iterator in a killed session. *)
Lemma is_available_in_killed_session cond it :
  ∃ ctx' it',
    is_available true (new_context true cond) it = Ok (false, ctx', it').
Proof.
  unfold is_available.
  destruct (m_iterator it) as [|r rest]; cbn [is_available_loop].
  - cbn [mbind outcome_bind]. rewrite (bool_decide_eq_true_2 ([] = [])) by done.
    rewrite andb_false_r. by eexists _, _.
  - cbn [new_context m_error m_thd andb].
    rewrite bool_decide_eq_false_2 by (by intros [? ?]).
    cbn [mbind outcome_bind set_error m_error].
    rewrite (bool_decide_eq_true_2 (is_Some _)) by done.
    cbn [negb andb]. by eexists _, _.
Qed.

Lemma analyze_lists_killed index thd_killed_at killed max_num_rows_scanned :
  (∀ n, thd_killed_at n = true) →
  ∀ n i clock reads ntotal counted old,
    length counted = i → length old = n →
    analyze_lists index thd_killed_at killed max_num_rows_scanned n i
      clock reads ntotal (counted ++ old)
    = Ok (HA_EXIT_SUCCESS, counted ++ replicate n 0).
Proof.
  intros Hdead. induction n as [|n IH];
    intros i clock reads ntotal counted old Hi Hn.
  - destruct old; [done|simpl in Hn; lia].
  - destruct old as [|o old]; [simpl in Hn; lia|].
    cbn [analyze_lists analyze_list_loop]. rewrite Hdead.
    destruct (is_available_in_killed_session None
                (new_vector_iterator (ivf_index_id index) (ivf_code_size index)
                   (ivf_cf index) (Z.of_nat i))) as (ctx' & it' & ->).
    cbn [mbind outcome_bind].
    rewrite insert_app_r_alt by lia. rewrite Hi, Nat.sub_diag.
    cbn [insert list_insert].
    change (wrap_signed 64 0) with 0.
    rewrite (cons_middle 0 counted old), app_assoc.
    rewrite IH; [|rewrite length_app; simpl; lia|simpl in Hn; lia].
    by rewrite <- app_assoc.
Qed.

(** X24: [analyze] in a killed session.  When [thd->killed] is set at
    every availability check, no record is read: every list is taken for
    exhausted at once, [analyze] records the size [0] for each of them,
    whatever the lists hold, and returns [HA_EXIT_SUCCESS]. *)
Theorem analyze_in_a_killed_session (index : Rdb_vector_index_ivf)
    (thd_killed_at : nat → bool) (max_num_rows_scanned : Z)
    (killed : option (nat → bool)) (stats : list Z) :
  (∀ n, thd_killed_at n = true) →
  ivf_analyze index thd_killed_at max_num_rows_scanned killed stats
  = Ok (HA_EXIT_SUCCESS, replicate (length stats) 0).
Proof.
  intros Hdead. unfold ivf_analyze.
  exact (analyze_lists_killed index thd_killed_at killed
           max_num_rows_scanned Hdead (length stats) 0%nat 0%nat 0%nat 0 []
           stats eq_refl eq_refl).
Qed.

End AnalyzeFacts.

Lemma analyze_counts_every_list_witness :
  let r1 := (example_key [x61], replicate 8 x01) in
  let r2 := (example_key [x62], replicate 8 x02) in
  ivf_analyze (KD := myrocks_tags) (example_ivf_index [r1; r2])
    (fun _ => false) 0 None [-1; -1]
  = Ok (HA_EXIT_SUCCESS, [2; 0]).
Proof.
  cbv zeta.
  apply (analyze_counts_every_list (KD := myrocks_tags)
           (example_ivf_index [(example_key [x61], replicate 8 x01);
                               (example_key [x62], replicate 8 x02)])
           (fun _ => false) 0 None [-1; -1]).
  - reflexivity.
  - intros killed_at n Hk. discriminate Hk.
  - intros i Hi. destruct i as [|[|i]]; [| |simpl in Hi; lia].
    + repeat constructor.
    + constructor.
  - vm_compute. reflexivity.
  - left. reflexivity.
Defined.

Lemma analyze_stops_at_unreadable_record_witness :
  let r1 := (example_key [x61], replicate 8 x01) in
  let r2 := (example_key [x62], [x02; x00; x00]) in
  ivf_analyze (KD := myrocks_tags) (example_ivf_index [r1; r2])
    (fun _ => false) 0 None [-1; -1]
  = Ok (HA_ERROR HA_ERR_ROCKSDB_CORRUPT_DATA, [-1; -1]).
Proof.
  cbv zeta.
  apply (analyze_stops_at_unreadable_record (KD := myrocks_tags)
           (example_ivf_index [(example_key [x61], replicate 8 x01);
                               (example_key [x62], [x02; x00; x00])])
           (fun _ => false) 0 None [-1; -1] 0
           [(example_key [x61], replicate 8 x01)] []
           (example_key [x62], [x02; x00; x00])).
  - reflexivity.
  - intros killed_at n Hk. discriminate Hk.
  - simpl. lia.
  - simpl. lia.
  - intros i Hi. lia.
  - reflexivity.
  - repeat constructor.
  - reflexivity.
  - vm_compute. reflexivity.
  - left. reflexivity.
Defined.

Lemma analyze_stops_after_the_row_limit_witness :
  let r1 := (example_key [x61], replicate 8 x01) in
  let r2 := (example_key [x62], replicate 8 x02) in
  let r3 := (example_key [x63], replicate 8 x03) in
  ivf_analyze (KD := myrocks_tags) (example_ivf_index [r1; r2; r3])
    (fun _ => false) 1 (Some (fun _ => false)) [-1; 5]
  = Ok (HA_EXIT_SUCCESS, [-1; 5]).
Proof.
  cbv zeta.
  apply (analyze_stops_after_the_row_limit (KD := myrocks_tags)
           (example_ivf_index [(example_key [x61], replicate 8 x01);
                               (example_key [x62], replicate 8 x02);
                               (example_key [x63], replicate 8 x03)])
           (fun _ => false) 1 (Some (fun _ => false)) [-1; 5] 0
           [(example_key [x61], replicate 8 x01)]
           [(example_key [x63], replicate 8 x03)]
           (example_key [x62], replicate 8 x02)).
  - reflexivity.
  - intros killed_at n [= <-]. reflexivity.
  - simpl. lia.
  - intros i Hi. lia.
  - reflexivity.
  - repeat constructor.
  - lia.
  - reflexivity.
Defined.

Lemma analyze_in_a_killed_session_witness :
  let r1 := (example_key [x61], replicate 8 x01) in
  ivf_analyze (KD := myrocks_tags) (example_ivf_index [r1])
    (fun _ => true) 0 None [-1; -1]
  = Ok (HA_EXIT_SUCCESS, [0; 0]).
Proof.
  cbv zeta.
  apply (analyze_in_a_killed_session (KD := myrocks_tags)
           (example_ivf_index [(example_key [x61], replicate 8 x01)])
           (fun _ => true) 0 None [-1; -1]).
  reflexivity.
Defined.

(** ** The cursor over an index scan of the IVF index *)

Section ScanCursor.
Context {FA : FloatArith} {MEM : Memory} {KD : Rdb_key_def_tags}.

(** The availability check of a scan without predicate, in a query that
    is not killed. *)
Lemma list_iterator_is_available_plain killed_at clock li :
  (∀ n, killed_at n = false) → plain_scan li →
  ∃ clock' li',
    list_iterator_is_available killed_at clock li
    = Ok (bool_decide (remaining_records li ≠ []), clock', li')
    ∧ plain_scan li'
    ∧ remaining_records li' = remaining_records li
    ∧ ∀ r rest,
        remaining_records li = r :: rest →
        ∃ it, li_current_iterator li' = Some it
              ∧ ∃ others, m_iterator it = r :: others.
Proof.
  intros Hlive (Hnoerr & Herr & Hcond). unfold list_iterator_is_available.
  rewrite Hnoerr. rewrite bool_decide_eq_false_2 by (by intros [? ?]).
  destruct (list_iterator_loop_plain (li_index_id li) (li_code_size li)
              (li_cf li) killed_at (li_list_ids li) Hlive clock (li_context li)
              (li_current_iterator li) Herr Hcond)
    as (clock1 & ctx1 & cur1 & ids1 & -> & Herr1 & Hcond1 & Heq & Hend).
  cbn [mbind outcome_bind].
  destruct (current_is_available_plain killed_at clock1 ctx1 cur1 Hlive Herr1
              Hcond1) as (clock2 & ctx2 & -> & Herr2 & Hcond2 & _).
  cbn [mbind outcome_bind].
  assert (Hsame : records_of cur1 ≠ [] ↔ remaining_records li ≠ []).
  { unfold remaining_records. fold (records_of (li_current_iterator li)).
    rewrite <- Heq. split.
    - intros Hne Happ. by apply app_eq_nil in Happ as [? _].
    - intros Hne Hnil. apply Hne. by rewrite Hnil, Hend. }
  eexists clock2, _. split.
  { do 3 f_equal. by apply bool_decide_ext. }
  split; [done|].
  split; [unfold remaining_records; cbn [li_current_iterator li_cf li_list_ids];
          exact Heq|].
  intros r rest Hrem.
  assert (Hcur : records_of cur1 ≠ []) by (apply Hsame; by rewrite Hrem).
  destruct cur1 as [it|]; [|done]. cbn [records_of] in *.
  destruct (m_iterator it) as [|r' rest'] eqn:Hit; [done|].
  unfold remaining_records in Hrem.
  fold (records_of (li_current_iterator li)) in Hrem.
  rewrite <- Heq in Hrem. cbn [app] in Hrem. injection Hrem as -> <-.
  exists it. cbn [li_current_iterator]. split; [done|]. by exists rest'.
Qed.

(** X25: an index scan on the IVF index opens the cursor on the probed
    lists.  For the search type [FB_VECTOR_SEARCH_INDEX_SCAN] and a
    query vector that is not empty and not longer than the dimension,
    [search] returns [HA_EXIT_SUCCESS], pads the query vector with zeros
    to the dimension, and leaves in [m_index_scan_result_iter] an
    iterator over the lists the quantizer picks for the padded vector,
    before its first record; the stored results are not touched. *)
Theorem ivf_index_scan_opens_the_scan (s : vector_session) (env : query_env)
    (index : Rdb_vector_index_ivf) :
  m_search_type s = FB_VECTOR_SEARCH_INDEX_SCAN →
  (0 < length (m_buffer (session_handler s)) ≤ ivf_dimension index)%nat →
  let h := session_handler s in
  let query := resize_buffer (m_buffer h) (ivf_dimension index) in
  ∃ s' li,
    handler_search s env (vector_index_scans_of_ivf index)
    = Returned HA_EXIT_SUCCESS s'
    ∧ m_search_type s' = FB_VECTOR_SEARCH_INDEX_SCAN
    ∧ m_buffer (session_handler s') = query
    ∧ m_search_result (session_handler s') = m_search_result h
    ∧ m_search_result_with_value (session_handler s')
      = m_search_result_with_value h
    ∧ m_index_scan_result_iter s' = Some li
    ∧ li_current_iterator li = None
    ∧ li_error li = None
    ∧ m_error (li_context li) = None
    ∧ m_pk_index_cond (li_context li) = env_pk_index_cond env
    ∧ remaining_records li
      = records_of_lists (ivf_cf index)
          (ivf_quantizer index query (h_nprobe h)).
Proof.
  intros Htype Hlen. cbv zeta. unfold handler_search. rewrite Htype.
  unfold handler_index_scan.
  rewrite bool_decide_eq_false_2 by lia.
  pose proof (check_dimension_cases (m_buffer (session_handler s))
                (knn_entries (vector_index_scans_of_ivf index))) as Hdim.
  cbn [vector_index_scans_of_ivf knn_entries vector_index_of_ivf dimension]
    in Hdim.
  cbn [vector_index_scans_of_ivf knn_entries index_scan].
  destruct (check_dimension _ _) as [buffer|e|f]; [|lia|done].
  destruct Hdim as [_ ->].
  eexists _, _. split; [done|]. by repeat split.
Qed.

(** X26: the cursor over an index scan.  In a session of a search type
    other than [FB_VECTOR_SEARCH_KNN_FIRST] with no stored rows, a scan
    iterator without predicate and error, and a query that is not
    killed: [has_more_results] answers whether the probed lists have a
    record left, changing only the scan iterator and losing no record;
    while one is left, [current_key] hands out the key of the first of
    them whenever the iterator accepts that key, [current_value] is
    [HA_ERR_UNSUPPORTED], and [next_result] moves past exactly that
    record. *)
Theorem cursor_walks_the_index_scan (killed_at : nat → bool) (clock : nat)
    (s : vector_session) (li : Rdb_vector_list_iterator) :
  (∀ n, killed_at n = false) →
  m_search_type s ≠ FB_VECTOR_SEARCH_KNN_FIRST →
  m_search_result_with_value (session_handler s) = [] →
  m_index_scan_result_iter s = Some li →
  plain_scan li →
  ∃ clock' li',
    has_more_results killed_at clock s
    = Ok (bool_decide (remaining_records li ≠ []), clock',
          with_scan_iter s (Some li'))
    ∧ plain_scan li'
    ∧ remaining_records li' = remaining_records li
    ∧ ∀ r rest,
        remaining_records li = r :: rest →
        (∀ it key value,
           li_current_iterator li' = Some it →
           get_key_and_value it false = Ok (key, value) →
           key = r.1
           ∧ current_key (with_scan_iter s (Some li'))
             = Done (HA_EXIT_SUCCESS, Some key, with_scan_iter s (Some li')))
        ∧ current_value (with_scan_iter s (Some li'))
          = Done (HA_ERROR HA_ERR_UNSUPPORTED, None)
        ∧ ∃ clock'' li'',
            next_result killed_at clock s
            = Done (clock'', with_scan_iter s (Some li''))
            ∧ plain_scan li''
            ∧ remaining_records li'' = rest.
Proof.
  intros Hlive Htype Hempty Hiter Hplain.
  destruct (list_iterator_is_available_plain killed_at clock li Hlive Hplain)
    as (clock' & li' & Havail & Hplain' & Hrem' & Hhead).
  assert (Hmore : has_more_results killed_at clock s
                  = Ok (bool_decide (remaining_records li ≠ []), clock',
                        with_scan_iter s (Some li'))).
  { unfold has_more_results. rewrite Hempty, Hiter, Havail.
    rewrite (bool_decide_eq_false_2 ([] ≠ [])) by (by intros H).
    cbn [mbind outcome_bind]. by destruct (m_search_type s). }
  exists clock', li'. split; [exact Hmore|]. split; [done|]. split; [done|].
  intros r rest Hrecords.
  destruct (Hhead r rest Hrecords) as (it & Hit & others & Hothers).
  split; [|split].
  - intros it' key value Hit' Hget. rewrite Hit in Hit'. injection Hit' as <-.
    assert (key = r.1) as ->.
    { revert Hget. unfold get_key_and_value. rewrite Hothers.
      destruct r as [key_slice value_slice].
      destruct (check_item_key_cases it key_slice) as [-> | ->];
        cbn [mbind outcome_bind negb]; [|done]. by intros [= <- _]. }
    split; [done|].
    unfold current_key. cbn [with_scan_iter session_handler m_search_type
                               m_index_scan_result_iter].
    rewrite Hempty. rewrite (bool_decide_eq_false_2 ([] ≠ [])) by (by intros H).
    unfold list_iterator_get_key. rewrite Hit, Hget.
    by destruct (m_search_type s).
  - unfold current_value. cbn [with_scan_iter session_handler]. rewrite Hempty.
    by rewrite (bool_decide_eq_false_2 ([] ≠ [])) by (by intros H).
  - unfold next_result. rewrite Hmore, Hrecords.
    rewrite bool_decide_eq_true_2 by done.
    cbn [with_scan_iter session_handler m_search_type m_index_scan_result_iter].
    rewrite Hempty. rewrite (bool_decide_eq_false_2 ([] ≠ [])) by (by intros H).
    unfold list_iterator_next. rewrite Hit.
    eexists clock', _. split; [by destruct (m_search_type s)|].
    split; [exact Hplain'|].
    unfold remaining_records in *.
    cbn [li_current_iterator li_cf li_list_ids iterator_next m_iterator].
    rewrite Hit, Hothers in Hrem'. rewrite Hrecords in Hrem'.
    rewrite Hothers. cbn [tail]. cbn [app] in Hrem'. by injection Hrem'.
Qed.

End ScanCursor.

Lemma ivf_index_scan_opens_the_scan_witness :
  let s := example_session FB_VECTOR_SEARCH_INDEX_SCAN [0%Q] 2 in
  let index := example_ivf_index [(example_key [x61], replicate 8 x01)] in
  ∃ s' li,
    handler_search s example_env
      (vector_index_scans_of_ivf index)
    = Returned HA_EXIT_SUCCESS s'
    ∧ m_buffer (session_handler s') = [0%Q; 0%Q]
    ∧ m_index_scan_result_iter s' = Some li
    ∧ remaining_records li = [(example_key [x61], replicate 8 x01)].
Proof.
  intros s index.
  destruct (ivf_index_scan_opens_the_scan s example_env index)
    as (s' & li & Hrun & _ & Hbuffer & _ & _ & Hiter & _ & _ & _ & _ & Hrecords);
    [reflexivity|simpl; lia|].
  exists s', li. split; [exact Hrun|]. split; [exact Hbuffer|].
  split; [exact Hiter|]. rewrite Hrecords. reflexivity.
Defined.

Lemma cursor_walks_the_index_scan_witness :
  let index := example_ivf_index [(example_key [x61], replicate 8 x01)] in
  let li := ivf_index_scan index example_env [0%Q; 0%Q] 1 in
  let s := with_scan_iter
             (example_session FB_VECTOR_SEARCH_INDEX_SCAN [0%Q; 0%Q] 2)
             (Some li) in
  ∃ clock' li',
    has_more_results (KD := myrocks_tags) (fun _ => false) 0 s
    = Ok (bool_decide (remaining_records li ≠ []), clock',
          with_scan_iter s (Some li'))
    ∧ remaining_records li' = remaining_records li.
Proof.
  intros index li s.
  destruct (cursor_walks_the_index_scan (KD := myrocks_tags) (fun _ => false)
              0 s li)
    as (clock' & li' & Hmore & _ & Hrecords & _).
  - reflexivity.
  - discriminate.
  - reflexivity.
  - reflexivity.
  - repeat split.
  - exists clock', li'. split; [exact Hmore|exact Hrecords].
Defined.

(** ** [analyze] followed by [dump_info] *)

Lemma scanned_sizes_list_lengths {FA : FloatArith} (index : Rdb_vector_index_ivf)
    (first n : nat) :
  scanned_sizes (list_lengths index first n) = list_lengths index first n.
Proof.
  revert first. induction n as [|n IH]; intros first; [done|].
  rewrite list_lengths_cons, scanned_sizes_cons, decide_True by lia.
  by rewrite IH.
Qed.

(** X27: after a full [analyze], [dump_info] reports the number of
    vectors in the index.  In a session that is not killed, with a
    [killed] flag that is null or never set and no limit of rows, when
    [get_key_and_codes] reads every record and the lists hold fewer than
    [2^32] records in all, [analyze] succeeds and the [m_ntotal] that
    [dump_info] then reports is the total number of records of the
    lists; [m_code_size], [m_nlist] and [m_hit] are passed on as they
    are. *)
Theorem dump_info_after_analyze {FA : FloatArith} {KD : Rdb_key_def_tags}
    (index : Rdb_vector_index_ivf) (counters : Rdb_vector_index_ivf_counters)
    (thd_killed_at : nat → bool) (killed : option (nat → bool)) :
  (∀ n, thd_killed_at n = false) →
  (∀ killed_at n, killed = Some killed_at → killed_at n = false) →
  let lists := length (ivf_list_size_stats counters) in
  lists_have_codes index 0 lists →
  sum_sizes (list_lengths index 0 lists) < 2 ^ 32 →
  ∃ stats,
    ivf_analyze index thd_killed_at 0 killed (ivf_list_size_stats counters)
    = Ok (HA_EXIT_SUCCESS, stats)
    ∧ length stats = lists
    ∧ let info :=
        ivf_dump_info index
          {| ivf_hit := ivf_hit counters; ivf_nlist := ivf_nlist counters;
             ivf_pq := ivf_pq counters; ivf_list_size_stats := stats |} in
      Rdb_vector_index_info.m_ntotal info
      = sum_sizes (list_lengths index 0 lists)
      ∧ Rdb_vector_index_info.m_code_size info = ivf_code_size index
      ∧ Rdb_vector_index_info.m_nlist info = ivf_nlist counters
      ∧ Rdb_vector_index_info.m_hit info = ivf_hit counters.
Proof.
  intros Hlive Hkilled lists Hcodes Hsum. subst lists.
  set (lists := length (ivf_list_size_stats counters)) in *.
  exists (list_lengths index 0 lists). split.
  - unfold ivf_analyze. subst lists.
    destruct (analyze_lists_counts index thd_killed_at killed 0 Hlive Hkilled
                (length (ivf_list_size_stats counters)) 0%nat 0%nat 0%nat
                0%nat 0 [] (ivf_list_size_stats counters))
      as (clock' & reads' & Hrun); [done|done|done|done|lia|lia|].
    rewrite Nat.add_0_r in Hrun. cbn [app] in Hrun. rewrite Hrun.
    cbn [analyze_lists]. by rewrite drop_all, app_nil_r.
  - split; [unfold list_lengths; by rewrite length_fmap, length_seq|].
    cbv zeta. unfold ivf_dump_info.
    cbn [Rdb_vector_index_info.m_ntotal Rdb_vector_index_info.m_code_size
         Rdb_vector_index_info.m_nlist Rdb_vector_index_info.m_hit
         ivf_list_size_stats ivf_hit ivf_nlist].
    split; [|done].
    destruct (dump_info_loop_from (list_lengths index 0 lists)
                {| ntotal := 0; min_list_size := None; max_list_size := None;
                   list_size_stats := [] |})
      as (Hn & _); [done|rewrite scanned_sizes_list_lengths; simpl; lia|].
    rewrite scanned_sizes_list_lengths in Hn. exact Hn.
Qed.

Lemma dump_info_after_analyze_witness :
  let r1 := (example_key [x61], replicate 8 x01) in
  let r2 := (example_key [x62], replicate 8 x02) in
  let index := example_ivf_index [r1; r2] in
  let counters := {| ivf_hit := 3; ivf_nlist := 2; ivf_pq := None;
                     ivf_list_size_stats := [-1; -1] |} in
  ∃ stats,
    ivf_analyze (KD := myrocks_tags) index (fun _ => false) 0 None [-1; -1]
    = Ok (HA_EXIT_SUCCESS, stats)
    ∧ Rdb_vector_index_info.m_ntotal
        (ivf_dump_info index
           {| ivf_hit := 3; ivf_nlist := 2; ivf_pq := None;
              ivf_list_size_stats := stats |})
      = 2.
Proof.
  intros r1 r2 index counters.
  destruct (dump_info_after_analyze (KD := myrocks_tags) index counters
              (fun _ => false) None)
    as (stats & Hrun & _ & Htotal & _).
  - reflexivity.
  - intros killed_at n Hk. discriminate Hk.
  - intros i Hi. destruct i as [|[|i]]; [| |simpl in Hi; lia].
    + repeat constructor.
    + constructor.
  - reflexivity.
  - exists stats. split; [exact Hrun|exact Htotal].
Defined.
